(** * LibusbToWebusbAdaptor: device registry, handle coordinator and
      descriptor extra-data extraction

    A shallow embedding of
    [third_party/libusb/webport/src/libusb-to-webusb-adaptor.js].

    - [Js] holds what the JavaScript runtime provides: thrown errors,
      completions, [DataView] reads and the insertion-ordered [Map].
    - [Descriptor] embeds the pure part of the file: the conversion of WebUSB
      configurations into LibusbJs descriptors and the walk over the raw
      descriptor blob ([fetchAndFillConfigurationExtraDataForOpenedDevice],
      [appendExtraData]).
    - [Adaptor] embeds the class [LibusbToWebusbAdaptor] with its
      [DeviceState] objects.  Every [async] function is cut at its [await]s:
      the code from the call to the first [await] runs in the step of the
      call, the code between two [await]s in one step of the suspended
      activation.  Promises live in a store; those returned by the WebUSB
      object are settled by the environment. *)

From Stdlib Require Import Strings.Byte ZArith Sorting.Sorted.
From stdpp Require Import base option list strings functions gmap.

Set Default Proof Using "Type".

(* ===================================================================== *)
(** ** JavaScript runtime values used by the adaptor *)
(* ===================================================================== *)

Module Js.

(** The errors the adaptor can observe: its own [throw new Error(...)]
    statements (named after their message), the [RangeError] of a [DataView]
    read past the end, and a rejection coming from a WebUSB promise. *)
Inductive Error :=
| NoDeviceWithID (deviceId : nat)        (* `No device with ID ${deviceId}` *)
| UnknownDeviceHandle (deviceHandle : nat)
                                         (* `Unknown device handle ${h}` *)
| NoDeviceHandle (deviceHandle : nat)    (* `No device handle ${h}` *)
| RangeError                             (* DataView offset out of bounds *)
| TransferFailed (status : string)
                                 (* `Transfer failed with status ${status}` *)
| UnknownTransferRequestType
                         (* `Unknown LibusbJs transfer request type ${t}` *)
| UnknownTransferRecipient  (* `Unknown LibusbJs transfer recipient ${r}` *)
| WebusbError (code : nat).              (* a WebUSB promise was rejected *)

(** Outcome of running a piece of synchronous code. *)
Inductive Completion (A : Type) :=
| Normal (a : A)
| Throw (e : Error).
Arguments Normal {A} a.
Arguments Throw {A} e.

#[global] Instance Completion_ret : MRet Completion := λ A a, Normal a.

#[global] Instance Completion_fmap : FMap Completion :=
  λ A B f c,
    match c with
    | Normal a => Normal (f a)
    | Throw e => Throw e
    end.

#[global] Instance Completion_bind : MBind Completion :=
  λ A B k c,
    match c with
    | Normal a => k a
    | Throw e => Throw e
    end.

(** What [await promise] evaluates to once the promise is settled. *)
Inductive Awaited (A : Type) :=
| Fulfilled (a : A)
| Rejected (e : Error).
Arguments Fulfilled {A} a.
Arguments Rejected {A} e.

Definition await {A} (p : Awaited A) : Completion A :=
  match p with
  | Fulfilled a => Normal a
  | Rejected e => Throw e
  end.

(** [DataView.prototype.getUint8]. *)
Definition getUint8 (view : list byte) (byteOffset : nat) : Completion nat :=
  match view !! byteOffset with
  | Some b => Normal (Byte.to_nat b)
  | None => Throw RangeError
  end.

(** [DataView.prototype.getUint16] with [littleEndian = true]. *)
Definition getUint16 (view : list byte) (byteOffset : nat) : Completion nat :=
  match view !! byteOffset, view !! (byteOffset + 1) with
  | Some lo, Some hi => Normal (Byte.to_nat lo + 256 * Byte.to_nat hi)
  | _, _ => Throw RangeError
  end.

(** [new Uint8Array(buffer, byteOffset, length)]: a window of the bytes. *)
Definition Uint8Array (buffer : list byte) (byteOffset length : nat)
  : list byte :=
  take length (drop byteOffset buffer).

(** A JavaScript [Map] with number keys.  Iteration follows insertion order
    and [set] on a key that is present keeps its position. *)
Section JsMap.
Context {V : Type}.

Fixpoint Map_get (m : list (nat * V)) (key : nat) : option V :=
  match m with
  | [] => None
  | (k, v) :: m' => if decide (k = key) then Some v else Map_get m' key
  end.

Fixpoint Map_set (m : list (nat * V)) (key : nat) (value : V)
  : list (nat * V) :=
  match m with
  | [] => [(key, value)]
  | (k, v) :: m' =>
      if decide (k = key) then (key, value) :: m'
      else (k, v) :: Map_set m' key value
  end.

Definition Map_keys (m : list (nat * V)) : list nat := m.*1.
End JsMap.

End Js.

Import Js.

(* ===================================================================== *)
(** ** Descriptors and the extra-data walk *)
(* ===================================================================== *)

Module Descriptor.

(** *** WebUSB side: [USBDevice.configurations] *)

Record USBEndpoint := {
  usbEndpointNumber : nat;
  usbDirection : string;              (* 'in' | 'out' *)
  usbType : string;                   (* 'bulk' | 'interrupt' | 'isochronous' *)
  usbPacketSize : nat;
}.

Record USBAlternateInterface := {
  usbInterfaceClass : nat;
  usbInterfaceSubclass : nat;
  usbInterfaceProtocol : nat;
  usbEndpoints : list USBEndpoint;
}.

Record USBInterface := {
  usbInterfaceNumber : nat;
  usbAlternates : list USBAlternateInterface;
}.

Record USBConfiguration := {
  usbConfigurationValue : nat;
  usbInterfaces : list USBInterface;
}.

(** [USBInTransferResult]: [status] and the optional [data] view. *)
Record USBInTransferResult := {
  status : string;
  data : option (list byte);
}.

(** *** LibusbJs side *)

Inductive LibusbJsEndpointType := BULK | INTERRUPT | ISOCHRONOUS.
Inductive LibusbJsDirection := IN | OUT.

Record LibusbJsEndpointDescriptor := {
  endpointAddress : nat;
  direction : LibusbJsDirection;
  endpointType : LibusbJsEndpointType;
  maxPacketSize : nat;
  endpointExtraData : option (list byte);
}.

Record LibusbJsInterfaceDescriptor := {
  interfaceNumber : nat;
  interfaceClass : nat;
  interfaceSubclass : nat;
  interfaceProtocol : nat;
  endpoints : list LibusbJsEndpointDescriptor;
  interfaceExtraData : option (list byte);
}.

Record LibusbJsConfigurationDescriptor := {
  active : bool;
  configurationValue : nat;
  interfaces : list LibusbJsInterfaceDescriptor;
  configurationExtraData : option (list byte);
}.

Definition getLibusbJsEndpointType (webusbEndpointType : string)
  : option LibusbJsEndpointType :=
  if decide (webusbEndpointType = "bulk") then Some BULK
  else if decide (webusbEndpointType = "interrupt") then Some INTERRUPT
  else if decide (webusbEndpointType = "isochronous") then Some ISOCHRONOUS
  else None.

Definition getLibusbJsEndpointDescriptor (webusbEndpoint : USBEndpoint)
  : option LibusbJsEndpointDescriptor :=
  let endpointAddress :=
    usbEndpointNumber webusbEndpoint +
    (if decide (usbDirection webusbEndpoint = "in") then 2 ^ 7 else 0) in
  match getLibusbJsEndpointType (usbType webusbEndpoint) with
  | None => None
  | Some endpointType =>
      Some {| endpointAddress := endpointAddress;
              direction := if decide (usbDirection webusbEndpoint = "in")
                           then IN else OUT;
              endpointType := endpointType;
              maxPacketSize := usbPacketSize webusbEndpoint;
              endpointExtraData := None |}
  end.

Definition getLibusbJsInterfaceDescriptor (webusbInterface : USBInterface)
  : option LibusbJsInterfaceDescriptor :=
  match usbAlternates webusbInterface with
  | [] => None
  | webusbAlternateInterface :: _ =>
      Some {| interfaceNumber := usbInterfaceNumber webusbInterface;
              interfaceClass := usbInterfaceClass webusbAlternateInterface;
              interfaceSubclass :=
                usbInterfaceSubclass webusbAlternateInterface;
              interfaceProtocol :=
                usbInterfaceProtocol webusbAlternateInterface;
              endpoints :=
                omap getLibusbJsEndpointDescriptor
                     (usbEndpoints webusbAlternateInterface);
              interfaceExtraData := None |}
  end.

Definition getLibusbJsConfigurationDescriptor
    (webusbConfiguration : USBConfiguration)
    (activeConfigurationValue : option nat)
  : LibusbJsConfigurationDescriptor :=
  {| active := bool_decide (Some (usbConfigurationValue webusbConfiguration)
                            = activeConfigurationValue);
     configurationValue := usbConfigurationValue webusbConfiguration;
     interfaces :=
       omap getLibusbJsInterfaceDescriptor (usbInterfaces webusbConfiguration);
     configurationExtraData := None |}.

(** *** Object references into a configuration tree

    [currentInterface], [currentEndpoint] and [targetObject] are references
    to objects of the tree.  The walk never changes the shape of the tree,
    so an object is identified by its position. *)

Inductive Node :=
| ConfigurationNode
| InterfaceNode (i : nat)
| EndpointNode (i j : nat).

#[global] Instance Node_eq_dec : EqDecision Node.
Proof. solve_decision. Defined.

Definition setEndpointExtraData (x : option (list byte))
    (e : LibusbJsEndpointDescriptor) : LibusbJsEndpointDescriptor :=
  {| endpointAddress := endpointAddress e; direction := direction e;
     endpointType := endpointType e; maxPacketSize := maxPacketSize e;
     endpointExtraData := x |}.

Definition setEndpoints (es : list LibusbJsEndpointDescriptor)
    (i : LibusbJsInterfaceDescriptor) : LibusbJsInterfaceDescriptor :=
  {| interfaceNumber := interfaceNumber i; interfaceClass := interfaceClass i;
     interfaceSubclass := interfaceSubclass i;
     interfaceProtocol := interfaceProtocol i;
     endpoints := es; interfaceExtraData := interfaceExtraData i |}.

Definition setInterfaceExtraData (x : option (list byte))
    (i : LibusbJsInterfaceDescriptor) : LibusbJsInterfaceDescriptor :=
  {| interfaceNumber := interfaceNumber i; interfaceClass := interfaceClass i;
     interfaceSubclass := interfaceSubclass i;
     interfaceProtocol := interfaceProtocol i;
     endpoints := endpoints i; interfaceExtraData := x |}.

Definition setInterfaces (itfs : list LibusbJsInterfaceDescriptor)
    (c : LibusbJsConfigurationDescriptor) : LibusbJsConfigurationDescriptor :=
  {| active := active c; configurationValue := configurationValue c;
     interfaces := itfs; configurationExtraData := configurationExtraData c |}.

Definition setConfigurationExtraData (x : option (list byte))
    (c : LibusbJsConfigurationDescriptor) : LibusbJsConfigurationDescriptor :=
  {| active := active c; configurationValue := configurationValue c;
     interfaces := interfaces c; configurationExtraData := x |}.

(** [goog.object.get(node, 'extraData')]: [None] when the node is not in the
    tree, [Some None] when it has no ['extraData'] key. *)
Definition extraDataOf (n : Node) (c : LibusbJsConfigurationDescriptor)
  : option (option (list byte)) :=
  match n with
  | ConfigurationNode => Some (configurationExtraData c)
  | InterfaceNode i => interfaceExtraData <$> interfaces c !! i
  | EndpointNode i j =>
      itf ← interfaces c !! i; endpointExtraData <$> endpoints itf !! j
  end.

(** [node['extraData'] = x]. *)
Definition setExtraData (n : Node) (x : option (list byte))
    (c : LibusbJsConfigurationDescriptor) : LibusbJsConfigurationDescriptor :=
  match n with
  | ConfigurationNode => setConfigurationExtraData x c
  | InterfaceNode i =>
      setInterfaces (alter (setInterfaceExtraData x) i (interfaces c)) c
  | EndpointNode i j =>
      setInterfaces
        (alter (λ itf, setEndpoints
                         (alter (setEndpointExtraData x) j (endpoints itf))
                         itf)
               i (interfaces c)) c
  end.

(** [appendExtraData(extraDataToAppend, libusbJsObject)]. *)
Definition appendExtraData (extraDataToAppend : list byte) (n : Node)
    (c : LibusbJsConfigurationDescriptor) : LibusbJsConfigurationDescriptor :=
  match extraDataOf n c with
  | None => c
  | Some old =>
      let oldExtraData := default [] old in
      setExtraData n (Some (oldExtraData ++ extraDataToAppend)) c
  end.

(** *** [fetchAndFillConfigurationExtraDataForOpenedDevice] *)

Definition GET_DESCRIPTOR_REQUEST : nat := 6.
Definition CONFIGURATION_DESCRIPTOR_TYPE : nat := 2.
Definition INTERFACE_DESCRIPTOR_TYPE : nat := 4.
Definition ENDPOINT_DESCRIPTOR_TYPE : nat := 5.
Definition CONFIGURATION_DESCRIPTOR_LENGTH : nat := 9.
Definition INTERFACE_DESCRIPTOR_LENGTH : nat := 9.
Definition ENDPOINT_DESCRIPTOR_LENGTH : nat := 7.

(** [(CONFIGURATION_DESCRIPTOR_TYPE << 8) | (configurationValue - 1)]. *)
Definition controlRequestValue (c : LibusbJsConfigurationDescriptor) : Z :=
  Z.lor (Z.shiftl (Z.of_nat CONFIGURATION_DESCRIPTOR_TYPE) 8)
        (Z.of_nat (configurationValue c) - 1).

(** The variables of the [for] loop. *)
Record WalkState := {
  offset : nat;
  currentInterface : option nat;
  currentEndpoint : option (nat * nat);
  libusbJsConfiguration : LibusbJsConfigurationDescriptor;
}.

(** [currentEndpoint || currentInterface || libusbJsConfiguration]. *)
Definition targetObject (st : WalkState) : Node :=
  match currentEndpoint st with
  | Some (i, j) => EndpointNode i j
  | None =>
      match currentInterface st with
      | Some i => InterfaceNode i
      | None => ConfigurationNode
      end
  end.

(** [interfaces.find(x => x['interfaceNumber'] === interfaceNumber)]. *)
Definition findInterface (n : nat) (c : LibusbJsConfigurationDescriptor)
  : option nat :=
  fst <$> list_find (λ itf, interfaceNumber itf = n) (interfaces c).

(** [currentInterface['endpoints'].find(x => x['endpointAddress'] === a)]. *)
Definition findEndpoint (a : nat) (i : nat)
    (c : LibusbJsConfigurationDescriptor) : option (nat * nat) :=
  itf ← interfaces c !! i;
  j ← fst <$> list_find (λ e, endpointAddress e = a) (endpoints itf);
  Some (i, j).

(** How one pass through the loop body leaves it. *)
Inductive Control :=
| NextIteration (st : WalkState)   (* reaches [offset += descriptorLength] *)
| BreakLoop                        (* [break]: truncated descriptor *)
| ReturnFromFunction.              (* [return]: malformed descriptor *)

(** The [switch (descriptorType)] of lines 592-650. *)
Definition switchDescriptorType (descriptors : list byte)
    (descriptorLength descriptorType : nat) (st : WalkState)
  : Completion WalkState :=
  if decide (descriptorType = CONFIGURATION_DESCRIPTOR_TYPE) then
    mret st
  else if decide (descriptorType = INTERFACE_DESCRIPTOR_TYPE) then
    if decide (descriptorLength < INTERFACE_DESCRIPTOR_LENGTH) then mret st
    else
      interfaceNumber ← getUint8 descriptors (offset st + 2);
      mret {| offset := offset st;
              currentInterface :=
                findInterface interfaceNumber (libusbJsConfiguration st);
              currentEndpoint := None;
              libusbJsConfiguration := libusbJsConfiguration st |}
  else if decide (descriptorType = ENDPOINT_DESCRIPTOR_TYPE) then
    if decide (descriptorLength < ENDPOINT_DESCRIPTOR_LENGTH) then mret st
    else
      endpointAddress ← getUint8 descriptors (offset st + 2);
      mret {| offset := offset st;
              currentInterface := currentInterface st;
              currentEndpoint :=
                match currentInterface st with
                | Some i =>
                    findEndpoint endpointAddress i (libusbJsConfiguration st)
                | None => None
                end;
              libusbJsConfiguration := libusbJsConfiguration st |}
  else
    mret {| offset := offset st;
            currentInterface := currentInterface st;
            currentEndpoint := currentEndpoint st;
            libusbJsConfiguration :=
              appendExtraData
                (Uint8Array descriptors (offset st) descriptorLength)
                (targetObject st) (libusbJsConfiguration st) |}.

(** [offset += descriptorLength], line 652. *)
Definition advance (descriptorLength : nat) (st : WalkState) : WalkState :=
  {| offset := offset st + descriptorLength;
     currentInterface := currentInterface st;
     currentEndpoint := currentEndpoint st;
     libusbJsConfiguration := libusbJsConfiguration st |}.

(** The body of the [for] loop, lines 580-652. *)
Definition loopBody (descriptors : list byte) (totalLength : nat)
    (st : WalkState) : Completion Control :=
  descriptorLength ← getUint8 descriptors (offset st);
  if decide (descriptorLength < 2) then mret ReturnFromFunction
  else if decide (totalLength < offset st + descriptorLength) then
    mret BreakLoop
  else
    descriptorType ← getUint8 descriptors (offset st + 1);
    st' ← switchDescriptorType descriptors descriptorLength descriptorType st;
    mret (NextIteration (advance descriptorLength st')).

(** Why the walk stopped. *)
Inductive WalkExit :=
| EndOfBlob              (* the loop condition [offset < totalLength] failed *)
| TruncatedDescriptor    (* left by [break] *)
| MalformedDescriptor.   (* left by [return] *)

(** [for (let offset = 0; offset < totalLength;) { ... }].  The result is
    how the loop was left, with the configuration tree as it is then; [None]
    only when [fuel] passes through the body are not enough. *)
Fixpoint walk (fuel : nat) (descriptors : list byte) (totalLength : nat)
    (st : WalkState)
  : option (Completion WalkExit * LibusbJsConfigurationDescriptor) :=
  if decide (offset st < totalLength) then
    match fuel with
    | 0 => None
    | S fuel' =>
        match loopBody descriptors totalLength st with
        | Throw e => Some (Throw e, libusbJsConfiguration st)
        | Normal ReturnFromFunction =>
            Some (Normal MalformedDescriptor, libusbJsConfiguration st)
        | Normal BreakLoop =>
            Some (Normal TruncatedDescriptor, libusbJsConfiguration st)
        | Normal (NextIteration st') => walk fuel' descriptors totalLength st'
        end
    end
  else Some (Normal EndOfBlob, libusbJsConfiguration st).

Definition initialWalkState (c : LibusbJsConfigurationDescriptor)
  : WalkState :=
  {| offset := 0; currentInterface := None; currentEndpoint := None;
     libusbJsConfiguration := c |}.

(** Lines 558-561, the code between the two [await]s: [Normal None] is the
    [return] of line 559, [Normal (Some totalLength)] goes on to the second
    transfer. *)
Definition readTotalLength (transferResult : USBInTransferResult)
  : Completion (option nat) :=
  match data transferResult with
  | Some initialData =>
      if decide (status transferResult ≠ "ok") then mret None
      else totalLength ← getUint16 initialData 2; mret (Some totalLength)
  | None => mret None
  end.

(** Lines 566-653, the code after the second [await]: the completion of the
    function and the configuration tree it leaves.  [Normal None] stands for
    the [return]s of lines 567 and 570, before the walk; [Normal (Some x)]
    for a walk left by [x]. *)
Definition parseDescriptors (totalLength : nat)
    (transferResult : USBInTransferResult)
    (c : LibusbJsConfigurationDescriptor)
  : option (Completion (option WalkExit) * LibusbJsConfigurationDescriptor) :=
  match data transferResult with
  | Some descriptors =>
      if decide (status transferResult ≠ "ok") then Some (Normal None, c)
      else if decide (length descriptors ≠ totalLength) then
        Some (Normal None, c)
      else
        match walk totalLength descriptors totalLength (initialWalkState c)
        with
        | Some (r, c') => Some (Some <$> r, c')
        | None => None
        end
  | None => Some (Normal None, c)
  end.

(** The whole function, given what the two control transfers settle to.  The
    second one is issued only when [readTotalLength] yields a length. *)
Definition fetchAndFillConfigurationExtraDataForOpenedDevice
    (first second : Awaited USBInTransferResult)
    (c : LibusbJsConfigurationDescriptor)
  : option (Completion (option WalkExit) * LibusbJsConfigurationDescriptor) :=
  match await first ≫= readTotalLength with
  | Throw e => Some (Throw e, c)
  | Normal None => Some (Normal None, c)
  | Normal (Some totalLength) =>
      match await second with
      | Throw e => Some (Throw e, c)
      | Normal transferResult => parseDescriptors totalLength transferResult c
      end
  end.

(** *** Observing a walk

    What the claims about the walk speak of: the passes through the loop
    body in the order they happen, the record a pass looks at, and the bytes
    a node has accumulated. *)

(** The loop variables at the start of every pass, first pass first. *)
Fixpoint iterations (fuel : nat) (descriptors : list byte)
    (totalLength : nat) (st : WalkState) : list WalkState :=
  if decide (offset st < totalLength) then
    match fuel with
    | 0 => []
    | S fuel' =>
        st :: match loopBody descriptors totalLength st with
              | Normal (NextIteration st') =>
                  iterations fuel' descriptors totalLength st'
              | _ => []
              end
    end
  else [].

(** The record at the current offset, when it is one the body processes:
    declared length at least 2 and not reaching past [totalLength]. *)
Definition descriptorAt (descriptors : list byte) (totalLength : nat)
    (st : WalkState) : option (nat * nat) :=
  match getUint8 descriptors (offset st),
        getUint8 descriptors (offset st + 1) with
  | Normal descriptorLength, Normal descriptorType =>
      if decide (2 ≤ descriptorLength
                 ∧ offset st + descriptorLength ≤ totalLength)
      then Some (descriptorLength, descriptorType) else None
  | _, _ => None
  end.

(** Neither configuration, interface nor endpoint. *)
Definition isExtraType (descriptorType : nat) : Prop :=
  descriptorType ≠ CONFIGURATION_DESCRIPTOR_TYPE
  ∧ descriptorType ≠ INTERFACE_DESCRIPTOR_TYPE
  ∧ descriptorType ≠ ENDPOINT_DESCRIPTOR_TYPE.

#[global] Instance isExtraType_dec t : Decision (isExtraType t).
Proof. unfold isExtraType. apply _. Defined.

(** The raw bytes of the record of this pass, when the record is of an extra
    type and node [n] is the most specific current node. *)
Definition extraRecordFor (descriptors : list byte) (totalLength : nat)
    (n : Node) (st : WalkState) : option (list byte) :=
  match descriptorAt descriptors totalLength st with
  | Some (descriptorLength, descriptorType) =>
      if decide (isExtraType descriptorType ∧ targetObject st = n)
      then Some (Uint8Array descriptors (offset st) descriptorLength)
      else None
  | None => None
  end.

(** The node is an object of the tree. *)
Definition validNode (n : Node) (c : LibusbJsConfigurationDescriptor)
  : Prop :=
  is_Some (extraDataOf n c).

(** The bytes of [node['extraData']], none when the key is absent. *)
Definition extraBytes (n : Node) (c : LibusbJsConfigurationDescriptor)
  : list byte :=
  default [] (default None (extraDataOf n c)).

(** No object of the tree has an ['extraData'] key. *)
Definition noExtraData (c : LibusbJsConfigurationDescriptor) : Prop :=
  ∀ n x, extraDataOf n c = Some x → x = None.

(** The current pointers refer to objects of the tree. *)
Definition validPointers (st : WalkState) : Prop :=
  (∀ i, currentInterface st = Some i
        → validNode (InterfaceNode i) (libusbJsConfiguration st))
  ∧ (∀ i j, currentEndpoint st = Some (i, j)
            → validNode (EndpointNode i j) (libusbJsConfiguration st)).

(** *** Observing the tree and the pointers *)

(** The endpoint without its ['extraData'] key, and the same for an
    interface with its endpoints and for a configuration with its
    interfaces: what the conversion from WebUSB filled in. *)
Definition interfaceWithoutExtraData (itf : LibusbJsInterfaceDescriptor)
  : LibusbJsInterfaceDescriptor :=
  setInterfaceExtraData None
    (setEndpoints (setEndpointExtraData None <$> endpoints itf) itf).

Definition withoutExtraData (c : LibusbJsConfigurationDescriptor)
  : LibusbJsConfigurationDescriptor :=
  setConfigurationExtraData None
    (setInterfaces (interfaceWithoutExtraData <$> interfaces c) c).

(** The current endpoint, when set, is an endpoint of the current
    interface. *)
Definition endpointOfCurrentInterface (st : WalkState) : Prop :=
  ∀ i j, currentEndpoint st = Some (i, j) → currentInterface st = Some i.

End Descriptor.

(* ===================================================================== *)
(** ** The adaptor: registry, handles and asynchronous activations *)
(* ===================================================================== *)

Module Adaptor.
Import Descriptor.

(** The properties of a WebUSB [USBDevice] object that the adaptor reads. *)
Record USBDevice := {
  usbConfiguration : option USBConfiguration;    (* ['configuration'] *)
  usbConfigurations : list USBConfiguration;     (* ['configurations'] *)
}.

(** [class DeviceState].  [webusbDevice] is the identity of the [USBDevice]
    object, the two promise fields hold the identity of a promise. *)
Record DeviceState := {
  webusbDevice : nat;
  handles : gset nat;
  openOperationPromise : option nat;
  closeOperationPromise : option nat;
}.

(** [new DeviceState(webusbDevice)]. *)
Definition newDeviceState (webusbDevice : nat) : DeviceState :=
  {| webusbDevice := webusbDevice; handles := ∅;
     openOperationPromise := None; closeOperationPromise := None |}.

Definition setHandles (x : gset nat) (d : DeviceState) : DeviceState :=
  {| webusbDevice := webusbDevice d; handles := x;
     openOperationPromise := openOperationPromise d;
     closeOperationPromise := closeOperationPromise d |}.

Definition setOpenOperationPromise (x : option nat) (d : DeviceState)
  : DeviceState :=
  {| webusbDevice := webusbDevice d; handles := handles d;
     openOperationPromise := x;
     closeOperationPromise := closeOperationPromise d |}.

Definition setCloseOperationPromise (x : option nat) (d : DeviceState)
  : DeviceState :=
  {| webusbDevice := webusbDevice d; handles := handles d;
     openOperationPromise := openOperationPromise d;
     closeOperationPromise := x |}.

(** *** Transfer parameters and results *)

(** The enumerators of [LibusbJsTransferRequestType] and of
    [LibusbJsTransferRecipient]; the last constructor of each stands for a
    value that is none of them. *)
Inductive LibusbJsTransferRequestType :=
| STANDARD | CLASS | VENDOR | OtherRequestType.

Inductive LibusbJsTransferRecipient :=
| DEVICE | INTERFACE | ENDPOINT | OTHER | OtherRecipient.

Record LibusbJsControlTransferParameters := {
  requestType : LibusbJsTransferRequestType;
  recipient : LibusbJsTransferRecipient;
  request : nat;
  value : nat;
  index : nat;
  controlDataToSend : option (list byte);
  controlLengthToReceive : nat;
}.

Record LibusbJsGenericTransferParameters := {
  transferEndpointAddress : nat;
  dataToSend : option (list byte);
  lengthToReceive : nat;
}.

Definition getWebusbRequestType
    (libusbJsTransferRequestType : LibusbJsTransferRequestType)
  : Completion string :=
  match libusbJsTransferRequestType with
  | STANDARD => Normal "standard"
  | CLASS => Normal "class"
  | VENDOR => Normal "vendor"
  | OtherRequestType => Throw UnknownTransferRequestType
  end.

Definition getWebusbRecipient
    (libusbJsTransferRecipient : LibusbJsTransferRecipient)
  : Completion string :=
  match libusbJsTransferRecipient with
  | DEVICE => Normal "device"
  | INTERFACE => Normal "interface"
  | ENDPOINT => Normal "endpoint"
  | OTHER => Normal "other"
  | OtherRecipient => Throw UnknownTransferRecipient
  end.

(** The object returned is [{}] or [{'receivedData': data}]: it is given
    by its optional field. *)
Definition getLibusbJsTransferResultOrThrow
    (webusbTransferResult : USBInTransferResult)
  : Completion (option (list byte)) :=
  if decide (status webusbTransferResult ≠ "ok")
  then Throw (TransferFailed (status webusbTransferResult))
  else Normal (data webusbTransferResult).

(** Who settles a promise: a call into WebUSB (then the environment does),
    or an [async] function of this file (then its own code does). *)
Inductive Origin :=
| WebusbGetDevices                       (* navigator['usb']['getDevices']() *)
| WebusbOpen (webusbDevice : nat)        (* webusbDevice['open']() *)
| WebusbClose (webusbDevice : nat)       (* webusbDevice['close']() *)
| WebusbControlTransferIn (webusbDevice : nat) (value : Z) (length : nat)
                  (* ['controlTransferIn'], with 'value' of its parameters *)
| WebusbControlTransferOut (webusbDevice : nat) (value : Z)
| WebusbTransferIn (webusbDevice : nat) (endpointNumber : nat) (length : nat)
| WebusbTransferOut (webusbDevice : nat) (endpointNumber : nat)
| WebusbInterfaceOrReset (webusbDevice : nat)
                       (* ['claimInterface'], ['releaseInterface'], ['reset'] *)
| AsyncFunction.

#[global] Instance Origin_eq_dec : EqDecision Origin.
Proof. solve_decision. Defined.

(** The values promises are fulfilled with. *)
Inductive Value :=
| Undefined
| USBDevices (webusbDevices : list nat)
| TransferResult (r : USBInTransferResult)
| DeviceHandle (h : nat)
| LibusbJsDevices (deviceIds : list (option nat))
| LibusbJsConfigurations (cs : list LibusbJsConfigurationDescriptor)
| LibusbJsTransferResult (receivedData : option (list byte)).

Record Promise := {
  origin : Origin;
  settled : option (Awaited Value);      (* [None] while pending *)
}.

(** Local variables of [getConfigurations] that are live across its
    [await]s. *)
Record GetConfigurationsFrame := {
  frameWebusbDevice : nat;
  activeConfigurationValue : option nat;
  frameLibusbJsConfiguration : LibusbJsConfigurationDescriptor;
  remainingConfigurations : list USBConfiguration;
  libusbJsConfigurations : list LibusbJsConfigurationDescriptor;
}.

(** The [await]s of the file, named by function and source line, with the
    local variables their continuation uses.  Those of
    [fetchAndFillConfigurationExtraData] and of
    [fetchAndFillConfigurationExtraDataForOpenedDevice] belong to the
    activation of [getConfigurations] that awaits them. *)
Inductive Continuation :=
| ListDevices_93
| GetConfigurations_518 (f : GetConfigurationsFrame)
| GetConfigurations_556 (f : GetConfigurationsFrame)
| GetConfigurations_564 (f : GetConfigurationsFrame) (totalLength : nat)
| GetConfigurations_525 (f : GetConfigurationsFrame)
| OpenDeviceHandle_151 (deviceState : nat)
| CloseDeviceHandle_181 (deviceState : nat)
| InterfaceOrReset_await                  (* lines 192, 199 and 206 *)
| Transfer_await                          (* lines 222, 225, 349 and 352 *)
| OpenWebusbDevice_503 (deviceState : nat)
| OpenWebusbDevice_505.

(** An activation of an [async] function suspended at an [await]. *)
Record Activation := {
  awaiting : nat;                  (* the promise awaited *)
  continuation : Continuation;
  result : nat;                    (* the promise the function returned *)
}.

Record State := {
  idToDeviceMap_ : list (nat * nat);     (* Map: device id ↦ DeviceState *)
  nextFreeDeviceId_ : nat;
  nextFreeDeviceHandle_ : nat;
  deviceStates : nat → DeviceState;      (* the DeviceState objects *)
  nextDeviceState : nat;                 (* where [new DeviceState] goes *)
  promises : list Promise;               (* the promise objects *)
  activations : list (option Activation);
                                    (* [None] once an activation finished *)
  usb : nat → USBDevice;                 (* the USBDevice objects *)
}.

(** The adaptor after its constructor has run. *)
Definition constructor (usb : nat → USBDevice) : State :=
  {| idToDeviceMap_ := []; nextFreeDeviceId_ := 1;
     nextFreeDeviceHandle_ := 1;
     deviceStates := λ _, newDeviceState 0; nextDeviceState := 0;
     promises := []; activations := []; usb := usb |}.

Definition setIdToDeviceMap_ (x : list (nat * nat)) (s : State) : State :=
  {| idToDeviceMap_ := x; nextFreeDeviceId_ := nextFreeDeviceId_ s;
     nextFreeDeviceHandle_ := nextFreeDeviceHandle_ s;
     deviceStates := deviceStates s; nextDeviceState := nextDeviceState s;
     promises := promises s; activations := activations s; usb := usb s |}.

Definition setNextFreeDeviceId_ (x : nat) (s : State) : State :=
  {| idToDeviceMap_ := idToDeviceMap_ s; nextFreeDeviceId_ := x;
     nextFreeDeviceHandle_ := nextFreeDeviceHandle_ s;
     deviceStates := deviceStates s; nextDeviceState := nextDeviceState s;
     promises := promises s; activations := activations s; usb := usb s |}.

Definition setNextFreeDeviceHandle_ (x : nat) (s : State) : State :=
  {| idToDeviceMap_ := idToDeviceMap_ s;
     nextFreeDeviceId_ := nextFreeDeviceId_ s;
     nextFreeDeviceHandle_ := x;
     deviceStates := deviceStates s; nextDeviceState := nextDeviceState s;
     promises := promises s; activations := activations s; usb := usb s |}.

Definition setDeviceStates (x : nat → DeviceState) (n : nat) (s : State)
  : State :=
  {| idToDeviceMap_ := idToDeviceMap_ s;
     nextFreeDeviceId_ := nextFreeDeviceId_ s;
     nextFreeDeviceHandle_ := nextFreeDeviceHandle_ s;
     deviceStates := x; nextDeviceState := n;
     promises := promises s; activations := activations s; usb := usb s |}.

Definition setPromises (x : list Promise) (s : State) : State :=
  {| idToDeviceMap_ := idToDeviceMap_ s;
     nextFreeDeviceId_ := nextFreeDeviceId_ s;
     nextFreeDeviceHandle_ := nextFreeDeviceHandle_ s;
     deviceStates := deviceStates s; nextDeviceState := nextDeviceState s;
     promises := x; activations := activations s; usb := usb s |}.

Definition setActivations (x : list (option Activation)) (s : State)
  : State :=
  {| idToDeviceMap_ := idToDeviceMap_ s;
     nextFreeDeviceId_ := nextFreeDeviceId_ s;
     nextFreeDeviceHandle_ := nextFreeDeviceHandle_ s;
     deviceStates := deviceStates s; nextDeviceState := nextDeviceState s;
     promises := promises s; activations := x; usb := usb s |}.

(** *** Objects: device states, promises, activations *)

(** Assignment to a field of the [DeviceState] object [r]. *)
Definition updateDeviceState (r : nat) (f : DeviceState → DeviceState)
    (s : State) : State :=
  setDeviceStates (<[r := f (deviceStates s r)]> (deviceStates s))
                  (nextDeviceState s) s.

(** [new DeviceState(webusbDevice)], with the reference to the new object. *)
Definition allocDeviceState (webusbDevice : nat) (s : State) : State * nat :=
  let r := nextDeviceState s in
  (setDeviceStates (<[r := newDeviceState webusbDevice]> (deviceStates s))
                   (S r) s, r).

(** A new pending promise. *)
Definition newPromise (o : Origin) (s : State) : State * nat :=
  (setPromises (promises s ++ [{| origin := o; settled := None |}]) s,
   length (promises s)).

(** Resolving or rejecting a promise; a settled promise stays as it is. *)
Definition settle (p : nat) (x : Awaited Value) (s : State) : State :=
  setPromises
    (alter (λ pr, match settled pr with
                  | None => {| origin := origin pr; settled := Some x |}
                  | Some _ => pr
                  end) p (promises s)) s.

(** Reaching an [await]: the activation is parked until the promise is
    settled. *)
Definition suspend (a : Activation) (s : State) : State :=
  setActivations (activations s ++ [Some a]) s.

(** What the adaptor has asked of WebUSB so far, and what is still
    outstanding. *)
Definition issued (o : Origin) (s : State) : nat :=
  length (filter (λ o', o' = o) (origin <$> promises s)).

Definition inFlight (o : Origin) (s : State) : nat :=
  length (filter (λ pr, origin pr = o ∧ settled pr = None) (promises s)).

(** *** Private helpers of the class *)

(** [getDeviceId_]: the loop over [this.idToDeviceMap_.keys()]. *)
Fixpoint getDeviceId_loop (s : State) (webusbDevice' : nat)
    (keys : list nat) : option nat :=
  match keys with
  | [] => None
  | deviceId :: keys' =>
      match Map_get (idToDeviceMap_ s) deviceId with
      | Some r =>
          if decide (webusbDevice (deviceStates s r) = webusbDevice')
          then Some deviceId
          else getDeviceId_loop s webusbDevice' keys'
      | None => getDeviceId_loop s webusbDevice' keys'
                                (* a key of the map always has a value *)
      end
  end.

Definition getDeviceId_ (webusbDevice' : nat) (s : State) : option nat :=
  getDeviceId_loop s webusbDevice' (Map_keys (idToDeviceMap_ s)).

Definition getDeviceByIdOrThrow_ (deviceId : nat) (s : State)
  : Completion nat :=
  match Map_get (idToDeviceMap_ s) deviceId with
  | None => Throw (NoDeviceWithID deviceId)
  | Some deviceState => Normal deviceState
  end.

Definition getDeviceByIdAndHandleOrThrow_ (deviceId deviceHandle : nat)
    (s : State) : Completion nat :=
  match Map_get (idToDeviceMap_ s) deviceId with
  | None => Throw (NoDeviceWithID deviceId)
  | Some deviceState =>
      if decide (deviceHandle ∈ handles (deviceStates s deviceState))
      then Normal deviceState
      else Throw (NoDeviceHandle deviceHandle)
  end.

(** One pass through the loop of [updateDeviceMap_]: [this] is read and
    updated in [s], the local [newIdToDeviceMap] is threaded along. *)
Definition updateDeviceMap_body (acc : list (nat * nat) * State)
    (webusbDevice' : nat) : list (nat * nat) * State :=
  let '(newIdToDeviceMap, s) := acc in
  match getDeviceId_ webusbDevice' s with
  | None =>
      let chosenDeviceId := nextFreeDeviceId_ s in
      let s1 := setNextFreeDeviceId_ (S (nextFreeDeviceId_ s)) s in
      let '(s2, r) := allocDeviceState webusbDevice' s1 in
      (Map_set newIdToDeviceMap chosenDeviceId r, s2)
  | Some chosenDeviceId =>
      match Map_get (idToDeviceMap_ s) chosenDeviceId with
      | Some r => (Map_set newIdToDeviceMap chosenDeviceId r, s)
      | None => (newIdToDeviceMap, s)   (* the id comes from the map *)
      end
  end.

Definition updateDeviceMap_ (webusbDevices : list nat) (s : State) : State :=
  let '(newIdToDeviceMap, s') :=
    foldl updateDeviceMap_body ([], s) webusbDevices in
  setIdToDeviceMap_ newIdToDeviceMap s'.

(** *** Synchronous segments of the [async] functions *)

(** [openWebusbDevice], line 505: call [open()] and await it. *)
Definition openWebusbDevice_open (deviceState result' : nat) (s : State)
  : State :=
  let '(s1, p) :=
    newPromise (WebusbOpen (webusbDevice (deviceStates s deviceState))) s in
  suspend {| awaiting := p; continuation := OpenWebusbDevice_505;
             result := result' |} s1.

(** [openWebusbDevice(deviceState)] up to its first [await]; returns the
    promise of the call. *)
Definition openWebusbDevice (deviceState : nat) (s : State) : State * nat :=
  let '(s1, result') := newPromise AsyncFunction s in
  match closeOperationPromise (deviceStates s1 deviceState) with
  | Some p =>
      (suspend {| awaiting := p;
                  continuation := OpenWebusbDevice_503 deviceState;
                  result := result' |} s1, result')
  | None => (openWebusbDevice_open deviceState result' s1, result')
  end.

(** [openDeviceHandle], lines 162-165. *)
Definition openDeviceHandle_newHandle (deviceState result' : nat)
    (s : State) : State :=
  let newHandle := nextFreeDeviceHandle_ s in
  let s1 := setNextFreeDeviceHandle_ (S (nextFreeDeviceHandle_ s)) s in
  let s2 := updateDeviceState deviceState
              (λ d, setHandles ({[newHandle]} ∪ handles d) d) s1 in
  settle result' (Fulfilled (DeviceHandle newHandle)) s2.

(** [openDeviceHandle(deviceId)] up to its first [await]. *)
Definition openDeviceHandle (deviceId : nat) (s : State) : State :=
  let '(s1, result') := newPromise AsyncFunction s in
  match getDeviceByIdOrThrow_ deviceId s1 with
  | Throw e => settle result' (Rejected e) s1
  | Normal deviceState =>
      if decide (size (handles (deviceStates s1 deviceState)) = 0) then
        let '(s3, p) :=
          match openOperationPromise (deviceStates s1 deviceState) with
          | None =>
              let '(s2, p) := openWebusbDevice deviceState s1 in
              (updateDeviceState deviceState
                 (setOpenOperationPromise (Some p)) s2, p)
          | Some p => (s1, p)
          end in
        suspend {| awaiting := p;
                   continuation := OpenDeviceHandle_151 deviceState;
                   result := result' |} s3
      else openDeviceHandle_newHandle deviceState result' s1
  end.

(** [closeDeviceHandle], lines 175-181: what follows the removal of the
    handle, up to the [await]. *)
Definition closeDeviceHandle_close (deviceState result' : nat) (s : State)
  : State :=
  if decide (0 < size (handles (deviceStates s deviceState))) then
    settle result' (Fulfilled Undefined) s
  else
    let '(s1, p) :=
      newPromise (WebusbClose (webusbDevice (deviceStates s deviceState))) s in
    let s2 := updateDeviceState deviceState
                (setCloseOperationPromise (Some p)) s1 in
    suspend {| awaiting := p;
               continuation := CloseDeviceHandle_181 deviceState;
               result := result' |} s2.

(** [closeDeviceHandle(deviceId, deviceHandle)] up to its [await]. *)
Definition closeDeviceHandle (deviceId deviceHandle : nat) (s : State)
  : State :=
  let '(s1, result') := newPromise AsyncFunction s in
  match getDeviceByIdOrThrow_ deviceId s1 with
  | Throw e => settle result' (Rejected e) s1
  | Normal deviceState =>
      if decide (deviceHandle ∈ handles (deviceStates s1 deviceState)) then
        let s2 := updateDeviceState deviceState
                    (λ d, setHandles (handles d ∖ {[deviceHandle]}) d) s1 in
        closeDeviceHandle_close deviceState result' s2
      else settle result' (Rejected (UnknownDeviceHandle deviceHandle)) s1
  end.

(** [claimInterface], [releaseInterface] and [resetDevice] up to their
    [await]: the handle is checked, then WebUSB is called. *)
Definition interfaceOrReset (deviceId deviceHandle : nat) (s : State)
  : State :=
  let '(s1, result') := newPromise AsyncFunction s in
  match getDeviceByIdAndHandleOrThrow_ deviceId deviceHandle s1 with
  | Throw e => settle result' (Rejected e) s1
  | Normal deviceState =>
      let '(s2, p) :=
        newPromise
          (WebusbInterfaceOrReset
             (webusbDevice (deviceStates s1 deviceState))) s1 in
      suspend {| awaiting := p; continuation := InterfaceOrReset_await;
                 result := result' |} s2
  end.

(** [controlTransfer(deviceId, deviceHandle, parameters)] up to its
    [await]. *)
Definition controlTransfer (deviceId deviceHandle : nat)
    (parameters : LibusbJsControlTransferParameters) (s : State) : State :=
  let '(s1, result') := newPromise AsyncFunction s in
  match
    deviceState ← getDeviceByIdAndHandleOrThrow_ deviceId deviceHandle s1;
    _ ← getWebusbRequestType (requestType parameters);
    _ ← getWebusbRecipient (recipient parameters);
    mret deviceState
  with
  | Throw e => settle result' (Rejected e) s1
  | Normal deviceState =>
      let webusbDevice' := webusbDevice (deviceStates s1 deviceState) in
      let '(s2, p) :=
        newPromise
          (match controlDataToSend parameters with
           | Some _ =>
               WebusbControlTransferOut webusbDevice'
                 (Z.of_nat (value parameters))
           | None =>
               WebusbControlTransferIn webusbDevice'
                 (Z.of_nat (value parameters))
                 (controlLengthToReceive parameters)
           end) s1 in
      suspend {| awaiting := p; continuation := Transfer_await;
                 result := result' |} s2
  end.

(** [genericTransfer_(deviceId, deviceHandle, parameters)] up to its
    [await].  [bulkTransfer] and [interruptTransfer] return its promise. *)
Definition genericTransfer_ (deviceId deviceHandle : nat)
    (parameters : LibusbJsGenericTransferParameters) (s : State) : State :=
  let '(s1, result') := newPromise AsyncFunction s in
  match getDeviceByIdAndHandleOrThrow_ deviceId deviceHandle s1 with
  | Throw e => settle result' (Rejected e) s1
  | Normal deviceState =>
      let webusbDevice' := webusbDevice (deviceStates s1 deviceState) in
      let endpointNumber :=
        Nat.land (transferEndpointAddress parameters) 15 in
      let '(s2, p) :=
        newPromise
          (match dataToSend parameters with
           | Some _ => WebusbTransferOut webusbDevice' endpointNumber
           | None =>
               WebusbTransferIn webusbDevice' endpointNumber
                 (lengthToReceive parameters)
           end) s1 in
      suspend {| awaiting := p; continuation := Transfer_await;
                 result := result' |} s2
  end.

(** [listDevices()] up to its [await]. *)
Definition listDevices (s : State) : State :=
  let '(s1, result') := newPromise AsyncFunction s in
  let '(s2, p) := newPromise WebusbGetDevices s1 in
  suspend {| awaiting := p; continuation := ListDevices_93;
             result := result' |} s2.

(** [listDevices], lines 98-101. *)
Definition listDevices_update (webusbDevices : list nat) (result' : nat)
    (s : State) : State :=
  let s1 := updateDeviceMap_ webusbDevices s in
  settle result'
    (Fulfilled (LibusbJsDevices ((λ d, getDeviceId_ d s1) <$> webusbDevices)))
    s1.

(** The head of the [for] loop of [getConfigurations], lines 116-124: either
    the loop is over and the function returns, or the next configuration is
    converted and [fetchAndFillConfigurationExtraData] starts, up to its
    [await webusbDevice['open']()]. *)
Definition getConfigurations_loop (webusbDevice' : nat)
    (activeConfigurationValue' : option nat)
    (remaining : list USBConfiguration)
    (done : list LibusbJsConfigurationDescriptor) (result' : nat)
    (s : State) : State :=
  match remaining with
  | [] => settle result' (Fulfilled (LibusbJsConfigurations done)) s
  | webusbConfiguration :: remaining' =>
      let libusbJsConfiguration' :=
        getLibusbJsConfigurationDescriptor
          webusbConfiguration activeConfigurationValue' in
      let '(s1, p) := newPromise (WebusbOpen webusbDevice') s in
      suspend {| awaiting := p;
                 continuation :=
                   GetConfigurations_518
                     {| frameWebusbDevice := webusbDevice';
                        activeConfigurationValue := activeConfigurationValue';
                        frameLibusbJsConfiguration := libusbJsConfiguration';
                        remainingConfigurations := remaining';
                        libusbJsConfigurations := done |};
                 result := result' |} s1
  end.

(** Lines 125-131: whatever [fetchAndFillConfigurationExtraData] did, the
    configuration is pushed and the loop goes on. *)
Definition getConfigurations_push (f : GetConfigurationsFrame)
    (c : LibusbJsConfigurationDescriptor) (result' : nat) (s : State)
  : State :=
  getConfigurations_loop (frameWebusbDevice f) (activeConfigurationValue f)
    (remainingConfigurations f) (libusbJsConfigurations f ++ [c]) result' s.

(** [getConfigurations(deviceId)] up to its first [await]. *)
Definition getConfigurations (deviceId : nat) (s : State) : State :=
  let '(s1, result') := newPromise AsyncFunction s in
  match getDeviceByIdOrThrow_ deviceId s1 with
  | Throw e => settle result' (Rejected e) s1
  | Normal deviceState =>
      let webusbDevice' := webusbDevice (deviceStates s1 deviceState) in
      getConfigurations_loop webusbDevice'
        (usbConfigurationValue <$> usbConfiguration (usb s1 webusbDevice'))
        (usbConfigurations (usb s1 webusbDevice')) [] result' s1
  end.

(** [webusbDevice['controlTransferIn'](controlTransferParameters, length)]
    of [fetchAndFillConfigurationExtraDataForOpenedDevice], awaited. *)
Definition controlTransferIn (f : GetConfigurationsFrame) (length' : nat)
    (k : Continuation) (result' : nat) (s : State) : State :=
  let '(s1, p) :=
    newPromise
      (WebusbControlTransferIn (frameWebusbDevice f)
         (controlRequestValue (frameLibusbJsConfiguration f)) length') s in
  suspend {| awaiting := p; continuation := k; result := result' |} s1.

(** The [finally] block of [fetchAndFillConfigurationExtraData], line 525. *)
Definition fetchAndFill_finally (f : GetConfigurationsFrame)
    (c : LibusbJsConfigurationDescriptor) (result' : nat) (s : State)
  : State :=
  let '(s1, p) := newPromise (WebusbClose (frameWebusbDevice f)) s in
  suspend {| awaiting := p;
             continuation :=
               GetConfigurations_525
                 {| frameWebusbDevice := frameWebusbDevice f;
                    activeConfigurationValue := activeConfigurationValue f;
                    frameLibusbJsConfiguration := c;
                    remainingConfigurations := remainingConfigurations f;
                    libusbJsConfigurations := libusbJsConfigurations f |};
             result := result' |} s1.

Definition asTransferResult (x : Awaited Value)
  : option (Awaited USBInTransferResult) :=
  match x with
  | Fulfilled (TransferResult r) => Some (Fulfilled r)
  | Fulfilled _ => None
  | Rejected e => Some (Rejected e)
  end.

(** The code that runs when the awaited promise is settled with [x], up to
    the next [await] or to the end of the function.  [None] when [x] is not
    a value the awaited WebUSB call can produce. *)
Definition resume (k : Continuation) (x : Awaited Value) (result' : nat)
    (s : State) : option State :=
  match k with
  | ListDevices_93 =>
      match x with
      | Fulfilled (USBDevices webusbDevices) =>
          Some (listDevices_update webusbDevices result' s)
      | Fulfilled _ => None
      | Rejected e => Some (settle result' (Rejected e) s)
      end
  | GetConfigurations_518 f =>
      match x with
      | Fulfilled _ =>
          Some (controlTransferIn f CONFIGURATION_DESCRIPTOR_LENGTH
                  (GetConfigurations_556 f) result' s)
      | Rejected _ =>
          Some (getConfigurations_push f (frameLibusbJsConfiguration f)
                  result' s)
      end
  | GetConfigurations_556 f =>
      first ← asTransferResult x;
      match await first ≫= readTotalLength with
      | Normal (Some totalLength) =>
          Some (controlTransferIn f totalLength
                  (GetConfigurations_564 f totalLength) result' s)
      | Normal None | Throw _ =>
          Some (fetchAndFill_finally f (frameLibusbJsConfiguration f)
                  result' s)
      end
  | GetConfigurations_564 f totalLength =>
      second ← asTransferResult x;
      match await second with
      | Normal transferResult =>
          '(_, c) ← parseDescriptors totalLength transferResult
                      (frameLibusbJsConfiguration f);
          Some (fetchAndFill_finally f c result' s)
      | Throw _ =>
          Some (fetchAndFill_finally f (frameLibusbJsConfiguration f)
                  result' s)
      end
  | GetConfigurations_525 f =>
      Some (getConfigurations_push f (frameLibusbJsConfiguration f)
              result' s)
  | OpenDeviceHandle_151 deviceState =>
      let s1 := updateDeviceState deviceState
                  (setOpenOperationPromise None) s in
      match x with
      | Fulfilled _ => Some (openDeviceHandle_newHandle deviceState result' s1)
      | Rejected e => Some (settle result' (Rejected e) s1)
      end
  | CloseDeviceHandle_181 deviceState =>
      match x with
      | Fulfilled _ =>
          Some (settle result' (Fulfilled Undefined)
                  (updateDeviceState deviceState
                     (setCloseOperationPromise None) s))
      | Rejected e => Some (settle result' (Rejected e) s)
      end
  | InterfaceOrReset_await =>
      match x with
      | Fulfilled _ => Some (settle result' (Fulfilled Undefined) s)
      | Rejected e => Some (settle result' (Rejected e) s)
      end
  | Transfer_await =>
      transferResult ← asTransferResult x;
      match await transferResult ≫= getLibusbJsTransferResultOrThrow with
      | Normal libusbJsTransferResult =>
          Some (settle result'
                  (Fulfilled (LibusbJsTransferResult libusbJsTransferResult))
                  s)
      | Throw e => Some (settle result' (Rejected e) s)
      end
  | OpenWebusbDevice_503 deviceState =>
      match x with
      | Fulfilled _ => Some (openWebusbDevice_open deviceState result' s)
      | Rejected e => Some (settle result' (Rejected e) s)
      end
  | OpenWebusbDevice_505 =>
      match x with
      | Fulfilled _ => Some (settle result' (Fulfilled Undefined) s)
      | Rejected e => Some (settle result' (Rejected e) s)
      end
  end.

(** A pending promise. *)
Definition pending (o : Origin) : Promise :=
  {| origin := o; settled := None |}.

(** The promise of an [async] function once it has returned a handle. *)
Definition returnedHandle (h : nat) : Promise :=
  {| origin := AsyncFunction;
     settled := Some (Fulfilled (DeviceHandle h)) |}.

(** An activation of [openDeviceHandle] suspended at line 151. *)
Definition openDeviceHandle_151 (deviceState awaited result' : nat)
  : option Activation :=
  Some {| awaiting := awaited;
          continuation := OpenDeviceHandle_151 deviceState;
          result := result' |}.

(** The continuations that belong to [getConfigurations]. *)
Definition isGetConfigurations (k : Continuation) : Prop :=
  match k with
  | GetConfigurations_518 _ | GetConfigurations_556 _
  | GetConfigurations_564 _ _ | GetConfigurations_525 _ => True
  | _ => False
  end.

(** Whether the promise is rejected. *)
Definition rejected (p : nat) (s : State) : Prop :=
  ∃ pr e, promises s !! p = Some pr ∧ settled pr = Some (Rejected e).

(** *** The transition system *)

Inductive Request :=
| ListDevices
| GetConfigurations (deviceId : nat)
| OpenDeviceHandle (deviceId : nat)
| CloseDeviceHandle (deviceId deviceHandle : nat)
| ClaimInterface (deviceId deviceHandle interfaceNumber : nat)
| ReleaseInterface (deviceId deviceHandle interfaceNumber : nat)
| ResetDevice (deviceId deviceHandle : nat)
| ControlTransfer (deviceId deviceHandle : nat)
    (parameters : LibusbJsControlTransferParameters)
| BulkTransfer (deviceId deviceHandle : nat)
    (parameters : LibusbJsGenericTransferParameters)
| InterruptTransfer (deviceId deviceHandle : nat)
    (parameters : LibusbJsGenericTransferParameters).

Inductive Label :=
| Call (r : Request)                   (* a caller invokes a method *)
| Settle (p : nat) (x : Awaited Value) (* WebUSB settles one of its promises *)
| Resume (t : nat).                    (* a suspended activation continues *)

Definition call (r : Request) (s : State) : State :=
  match r with
  | ListDevices => listDevices s
  | GetConfigurations deviceId => getConfigurations deviceId s
  | OpenDeviceHandle deviceId => openDeviceHandle deviceId s
  | CloseDeviceHandle deviceId deviceHandle =>
      closeDeviceHandle deviceId deviceHandle s
  | ClaimInterface deviceId deviceHandle _
  | ReleaseInterface deviceId deviceHandle _
  | ResetDevice deviceId deviceHandle =>
      interfaceOrReset deviceId deviceHandle s
  | ControlTransfer deviceId deviceHandle parameters =>
      controlTransfer deviceId deviceHandle parameters s
  | BulkTransfer deviceId deviceHandle parameters
  | InterruptTransfer deviceId deviceHandle parameters =>
      genericTransfer_ deviceId deviceHandle parameters s
  end.

(** The values a WebUSB call may settle its promise with. *)
Definition webusbSettles (o : Origin) (x : Awaited Value) : bool :=
  match o, x with
  | AsyncFunction, _ => false
  | _, Rejected _ => true
  | WebusbGetDevices, Fulfilled (USBDevices _) => true
  | (WebusbControlTransferIn _ _ _ | WebusbTransferIn _ _ _),
    Fulfilled (TransferResult _) => true
  | (WebusbControlTransferOut _ _ | WebusbTransferOut _ _),
    Fulfilled (TransferResult r) => bool_decide (data r = None)
  | (WebusbOpen _ | WebusbClose _ | WebusbInterfaceOrReset _),
    Fulfilled Undefined => true
  | _, _ => false
  end.

Definition step (l : Label) (s : State) : option State :=
  match l with
  | Call r => Some (call r s)
  | Settle p x =>
      pr ← promises s !! p;
      if settled pr is None then
        if webusbSettles (origin pr) x then Some (settle p x s) else None
      else None
  | Resume t =>
      a ← mjoin (activations s !! t);
      pr ← promises s !! awaiting a;
      x ← settled pr;
      resume (continuation a) x (result a)
             (setActivations (<[t := None]> (activations s)) s)
  end.

(** Running a schedule. *)
Fixpoint run (ls : list Label) (s : State) : option State :=
  match ls with
  | [] => Some s
  | l :: ls' => s' ← step l s; run ls' s'
  end.

(** The states the adaptor can be in. *)
Inductive reachable : State → Prop :=
| reachable_constructor usb' : reachable (constructor usb')
| reachable_step l s s' : reachable s → step l s = Some s' → reachable s'.

(** *** Elementary effects and invariants

    Every transition is a sequence of the elementary effects below; what
    holds across each of them holds across every run. *)

Inductive effect (enumerated : list nat → Prop)
    (deleted : nat → nat → Prop) : State → State → Prop :=
| effect_newPromise o s :
    effect enumerated deleted s
      (setPromises (promises s ++ [{| origin := o; settled := None |}]) s)
| effect_settle p x s : effect enumerated deleted s (settle p x s)
| effect_suspend a s : effect enumerated deleted s (suspend a s)
| effect_finish t s :
    effect enumerated deleted s
      (setActivations (<[t := None]> (activations s)) s)
| effect_setOpenOperationPromise r x s :
    effect enumerated deleted s
      (updateDeviceState r (setOpenOperationPromise x) s)
| effect_setCloseOperationPromise r x s :
    effect enumerated deleted s
      (updateDeviceState r (setCloseOperationPromise x) s)
| effect_deleteHandle r h s :
    deleted r h →
    effect enumerated deleted s
      (updateDeviceState r (λ d, setHandles (handles d ∖ {[h]}) d) s)
| effect_newHandle r s :
    effect enumerated deleted s
      (updateDeviceState r
         (λ d, setHandles ({[nextFreeDeviceHandle_ s]} ∪ handles d) d)
         (setNextFreeDeviceHandle_ (S (nextFreeDeviceHandle_ s)) s))
| effect_updateDeviceMap_ l s :
    enumerated l → effect enumerated deleted s (updateDeviceMap_ l s).

(** The transition [l] is a call of [closeDeviceHandle] with handle [h]. *)
Definition closes (l : Label) (h : nat) : Prop :=
  ∃ deviceId, l = Call (CloseDeviceHandle deviceId h).

(** The transition [l] is the continuation of [listDevices] after line 93,
    with [webusbDevices] the list that [getDevices()] produced. *)
Definition enumerates (l : Label) (s : State) (webusbDevices : list nat)
  : Prop :=
  ∃ t a pr,
    l = Resume t
    ∧ activations s !! t = Some (Some a)
    ∧ continuation a = ListDevices_93
    ∧ promises s !! awaiting a = Some pr
    ∧ settled pr = Some (Fulfilled (USBDevices webusbDevices)).

(** Ids and object references in the map have been handed out, and no id
    occurs twice. *)
Definition registryWf (s : State) : Prop :=
  NoDup (Map_keys (idToDeviceMap_ s))
  ∧ ∀ k r, (k, r) ∈ idToDeviceMap_ s →
           k < nextFreeDeviceId_ s ∧ r < nextDeviceState s.

(** Invariant of the loop of [updateDeviceMap_]: [s0] is the adaptor when
    the method is entered, [processed] the devices looked at so far. *)
Record updateDeviceMap_inv (s0 : State) (processed : list nat)
    (newIdToDeviceMap : list (nat * nat)) (s : State) : Prop := {
  inv_map : idToDeviceMap_ s = idToDeviceMap_ s0;
  inv_nextId : nextFreeDeviceId_ s0 ≤ nextFreeDeviceId_ s;
  inv_nextRef : nextDeviceState s0 ≤ nextDeviceState s;
  inv_old : ∀ r, r < nextDeviceState s0 →
                 deviceStates s r = deviceStates s0 r;
  inv_new : ∀ r, nextDeviceState s0 ≤ r → r < nextDeviceState s →
                 handles (deviceStates s r) = ∅;
  inv_entries : ∀ k r, (k, r) ∈ newIdToDeviceMap →
    webusbDevice (deviceStates s r) ∈ processed
    ∧ ((Map_get (idToDeviceMap_ s0) k = Some r
        ∧ getDeviceId_ (webusbDevice (deviceStates s r)) s0 = Some k)
       ∨ ((nextFreeDeviceId_ s0 ≤ k < nextFreeDeviceId_ s)
          ∧ (nextDeviceState s0 ≤ r < nextDeviceState s)
          ∧ getDeviceId_ (webusbDevice (deviceStates s r)) s0 = None));
  inv_NoDup : NoDup (Map_keys newIdToDeviceMap);
  inv_processed : ∀ d, d ∈ processed →
    ∃ k r, (k, r) ∈ newIdToDeviceMap ∧ webusbDevice (deviceStates s r) = d;
  inv_handle : nextFreeDeviceHandle_ s = nextFreeDeviceHandle_ s0;
  inv_promises : promises s = promises s0;
  inv_activations : activations s = activations s0;
}.

(** An id that was handed out earlier and now maps to nothing. *)
Definition retired (i : nat) (s : State) : Prop :=
  Map_get (idToDeviceMap_ s) i = None ∧ i < nextFreeDeviceId_ s.

(** Every handle in use was taken from the counter. *)
Definition handlesBelow (s : State) : Prop :=
  ∀ r h, h ∈ handles (deviceStates s r) → h < nextFreeDeviceHandle_ s.

(** A handle that was handed out earlier and is not in the set of [r]. *)
Definition closed (r h : nat) (s : State) : Prop :=
  (h ∉ handles (deviceStates s r)) ∧ h < nextFreeDeviceHandle_ s.







(** *** Activations and the promises they return *)

(** Every suspended activation owns the promise its function returned: the
    promise is pending, and no other suspended activation returns it. *)
Record resultsWf (s : State) : Prop := {
  resultsWf_pending :
    ∀ t a, activations s !! t = Some (Some a) →
           promises s !! result a = Some (pending AsyncFunction);
  resultsWf_unique :
    ∀ t t' a a', activations s !! t = Some (Some a) →
                 activations s !! t' = Some (Some a') →
                 result a = result a' → t = t';
}.

(** *** A device whose [close()] failed *)

(** Promise [q] is one that calls of [openDeviceHandle] on the object [r]
    wait for: it is the pending-open marker of [r], or a call suspended at
    line 151 awaits it. *)
Definition awaitedOpen (r q : nat) (s : State) : Prop :=
  openOperationPromise (deviceStates s r) = Some q
  ∨ ∃ t a, activations s !! t = Some (Some a)
           ∧ continuation a = OpenDeviceHandle_151 r ∧ awaiting a = q.

(** Promise [q] belongs to an [async] function and is pending or rejected
    with [e], and the only activations that will settle it are those of
    [openWebusbDevice] suspended at line 503 for [r]. *)
Definition boundToFail (r : nat) (e : Error) (q : nat) (s : State) : Prop :=
  (∃ pr, promises s !! q = Some pr ∧ origin pr = AsyncFunction
         ∧ (settled pr = None ∨ settled pr = Some (Rejected e)))
  ∧ ∀ t a, activations s !! t = Some (Some a) → result a = q →
           continuation a = OpenWebusbDevice_503 r.

(** The object [r] after its [close()], promise [p], was rejected with
    [e]: the pending-close marker is [p], there is no handle, what waits on
    the marker of [r] waits on [p], and what calls of [openDeviceHandle]
    wait for is bound to fail with [e]. *)
Record failedClose (r p : nat) (e : Error) (s : State) : Prop := {
  failedClose_object : r < nextDeviceState s;
  failedClose_marker : closeOperationPromise (deviceStates s r) = Some p;
  failedClose_rejected :
    ∃ pr, promises s !! p = Some pr ∧ settled pr = Some (Rejected e);
  failedClose_handles : handles (deviceStates s r) = ∅;
  failedClose_results :
    ∀ t a, activations s !! t = Some (Some a) →
           result a < length (promises s);
  failedClose_waits :
    ∀ t a, activations s !! t = Some (Some a) →
           continuation a = OpenWebusbDevice_503 r
           ∨ continuation a = CloseDeviceHandle_181 r →
           awaiting a = p;
  failedClose_awaitedOpen :
    ∀ q, awaitedOpen r q s → boundToFail r e q s;
}.

(** The request is a call of a method that takes a device id and a handle
    and uses the device: [claimInterface], [releaseInterface],
    [resetDevice] and the three transfers. *)
Definition takesHandle (req : Request) (deviceId deviceHandle : nat)
  : Prop :=
  match req with
  | ClaimInterface i h _ | ReleaseInterface i h _ | ResetDevice i h
  | ControlTransfer i h _ | BulkTransfer i h _ | InterruptTransfer i h _ =>
      i = deviceId ∧ h = deviceHandle
  | ListDevices | GetConfigurations _ | OpenDeviceHandle _
  | CloseDeviceHandle _ _ => False
  end.


(** *** More invariants of the registry and of the handles *)

(** More of the invariant of the loop of [updateDeviceMap_]: the two
    counters move together, a new id refers to the object created with it,
    the objects created are as the constructor of [DeviceState] leaves
    them, and, as long as no device was met twice, no two ids of the new map
    refer to the same device. *)
Record updateDeviceMap_created (s0 : State) (processed : list nat)
    (newIdToDeviceMap : list (nat * nat)) (s : State) : Prop := {
  created_lockstep :
    nextFreeDeviceId_ s + nextDeviceState s0
    = nextFreeDeviceId_ s0 + nextDeviceState s;
  created_entries :
    ∀ k r, (k, r) ∈ newIdToDeviceMap → nextDeviceState s0 ≤ r →
           k + nextDeviceState s0 = r + nextFreeDeviceId_ s0;
  created_fresh :
    ∀ r, nextDeviceState s0 ≤ r → r < nextDeviceState s →
         deviceStates s r
         = newDeviceState (webusbDevice (deviceStates s r));
  created_devices :
    NoDup processed →
    ∀ k1 k2 r1 r2,
      (k1, r1) ∈ newIdToDeviceMap → (k2, r2) ∈ newIdToDeviceMap →
      webusbDevice (deviceStates s r1) = webusbDevice (deviceStates s r2) →
      k1 = k2;
}.

(** No two ids refer to the same [DeviceState] object. *)
Definition distinctStates (s : State) : Prop :=
  ∀ k1 k2 r,
    Map_get (idToDeviceMap_ s) k1 = Some r →
    Map_get (idToDeviceMap_ s) k2 = Some r → k1 = k2.

(** No two ids refer to the same [USBDevice] object. *)
Definition distinctDevices (s : State) : Prop :=
  ∀ k1 k2 r1 r2,
    Map_get (idToDeviceMap_ s) k1 = Some r1 →
    Map_get (idToDeviceMap_ s) k2 = Some r2 →
    webusbDevice (deviceStates s r1) = webusbDevice (deviceStates s r2) →
    k1 = k2.

(** No handle is in the sets of two [DeviceState] objects. *)
Definition handlesDisjoint (s : State) : Prop :=
  ∀ r1 r2 h,
    h ∈ handles (deviceStates s r1) → h ∈ handles (deviceStates s r2) →
    r1 = r2.

(** Ids and handles are truthy numbers: the counters start at 1. *)
Definition idsPositive (s : State) : Prop :=
  1 ≤ nextFreeDeviceId_ s ∧ ∀ k r, (k, r) ∈ idToDeviceMap_ s → 1 ≤ k.

Definition handlesPositive (s : State) : Prop :=
  1 ≤ nextFreeDeviceHandle_ s
  ∧ ∀ r h, h ∈ handles (deviceStates s r) → 1 ≤ h.

(** What holds of ids and handles in every state the adaptor reaches. *)
Record countersWf (s : State) : Prop := {
  countersWf_ids : idsPositive s;
  countersWf_handles : handlesPositive s;
  countersWf_states : distinctStates s;
  countersWf_disjoint : handlesDisjoint s;
}.

(** *** Observing calls and runs *)

(** The request names the device [deviceId]: every method but
    [listDevices]. *)
Definition namesDevice (req : Request) (deviceId : nat) : Prop :=
  match req with
  | ListDevices => False
  | GetConfigurations i | OpenDeviceHandle i | CloseDeviceHandle i _
  | ClaimInterface i _ _ | ReleaseInterface i _ _ | ResetDevice i _
  | ControlTransfer i _ _ | BulkTransfer i _ _ | InterruptTransfer i _ _ =>
      i = deviceId
  end.

(** The fields of the class and the [DeviceState] objects are the same in
    both states. *)
Definition sameAdaptor (s s' : State) : Prop :=
  idToDeviceMap_ s' = idToDeviceMap_ s
  ∧ nextFreeDeviceId_ s' = nextFreeDeviceId_ s
  ∧ nextFreeDeviceHandle_ s' = nextFreeDeviceHandle_ s
  ∧ deviceStates s' = deviceStates s
  ∧ nextDeviceState s' = nextDeviceState s.

(** The transition runs code of [openDeviceHandle] or [closeDeviceHandle],
    or the code of [listDevices] after its [await]. *)
Definition changesAdaptor (l : Label) (s : State) : Prop :=
  match l with
  | Call (OpenDeviceHandle _) | Call (CloseDeviceHandle _ _) => True
  | Call _ | Settle _ _ => False
  | Resume t =>
      match activations s !! t with
      | Some (Some a) =>
          match continuation a with
          | ListDevices_93 | OpenDeviceHandle_151 _
          | CloseDeviceHandle_181 _ => True
          | _ => False
          end
      | _ => False
      end
  end.

(** A promise that is settled. *)
Definition settledPromise (o : Origin) (x : Awaited Value) : Promise :=
  {| origin := o; settled := Some x |}.

(** What WebUSB answers to the calls that [getConfigurations] makes for one
    configuration: to [open()], to the two control transfers and to
    [close()].  [None] for [open()] and [close()] is success.  The answers
    to calls that are not made are not looked at. *)
Record Answers := {
  answerOpen : option Error;
  answerFirst : Awaited USBInTransferResult;
  answerSecond : Awaited USBInTransferResult;
  answerClose : option Error;
}.

Definition voidAnswer (e : option Error) : Awaited Value :=
  match e with
  | None => Fulfilled Undefined
  | Some e => Rejected e
  end.

Definition transferAnswer (x : Awaited USBInTransferResult)
  : Awaited Value :=
  match x with
  | Fulfilled r => Fulfilled (TransferResult r)
  | Rejected e => Rejected e
  end.

(** The length that the second control transfer asks for, when it is
    made. *)
Definition secondTransferLength (a : Answers) : option nat :=
  match await (answerFirst a) ≫= readTotalLength with
  | Normal (Some totalLength) => Some totalLength
  | _ => None
  end.

(** The WebUSB calls made for one configuration of device [d], in their
    order. *)
Definition extractionCalls (d : nat) (c : LibusbJsConfigurationDescriptor)
    (a : Answers) : list Origin :=
  WebusbOpen d
  :: match answerOpen a with
     | Some _ => []
     | None =>
         WebusbControlTransferIn d (controlRequestValue c)
           CONFIGURATION_DESCRIPTOR_LENGTH
         :: match secondTransferLength a with
            | Some totalLength =>
                [WebusbControlTransferIn d (controlRequestValue c)
                   totalLength]
            | None => []
            end
         ++ [WebusbClose d]
     end.

(** The answers to these calls, in the same order. *)
Definition extractionAnswers (a : Answers) : list (Awaited Value) :=
  voidAnswer (answerOpen a)
  :: match answerOpen a with
     | Some _ => []
     | None =>
         transferAnswer (answerFirst a)
         :: match secondTransferLength a with
            | Some _ => [transferAnswer (answerSecond a)]
            | None => []
            end
         ++ [voidAnswer (answerClose a)]
     end.

(** WebUSB answers each of these calls and the activation that awaits the
    answer continues; [n] is the promise of the first call and [m] the
    activation that awaits it. *)
Definition extractionSchedule (n m : nat) (a : Answers) : list Label :=
  mjoin (imap (λ i x, [Settle (n + i) x; Resume (m + i)])
              (extractionAnswers a)).

Fixpoint getConfigurationsSchedule (n m : nat) (answers : list Answers)
  : list Label :=
  match answers with
  | [] => []
  | a :: answers' =>
      extractionSchedule n m a
      ++ getConfigurationsSchedule (n + length (extractionAnswers a))
           (m + length (extractionAnswers a)) answers'
  end.

(** The configuration pushed for these answers: the converted tree when
    [open()] fails, else the tree the extraction leaves. *)
Definition extracted (a : Answers) (c : LibusbJsConfigurationDescriptor)
  : LibusbJsConfigurationDescriptor :=
  match answerOpen a with
  | Some _ => c
  | None =>
      match fetchAndFillConfigurationExtraDataForOpenedDevice
              (answerFirst a) (answerSecond a) c with
      | Some (_, c') => c'
      | None => c
      end
  end.

(** *** [convertWebusbDeviceToLibusb_]

    [listDevices] above keeps of the converted device its ['deviceId'];
    here is the whole object. *)

(** The properties of a [USBDevice] that describe the device.  A name
    that WebUSB leaves [undefined] or [null] is [None]. *)
Record USBDeviceDescription := {
  usbVendorId : nat;
  usbProductId : nat;
  deviceVersionMajor : nat;
  deviceVersionMinor : nat;
  deviceVersionSubminor : nat;
  usbProductName : option string;
  usbManufacturerName : option string;
  usbSerialNumber : option string;
}.

(** A [LibusbJsDevice]; a key that is not set is [None]. *)
Record LibusbJsDevice := {
  libusbJsDeviceId : option nat;
  vendorId : nat;
  productId : nat;
  version : Z;
  productName : option string;
  manufacturerName : option string;
  serialNumber : option string;
}.

(** [ToInt32] of an integer, and [x << n]: the left operand is taken
    modulo 2^32 into the signed range, and so is the result. *)
Definition ToInt32 (x : Z) : Z := ((x + 2 ^ 31) mod 2 ^ 32 - 2 ^ 31)%Z.

Definition shiftLeft (x n : Z) : Z :=
  ToInt32 (Z.shiftl (ToInt32 x) (Z.land n 31)).

(** [if (name) libusbJsDevice[key] = name]: the empty string is falsy as
    [undefined] and [null] are. *)
Definition copyIfTruthy (name : option string) : option string :=
  match name with
  | Some EmptyString => None
  | _ => name
  end.

Definition convertWebusbDeviceToLibusb_ (webusbDevice' : nat)
    (description : USBDeviceDescription) (s : State) : LibusbJsDevice :=
  {| libusbJsDeviceId := getDeviceId_ webusbDevice' s;
     vendorId := usbVendorId description;
     productId := usbProductId description;
     version :=
       (shiftLeft (Z.of_nat (deviceVersionMajor description)) 8
        + shiftLeft (Z.of_nat (deviceVersionMinor description)) 4
        + Z.of_nat (deviceVersionSubminor description))%Z;
     productName := copyIfTruthy (usbProductName description);
     manufacturerName := copyIfTruthy (usbManufacturerName description);
     serialNumber := copyIfTruthy (usbSerialNumber description) |}.

(** *** The order in which the runtime runs the code

    The transition system above lets a call, an answer of WebUSB and a
    continuation happen in any order.  The runtime is stricter.  Code runs
    to its end before other code starts.  When a promise is settled, the
    activations that await it are queued as jobs, in the order in which they
    started to await; an activation that awaits a promise already settled is
    queued at once.  The jobs run first in, first out, and a task starts
    only when no job is left.  A task is an answer of WebUSB, which settles
    each of its promises in a task of its own, or code of the caller started
    by an event or a timer.  The caller's code can run as a job as well: as
    a reaction to the promise that a method returned, queued when the
    method's code settles that promise, or as a job that the caller's own
    code queues. *)

Inductive Job :=
| Reaction (t : nat)     (* the suspended activation [t] continues *)
| CallerJob.             (* code of the caller *)

#[global] Instance Job_eq_dec : EqDecision Job.
Proof. solve_decision. Defined.

(** The adaptor with the queue of jobs.  While code of the caller runs, the
    [CallerJob] it runs as is the head of the queue. *)
Record Scheduled := {
  adaptor : State;
  jobs : list Job;
}.

Definition isSettled (p : nat) (s : State) : bool :=
  match promises s !! p with
  | Some pr => if settled pr is Some _ then true else false
  | None => false
  end.

(** The activation is suspended and the promise it awaits is settled. *)
Definition ready (t : nat) (s : State) : bool :=
  match activations s !! t with
  | Some (Some a) => isSettled (awaiting a) s
  | _ => false
  end.

(** The activations that the code which led from [s] to [s'] made ready, in
    the order in which they were suspended. *)
Definition becameReady (s s' : State) : list nat :=
  filter (λ t, ready t s' = true ∧ ready t s = false)
         (seq 0 (length (activations s'))).

Inductive Turn :=
| WebusbTask (p : nat) (x : Awaited Value)
                       (* a task in which WebUSB settles its promise [p] *)
| CallerTask           (* a task of the caller starts *)
| CallerCall (r : Request)     (* the caller's code invokes a method *)
| CallerThen           (* the caller's code queues a job of its own *)
| CallerReturn         (* the caller's code ends *)
| RunReaction (callerReactions : nat).
                       (* the reaction at the head of the queue runs;
                          [callerReactions] reactions of the caller are
                          queued behind what this code made ready *)

Definition turn (l : Turn) (st : Scheduled) : option Scheduled :=
  let s := adaptor st in
  match l, jobs st with
  | WebusbTask p x, [] =>
      s' ← step (Settle p x) s;
      Some {| adaptor := s'; jobs := Reaction <$> becameReady s s' |}
  | CallerTask, [] => Some {| adaptor := s; jobs := [CallerJob] |}
  | CallerCall r, CallerJob :: _ =>
      s' ← step (Call r) s;
      Some {| adaptor := s';
              jobs := jobs st ++ (Reaction <$> becameReady s s') |}
  | CallerThen, CallerJob :: _ =>
      Some {| adaptor := s; jobs := jobs st ++ [CallerJob] |}
  | CallerReturn, CallerJob :: q => Some {| adaptor := s; jobs := q |}
  | RunReaction callerReactions, Reaction t :: q =>
      s' ← step (Resume t) s;
      Some {| adaptor := s';
              jobs := q ++ (Reaction <$> becameReady s s')
                        ++ replicate callerReactions CallerJob |}
  | _, _ => None
  end.

Fixpoint turns (ls : list Turn) (st : Scheduled) : option Scheduled :=
  match ls with
  | [] => Some st
  | l :: ls' => st' ← turn l st; turns ls' st'
  end.

(** The states the runtime can bring the adaptor to. *)
Inductive scheduled : Scheduled → Prop :=
| scheduled_constructor usb' :
    scheduled {| adaptor := constructor usb'; jobs := [] |}
| scheduled_turn l st st' :
    scheduled st → turn l st = Some st' → scheduled st'.

(** **** What holds in these states *)

Definition suspendedAt (s : State) (t : nat) (a : Activation) : Prop :=
  activations s !! t = Some (Some a).

Definition isPending (s : State) (p : nat) : Prop :=
  ∃ pr, promises s !! p = Some pr ∧ settled pr = None.

Definition isFulfilled (s : State) (p : nat) : Prop :=
  ∃ pr v, promises s !! p = Some pr ∧ settled pr = Some (Fulfilled v).

(** The [close()] that the pending-close marker of [r] holds was
    rejected. *)
Definition closeFailed (r : nat) (s : State) : Prop :=
  ∃ p pr e, closeOperationPromise (deviceStates s r) = Some p
            ∧ promises s !! p = Some pr ∧ settled pr = Some (Rejected e).

(** The reaction [t] is queued and runs before any code of the caller. *)
Definition urgent (t : nat) (q : list Job) : Prop :=
  ∃ q1 q2, q = q1 ++ Reaction t :: q2 ∧ CallerJob ∉ q1.

(** The promise that an activation awaits comes from the call that its
    continuation follows. *)
Definition awaitedOrigin (k : Continuation) (o : Origin) : Prop :=
  match k with
  | OpenDeviceHandle_151 _ => o = AsyncFunction
  | OpenWebusbDevice_503 _ | CloseDeviceHandle_181 _ => ∃ d, o = WebusbClose d
  | OpenWebusbDevice_505 => ∃ d, o = WebusbOpen d
  | _ => o ≠ AsyncFunction
  end.

Record awaitsWf (s : State) : Prop := {
  awaits_origin :
    ∀ t a, suspendedAt s t a →
           ∃ pr, promises s !! awaiting a = Some pr
                 ∧ awaitedOrigin (continuation a) (origin pr);
  awaits_object :
    ∀ t a r, suspendedAt s t a →
             continuation a = OpenDeviceHandle_151 r
             ∨ continuation a = OpenWebusbDevice_503 r
             ∨ continuation a = CloseDeviceHandle_181 r →
             r < nextDeviceState s;
  awaits_openOperationPromise :
    ∀ r q, openOperationPromise (deviceStates s r) = Some q →
           r < nextDeviceState s
           ∧ ∃ pr, promises s !! q = Some pr ∧ origin pr = AsyncFunction;
  awaits_closeOperationPromise :
    ∀ r p, closeOperationPromise (deviceStates s r) = Some p →
           r < nextDeviceState s
           ∧ ∃ pr d, promises s !! p = Some pr ∧ origin pr = WebusbClose d;
  awaits_open_alone :
    ∀ t t' a a', suspendedAt s t a → suspendedAt s t' a' →
                 continuation a = OpenWebusbDevice_505 →
                 awaiting a = awaiting a' → t = t';
}.

(** A pending promise of an [async] function is the one that a suspended
    activation will return. *)
Definition resultsOwned (s : State) : Prop :=
  ∀ q, promises s !! q = Some (pending AsyncFunction) →
       ∃ t a, suspendedAt s t a ∧ result a = q.

(** The continuation belongs to a call on the [DeviceState] object [r]. *)
Definition concerns (k : Continuation) (r : nat) : Prop :=
  k = OpenDeviceHandle_151 r ∨ k = OpenWebusbDevice_503 r
  ∨ k = CloseDeviceHandle_181 r.

(** What a call ([fin = None]) or the continuation of the activation
    [fin] does to the promises and the activations: the activation that
    continues is gone; promises are added, and the only one settled is the
    one this activation returns; an activation that is suspended awaits a
    promise made by this code, or a marker.  The code sets the markers of
    the objects in [acting] only, gives the first handle on no other
    object, and suspends no call on another object. *)
Record delta (fin : option (nat * Activation)) (acting : nat → Prop)
    (s s' : State) : Prop := {
  delta_fin : ∀ t0 a0, fin = Some (t0, a0) → suspendedAt s t0 a0;
  delta_frame :
    ∀ r, ¬ acting r →
         openOperationPromise (deviceStates s' r)
         = openOperationPromise (deviceStates s r)
         ∧ closeOperationPromise (deviceStates s' r)
           = closeOperationPromise (deviceStates s r)
         ∧ (handles (deviceStates s r) = ∅ →
            handles (deviceStates s' r) = ∅);
  delta_activations :
    ∃ news,
      activations s'
      = (if fin is Some (t0, _) then <[t0 := None]> (activations s)
         else activations s) ++ (Some <$> news)
      ∧ (∀ a, a ∈ news →
              (∀ r, concerns (continuation a) r →
                    acting r ∧ r < nextDeviceState s)
              ∧ (length (promises s) ≤ result a
                 ∨ ∃ t0 a0, fin = Some (t0, a0) ∧ result a = result a0)
              ∧ ((length (promises s) ≤ awaiting a
                  ∧ ∃ pr, promises s' !! awaiting a = Some pr
                          ∧ settled pr = None
                          ∧ awaitedOrigin (continuation a) (origin pr))
                 ∨ (∃ r, continuation a = OpenDeviceHandle_151 r
                         ∧ openOperationPromise (deviceStates s r)
                           = Some (awaiting a))
                 ∨ (∃ r, continuation a = OpenWebusbDevice_503 r
                         ∧ closeOperationPromise (deviceStates s r)
                           = Some (awaiting a))))
      ∧ (∀ i j a a', news !! i = Some a → news !! j = Some a' →
                     continuation a = OpenWebusbDevice_505 →
                     awaiting a = awaiting a' → i = j)
      ∧ (∀ q, length (promises s) ≤ q →
              promises s' !! q = Some (pending AsyncFunction) →
              ∃ a, a ∈ news ∧ result a = q)
      ∧ (∀ t0 a0, fin = Some (t0, a0) →
                  isSettled (result a0) s' = true
                  ∨ ∃ a, a ∈ news ∧ result a = result a0);
  delta_promises :
    length (promises s) ≤ length (promises s')
    ∧ ∀ p pr, promises s !! p = Some pr →
              promises s' !! p = Some pr
              ∨ ∃ t0 a0 x, fin = Some (t0, a0) ∧ p = result a0
                           ∧ promises s' !! p
                             = Some {| origin := AsyncFunction;
                                       settled := Some x |};
  delta_openOperationPromise :
    ∀ r q, openOperationPromise (deviceStates s' r) = Some q →
           r < nextDeviceState s'
           ∧ (openOperationPromise (deviceStates s r) = Some q
              ∨ (length (promises s) ≤ q
                 ∧ ∃ pr, promises s' !! q = Some pr
                         ∧ origin pr = AsyncFunction));
  delta_closeOperationPromise :
    ∀ r p, closeOperationPromise (deviceStates s' r) = Some p →
           r < nextDeviceState s'
           ∧ (closeOperationPromise (deviceStates s r) = Some p
              ∨ (length (promises s) ≤ p
                 ∧ ∃ d, promises s' !! p = Some (pending (WebusbClose d))));
  delta_nextDeviceState : nextDeviceState s ≤ nextDeviceState s';
}.

(** How the calls on one [DeviceState] object [r] stand, as long as no
    [close()] on it has failed.  A call of [closeDeviceHandle] suspended
    at line 181 awaits the pending-close marker, and there is one at most;
    [openWebusbDevice] suspended at line 503 returns the pending-open
    marker and awaits the pending-close marker, or a [close()] that has
    succeeded; the calls of [openDeviceHandle] suspended at line 151 await
    the same promise, which is the pending-open marker while it is
    pending.  A reaction that is due runs before any code of the caller.
    A marker that is set means no handle and a call that will clear it,
    and the pending-open marker is the promise of an [openWebusbDevice]
    that is still under way if any activation returns it. *)
Record coordinated (r : nat) (st : Scheduled) : Prop := {
  coordinated_181 :
    ∀ t a, suspendedAt (adaptor st) t a →
           continuation a = CloseDeviceHandle_181 r →
           closeOperationPromise (deviceStates (adaptor st) r)
           = Some (awaiting a)
           ∧ (isSettled (awaiting a) (adaptor st) = true →
              urgent t (jobs st));
  coordinated_181_one :
    ∀ t t' a a', suspendedAt (adaptor st) t a →
                 suspendedAt (adaptor st) t' a' →
                 continuation a = CloseDeviceHandle_181 r →
                 continuation a' = CloseDeviceHandle_181 r → t = t';
  coordinated_503 :
    ∀ t a, suspendedAt (adaptor st) t a →
           continuation a = OpenWebusbDevice_503 r →
           openOperationPromise (deviceStates (adaptor st) r)
           = Some (result a)
           ∧ ((closeOperationPromise (deviceStates (adaptor st) r)
               = Some (awaiting a)
               ∧ isPending (adaptor st) (awaiting a))
              ∨ (isFulfilled (adaptor st) (awaiting a)
                 ∧ urgent t (jobs st)
                 ∧ (closeOperationPromise (deviceStates (adaptor st) r)
                    = None
                    ∨ closeOperationPromise (deviceStates (adaptor st) r)
                      = Some (awaiting a))));
  coordinated_151 :
    ∀ t a, suspendedAt (adaptor st) t a →
           continuation a = OpenDeviceHandle_151 r →
           (isPending (adaptor st) (awaiting a)
            ∧ openOperationPromise (deviceStates (adaptor st) r)
              = Some (awaiting a))
           ∨ (isSettled (awaiting a) (adaptor st) = true
              ∧ urgent t (jobs st));
  coordinated_151_same :
    ∀ t t' a a', suspendedAt (adaptor st) t a →
                 suspendedAt (adaptor st) t' a' →
                 continuation a = OpenDeviceHandle_151 r →
                 continuation a' = OpenDeviceHandle_151 r →
                 awaiting a = awaiting a';
  coordinated_151_fulfilled :
    ∀ t a, suspendedAt (adaptor st) t a →
           continuation a = OpenDeviceHandle_151 r →
           isFulfilled (adaptor st) (awaiting a) →
           closeOperationPromise (deviceStates (adaptor st) r) = None
           ∧ ∀ t' a', suspendedAt (adaptor st) t' a' →
                      continuation a' ≠ CloseDeviceHandle_181 r
                      ∧ continuation a' ≠ OpenWebusbDevice_503 r;
  coordinated_openOperationPromise :
    ∀ q, openOperationPromise (deviceStates (adaptor st) r) = Some q →
         handles (deviceStates (adaptor st) r) = ∅
         ∧ ∃ t a, suspendedAt (adaptor st) t a
                  ∧ continuation a = OpenDeviceHandle_151 r
                  ∧ awaiting a = q;
  coordinated_505 :
    ∀ t a, suspendedAt (adaptor st) t a →
           continuation a = OpenWebusbDevice_505 →
           openOperationPromise (deviceStates (adaptor st) r)
           = Some (result a) →
           (∀ t' a', suspendedAt (adaptor st) t' a' →
                     continuation a' ≠ OpenWebusbDevice_503 r)
           ∧ ∀ pc, closeOperationPromise (deviceStates (adaptor st) r)
                   = Some pc →
                   isSettled pc (adaptor st) = true;
  coordinated_closeOperationPromise :
    ∀ pc, closeOperationPromise (deviceStates (adaptor st) r) = Some pc →
          handles (deviceStates (adaptor st) r) = ∅
          ∧ ∃ t a, suspendedAt (adaptor st) t a
                   ∧ continuation a = CloseDeviceHandle_181 r
                   ∧ awaiting a = pc;
  coordinated_owner :
    ∀ q t a, openOperationPromise (deviceStates (adaptor st) r) = Some q →
             suspendedAt (adaptor st) t a → result a = q →
             continuation a = OpenWebusbDevice_503 r
             ∨ continuation a = OpenWebusbDevice_505;
}.

(** The objects on which a call starts or ends the use of the device: the
    one that [openDeviceHandle] finds without a handle, and the one whose
    last handle [closeDeviceHandle] takes. *)
Definition callActs (req : Request) (s : State) (r : nat) : Prop :=
  ∃ deviceId,
    Map_get (idToDeviceMap_ s) deviceId = Some r
    ∧ ((req = OpenDeviceHandle deviceId
        ∧ handles (deviceStates s r) = ∅)
       ∨ ∃ h, req = CloseDeviceHandle deviceId h
              ∧ handles (deviceStates s r) = {[h]}).

(** What holds in every state that the runtime can bring the adaptor to:
    what holds of the adaptor whatever the order; an [open()] that is
    answered has its reaction alone in the queue; every activation that is
    ready is queued; and each [DeviceState] object is [coordinated], or, once
    its marker holds a [close()] that was rejected, in the state
    [failedClose]. *)
Record jobsInv (st : Scheduled) : Prop := {
  jobsInv_reachable : reachable (adaptor st);
  jobsInv_awaits : awaitsWf (adaptor st);
  jobsInv_owned : resultsOwned (adaptor st);
  jobsInv_open_alone :
    ∀ t a, suspendedAt (adaptor st) t a →
           continuation a = OpenWebusbDevice_505 →
           isSettled (awaiting a) (adaptor st) = true →
           jobs st = [Reaction t];
  jobsInv_queued :
    ∀ t, ready t (adaptor st) = true → Reaction t ∈ jobs st;
  jobsInv_failed :
    ∀ r p pr e,
      closeOperationPromise (deviceStates (adaptor st) r) = Some p →
      promises (adaptor st) !! p = Some pr →
      settled pr = Some (Rejected e) →
      failedClose r p e (adaptor st);
  jobsInv_coordinated :
    ∀ r, ¬ closeFailed r (adaptor st) → coordinated r st;
}.

(** **** A call of [openDeviceHandle] after a [close()] that failed *)

(** The call of [openDeviceHandle] on [r] that returned the promise [n] has
    failed with [e], or is suspended at line 151. *)
Definition awaitsFailure (r : nat) (e : Error) (n : nat) (s : State)
  : Prop :=
  promises s !! n = Some (settledPromise AsyncFunction (Rejected e))
  ∨ ∃ t a, suspendedAt s t a
           ∧ continuation a = OpenDeviceHandle_151 r ∧ result a = n.

(** The call that returned [n] has failed with [e]; or it is suspended at
    line 151 and what it awaits is rejected with [e], and its reaction is
    queued; or what it awaits is pending, to be rejected by an activation
    of [openWebusbDevice] that awaits the rejected [close()], promise [p],
    and whose reaction is queued. *)
Definition failing (r p : nat) (e : Error) (n : nat) (st : Scheduled)
  : Prop :=
  promises (adaptor st) !! n
  = Some (settledPromise AsyncFunction (Rejected e))
  ∨ ∃ t a,
      suspendedAt (adaptor st) t a
      ∧ continuation a = OpenDeviceHandle_151 r ∧ result a = n
      ∧ ((promises (adaptor st) !! awaiting a
          = Some (settledPromise AsyncFunction (Rejected e))
          ∧ Reaction t ∈ jobs st)
         ∨ (promises (adaptor st) !! awaiting a
            = Some (pending AsyncFunction)
            ∧ ∃ t2 a2,
                suspendedAt (adaptor st) t2 a2
                ∧ continuation a2 = OpenWebusbDevice_503 r
                ∧ result a2 = awaiting a ∧ awaiting a2 = p
                ∧ Reaction t2 ∈ jobs st)).

End Adaptor.

(* ===================================================================== *)
(** ** Concrete devices, blobs and schedules *)
(* ===================================================================== *)

Module Example.
Import Descriptor Adaptor.

Definition usbEndpoint81 : USBEndpoint :=
  {| usbEndpointNumber := 1; usbDirection := "in"; usbType := "interrupt";
     usbPacketSize := 8 |}.

Definition usbConfiguration1 : USBConfiguration :=
  {| usbConfigurationValue := 1;
     usbInterfaces :=
       [{| usbInterfaceNumber := 0;
           usbAlternates :=
             [{| usbInterfaceClass := 11; usbInterfaceSubclass := 0;
                 usbInterfaceProtocol := 0;
                 usbEndpoints := [usbEndpoint81] |}] |}] |}.

(** The configuration tree before extraction: one interface (number 0) with
    one endpoint (address 0x81). *)
Definition configuration1 : LibusbJsConfigurationDescriptor :=
  getLibusbJsConfigurationDescriptor usbConfiguration1 (Some 1).

(** configuration (9 bytes, wTotalLength = 29), interface (9 bytes, number
    0), endpoint (7 bytes, address 0x81), extra (4 bytes, type 0xFF). *)
Definition syntheticBlob : list byte :=
  [x09; x02; x1d; x00; x01; x01; x00; x80; x32;
   x09; x04; x00; x00; x01; x0b; x00; x00; x00;
   x07; x05; x81; x03; x08; x00; x0a;
   x04; xff; xaa; xbb].

(** A record with declared length 1 at the start. *)
Definition malformedFirstBlob : list byte :=
  [x01; x02; x0d; x00; x01; x01; x00; x80; x32; x04; xff; xaa; xbb].

(** configuration (9 bytes, wTotalLength = 15), extra (4 bytes, type 0xFF),
    then a record with declared length 1. *)
Definition malformedMidwayBlob : list byte :=
  [x09; x02; x0f; x00; x01; x01; x00; x80; x32;
   x04; xff; xaa; xbb;
   x01; x00].

Definition ok (bytes : list byte) : Awaited USBInTransferResult :=
  Fulfilled {| status := "ok"; data := Some bytes |}.

(** Every USBDevice object has the one configuration above, active. *)
Definition usb (_ : nat) : USBDevice :=
  {| usbConfiguration := Some usbConfiguration1;
     usbConfigurations := [usbConfiguration1] |}.

(** The adaptor after a schedule, from a fresh one. *)
Definition after (ls : list Label) : State :=
  default (constructor usb) (run ls (constructor usb)).

(** [listDevices()] finds the device object 7, which gets id 1. *)
Definition enumerate7 : list Label :=
  [Call ListDevices; Settle 1 (Fulfilled (USBDevices [7])); Resume 0].

(** A second [listDevices()] has received the objects 8 and 7 and is about
    to take them in (activation 1). *)
Definition enumerate87 : list Label :=
  enumerate7 ++ [Call ListDevices; Settle 3 (Fulfilled (USBDevices [8; 7]))].

(** On top of that, a handle (number 1) has been opened on device id 1:
    [open()] is promise 4, [openWebusbDevice] activation 1 and
    [openDeviceHandle] activation 2. *)
Definition opened1 : list Label :=
  enumerate7
  ++ [Call (OpenDeviceHandle 1); Settle 4 (Fulfilled Undefined);
      Resume 1; Resume 2].

(** Then the handle is closed and [close()] (promise 6) fails; activation 3
    is the [closeDeviceHandle] that awaited it. *)
Definition closeFailed1 : list Label :=
  opened1
  ++ [Call (CloseDeviceHandle 1 1); Settle 6 (Rejected (WebusbError 19));
      Resume 3].

(** The handle is closed and [close()] (promise 6) is pending. *)
Definition closing1 : list Label :=
  opened1 ++ [Call (CloseDeviceHandle 1 1)].

(** After that, two calls of [openDeviceHandle(1)] that overlap: the first
    starts [openWebusbDevice] (activation 4) and waits for it (activation
    5), the second waits for it as well (activation 6). *)
Definition reopen1 : list Label :=
  closeFailed1 ++ [Call (OpenDeviceHandle 1)].

Definition reopen2 : list Label :=
  reopen1 ++ [Call (OpenDeviceHandle 1)].

(** [openWebusbDevice] continues, then the second call. *)
Definition reopen2Failing : list Label := reopen2 ++ [Resume 4].

Definition reopen2Failed : list Label := reopen2Failing ++ [Resume 6].

(** [openDeviceHandle(1)] and then [getConfigurations(1)], both before
    WebUSB has answered. *)
Definition openThenGetConfigurations : list Label :=
  enumerate7 ++ [Call (OpenDeviceHandle 1); Call (GetConfigurations 1)].

(** [getConfigurations(1)] has opened the device (promise 3) and awaits its
    first control transfer (promise 4, which stalls); meanwhile
    [openDeviceHandle(1)] has called [open()] (promise 7), which is
    pending. *)
Definition getConfigurationsThenOpen : list Label :=
  enumerate7
  ++ [Call (GetConfigurations 1); Settle 3 (Fulfilled Undefined); Resume 1;
      Call (OpenDeviceHandle 1);
      Settle 4 (Fulfilled (TransferResult
                             {| status := "stall"; data := None |}))].

(** [getConfigurations] on the device object 7 while it extracts the extra
    data of its only configuration. *)
Definition frame1 : GetConfigurationsFrame :=
  {| frameWebusbDevice := 7; activeConfigurationValue := Some 1;
     frameLibusbJsConfiguration := configuration1;
     remainingConfigurations := []; libusbJsConfigurations := [] |}.

(** A second [listDevices()] has received the object 8 alone. *)
Definition enumerate8 : list Label :=
  enumerate7 ++ [Call ListDevices; Settle 3 (Fulfilled (USBDevices [8]))].

(** Device id 1 has handle 1, and a second [listDevices()] has found the
    objects 8 and 7: object 8 has id 2. *)
Definition opened1With8 : list Label :=
  opened1
  ++ [Call ListDevices; Settle 6 (Fulfilled (USBDevices [8; 7])); Resume 3].

(** After the [close()] of device id 1 failed, a [listDevices()] has found
    no device: id 1 is dropped. *)
Definition closeFailed1Dropped : list Label :=
  closeFailed1
  ++ [Call ListDevices; Settle 8 (Fulfilled (USBDevices [])); Resume 4].
(** **** Schedules of the runtime *)

Definition afterTurns (ls : list Turn) : Scheduled :=
  default {| adaptor := constructor usb; jobs := [] |}
          (turns ls {| adaptor := constructor usb; jobs := [] |}).

(** [listDevices()] finds the object 7 (device id 1), then
    [openDeviceHandle(1)] returns handle 1; each time the caller's reaction
    ends the turn. *)
Definition jsOpened1 : list Turn :=
  [CallerTask; CallerCall ListDevices; CallerReturn;
   WebusbTask 1 (Fulfilled (USBDevices [7])); RunReaction 1; CallerReturn;
   CallerTask; CallerCall (OpenDeviceHandle 1); CallerReturn;
   WebusbTask 4 (Fulfilled Undefined); RunReaction 0; RunReaction 1;
   CallerReturn].

(** The caller closes the handle and, before [close()] (promise 6) is
    answered, calls [openDeviceHandle(1)] again: [openWebusbDevice]
    (activation 4, promise 8) waits for [close()] and the call (activation
    5, promise 7) for [openWebusbDevice].  Then [close()] fails.
    [closeDeviceHandle] continues first and fails, then [openWebusbDevice],
    and the caller's reaction to the failure of [closeDeviceHandle] is the
    next job, ahead of the continuation of [openDeviceHandle]. *)
Definition jsCloseFailedOverlapping : list Turn :=
  jsOpened1
  ++ [CallerTask; CallerCall (CloseDeviceHandle 1 1);
      CallerCall (OpenDeviceHandle 1); CallerReturn;
      WebusbTask 6 (Rejected (WebusbError 19));
      RunReaction 1; RunReaction 0].

(** What follows when that reaction calls [openDeviceHandle(1)] once more
    (promise 9, activation 6): the caller's code ends, and the two calls
    continue. *)
Definition jsRetry : list Turn :=
  [CallerReturn; RunReaction 1; RunReaction 1].

(** The whole of it: the close that fails, the retry, and the caller's two
    reactions, which end the turn. *)
Definition jsRetried : list Turn :=
  jsCloseFailedOverlapping
  ++ CallerCall (OpenDeviceHandle 1) :: jsRetry
  ++ [CallerReturn; CallerReturn].

End Example.

(* ===================================================================== *)
(** ** Facts about the descriptor walk *)
(* ===================================================================== *)

Set Warnings "-clear-no-such-hyp".

Import Js.

Module DescriptorFacts.
Import Descriptor.

Lemma extraDataOf_setExtraData_eq n x c :
  validNode n c → extraDataOf n (setExtraData n x c) = Some x.
Proof.
  unfold validNode.
  destruct n as [|i|i j]; simpl; [done| |].
  - intros [y Hy]. rewrite list_lookup_alter_eq.
    destruct (interfaces c !! i); simplify_eq/=; done.
  - intros [y Hy]. rewrite list_lookup_alter_eq.
    destruct (interfaces c !! i) as [itf|]; simplify_eq/=.
    rewrite list_lookup_alter_eq.
    destruct (endpoints itf !! j); simplify_eq/=; done.
Qed.

Lemma extraDataOf_setExtraData_ne n n' x c :
  n ≠ n' → extraDataOf n' (setExtraData n x c) = extraDataOf n' c.
Proof.
  intros Hne.
  destruct n as [|i|i j], n' as [|i'|i' j']; simpl; try done.
  - destruct (decide (i = i')) as [->|]; [done|].
    by rewrite list_lookup_alter_ne.
  - destruct (decide (i = i')) as [->|].
    + rewrite list_lookup_alter_eq. by destruct (interfaces c !! i').
    + by rewrite list_lookup_alter_ne.
  - destruct (decide (i = i')) as [->|].
    + rewrite list_lookup_alter_eq. by destruct (interfaces c !! i').
    + by rewrite list_lookup_alter_ne.
  - destruct (decide (i = i')) as [->|].
    + rewrite list_lookup_alter_eq.
      destruct (interfaces c !! i') as [itf|]; simpl; [|done].
      destruct (decide (j = j')) as [->|]; [congruence|].
      by rewrite list_lookup_alter_ne.
    + by rewrite list_lookup_alter_ne.
Qed.

(** [appendExtraData] puts the bytes behind those the node already has and
    leaves every other node alone. *)
Lemma extraBytes_appendExtraData_eq bs n c :
  validNode n c →
  extraDataOf n (appendExtraData bs n c) = Some (Some (extraBytes n c ++ bs)).
Proof.
  intros Hv. unfold appendExtraData, extraBytes.
  destruct Hv as [old Hold]. rewrite Hold. simpl.
  apply extraDataOf_setExtraData_eq. by exists old.
Qed.

Lemma extraDataOf_appendExtraData_ne bs n n' c :
  n ≠ n' → extraDataOf n' (appendExtraData bs n c) = extraDataOf n' c.
Proof.
  intros Hne. unfold appendExtraData.
  destruct (extraDataOf n c); [|done].
  by apply extraDataOf_setExtraData_ne.
Qed.

Lemma extraBytes_appendExtraData bs n c :
  validNode n c →
  extraBytes n (appendExtraData bs n c) = extraBytes n c ++ bs.
Proof.
  intros Hv. unfold extraBytes at 1.
  by rewrite extraBytes_appendExtraData_eq.
Qed.

Lemma extraBytes_appendExtraData_ne bs n n' c :
  n ≠ n' → extraBytes n' (appendExtraData bs n c) = extraBytes n' c.
Proof.
  intros Hne. unfold extraBytes.
  by rewrite extraDataOf_appendExtraData_ne.
Qed.

Lemma validNode_appendExtraData bs n n' c :
  validNode n' c → validNode n' (appendExtraData bs n c).
Proof.
  intros Hv. destruct (decide (n = n')) as [->|Hne].
  - unfold validNode. rewrite extraBytes_appendExtraData_eq; eauto.
  - unfold validNode. by rewrite extraDataOf_appendExtraData_ne.
Qed.

Lemma appendExtraData_invalid bs n c :
  ¬ validNode n c → appendExtraData bs n c = c.
Proof.
  unfold validNode, appendExtraData. intros Hn.
  destruct (extraDataOf n c) eqn:E; [|done]. destruct Hn. eauto.
Qed.

(** A fresh conversion has no extra data anywhere. *)
Lemma getLibusbJsEndpointDescriptor_extraData w e :
  getLibusbJsEndpointDescriptor w = Some e → endpointExtraData e = None.
Proof.
  unfold getLibusbJsEndpointDescriptor.
  destruct (getLibusbJsEndpointType _); intros; simplify_eq/=; done.
Qed.

Lemma getLibusbJsInterfaceDescriptor_extraData w itf :
  getLibusbJsInterfaceDescriptor w = Some itf →
  interfaceExtraData itf = None
  ∧ ∀ j e, endpoints itf !! j = Some e → endpointExtraData e = None.
Proof.
  unfold getLibusbJsInterfaceDescriptor.
  destruct (usbAlternates w) as [|a ?]; intros; simplify_eq/=.
  split; [done|]. intros j e He.
  apply list_elem_of_lookup_2, list_elem_of_omap in He as (u & _ & Hu).
  by eapply getLibusbJsEndpointDescriptor_extraData.
Qed.

Lemma getLibusbJsConfigurationDescriptor_noExtraData w a :
  noExtraData (getLibusbJsConfigurationDescriptor w a).
Proof.
  intros [|i|i j] x; simpl.
  - congruence.
  - destruct (omap _ _ !! i) as [itf|] eqn:E; intros; simplify_eq/=.
    apply list_elem_of_lookup_2, list_elem_of_omap in E as (u & _ & Hu).
    by apply getLibusbJsInterfaceDescriptor_extraData in Hu as [-> _].
  - destruct (omap _ _ !! i) as [itf|] eqn:E; simpl; [|done].
    apply list_elem_of_lookup_2, list_elem_of_omap in E as (u & _ & Hu).
    apply getLibusbJsInterfaceDescriptor_extraData in Hu as [_ Hu].
    destruct (endpoints itf !! j) as [e|] eqn:Ee; intros; simplify_eq/=.
    by rewrite (Hu _ _ Ee).
Qed.


(** **** One pass through the loop body *)

Lemma loopBody_descriptorAt d tl st len ty :
  descriptorAt d tl st = Some (len, ty) →
  loopBody d tl st
  = (st1 ← switchDescriptorType d len ty st;
     mret (NextIteration (advance len st1))).
Proof.
  unfold descriptorAt, loopBody.
  destruct (getUint8 d (offset st)) as [len'|]; [|done]. simpl.
  destruct (getUint8 d (offset st + 1)) as [ty'|]; [|done].
  case_decide as Hfit; [|done]. intros [= <- <-].
  destruct Hfit. rewrite !decide_False by lia. done.
Qed.

Lemma loopBody_no_descriptor d tl st st' :
  descriptorAt d tl st = None → loopBody d tl st ≠ Normal (NextIteration st').
Proof.
  unfold descriptorAt, loopBody.
  destruct (getUint8 d (offset st)) as [len|]; [|done]. simpl.
  destruct (decide (len < 2)); [done|].
  destruct (decide (tl < offset st + len)); [done|].
  destruct (getUint8 d (offset st + 1)) as [ty|]; [|done].
  rewrite decide_True by lia. done.
Qed.

Ltac switch_cases d st :=
  unfold switchDescriptorType;
  repeat case_decide;
  try destruct (getUint8 d (offset st + 2));
  unfold mret, Completion_ret; simpl;
  intros; simplify_eq/=.

Lemma switchDescriptorType_extra d len ty st :
  isExtraType ty →
  switchDescriptorType d len ty st
  = Normal {| offset := offset st;
              currentInterface := currentInterface st;
              currentEndpoint := currentEndpoint st;
              libusbJsConfiguration :=
                appendExtraData (Uint8Array d (offset st) len)
                  (targetObject st) (libusbJsConfiguration st) |}.
Proof.
  intros (H2 & H4 & H5). unfold switchDescriptorType.
  by rewrite !decide_False.
Qed.

Lemma switchDescriptorType_standard d len ty st st1 :
  ¬ isExtraType ty →
  switchDescriptorType d len ty st = Normal st1 →
  libusbJsConfiguration st1 = libusbJsConfiguration st.
Proof.
  intros Hty. revert Hty. switch_cases d st; try done.
  all: destruct Hty; by repeat split.
Qed.

Lemma switchDescriptorType_offset d len ty st st1 :
  switchDescriptorType d len ty st = Normal st1 → offset st1 = offset st.
Proof.
  switch_cases d st; done.
Qed.

Lemma switchDescriptorType_throw d len ty st e :
  switchDescriptorType d len ty st = Throw e → ¬ isExtraType ty.
Proof.
  intros Hsw Hty. by rewrite switchDescriptorType_extra in Hsw.
Qed.

Lemma findInterface_valid n c i :
  findInterface n c = Some i → validNode (InterfaceNode i) c.
Proof.
  unfold findInterface, validNode. simpl. intros Hf.
  apply fmap_Some in Hf as ([i' itf] & Hf & ->).
  apply list_find_Some in Hf as (Hl & _). simpl. by rewrite Hl.
Qed.

Lemma findEndpoint_valid a i c p :
  findEndpoint a i c = Some p → ∃ j, p = (i, j) ∧ validNode (EndpointNode i j) c.
Proof.
  unfold findEndpoint, validNode. simpl. intros Hf.
  destruct (interfaces c !! i) as [itf|] eqn:Hi; simplify_eq/=.
  destruct (list_find _ (endpoints itf)) as [[j e]|] eqn:He; simplify_eq/=.
  exists j. split; [done|].
  apply list_find_Some in He as (Hl & _). by rewrite Hl.
Qed.

Lemma switchDescriptorType_validPointers d len ty st st1 :
  validPointers st →
  switchDescriptorType d len ty st = Normal st1 →
  validPointers st1.
Proof.
  intros [Hi He]. switch_cases d st; try done.
  - split; simpl; [|done]. intros i. apply findInterface_valid.
  - split; simpl; [done|]. intros i j.
    destruct (currentInterface st) as [i0|]; [|done].
    intros (j' & [= -> ->] & Hv)%findEndpoint_valid. done.
  - split; simpl.
    + intros i Hci. by apply validNode_appendExtraData, Hi.
    + intros i j Hce. by apply validNode_appendExtraData, He.
  - split; simpl.
    + intros i Hci. by apply validNode_appendExtraData, Hi.
    + intros i j Hce. by apply validNode_appendExtraData, He.
Qed.

Lemma initialWalkState_validPointers c : validPointers (initialWalkState c).
Proof. by split. Qed.

Lemma targetObject_valid st :
  validPointers st → validNode (targetObject st) (libusbJsConfiguration st).
Proof.
  intros [Hi He]. unfold targetObject.
  destruct (currentEndpoint st) as [[i j]|]; [by apply He|].
  destruct (currentInterface st) as [i|]; [by apply Hi|].
  by eexists.
Qed.


Lemma descriptorAt_Some d tl st len ty :
  descriptorAt d tl st = Some (len, ty) →
  getUint8 d (offset st) = Normal len
  ∧ getUint8 d (offset st + 1) = Normal ty
  ∧ 2 ≤ len ∧ offset st + len ≤ tl.
Proof.
  unfold descriptorAt.
  destruct (getUint8 d (offset st)); [|done].
  destruct (getUint8 d (offset st + 1)); [|done].
  case_decide; [|done]. intros [= <- <-]. tauto.
Qed.

Lemma loopBody_next d tl st st' :
  loopBody d tl st = Normal (NextIteration st') →
  ∃ len ty st1,
    descriptorAt d tl st = Some (len, ty)
    ∧ switchDescriptorType d len ty st = Normal st1
    ∧ st' = advance len st1.
Proof.
  intros Hb. destruct (descriptorAt d tl st) as [[len ty]|] eqn:Hd.
  - rewrite (loopBody_descriptorAt _ _ _ _ _ Hd) in Hb.
    destruct (switchDescriptorType d len ty st) as [st1|] eqn:Hsw;
      [|done].
    injection Hb as <-. by eexists _, _, _.
  - by apply loopBody_no_descriptor with (st' := st') in Hd.
Qed.

Lemma loopBody_next_offset d tl st st' :
  loopBody d tl st = Normal (NextIteration st') →
  offset st + 2 ≤ offset st'.
Proof.
  intros (len & ty & st1 & Hd & Hsw & ->)%loopBody_next.
  apply descriptorAt_Some in Hd as (_ & _ & Hlen & _).
  apply switchDescriptorType_offset in Hsw. simpl. lia.
Qed.

(** **** The whole walk *)

(** The loop ends: [totalLength - offset] passes are always enough. *)
Lemma walk_total fuel d tl st :
  tl - offset st ≤ fuel → is_Some (walk fuel d tl st).
Proof.
  revert st. induction fuel as [|fuel IH]; intros st Hfuel; simpl.
  - rewrite decide_False by lia. eauto.
  - case_decide; [|eauto].
    destruct (loopBody d tl st) as [[st'| |]|e] eqn:Hb; eauto.
    apply IH. apply loopBody_next_offset in Hb. lia.
Qed.

Lemma walk_validNode fuel d tl st r c' n :
  walk fuel d tl st = Some (r, c') →
  validNode n (libusbJsConfiguration st) → validNode n c'.
Proof.
  revert st. induction fuel as [|fuel IH]; intros st; simpl.
  - case_decide; [done|]. by intros [= _ <-].
  - case_decide; [|by intros [= _ <-]].
    destruct (loopBody d tl st) as [[st'| |]|e] eqn:Hb;
      try by intros [= _ <-].
    intros Hw Hv. apply (IH _ Hw).
    apply loopBody_next in Hb as (len & ty & st1 & Hd & Hsw & ->). simpl.
    destruct (decide (isExtraType ty)) as [Hty|Hty].
    + rewrite switchDescriptorType_extra in Hsw by done.
      injection Hsw as <-. simpl. by apply validNode_appendExtraData.
    + by rewrite (switchDescriptorType_standard _ _ _ _ _ Hty Hsw).
Qed.

Lemma extraRecordFor_no_descriptor d tl n st :
  descriptorAt d tl st = None → extraRecordFor d tl n st = None.
Proof. unfold extraRecordFor. by intros ->. Qed.

Lemma loopBody_not_next_extraRecordFor d tl n st :
  (∀ st', loopBody d tl st ≠ Normal (NextIteration st')) →
  extraRecordFor d tl n st = None.
Proof.
  intros Hb. unfold extraRecordFor.
  destruct (descriptorAt d tl st) as [[len ty]|] eqn:Hd; [|done].
  case_decide as Hty; [|done]. destruct Hty as [Hty _].
  rewrite (loopBody_descriptorAt _ _ _ _ _ Hd) in Hb.
  rewrite switchDescriptorType_extra in Hb by done. by edestruct Hb.
Qed.

Lemma walk_S fuel d tl st :
  walk (S fuel) d tl st
  = if decide (offset st < tl) then
      match loopBody d tl st with
      | Throw e => Some (Throw e, libusbJsConfiguration st)
      | Normal ReturnFromFunction =>
          Some (Normal MalformedDescriptor, libusbJsConfiguration st)
      | Normal BreakLoop =>
          Some (Normal TruncatedDescriptor, libusbJsConfiguration st)
      | Normal (NextIteration st') => walk fuel d tl st'
      end
    else Some (Normal EndOfBlob, libusbJsConfiguration st).
Proof. done. Qed.

Lemma iterations_S fuel d tl st :
  iterations (S fuel) d tl st
  = if decide (offset st < tl) then
      st :: match loopBody d tl st with
            | Normal (NextIteration st') => iterations fuel d tl st'
            | _ => []
            end
    else [].
Proof. done. Qed.

Lemma omap_cons_Some {A B} (f : A → option B) x y l :
  f x = Some y → omap f (x :: l) = y :: omap f l.
Proof. simpl. by intros ->. Qed.

Lemma omap_cons_None {A B} (f : A → option B) x l :
  f x = None → omap f (x :: l) = omap f l.
Proof. simpl. by intros ->. Qed.

Lemma extraRecordFor_extra d tl st len ty :
  descriptorAt d tl st = Some (len, ty) → isExtraType ty →
  extraRecordFor d tl (targetObject st) st
  = Some (Uint8Array d (offset st) len).
Proof.
  intros Hd Hty. unfold extraRecordFor. rewrite Hd.
  by rewrite decide_True.
Qed.

Lemma extraRecordFor_other d tl n st len ty :
  descriptorAt d tl st = Some (len, ty) →
  ¬ (isExtraType ty ∧ targetObject st = n) →
  extraRecordFor d tl n st = None.
Proof.
  intros Hd Hty. unfold extraRecordFor. rewrite Hd.
  by rewrite decide_False.
Qed.

(** What a walk leaves in a node: the bytes it had, followed by the records
    of an extra type met while the node was the most specific current one,
    each whole and in the order of the passes. *)
Lemma walk_extraBytes fuel d tl st r c' n :
  validPointers st →
  walk fuel d tl st = Some (r, c') →
  validNode n (libusbJsConfiguration st) →
  extraBytes n c'
  = extraBytes n (libusbJsConfiguration st)
    ++ concat (omap (extraRecordFor d tl n) (iterations fuel d tl st)).
Proof.
  revert st. induction fuel as [|fuel IH]; intros st Hp.
  { simpl. case_decide; [done|]. intros [= _ <-] _. by rewrite app_nil_r. }
  rewrite walk_S, iterations_S.
  case_decide; [|intros [= _ <-] _; by rewrite app_nil_r].
  destruct (loopBody d tl st) as [[st'| |]|e] eqn:Hb.
  - intros Hw Hv.
    apply loopBody_next in Hb as (len & ty & st1 & Hd & Hsw & ->).
    assert (validPointers (advance len st1)) as Hp1.
    { by apply (switchDescriptorType_validPointers _ _ _ _ _ Hp Hsw). }
    destruct (decide (isExtraType ty)) as [Hty|Hty].
    + rewrite switchDescriptorType_extra in Hsw by done.
      injection Hsw as <-.
      rewrite (IH _ Hp1 Hw) by (by apply validNode_appendExtraData).
      cbn [libusbJsConfiguration advance].
      destruct (decide (targetObject st = n)) as [<-|Hne].
      * rewrite (omap_cons_Some _ _ _ _
                   (extraRecordFor_extra _ _ _ _ _ Hd Hty)).
        rewrite extraBytes_appendExtraData
          by (by apply targetObject_valid).
        cbn [concat]. by rewrite <- (assoc_L (++)).
      * rewrite (omap_cons_None _ _ _ (extraRecordFor_other _ _ n _ _ _ Hd
                                         ltac:(tauto))).
        by rewrite extraBytes_appendExtraData_ne.
    + rewrite (omap_cons_None _ _ _ (extraRecordFor_other _ _ n _ _ _ Hd
                                       ltac:(tauto))).
      assert (libusbJsConfiguration (advance len st1)
              = libusbJsConfiguration st) as Hc
        by apply (switchDescriptorType_standard _ _ _ _ _ Hty Hsw).
      rewrite (IH _ Hp1 Hw) by (by rewrite Hc). by rewrite Hc.
  - intros [= _ <-] _.
    rewrite omap_cons_None
      by (apply loopBody_not_next_extraRecordFor; by rewrite Hb).
    by rewrite app_nil_r.
  - intros [= _ <-] _.
    rewrite omap_cons_None
      by (apply loopBody_not_next_extraRecordFor; by rewrite Hb).
    by rewrite app_nil_r.
  - intros [= _ <-] _.
    rewrite omap_cons_None
      by (apply loopBody_not_next_extraRecordFor; by rewrite Hb).
    by rewrite app_nil_r.
Qed.

(** The passes visit strictly increasing offsets. *)
Lemma iterations_offset_ge fuel d tl st :
  Forall (λ s, offset st ≤ offset s) (iterations fuel d tl st).
Proof.
  revert st. induction fuel as [|fuel IH]; intros st; simpl.
  { by case_decide. }
  case_decide; [|done]. constructor; [done|].
  destruct (loopBody d tl st) as [[st'| |]|e] eqn:Hb; try done.
  apply loopBody_next_offset in Hb.
  eapply Forall_impl; [apply IH|]. simpl. intros. lia.
Qed.

Lemma iterations_sorted fuel d tl st :
  StronglySorted (λ s1 s2, offset s1 < offset s2) (iterations fuel d tl st).
Proof.
  revert st. induction fuel as [|fuel IH]; intros st; simpl.
  { case_decide; constructor. }
  case_decide; [|constructor].
  destruct (loopBody d tl st) as [[st'| |]|e] eqn:Hb;
    try (repeat constructor).
  - apply IH.
  - apply loopBody_next_offset in Hb.
    eapply Forall_impl; [apply iterations_offset_ge|]. simpl. intros. lia.
Qed.


(** Within a blob of [totalLength] bytes no read of the walk is out of
    bounds, so the walk does not throw. *)
Lemma getUint8_in_bounds d i :
  i < length d → ∃ n, getUint8 d i = Normal n.
Proof.
  intros [b Hb]%lookup_lt_is_Some_2. unfold getUint8. rewrite Hb. eauto.
Qed.

Lemma loopBody_no_throw d tl st e :
  tl ≤ length d → offset st < tl → loopBody d tl st ≠ Throw e.
Proof.
  intros Hlen Hoff. unfold loopBody.
  destruct (getUint8_in_bounds d (offset st)) as [len ->]; [lia|]. simpl.
  case_decide; [done|]. case_decide; [done|].
  destruct (getUint8_in_bounds d (offset st + 1)) as [ty ->]; [lia|]. simpl.
  unfold switchDescriptorType.
  repeat case_decide; try done.
  - destruct (getUint8_in_bounds d (offset st + 2)) as [x ->]; [|done].
    unfold INTERFACE_DESCRIPTOR_LENGTH in *. lia.
  - destruct (getUint8_in_bounds d (offset st + 2)) as [x ->]; [|done].
    unfold ENDPOINT_DESCRIPTOR_LENGTH in *. lia.
Qed.

Lemma walk_no_throw fuel d tl st e c' :
  tl ≤ length d → walk fuel d tl st ≠ Some (Throw e, c').
Proof.
  intros Hlen. revert st.
  induction fuel as [|fuel IH]; intros st; simpl.
  - by case_decide.
  - case_decide; [|done].
    destruct (loopBody d tl st) as [[st'| |]|e'] eqn:Hb; try done.
    by apply loopBody_no_throw in Hb.
Qed.

(** A record with a declared length below 2 ends the walk on the spot, with
    the tree as it is. *)
Lemma loopBody_malformed d tl st len :
  getUint8 d (offset st) = Normal len → len < 2 →
  loopBody d tl st = Normal ReturnFromFunction.
Proof.
  intros Hlen Hlt. unfold loopBody. rewrite Hlen. simpl.
  by rewrite decide_True.
Qed.

Lemma walk_malformed fuel d tl st len :
  offset st < tl → getUint8 d (offset st) = Normal len → len < 2 →
  walk (S fuel) d tl st
  = Some (Normal MalformedDescriptor, libusbJsConfiguration st).
Proof.
  intros Hoff Hlen Hlt. rewrite walk_S, decide_True by done.
  by rewrite (loopBody_malformed _ _ _ _ Hlen Hlt).
Qed.

Lemma iterations_malformed fuel d tl st len :
  offset st < tl → getUint8 d (offset st) = Normal len → len < 2 →
  iterations (S fuel) d tl st = [st].
Proof.
  intros Hoff Hlen Hlt. rewrite iterations_S, decide_True by done.
  by rewrite (loopBody_malformed _ _ _ _ Hlen Hlt).
Qed.

(** The code after the second transfer always completes. *)
Lemma parseDescriptors_total tl r c : is_Some (parseDescriptors tl r c).
Proof.
  unfold parseDescriptors. destruct (data r) as [d|]; [|eauto].
  repeat case_decide; eauto.
  destruct (walk_total tl d tl (initialWalkState c)) as [[x c'] ->];
    [simpl; lia|eauto].
Qed.

Lemma fetchAndFillConfigurationExtraDataForOpenedDevice_total first second c :
  is_Some (fetchAndFillConfigurationExtraDataForOpenedDevice first second c).
Proof.
  unfold fetchAndFillConfigurationExtraDataForOpenedDevice.
  destruct (await first ≫= readTotalLength) as [[tl|]|]; eauto.
  destruct (await second); eauto. apply parseDescriptors_total.
Qed.

(** Unless the walk ran, the tree is the one that was passed in. *)
Lemma parseDescriptors_unchanged tl r c x c' :
  parseDescriptors tl r c = Some (x, c') →
  (∀ exit, x ≠ Normal (Some exit)) → c' = c.
Proof.
  unfold parseDescriptors. destruct (data r) as [d|]; [|by intros [= _ <-]].
  case_decide; [by intros [= _ <-]|].
  case_decide as Hlen; [by intros [= _ <-]|].
  destruct (walk _ _ _ _) as [[[exit|e] c1]|] eqn:Hw; [| |done].
  - intros [= <- <-] Hx. by destruct (Hx exit).
  - apply walk_no_throw in Hw; [done|lia].
Qed.

Lemma fetchAndFillConfigurationExtraDataForOpenedDevice_unchanged
    first second c x c' :
  fetchAndFillConfigurationExtraDataForOpenedDevice first second c
  = Some (x, c') →
  (∀ exit, x ≠ Normal (Some exit)) → c' = c.
Proof.
  unfold fetchAndFillConfigurationExtraDataForOpenedDevice.
  destruct (await first ≫= readTotalLength) as [[tl|]|];
    try by intros [= _ <-].
  destruct (await second); [|by intros [= _ <-]].
  apply parseDescriptors_unchanged.
Qed.

End DescriptorFacts.

(* ===================================================================== *)
(** ** Facts about the device registry *)
(* ===================================================================== *)

Import Js.


Module RegistryFacts.
Import Descriptor Adaptor.

(** **** The JavaScript [Map] *)

Section JsMap.
Context {V : Type}.
Implicit Types (m : list (nat * V)) (k : nat) (v : V).

Lemma Map_get_Some_elem m k v : Map_get m k = Some v → (k, v) ∈ m.
Proof.
  induction m as [|[k' v'] m IH]; simpl; [done|].
  destruct (decide (k' = k)) as [->|]; [intros [= ->]; left|right; auto].
Qed.

Lemma Map_get_None m k : Map_get m k = None ↔ k ∉ Map_keys m.
Proof.
  unfold Map_keys. induction m as [|[k' v'] m IH]; simpl.
  - split; [intros _; apply not_elem_of_nil|done].
  - rewrite not_elem_of_cons.
    destruct (decide (k' = k)) as [->|]; [|rewrite IH]; naive_solver.
Qed.

Lemma elem_Map_keys m k v : (k, v) ∈ m → k ∈ Map_keys m.
Proof. intros Hin. by apply (list_elem_of_fmap_2 fst _ (k, v)). Qed.

Lemma Map_get_elem m k v :
  NoDup (Map_keys m) → (k, v) ∈ m → Map_get m k = Some v.
Proof.
  induction m as [|[k' v'] m IH]; simpl.
  - intros _ []%elem_of_nil.
  - intros [Hk Hm]%NoDup_cons [[= -> ->]|Hin]%elem_of_cons.
    + by rewrite decide_True.
    + rewrite decide_False; [by apply IH|].
      intros ->. apply Hk. by eapply elem_Map_keys.
Qed.

Lemma Map_set_elem m k v k' v' :
  (k', v') ∈ Map_set m k v → (k', v') = (k, v) ∨ (k', v') ∈ m.
Proof.
  induction m as [|[k0 v0] m IH]; simpl.
  - intros ->%list_elem_of_singleton. by left.
  - destruct (decide (k0 = k)) as [->|].
    + intros [->|Hin]%elem_of_cons; [by left|]. right. by right.
    + intros [[= -> ->]|Hin]%elem_of_cons; [right; left|].
      destruct (IH Hin) as [->|?]; [by left|right; by right].
Qed.

Lemma Map_set_keys m k v k' :
  k' ∈ Map_keys (Map_set m k v) ↔ k' = k ∨ k' ∈ Map_keys m.
Proof.
  unfold Map_keys. induction m as [|[k0 v0] m IH]; simpl.
  - rewrite list_elem_of_singleton, elem_of_nil. tauto.
  - destruct (decide (k0 = k)) as [->|]; simpl; rewrite !elem_of_cons;
      [tauto|].
    rewrite IH. tauto.
Qed.

Lemma Map_set_NoDup m k v :
  NoDup (Map_keys m) → NoDup (Map_keys (Map_set m k v)).
Proof.
  induction m as [|[k0 v0] m IH]; simpl.
  - intros _. apply NoDup_singleton.
  - intros [Hk Hm]%NoDup_cons. destruct (decide (k0 = k)) as [->|]; simpl.
    + by apply NoDup_cons.
    + apply NoDup_cons. split; [|by apply IH].
      fold (Map_keys (Map_set m k v)). rewrite Map_set_keys. naive_solver.
Qed.

Lemma Map_set_elem_new m k v : (k, v) ∈ Map_set m k v.
Proof.
  induction m as [|[k0 v0] m IH]; simpl; [left|].
  destruct (decide (k0 = k)) as [->|]; [left|by right].
Qed.

Lemma Map_set_elem_old m k v k' v' :
  (k', v') ∈ m → k' ≠ k → (k', v') ∈ Map_set m k v.
Proof.
  induction m as [|[k0 v0] m IH]; simpl; [by intros []%elem_of_nil|].
  intros [[= <- <-]|Hin]%elem_of_cons Hne.
  - rewrite decide_False by done. left.
  - destruct (decide (k0 = k)) as [->|]; right; auto.
Qed.
End JsMap.

(** **** [getDeviceId_] *)

Lemma getDeviceId_loop_Some s d keys i :
  getDeviceId_loop s d keys = Some i →
  i ∈ keys
  ∧ ∃ r, Map_get (idToDeviceMap_ s) i = Some r
         ∧ webusbDevice (deviceStates s r) = d.
Proof.
  induction keys as [|k keys IH]; simpl; [done|].
  destruct (Map_get (idToDeviceMap_ s) k) as [r|] eqn:Hk.
  - case_decide as Hd.
    + intros [= <-]. split; [left|eauto].
    + intros [? ?]%IH. split; [by right|done].
  - intros [? ?]%IH. split; [by right|done].
Qed.

Lemma getDeviceId_loop_None s d keys i r :
  getDeviceId_loop s d keys = None →
  i ∈ keys → Map_get (idToDeviceMap_ s) i = Some r →
  webusbDevice (deviceStates s r) ≠ d.
Proof.
  induction keys as [|k keys IH]; simpl; [by intros _ []%elem_of_nil|].
  intros Hloop [->|Hin]%elem_of_cons Hi.
  - rewrite Hi in Hloop. by case_decide.
  - apply IH; [|done..].
    destruct (Map_get (idToDeviceMap_ s) k); [by case_decide|done].
Qed.

Lemma getDeviceId_Some s d i :
  getDeviceId_ d s = Some i →
  ∃ r, Map_get (idToDeviceMap_ s) i = Some r
       ∧ webusbDevice (deviceStates s r) = d.
Proof. by intros [_ ?]%getDeviceId_loop_Some. Qed.

Lemma getDeviceId_None s d i r :
  getDeviceId_ d s = None →
  Map_get (idToDeviceMap_ s) i = Some r →
  webusbDevice (deviceStates s r) ≠ d.
Proof.
  intros Hn Hi. eapply getDeviceId_loop_None; [done| |done].
  by eapply elem_Map_keys, Map_get_Some_elem.
Qed.

(** When every entry for the device carries the same id, that id is the
    one found. *)
Lemma getDeviceId_unique s d i :
  (∃ r, Map_get (idToDeviceMap_ s) i = Some r
        ∧ webusbDevice (deviceStates s r) = d) →
  (∀ k r, Map_get (idToDeviceMap_ s) k = Some r →
          webusbDevice (deviceStates s r) = d → k = i) →
  getDeviceId_ d s = Some i.
Proof.
  intros (r & Hi & Hd) Huniq.
  destruct (getDeviceId_ d s) as [j|] eqn:Hj.
  - apply getDeviceId_Some in Hj as (r' & Hj & Hd'). f_equal. eauto.
  - by destruct (getDeviceId_None _ _ _ _ Hj Hi).
Qed.

(** The result depends on the map and on the [webusbDevice] fields of the
    objects in it, and on nothing else. *)
Lemma getDeviceId_loop_ext s s' d keys :
  idToDeviceMap_ s' = idToDeviceMap_ s →
  (∀ k r, Map_get (idToDeviceMap_ s) k = Some r →
          webusbDevice (deviceStates s' r) = webusbDevice (deviceStates s r)) →
  getDeviceId_loop s' d keys = getDeviceId_loop s d keys.
Proof.
  intros Hm Hd. induction keys as [|k keys IH]; simpl; [done|].
  rewrite Hm. destruct (Map_get (idToDeviceMap_ s) k) as [r|] eqn:Hk; [|done].
  by rewrite (Hd _ _ Hk), IH.
Qed.

Lemma getDeviceId_ext s s' d :
  idToDeviceMap_ s' = idToDeviceMap_ s →
  (∀ k r, Map_get (idToDeviceMap_ s) k = Some r →
          webusbDevice (deviceStates s' r) = webusbDevice (deviceStates s r)) →
  getDeviceId_ d s' = getDeviceId_ d s.
Proof.
  intros Hm Hd. unfold getDeviceId_. rewrite Hm.
  by apply getDeviceId_loop_ext.
Qed.


(** **** [updateDeviceMap_] *)

Lemma updateDeviceMap_inv_getDeviceId_ s0 processed m s d :
  registryWf s0 → updateDeviceMap_inv s0 processed m s →
  getDeviceId_ d s = getDeviceId_ d s0.
Proof.
  intros [_ Hwf] Hinv. apply getDeviceId_ext; [apply Hinv|].
  intros k r Hk%Map_get_Some_elem. f_equal. apply Hinv.
  by apply Hwf in Hk as [_ ?].
Qed.

Lemma updateDeviceMap_inv_init s0 : updateDeviceMap_inv s0 [] [] s0.
Proof.
  split; try done.
  - intros r ??. lia.
  - by intros k r []%elem_of_nil.
  - constructor.
  - by intros d []%elem_of_nil.
Qed.

Lemma updateDeviceMap_body_inv s0 processed m s d m' s' :
  registryWf s0 → updateDeviceMap_inv s0 processed m s →
  updateDeviceMap_body (m, s) d = (m', s') →
  updateDeviceMap_inv s0 (processed ++ [d]) m' s'.
Proof.
  intros Hwf Hinv. unfold updateDeviceMap_body.
  rewrite (updateDeviceMap_inv_getDeviceId_ _ _ _ _ _ Hwf Hinv).
  destruct Hinv as [Hmap HnId HnRef Hold Hnew Hent Hnd Hproc Hh Hp Ha].
  destruct (getDeviceId_ d s0) as [k|] eqn:Hd.
  - (* an already tracked device *)
    rewrite Hmap.
    destruct (getDeviceId_Some _ _ _ Hd) as (r & Hk & Hdev). rewrite Hk.
    intros [= <- <-].
    assert (r < nextDeviceState s0) as Hr.
    { by apply Map_get_Some_elem, Hwf in Hk as [_ ?]. }
    split; try done.
    + intros k' r' [[= -> ->]|Hin]%Map_set_elem.
      * rewrite (Hold _ Hr), Hdev. split; [set_solver|]. by left.
      * destruct (Hent _ _ Hin) as [? ?]. split; [set_solver|done].
    + by apply Map_set_NoDup.
    + intros d' [Hd'|Hd']%elem_of_app; [|apply list_elem_of_singleton in Hd' as ->].
      * destruct (Hproc _ Hd') as (k' & r' & Hin & Hdev').
        destruct (decide (k' = k)) as [->|Hne].
        -- exists k, r. split; [apply Map_set_elem_new|].
           destruct (Hent _ _ Hin) as [_ [[Hk' _]|[? _]]].
           ++ rewrite Hk in Hk'. by injection Hk' as ->.
           ++ apply Map_get_Some_elem, Hwf in Hk as [? _]. lia.
        -- exists k', r'. split; [by apply Map_set_elem_old|done].
      * exists k, r. split; [apply Map_set_elem_new|].
        by rewrite (Hold _ Hr).
  - (* a new device *)
    cbn [allocDeviceState setNextFreeDeviceId_ nextDeviceState deviceStates].
    intros [= <- <-].
    split; cbn [idToDeviceMap_ nextFreeDeviceId_ nextDeviceState deviceStates
                setDeviceStates setNextFreeDeviceId_ nextFreeDeviceHandle_
                promises activations];
      try done; try lia.
    + intros r Hr. rewrite fn_lookup_insert_ne by lia. by apply Hold.
    + intros r Hr1 Hr2. destruct (decide (r = nextDeviceState s)) as [->|].
      * by rewrite fn_lookup_insert.
      * rewrite fn_lookup_insert_ne by done. apply Hnew; lia.
    + intros k' r' [[= -> ->]|Hin]%Map_set_elem.
      * rewrite fn_lookup_insert. simpl. split; [set_solver|].
        right. repeat split; try done; lia.
      * destruct (Hent _ _ Hin) as [Hin' Hcase].
        assert (r' < nextDeviceState s) as Hr'.
        { destruct Hcase as [[Hk _]|(_ & ? & _)]; [|lia].
          apply Map_get_Some_elem, Hwf in Hk as [_ ?]. lia. }
        rewrite fn_lookup_insert_ne by lia.
        split; [set_solver|].
        destruct Hcase as [?|(? & ? & ?)]; [by left|right].
        repeat split; try done; lia.
    + by apply Map_set_NoDup.
    + intros d' [Hd'|Hd']%elem_of_app; [|apply list_elem_of_singleton in Hd' as ->].
      * destruct (Hproc _ Hd') as (k' & r' & Hin & Hdev').
        destruct (Hent _ _ Hin) as [_ Hcase].
        assert (k' < nextFreeDeviceId_ s ∧ r' < nextDeviceState s)
          as [Hk' Hr'].
        { destruct Hcase as [[Hk _]|(? & ? & _)]; [|lia].
          apply Map_get_Some_elem, Hwf in Hk as [? ?]. lia. }
        exists k', r'. split; [apply Map_set_elem_old; [done|lia]|].
        by rewrite fn_lookup_insert_ne by lia.
      * exists (nextFreeDeviceId_ s), (nextDeviceState s).
        split; [apply Map_set_elem_new|]. by rewrite fn_lookup_insert.
Qed.

Lemma updateDeviceMap_loop_inv s0 l processed m s m' s' :
  registryWf s0 → updateDeviceMap_inv s0 processed m s →
  foldl updateDeviceMap_body (m, s) l = (m', s') →
  updateDeviceMap_inv s0 (processed ++ l) m' s'.
Proof.
  intros Hwf. revert processed m s.
  induction l as [|d l IH]; intros processed m s Hinv; cbn [foldl].
  - intros [= <- <-]. by rewrite app_nil_r.
  - destruct (updateDeviceMap_body (m, s) d) as [m1 s1] eqn:Hb.
    intros Hl. rewrite (cons_middle d), (assoc_L (++)).
    eapply IH; [|done]. by eapply updateDeviceMap_body_inv.
Qed.

(** The loop of [updateDeviceMap_] as a whole. *)
Lemma updateDeviceMap_spec l s :
  registryWf s →
  ∃ m s', updateDeviceMap_ l s = setIdToDeviceMap_ m s'
          ∧ updateDeviceMap_inv s l m s'.
Proof.
  intros Hwf. unfold updateDeviceMap_.
  destruct (foldl updateDeviceMap_body ([], s) l) as [m s'] eqn:Hl.
  exists m, s'. split; [done|].
  apply (updateDeviceMap_loop_inv s l [] [] s);
    auto using updateDeviceMap_inv_init.
Qed.


Lemma updateDeviceMap_registryWf l s :
  registryWf s → registryWf (updateDeviceMap_ l s).
Proof.
  intros Hwf. destruct (updateDeviceMap_spec l s Hwf) as (m & s' & -> & Hinv).
  split; cbn [idToDeviceMap_ setIdToDeviceMap_ nextFreeDeviceId_
              nextDeviceState]; [apply Hinv|].
  intros k r Hin. destruct (inv_entries _ _ _ _ Hinv _ _ Hin) as [_ Hcase].
  pose proof (inv_nextId _ _ _ _ Hinv). pose proof (inv_nextRef _ _ _ _ Hinv).
  destruct Hcase as [[Hk _]|(? & ? & _)]; [|lia].
  apply Map_get_Some_elem, Hwf in Hk as [? ?]. lia.
Qed.

(** Every device of the snapshot has an id afterwards. *)
Lemma updateDeviceMap_present l s d :
  registryWf s → d ∈ l → is_Some (getDeviceId_ d (updateDeviceMap_ l s)).
Proof.
  intros Hwf Hd. destruct (updateDeviceMap_spec l s Hwf) as (m & s' & -> & Hinv).
  destruct (inv_processed _ _ _ _ Hinv _ Hd) as (k & r & Hin & Hdev).
  destruct (getDeviceId_ d (setIdToDeviceMap_ m s')) as [i|] eqn:Hi; [eauto|].
  destruct (getDeviceId_None _ _ k r Hi); [|done].
  apply Map_get_elem; [apply Hinv|done].
Qed.

(** A tracked device that is in the snapshot keeps its id and its
    [DeviceState] object, handles included. *)
Lemma updateDeviceMap_keeps l s d i :
  registryWf s → getDeviceId_ d s = Some i → d ∈ l →
  getDeviceId_ d (updateDeviceMap_ l s) = Some i
  ∧ ∃ r, Map_get (idToDeviceMap_ s) i = Some r
         ∧ Map_get (idToDeviceMap_ (updateDeviceMap_ l s)) i = Some r
         ∧ deviceStates (updateDeviceMap_ l s) r = deviceStates s r.
Proof.
  intros Hwf Hi Hd.
  destruct (updateDeviceMap_spec l s Hwf) as (m & s' & -> & Hinv).
  destruct (inv_processed _ _ _ _ Hinv _ Hd) as (k & r & Hin & Hdev).
  assert (∀ k r, (k, r) ∈ m → webusbDevice (deviceStates s' r) = d →
                 k = i ∧ Map_get (idToDeviceMap_ s) i = Some r) as Huniq.
  { intros k' r' Hin' Hdev'.
    destruct (inv_entries _ _ _ _ Hinv _ _ Hin') as [_ Hcase].
    rewrite Hdev' in Hcase. destruct Hcase as [[Hk Hk']|(_ & _ & ?)].
    - rewrite Hi in Hk'. by injection Hk' as ->.
    - congruence. }
  destruct (Huniq _ _ Hin Hdev) as [-> Hr].
  assert (Map_get m i = Some r) as Hm by (apply Map_get_elem; [apply Hinv|done]).
  split; [|exists r; repeat split; try done].
  - apply getDeviceId_unique; [by exists r|].
    intros k' r' Hk'%Map_get_Some_elem Hdev'. by apply (Huniq _ _ Hk' Hdev').
  - apply (inv_old _ _ _ _ Hinv).
    by apply Map_get_Some_elem, Hwf in Hr as [_ ?].
Qed.

(** A tracked device that is not in the snapshot loses its id: the id maps
    to nothing in the new map. *)
Lemma updateDeviceMap_drops l s i r :
  registryWf s → Map_get (idToDeviceMap_ s) i = Some r →
  webusbDevice (deviceStates s r) ∉ l →
  Map_get (idToDeviceMap_ (updateDeviceMap_ l s)) i = None.
Proof.
  intros Hwf Hi Hd.
  destruct (updateDeviceMap_spec l s Hwf) as (m & s' & -> & Hinv).
  cbn [idToDeviceMap_ setIdToDeviceMap_].
  destruct (Map_get m i) as [r'|] eqn:Hm; [|done]. exfalso.
  apply Map_get_Some_elem in Hm.
  destruct (inv_entries _ _ _ _ Hinv _ _ Hm) as [Hin Hcase].
  destruct Hcase as [[Hk _]|(? & _)].
  - rewrite Hi in Hk. injection Hk as <-. apply Hd.
    rewrite <- (inv_old _ _ _ _ Hinv r); [done|].
    by apply Map_get_Some_elem, Hwf in Hi as [_ ?].
  - apply Map_get_Some_elem, Hwf in Hi as [? _]. lia.
Qed.

Lemma updateDeviceMap_retired l s i :
  registryWf s → retired i s → retired i (updateDeviceMap_ l s).
Proof.
  intros Hwf [Hi Hlt].
  destruct (updateDeviceMap_spec l s Hwf) as (m & s' & -> & Hinv).
  pose proof (inv_nextId _ _ _ _ Hinv).
  split; cbn [idToDeviceMap_ setIdToDeviceMap_ nextFreeDeviceId_]; [|lia].
  destruct (Map_get m i) as [r'|] eqn:Hm; [|done]. exfalso.
  apply Map_get_Some_elem in Hm.
  destruct (inv_entries _ _ _ _ Hinv _ _ Hm) as [_ [[Hk _]|(? & _)]];
    [congruence|lia].
Qed.

End RegistryFacts.

(* ===================================================================== *)
(** ** Facts about the transition system *)
(* ===================================================================== *)

Import Js.

Module AdaptorFacts.
Import Descriptor Adaptor DescriptorFacts RegistryFacts.

(** Reduce projections of updated states and objects, and nothing else (the
    handle sets in particular stay folded). *)
Ltac simp_state :=
  cbn [idToDeviceMap_ nextFreeDeviceId_ nextFreeDeviceHandle_ deviceStates
       nextDeviceState promises activations usb
       setIdToDeviceMap_ setNextFreeDeviceId_ setNextFreeDeviceHandle_
       setDeviceStates setPromises setActivations
       newPromise suspend updateDeviceState allocDeviceState
       webusbDevice handles openOperationPromise closeOperationPromise
       setHandles setOpenOperationPromise setCloseOperationPromise
       newDeviceState awaiting continuation result origin settled
       fst snd].
Tactic Notation "simp_state" "in" hyp(H) :=
  cbn [idToDeviceMap_ nextFreeDeviceId_ nextFreeDeviceHandle_ deviceStates
       nextDeviceState promises activations usb
       setIdToDeviceMap_ setNextFreeDeviceId_ setNextFreeDeviceHandle_
       setDeviceStates setPromises setActivations
       newPromise suspend updateDeviceState allocDeviceState
       webusbDevice handles openOperationPromise closeOperationPromise
       setHandles setOpenOperationPromise setCloseOperationPromise
       newDeviceState awaiting continuation result origin settled
       fst snd] in H.

(** **** Promises issued *)

Lemma origin_settle p x s :
  origin <$> promises (settle p x s) = origin <$> promises s.
Proof.
  unfold settle. simpl.
  apply list_eq. intros i. rewrite !list_lookup_fmap.
  destruct (decide (i = p)) as [->|].
  - rewrite list_lookup_alter_eq. destruct (promises s !! p) as [pr|]; [|done].
    simpl. by destruct (settled pr).
  - by rewrite list_lookup_alter_ne.
Qed.

Lemma deviceStates_settle p x s : deviceStates (settle p x s) = deviceStates s.
Proof. done. Qed.

Lemma activations_settle p x s : activations (settle p x s) = activations s.
Proof. done. Qed.

Lemma idToDeviceMap_settle p x s :
  idToDeviceMap_ (settle p x s) = idToDeviceMap_ s.
Proof. done. Qed.

Lemma nextFreeDeviceHandle_settle p x s :
  nextFreeDeviceHandle_ (settle p x s) = nextFreeDeviceHandle_ s.
Proof. done. Qed.

Lemma issued_settle o p x s : issued o (settle p x s) = issued o s.
Proof. unfold issued. by rewrite origin_settle. Qed.

Lemma issued_newPromise o o' s :
  issued o (newPromise o' s).1
  = issued o s + (if decide (o' = o) then 1 else 0).
Proof.
  unfold issued, newPromise. simpl.
  rewrite fmap_app, filter_app, length_app. simpl.
  rewrite filter_cons, filter_nil. by case_decide.
Qed.

Lemma issued_setPromises_app o s k :
  issued o (setPromises (promises s ++ k) s)
  = issued o s + length (filter (λ o', o' = o) (origin <$> k)).
Proof.
  unfold issued. simp_state. by rewrite fmap_app, filter_app, length_app.
Qed.

Lemma issued_suspend o a s : issued o (suspend a s) = issued o s.
Proof. done. Qed.

Lemma issued_updateDeviceState o r f s :
  issued o (updateDeviceState r f s) = issued o s.
Proof. done. Qed.

Lemma issued_setActivations o x s : issued o (setActivations x s) = issued o s.
Proof. done. Qed.


Ltac effects :=
  repeat first
    [ apply rtc_refl
    | eapply rtc_r; [|by (econstructor; try by eexists)] ].

Lemma call_effects L r s :
  rtc (effect L (λ _ h, closes (Call r) h)) s (call r s).
Proof.
  destruct r; unfold call, listDevices, getConfigurations, openDeviceHandle,
    closeDeviceHandle, closeDeviceHandle_close, interfaceOrReset,
    controlTransfer, genericTransfer_, getConfigurations_loop,
    openDeviceHandle_newHandle, openWebusbDevice, openWebusbDevice_open;
    cbn [newPromise fst snd].
  - effects.
  - destruct (getDeviceByIdOrThrow_ _ _); [|effects].
    destruct (usbConfigurations _); cbn [newPromise]; effects.
  - destruct (getDeviceByIdOrThrow_ _ _) as [r|]; [|effects].
    case_decide; [|effects].
    destruct (openOperationPromise _); [effects|].
    destruct (closeOperationPromise _); cbn [newPromise]; effects.
  - destruct (getDeviceByIdOrThrow_ _ _) as [r|]; [|effects].
    case_decide; [|effects]. case_decide; effects.
  - destruct (getDeviceByIdAndHandleOrThrow_ _ _ _); effects.
  - destruct (getDeviceByIdAndHandleOrThrow_ _ _ _); effects.
  - destruct (getDeviceByIdAndHandleOrThrow_ _ _ _); effects.
  - destruct (_ ≫= _); effects.
  - destruct (getDeviceByIdAndHandleOrThrow_ _ _ _); effects.
  - destruct (getDeviceByIdAndHandleOrThrow_ _ _ _); effects.
Qed.

Lemma resume_effects k x res s s' :
  resume k x res s = Some s' →
  rtc (effect (λ l, k = ListDevices_93 ∧ x = Fulfilled (USBDevices l))
              (λ _ _, False)) s s'.
Proof.
  destruct k; unfold resume, listDevices_update, getConfigurations_push,
    getConfigurations_loop, controlTransferIn, fetchAndFill_finally,
    openDeviceHandle_newHandle, openWebusbDevice_open;
    cbn [newPromise fst snd].
  - destruct x as [[]|]; intros; simplify_eq; effects.
  - destruct x; intros; simplify_eq; [effects|].
    destruct (remainingConfigurations f); cbn [newPromise]; effects.
  - destruct (asTransferResult x) as [first|]; [|done]. cbn [mbind option_bind].
    destruct (await first ≫= readTotalLength) as [[tl|]|];
      intros; simplify_eq; effects.
  - destruct (asTransferResult x) as [second|]; [|done].
    cbn [mbind option_bind].
    destruct (await second); [|intros; simplify_eq; effects].
    destruct (parseDescriptors _ _ _) as [[? c]|]; [|done].
    cbn [mbind option_bind]. intros; simplify_eq; effects.
  - intros; simplify_eq.
    destruct (remainingConfigurations f); cbn [newPromise]; effects.
  - destruct x; intros; simplify_eq; effects.
  - destruct x; intros; simplify_eq; effects.
  - destruct x; intros; simplify_eq; effects.
  - destruct (asTransferResult x) as [tr|]; [|done]. cbn [mbind option_bind].
    destruct (await tr ≫= getLibusbJsTransferResultOrThrow);
      intros; simplify_eq; effects.
  - destruct x; intros; simplify_eq; effects.
  - destruct x; intros; simplify_eq; effects.
Qed.

Lemma effect_mono (L L' : list nat → Prop) (D D' : nat → nat → Prop) s s' :
  (∀ l, L l → L' l) → (∀ r h, D r h → D' r h) →
  effect L D s s' → effect L' D' s s'.
Proof. intros HL HD. destruct 1; econstructor; eauto. Qed.

Lemma effects_mono (L L' : list nat → Prop) (D D' : nat → nat → Prop) s s' :
  (∀ l, L l → L' l) → (∀ r h, D r h → D' r h) →
  rtc (effect L D) s s' → rtc (effect L' D') s s'.
Proof.
  intros HL HD. induction 1; [done|].
  eapply rtc_l; [by eapply effect_mono|done].
Qed.

Lemma step_effects l s s' :
  step l s = Some s' → rtc (effect (enumerates l s) (λ _ h, closes l h)) s s'.
Proof.
  destruct l as [r|p x|t]; simpl.
  - intros [= <-]. apply call_effects.
  - destruct (promises s !! p) as [pr|]; [|done]. simpl.
    destruct (settled pr); [done|].
    destruct (webusbSettles _ _); [|done]. intros [= <-]. effects.
  - destruct (activations s !! t) as [[a|]|] eqn:Ha; [|done..]. simpl.
    destruct (promises s !! awaiting a) as [pr|] eqn:Hpr; [|done]. simpl.
    destruct (settled pr) as [x|] eqn:Hx; [|done]. simpl.
    intros Hr%resume_effects. eapply rtc_l; [apply effect_finish|].
    eapply effects_mono; [| |exact Hr]; [|done]. intros l [Hk ->].
    by exists t, a, pr.
Qed.

Lemma run_effects ls s s' :
  run ls s = Some s' → rtc (effect (λ _, True) (λ _ _, True)) s s'.
Proof.
  revert s. induction ls as [|l ls IH]; intros s; simpl.
  - by intros [= <-].
  - destruct (step l s) as [s1|] eqn:Hs; [|done]. simpl.
    intros. etrans; [|by apply IH].
    eapply effects_mono; [| |by eapply step_effects]; done.
Qed.

(** **** Invariants of the elementary effects *)

Lemma updateDeviceMap_handles l s :
  nextFreeDeviceHandle_ (updateDeviceMap_ l s) = nextFreeDeviceHandle_ s
  ∧ ∀ r, handles (deviceStates (updateDeviceMap_ l s) r)
         ⊆ handles (deviceStates s r).
Proof.
  unfold updateDeviceMap_.
  assert (∀ m s1 m' s',
            foldl updateDeviceMap_body (m, s1) l = (m', s') →
            nextFreeDeviceHandle_ s' = nextFreeDeviceHandle_ s1
            ∧ ∀ r, handles (deviceStates s' r) ⊆ handles (deviceStates s1 r))
    as Hloop.
  { induction l as [|d l IH]; intros m s1 m' s'; cbn [foldl].
    - by intros [= <- <-].
    - destruct (updateDeviceMap_body (m, s1) d) as [m1 s2] eqn:Hb.
      intros [Hn Hh]%IH. revert Hb. unfold updateDeviceMap_body.
      destruct (getDeviceId_ d s1) as [k|].
      + destruct (Map_get _ k); by intros [= <- <-].
      + intros [= <- <-]. split; [done|]. intros r. etrans; [apply Hh|].
        simp_state. destruct (decide (r = nextDeviceState s1)) as [->|].
        * rewrite fn_lookup_insert. set_solver.
        * by rewrite fn_lookup_insert_ne. }
  destruct (foldl updateDeviceMap_body ([], s) l) as [m s'] eqn:Hl.
  by apply Hloop in Hl.
Qed.

Lemma effect_registryWf L D s s' :
  effect L D s s' → registryWf s → registryWf s'.
Proof.
  destruct 1; try done. apply updateDeviceMap_registryWf.
Qed.

Lemma effect_retired L D i s s' :
  effect L D s s' → registryWf s → retired i s → retired i s'.
Proof.
  destruct 1; try done. apply updateDeviceMap_retired.
Qed.

Lemma effect_handlesBelow L D s s' :
  effect L D s s' → handlesBelow s → handlesBelow s'.
Proof.
  unfold handlesBelow.
  destruct 1; try done; intros Hb r' h'; simp_state.
  - destruct (decide (r' = r)) as [->|];
      [rewrite fn_lookup_insert|rewrite fn_lookup_insert_ne by done];
      apply Hb.
  - destruct (decide (r' = r)) as [->|];
      [rewrite fn_lookup_insert|rewrite fn_lookup_insert_ne by done];
      apply Hb.
  - destruct (decide (r' = r)) as [->|];
      [rewrite fn_lookup_insert|rewrite fn_lookup_insert_ne by done];
      simp_state; [|apply Hb].
    intros Hin. apply (Hb r). set_solver.
  - destruct (decide (r' = r)) as [->|];
      [rewrite fn_lookup_insert|rewrite fn_lookup_insert_ne by done];
      simp_state.
    + intros [->%elem_of_singleton|Hin]%elem_of_union; [lia|].
      apply Hb in Hin. lia.
    + intros Hin%Hb. lia.
  - destruct (updateDeviceMap_handles l s) as [-> Hsub].
    intros Hin%Hsub. by apply (Hb r').
Qed.

(** A handle that was closed stays closed: new handles come from the
    counter, which has passed it. *)
Lemma effect_closed L D r h s s' :
  effect L D s s' → closed r h s → closed r h s'.
Proof.
  unfold closed.
  destruct 1; try done; intros [Hnot Hlt]; simp_state.
  - destruct (decide (r = r0)) as [->|];
      [rewrite fn_lookup_insert|rewrite fn_lookup_insert_ne by done]; done.
  - destruct (decide (r = r0)) as [->|];
      [rewrite fn_lookup_insert|rewrite fn_lookup_insert_ne by done]; done.
  - destruct (decide (r = r0)) as [->|];
      [rewrite fn_lookup_insert|rewrite fn_lookup_insert_ne by done];
      simp_state; [|done].
    split; [set_solver|done].
  - destruct (decide (r = r0)) as [->|];
      [rewrite fn_lookup_insert|rewrite fn_lookup_insert_ne by done];
      simp_state; (split; [|lia]); [|done].
    rewrite elem_of_union, elem_of_singleton. intros [->|?]; [lia|done].
  - destruct (updateDeviceMap_handles l s) as [-> Hsub].
    split; [|done]. intros Hin%Hsub. done.
Qed.

Lemma reachable_effects s :
  reachable s →
  ∃ usb', rtc (effect (λ _, True) (λ _ _, True)) (constructor usb') s.
Proof.
  induction 1 as [usb'|l s s' _ [usb' IH] Hstep]; [by exists usb'|].
  exists usb'. etrans; [done|].
  eapply effects_mono; [| |by eapply step_effects]; done.
Qed.

Lemma constructor_registryWf usb' : registryWf (constructor usb').
Proof.
  split; [constructor|]. by intros k r []%elem_of_nil.
Qed.

Lemma constructor_handlesBelow usb' : handlesBelow (constructor usb').
Proof. intros r h. simpl. set_solver. Qed.

Lemma effects_registryWf L D s s' :
  rtc (effect L D) s s' → registryWf s → registryWf s'.
Proof. induction 1; eauto using effect_registryWf. Qed.

Lemma effects_handlesBelow L D s s' :
  rtc (effect L D) s s' → handlesBelow s → handlesBelow s'.
Proof. induction 1; eauto using effect_handlesBelow. Qed.

Lemma effects_closed L D r h s s' :
  rtc (effect L D) s s' → closed r h s → closed r h s'.
Proof. induction 1; eauto using effect_closed. Qed.

Lemma effects_retired L D i s s' :
  rtc (effect L D) s s' → registryWf s → retired i s → retired i s'.
Proof.
  induction 1; eauto using effect_retired, effect_registryWf.
Qed.

Lemma reachable_registryWf s : reachable s → registryWf s.
Proof.
  intros [usb' Hs]%reachable_effects.
  eauto using effects_registryWf, constructor_registryWf.
Qed.

Lemma reachable_handlesBelow s : reachable s → handlesBelow s.
Proof.
  intros [usb' Hs]%reachable_effects.
  eauto using effects_handlesBelow, constructor_handlesBelow.
Qed.

Lemma reachable_run ls s s' :
  reachable s → run ls s = Some s' → reachable s'.
Proof.
  revert s. induction ls as [|l ls IH]; intros s Hs; simpl.
  - by intros [= <-].
  - destruct (step l s) as [s1|] eqn:Hstep; [|done]. simpl.
    apply IH. by eapply reachable_step.
Qed.


(** **** Device ids across effects *)

Lemma effect_keeps_id L D d i s s' :
  effect L D s s' → registryWf s → (∀ l, L l → d ∈ l) →
  getDeviceId_ d s = Some i →
  getDeviceId_ d s' = Some i
  ∧ Map_get (idToDeviceMap_ s') i = Map_get (idToDeviceMap_ s) i.
Proof.
  intros Heff Hwf HL Hi.
  assert (∀ r f,
            (∀ x, webusbDevice (f x) = webusbDevice x) →
            ∀ s1, idToDeviceMap_ s1 = idToDeviceMap_ s →
                  deviceStates s1 = deviceStates s →
            getDeviceId_ d (updateDeviceState r f s1) = Some i) as Hupd.
  { intros r f Hf s1 Hm Hds. rewrite <- Hi. apply getDeviceId_ext; [done|].
    intros k r' _. simp_state. rewrite Hds.
    destruct (decide (r' = r)) as [->|];
      [by rewrite fn_lookup_insert|by rewrite fn_lookup_insert_ne]. }
  destruct Heff as [o s|p x s|a s|t s|r x s|r x s|r h s Hdel|r s|l s Hl];
    try (split; [by apply Hupd|done]);
    try (split; [rewrite <- Hi; by apply getDeviceId_ext|done]).
  destruct (updateDeviceMap_keeps l s d i Hwf Hi (HL _ Hl))
    as (? & r & Hr & Hr' & _).
  split; [done|congruence].
Qed.

Lemma effects_keeps_id L D d i s s' :
  rtc (effect L D) s s' → registryWf s → (∀ l, L l → d ∈ l) →
  getDeviceId_ d s = Some i →
  getDeviceId_ d s' = Some i
  ∧ Map_get (idToDeviceMap_ s') i = Map_get (idToDeviceMap_ s) i.
Proof.
  intros Heff Hwf HL. induction Heff as [|s s1 s' Hs _ IH]; [done|].
  intros Hi. destruct (effect_keeps_id _ _ _ _ _ _ Hs Hwf HL Hi) as [Hi1 Hm1].
  destruct (IH (effect_registryWf _ _ _ _ Hs Hwf) Hi1) as [? ?].
  split; [done|congruence].
Qed.

(** The step of [listDevices] that takes in the snapshot. *)
Lemma step_enumerates l s s' snap :
  step l s = Some s' → enumerates l s snap →
  ∃ s0 res, s' = settle res
                   (Fulfilled (LibusbJsDevices
                      ((λ d, getDeviceId_ d (updateDeviceMap_ snap s0))
                         <$> snap)))
                   (updateDeviceMap_ snap s0)
            ∧ idToDeviceMap_ s0 = idToDeviceMap_ s
            ∧ nextFreeDeviceId_ s0 = nextFreeDeviceId_ s
            ∧ nextDeviceState s0 = nextDeviceState s
            ∧ deviceStates s0 = deviceStates s.
Proof.
  intros Hstep (t & a & pr & -> & Ha & Hk & Hpr & Hx). revert Hstep.
  cbn [step]. rewrite Ha. cbn [mjoin option_join mbind option_bind].
  rewrite Hpr. cbn [mbind option_bind]. rewrite Hx. cbn [mbind option_bind].
  rewrite Hk. cbn [resume]. intros [= <-].
  by eexists _, _.
Qed.

Lemma getDeviceId_settle d p x s :
  getDeviceId_ d (settle p x s) = getDeviceId_ d s.
Proof. by apply getDeviceId_ext. Qed.

Lemma registryWf_ext s s' :
  idToDeviceMap_ s' = idToDeviceMap_ s →
  nextFreeDeviceId_ s' = nextFreeDeviceId_ s →
  nextDeviceState s' = nextDeviceState s →
  registryWf s → registryWf s'.
Proof. unfold registryWf. by intros -> -> ->. Qed.


(** **** Promises: allocation and settlement *)

Lemma alter_app_last {A} (f : A → A) (l : list A) (x : A) :
  alter f (length l) (l ++ [x]) = l ++ [f x].
Proof.
  induction l as [|y l IH]; simpl; [done|]. f_equal. exact IH.
Qed.

Lemma alter_app_before {A} (f : A → A) (l k : list A) i :
  i < length l → alter f i (l ++ k) = alter f i l ++ k.
Proof.
  revert i. induction l as [|y l IH]; intros [|i] Hi; simpl in *;
    try lia; [done|]. f_equal. apply IH. lia.
Qed.

(** Settling the promise that was created last. *)
Lemma settle_new x s l o :
  promises s = l ++ [{| origin := o; settled := None |}] →
  promises (settle (length l) x s)
  = l ++ [{| origin := o; settled := Some x |}].
Proof.
  intros Hp. unfold settle. simp_state. by rewrite Hp, alter_app_last.
Qed.

Lemma issued_app o s l k :
  promises s = l ++ k →
  issued o s
  = length (filter (λ o', o' = o) (origin <$> l))
    + length (filter (λ o', o' = o) (origin <$> k)).
Proof.
  intros Hp. unfold issued. by rewrite Hp, fmap_app, filter_app, length_app.
Qed.

Lemma difference_singleton_self (h : nat) :
  ({[h]} ∖ {[h]} : gset nat) = ∅.
Proof. set_solver. Qed.

(** **** [closeDeviceHandle] *)

(** The last handle: the handle is forgotten, [close()] is called once and
    its promise becomes the pending-close marker. *)
Lemma closeDeviceHandle_last deviceId h r s :
  Map_get (idToDeviceMap_ s) deviceId = Some r →
  handles (deviceStates s r) = {[h]} →
  let n := length (promises s) in
  let s' := closeDeviceHandle deviceId h s in
  promises s'
  = promises s
    ++ [{| origin := AsyncFunction; settled := None |};
        {| origin := WebusbClose (webusbDevice (deviceStates s r));
           settled := None |}]
  ∧ activations s'
    = activations s
      ++ [Some {| awaiting := S n; continuation := CloseDeviceHandle_181 r;
                  result := n |}]
  ∧ handles (deviceStates s' r) = ∅
  ∧ closeOperationPromise (deviceStates s' r) = Some (S n)
  ∧ openOperationPromise (deviceStates s' r)
    = openOperationPromise (deviceStates s r).
Proof.
  intros Hid Hh n s'. subst s'.
  unfold closeDeviceHandle, closeDeviceHandle_close, getDeviceByIdOrThrow_.
  simp_state. rewrite Hid, Hh.
  rewrite decide_True by set_solver.
  rewrite fn_lookup_insert. simp_state.
  rewrite difference_singleton_self, size_empty.
  rewrite decide_False by lia. simp_state.
  rewrite !fn_lookup_insert. simp_state.
  rewrite length_app, <- (assoc_L (++)). simpl.
  subst n. rewrite Nat.add_1_r. repeat split; try done.
  rewrite Hh. apply difference_singleton_self.
Qed.

(** Not the last handle: the handle is forgotten and the call returns. *)
Lemma closeDeviceHandle_not_last deviceId h h' r s :
  Map_get (idToDeviceMap_ s) deviceId = Some r →
  h ∈ handles (deviceStates s r) →
  h' ∈ handles (deviceStates s r) → h' ≠ h →
  let s' := closeDeviceHandle deviceId h s in
  promises s'
  = promises s
    ++ [{| origin := AsyncFunction; settled := Some (Fulfilled Undefined) |}]
  ∧ activations s' = activations s
  ∧ handles (deviceStates s' r) = handles (deviceStates s r) ∖ {[h]}.
Proof.
  intros Hid Hh Hh' Hne s'. subst s'.
  unfold closeDeviceHandle, closeDeviceHandle_close, getDeviceByIdOrThrow_.
  simp_state. rewrite Hid.
  rewrite decide_True by done.
  rewrite fn_lookup_insert. simp_state.
  rewrite decide_True.
  2:{ assert (size (handles (deviceStates s r) ∖ {[h]}) ≠ 0); [|lia].
      apply size_non_empty_iff. set_solver. }
  rewrite (settle_new _ _ (promises s) AsyncFunction) by done.
  rewrite activations_settle, deviceStates_settle.
  simp_state. by rewrite fn_lookup_insert.
Qed.

(** An unknown handle: the call fails. *)
Lemma closeDeviceHandle_unknown deviceId h r s :
  Map_get (idToDeviceMap_ s) deviceId = Some r →
  h ∉ handles (deviceStates s r) →
  promises (closeDeviceHandle deviceId h s)
  = promises s
    ++ [{| origin := AsyncFunction;
           settled := Some (Rejected (UnknownDeviceHandle h)) |}].
Proof.
  intros Hid Hh.
  unfold closeDeviceHandle, closeDeviceHandle_close, getDeviceByIdOrThrow_.
  simp_state. rewrite Hid.
  rewrite decide_False by done.
  by rewrite (settle_new _ _ (promises s) AsyncFunction).
Qed.

(** In every case the handle is out of the set when the call returns. *)
Lemma closeDeviceHandle_forgets deviceId h r s :
  Map_get (idToDeviceMap_ s) deviceId = Some r →
  h ∉ handles (deviceStates (closeDeviceHandle deviceId h s) r).
Proof.
  intros Hid.
  unfold closeDeviceHandle, closeDeviceHandle_close, getDeviceByIdOrThrow_.
  simp_state. rewrite Hid.
  case_decide as Hh; [|by rewrite deviceStates_settle].
  rewrite fn_lookup_insert. simp_state.
  case_decide; simp_state.
  - rewrite deviceStates_settle. simp_state. rewrite fn_lookup_insert.
    simp_state. set_solver.
  - rewrite !fn_lookup_insert. simp_state. set_solver.
Qed.

Lemma closeDeviceHandle_nextFreeDeviceHandle_ deviceId h s :
  nextFreeDeviceHandle_ (closeDeviceHandle deviceId h s)
  = nextFreeDeviceHandle_ s.
Proof.
  unfold closeDeviceHandle, closeDeviceHandle_close. simp_state.
  destruct (getDeviceByIdOrThrow_ _ _); [|done].
  repeat case_decide; done.
Qed.

(** The continuation after line 181 calls nothing. *)
Lemma resume_CloseDeviceHandle_181_issued r x res s s' o :
  resume (CloseDeviceHandle_181 r) x res s = Some s' →
  issued o s' = issued o s.
Proof.
  destruct x; intros [= <-]; by rewrite issued_settle.
Qed.


(** The call removes the handle first: what is left of the method, the call
    of [close()] included, runs on a state in which the handle is gone. *)
Lemma closeDeviceHandle_order deviceId h r s :
  Map_get (idToDeviceMap_ s) deviceId = Some r →
  h ∈ handles (deviceStates s r) →
  ∃ s2, closeDeviceHandle deviceId h s
        = closeDeviceHandle_close r (length (promises s)) s2
        ∧ (h ∉ handles (deviceStates s2 r))
        ∧ ∀ o, o ≠ AsyncFunction → issued o s2 = issued o s.
Proof.
  intros Hid Hh. eexists. split.
  - unfold closeDeviceHandle, getDeviceByIdOrThrow_.
    simp_state. rewrite Hid. by rewrite decide_True.
  - simp_state. rewrite fn_lookup_insert. simp_state.
    split; [set_solver|]. intros o Ho.
    rewrite issued_updateDeviceState, issued_setPromises_app. simpl.
    rewrite filter_cons, filter_nil, decide_False by done. simpl. lia.
Qed.

(** **** Operations that take a handle *)

Lemma getDeviceByIdAndHandleOrThrow_unknown deviceId h r s :
  Map_get (idToDeviceMap_ s) deviceId = Some r →
  h ∉ handles (deviceStates s r) →
  getDeviceByIdAndHandleOrThrow_ deviceId h s = Throw (NoDeviceHandle h).
Proof.
  intros Hid Hh. unfold getDeviceByIdAndHandleOrThrow_.
  by rewrite Hid, decide_False.
Qed.

Lemma getDeviceByIdAndHandleOrThrow_known deviceId h r s :
  Map_get (idToDeviceMap_ s) deviceId = Some r →
  h ∈ handles (deviceStates s r) →
  getDeviceByIdAndHandleOrThrow_ deviceId h s = Normal r.
Proof.
  intros Hid Hh. unfold getDeviceByIdAndHandleOrThrow_.
  by rewrite Hid, decide_True.
Qed.

Lemma interfaceOrReset_unknown deviceId h r s :
  Map_get (idToDeviceMap_ s) deviceId = Some r →
  h ∉ handles (deviceStates s r) →
  promises (interfaceOrReset deviceId h s)
  = promises s
    ++ [{| origin := AsyncFunction;
           settled := Some (Rejected (NoDeviceHandle h)) |}].
Proof.
  intros Hid Hh. unfold interfaceOrReset. simp_state.
  rewrite (getDeviceByIdAndHandleOrThrow_unknown _ _ r) by done.
  by rewrite (settle_new _ _ (promises s) AsyncFunction).
Qed.

Lemma interfaceOrReset_known deviceId h r s :
  Map_get (idToDeviceMap_ s) deviceId = Some r →
  h ∈ handles (deviceStates s r) →
  promises (interfaceOrReset deviceId h s)
  = promises s
    ++ [{| origin := AsyncFunction; settled := None |};
        {| origin := WebusbInterfaceOrReset
                       (webusbDevice (deviceStates s r));
           settled := None |}].
Proof.
  intros Hid Hh. unfold interfaceOrReset. simp_state.
  rewrite (getDeviceByIdAndHandleOrThrow_known _ _ r) by done.
  simp_state. by rewrite <- (assoc_L (++)).
Qed.

(** Every method that takes a handle rejects one that is not in the set,
    and calls nothing. *)
Lemma call_unknown_handle req deviceId h r s :
  takesHandle req deviceId h →
  Map_get (idToDeviceMap_ s) deviceId = Some r →
  h ∉ handles (deviceStates s r) →
  promises (call req s)
  = promises s
    ++ [{| origin := AsyncFunction;
           settled := Some (Rejected (NoDeviceHandle h)) |}].
Proof.
  intros Hreq Hid Hh.
  destruct req; try done; destruct Hreq as [-> ->]; cbn [call];
    try (by apply (interfaceOrReset_unknown _ _ r));
    unfold controlTransfer, genericTransfer_; simp_state;
    rewrite (getDeviceByIdAndHandleOrThrow_unknown _ _ r) by done;
    cbn [mbind Completion_bind];
    by rewrite (settle_new _ _ (promises s) AsyncFunction).
Qed.


(** **** [getConfigurations] never rejects *)

Lemma rejected_settle_Fulfilled p q v s :
  rejected q (settle p (Fulfilled v) s) → rejected q s.
Proof.
  intros (pr & e & Hpr & He). revert Hpr. unfold settle. simp_state.
  destruct (decide (q = p)) as [->|Hne].
  - rewrite list_lookup_alter_eq.
    destruct (promises s !! p) as [pr0|] eqn:Hp0; [|done].
    cbn [fmap option_fmap option_map]. intros Heq.
    injection Heq as Heq. exists pr0, e. split; [done|].
    destruct (settled pr0) as [x|] eqn:Hs; subst pr;
      [congruence|discriminate].
  - rewrite list_lookup_alter_ne by done. intros Hpr. by exists pr, e.
Qed.

Lemma rejected_newPromise q o s :
  rejected q (setPromises
                (promises s ++ [{| origin := o; settled := None |}]) s) →
  rejected q s.
Proof.
  intros (pr & e & Hpr & He). revert Hpr. simp_state.
  intros [Hpr|[_ Hpr]]%lookup_app_Some; [by exists pr, e|].
  destruct (q - length (promises s)) as [|n]; [|done].
  injection Hpr as <-. done.
Qed.

Lemma rejected_suspend q a s : rejected q (suspend a s) → rejected q s.
Proof. done. Qed.

Lemma getConfigurations_loop_rejected q d active remaining done res s :
  rejected q (getConfigurations_loop d active remaining done res s) →
  rejected q s.
Proof.
  unfold getConfigurations_loop. destruct remaining as [|c remaining].
  - apply rejected_settle_Fulfilled.
  - simp_state. intros Hr%rejected_suspend. by apply rejected_newPromise in Hr.
Qed.

(** No continuation of [getConfigurations] rejects a promise. *)
Lemma resume_getConfigurations_rejected k x res s s' q :
  isGetConfigurations k →
  resume k x res s = Some s' → rejected q s' → rejected q s.
Proof.
  destruct k; try done; intros _; unfold resume, getConfigurations_push,
    controlTransferIn, fetchAndFill_finally; simp_state.
  - destruct x; intros [= <-].
    + intros Hr%rejected_suspend. by apply rejected_newPromise in Hr.
    + apply getConfigurations_loop_rejected.
  - destruct (asTransferResult x) as [first|]; [|done].
    cbn [mbind option_bind].
    destruct (await first ≫= readTotalLength) as [[tl|]|]; intros [= <-];
      intros Hr%rejected_suspend; by apply rejected_newPromise in Hr.
  - destruct (asTransferResult x) as [second|]; [|done].
    cbn [mbind option_bind].
    destruct (await second).
    + destruct (parseDescriptors _ _ _) as [[? c]|]; [|done].
      cbn [mbind option_bind]. intros [= <-].
      intros Hr%rejected_suspend. by apply rejected_newPromise in Hr.
    + intros [= <-].
      intros Hr%rejected_suspend. by apply rejected_newPromise in Hr.
  - intros [= <-]. apply getConfigurations_loop_rejected.
Qed.

(** They run on every value the awaited WebUSB call can produce. *)
Lemma resume_getConfigurations_total k x res s o :
  isGetConfigurations k →
  webusbSettles o x = true →
  match k with
  | GetConfigurations_556 _ | GetConfigurations_564 _ _ =>
      ∃ d v n, o = WebusbControlTransferIn d v n
  | _ => True
  end →
  is_Some (resume k x res s).
Proof.
  destruct k; try done; intros _ Hx Ho; unfold resume; [| |].
  - destruct x; eauto.
  - destruct Ho as (d & v & n & ->).
    destruct x as [[]|]; try done;
      cbn [asTransferResult mbind option_bind];
      destruct (await _ ≫= readTotalLength) as [[tl|]|]; eauto.
  - destruct Ho as (d & v & n & ->).
    destruct x as [[| |r| | | |]|]; try done;
      cbn [asTransferResult mbind option_bind await]; eauto.
    destruct (parseDescriptors_total totalLength r
                (frameLibusbJsConfiguration f)) as [[? c] ->].
    cbn [mbind option_bind]. eauto.
Qed.

(** The call itself rejects only for an unknown device id. *)
Lemma getConfigurations_rejected deviceId r s q :
  Map_get (idToDeviceMap_ s) deviceId = Some r →
  rejected q (getConfigurations deviceId s) → rejected q s.
Proof.
  intros Hid. unfold getConfigurations, getDeviceByIdOrThrow_. simp_state.
  rewrite Hid. intros Hr%getConfigurations_loop_rejected.
  by apply rejected_newPromise in Hr.
Qed.


(** **** Running an activation *)

Lemma step_Resume t a pr x s :
  activations s !! t = Some (Some a) →
  promises s !! awaiting a = Some pr → settled pr = Some x →
  step (Resume t) s
  = resume (continuation a) x (result a)
      (setActivations (<[t := None]> (activations s)) s).
Proof.
  intros Ha Hpr Hx. cbn [step]. rewrite Ha.
  cbn [mjoin option_join mbind option_bind]. rewrite Hpr.
  cbn [mbind option_bind]. rewrite Hx. done.
Qed.

(** Settling a pending promise, wherever it is in the store. *)
Lemma settle_pending x s l o k :
  promises s = l ++ {| origin := o; settled := None |} :: k →
  promises (settle (length l) x s)
  = l ++ {| origin := o; settled := Some x |} :: k.
Proof.
  intros Hp. unfold settle. simp_state. rewrite Hp.
  clear Hp. induction l as [|y l IH]; simpl; [done|]. f_equal. exact IH.
Qed.

(** **** [openDeviceHandle] *)

(** The first call on a closed device whose close marker is set: the call
    starts [openWebusbDevice], which awaits the marker, and awaits it. *)
Lemma openDeviceHandle_awaits_marker deviceId r p s :
  Map_get (idToDeviceMap_ s) deviceId = Some r →
  handles (deviceStates s r) = ∅ →
  openOperationPromise (deviceStates s r) = None →
  closeOperationPromise (deviceStates s r) = Some p →
  let n := length (promises s) in
  let s' := openDeviceHandle deviceId s in
  promises s'
  = promises s
    ++ [{| origin := AsyncFunction; settled := None |};
        {| origin := AsyncFunction; settled := None |}]
  ∧ activations s'
    = activations s
      ++ [Some {| awaiting := p; continuation := OpenWebusbDevice_503 r;
                  result := S n |};
          Some {| awaiting := S n; continuation := OpenDeviceHandle_151 r;
                  result := n |}]
  ∧ deviceStates s'
    = <[r := setOpenOperationPromise (Some (S n)) (deviceStates s r)]>
        (deviceStates s)
  ∧ idToDeviceMap_ s' = idToDeviceMap_ s
  ∧ nextFreeDeviceHandle_ s' = nextFreeDeviceHandle_ s.
Proof.
  intros Hid Hh Ho Hc n s'. subst s' n.
  unfold openDeviceHandle, openWebusbDevice, getDeviceByIdOrThrow_.
  simp_state. rewrite Hid, Hh, size_empty.
  rewrite decide_True by done. rewrite Ho. simp_state. rewrite Hc.
  simp_state. rewrite length_app, Nat.add_1_r, <- !(assoc_L (++)).
  done.
Qed.


(** **** Handles stay until they are closed *)

Lemma updateDeviceMap_old l s :
  nextDeviceState s ≤ nextDeviceState (updateDeviceMap_ l s)
  ∧ ∀ r, r < nextDeviceState s →
         deviceStates (updateDeviceMap_ l s) r = deviceStates s r.
Proof.
  unfold updateDeviceMap_.
  assert (∀ m s1 m' s',
            foldl updateDeviceMap_body (m, s1) l = (m', s') →
            nextDeviceState s1 ≤ nextDeviceState s'
            ∧ ∀ r, r < nextDeviceState s1 →
                   deviceStates s' r = deviceStates s1 r) as Hloop.
  { induction l as [|d l IH]; intros m s1 m' s'; cbn [foldl].
    - by intros [= <- <-].
    - destruct (updateDeviceMap_body (m, s1) d) as [m1 s2] eqn:Hb.
      intros [Hn Hh]%IH. revert Hb. unfold updateDeviceMap_body.
      destruct (getDeviceId_ d s1) as [k|].
      + destruct (Map_get _ k); by intros [= <- <-].
      + intros [= <- <-]. revert Hn Hh. simp_state. intros Hn Hh.
        split; [lia|]. intros r Hr. rewrite Hh by lia.
        by rewrite fn_lookup_insert_ne by lia. }
  destruct (foldl updateDeviceMap_body ([], s) l) as [m s'] eqn:Hl.
  by apply Hloop in Hl.
Qed.




(** **** Concurrent [openDeviceHandle] calls *)

(** The first call on a closed device with no marker set: it starts
    [openWebusbDevice], which calls [open()] at once, and awaits it. *)
Lemma openDeviceHandle_first deviceId r s :
  Map_get (idToDeviceMap_ s) deviceId = Some r →
  handles (deviceStates s r) = ∅ →
  openOperationPromise (deviceStates s r) = None →
  closeOperationPromise (deviceStates s r) = None →
  let n := length (promises s) in
  let s' := openDeviceHandle deviceId s in
  promises s'
  = promises s
    ++ [pending AsyncFunction; pending AsyncFunction;
        pending (WebusbOpen (webusbDevice (deviceStates s r)))]
  ∧ activations s'
    = activations s
      ++ [Some {| awaiting := S (S n); continuation := OpenWebusbDevice_505;
                  result := S n |};
          openDeviceHandle_151 r (S n) n]
  ∧ deviceStates s'
    = <[r := setOpenOperationPromise (Some (S n)) (deviceStates s r)]>
        (deviceStates s)
  ∧ idToDeviceMap_ s' = idToDeviceMap_ s
  ∧ nextFreeDeviceHandle_ s' = nextFreeDeviceHandle_ s.
Proof.
  intros Hid Hh Ho Hc n s'. subst s' n.
  unfold openDeviceHandle, openWebusbDevice, openWebusbDevice_open,
    getDeviceByIdOrThrow_.
  simp_state. rewrite Hid, Hh, size_empty.
  rewrite decide_True by done. rewrite Ho. simp_state. rewrite Hc.
  simp_state. rewrite !length_app, !Nat.add_1_r, <- !(assoc_L (++)).
  done.
Qed.

(** A call made while the open is pending joins the wait. *)
Lemma openDeviceHandle_joins deviceId r p s :
  Map_get (idToDeviceMap_ s) deviceId = Some r →
  handles (deviceStates s r) = ∅ →
  openOperationPromise (deviceStates s r) = Some p →
  let s' := openDeviceHandle deviceId s in
  promises s' = promises s ++ [pending AsyncFunction]
  ∧ activations s'
    = activations s ++ [openDeviceHandle_151 r p (length (promises s))]
  ∧ deviceStates s' = deviceStates s
  ∧ idToDeviceMap_ s' = idToDeviceMap_ s
  ∧ nextFreeDeviceHandle_ s' = nextFreeDeviceHandle_ s.
Proof.
  intros Hid Hh Ho s'. subst s'.
  unfold openDeviceHandle, getDeviceByIdOrThrow_.
  simp_state. rewrite Hid, Hh, size_empty.
  rewrite decide_True by done. rewrite Ho. done.
Qed.





Lemma run_app ls ks s :
  run (ls ++ ks) s = run ls s ≫= run ks.
Proof.
  revert s. induction ls as [|l ls IH]; intros s; simpl; [done|].
  destruct (step l s); simpl; [apply IH|done].
Qed.





(** **** Handles across transitions *)

Lemma getDeviceByIdAndHandleOrThrow_Normal deviceId h r s :
  getDeviceByIdAndHandleOrThrow_ deviceId h s = Normal r ↔
  Map_get (idToDeviceMap_ s) deviceId = Some r
  ∧ h ∈ handles (deviceStates s r).
Proof.
  unfold getDeviceByIdAndHandleOrThrow_. split.
  - destruct (Map_get _ deviceId) as [r'|]; [|done].
    destruct (decide _); [|done]. by intros [= ->].
  - intros [-> Hh]. by rewrite decide_True.
Qed.





End AdaptorFacts.

(* ===================================================================== *)
(** ** A device whose close failed *)
(* ===================================================================== *)

Import Js.

Module FailedCloseFacts.
Import Descriptor Adaptor DescriptorFacts RegistryFacts AdaptorFacts.

Section FailedClose.
Context (r p : nat) (e : Error).

(** **** What the elementary updates do to [awaitedOpen] *)

Lemma awaitedOpen_setPromises q x s :
  awaitedOpen r q (setPromises x s) → awaitedOpen r q s.
Proof. done. Qed.

Lemma awaitedOpen_settle q q' x s :
  awaitedOpen r q (settle q' x s) → awaitedOpen r q s.
Proof. done. Qed.

Lemma awaitedOpen_setNextFreeDeviceHandle_ q x s :
  awaitedOpen r q (setNextFreeDeviceHandle_ x s) → awaitedOpen r q s.
Proof. done. Qed.

Lemma awaitedOpen_suspend q a s :
  awaitedOpen r q (suspend a s) →
  awaitedOpen r q s
  ∨ (continuation a = OpenDeviceHandle_151 r ∧ awaiting a = q).
Proof.
  unfold awaitedOpen. simp_state.
  intros [Ho|(t & a' & Ha & Hk & Hq)]; [by left; left|].
  apply lookup_app_Some in Ha as [Ha|[_ Ha]].
  - left. right. by exists t, a'.
  - apply list_lookup_singleton_Some in Ha as [_ [= ->]]. by right.
Qed.

Lemma lookup_finish (t t' : nat) (a : Activation)
    (l : list (option Activation)) :
  <[t := None]> l !! t' = Some (Some a) → l !! t' = Some (Some a) ∧ t' ≠ t.
Proof.
  destruct (decide (t' = t)) as [->|Hne].
  - intros H. destruct (decide (t < length l)).
    + by rewrite list_lookup_insert_eq in H.
    + rewrite list_insert_ge in H by lia. apply lookup_lt_Some in H. lia.
  - by rewrite list_lookup_insert_ne.
Qed.

Lemma awaitedOpen_finish q t s :
  awaitedOpen r q (setActivations (<[t := None]> (activations s)) s) →
  awaitedOpen r q s.
Proof.
  unfold awaitedOpen. simp_state.
  intros [Ho|(t' & a & [Ha _]%lookup_finish & Hk)]; [by left|].
  right. by exists t', a.
Qed.

Lemma awaitedOpen_updateDeviceState_ne q r' f s :
  awaitedOpen r q (updateDeviceState r' f s) → r' ≠ r → awaitedOpen r q s.
Proof.
  intros Hq Hne. revert Hq. unfold awaitedOpen. simp_state.
  by rewrite fn_lookup_insert_ne.
Qed.

Lemma awaitedOpen_setOpenOperationPromise q x s :
  awaitedOpen r q (updateDeviceState r (setOpenOperationPromise x) s) →
  x = Some q ∨ awaitedOpen r q s.
Proof.
  unfold awaitedOpen. simp_state. rewrite fn_lookup_insert. simp_state.
  intros [?|?]; [by left|right; by right].
Qed.

Lemma updateDeviceMap_promises l s :
  promises (updateDeviceMap_ l s) = promises s
  ∧ activations (updateDeviceMap_ l s) = activations s.
Proof.
  unfold updateDeviceMap_.
  assert (∀ m s1 m' s',
            foldl updateDeviceMap_body (m, s1) l = (m', s') →
            promises s' = promises s1 ∧ activations s' = activations s1)
    as Hloop.
  { induction l as [|d l IH]; intros m s1 m' s'; cbn [foldl].
    - by intros [= <- <-].
    - destruct (updateDeviceMap_body (m, s1) d) as [m1 s2] eqn:Hb.
      intros [Hp Ha]%IH. revert Hb. unfold updateDeviceMap_body.
      destruct (getDeviceId_ d s1) as [k|].
      + destruct (Map_get _ k); by intros [= <- <-].
      + by intros [= <- <-]. }
  destruct (foldl updateDeviceMap_body ([], s) l) as [m s'] eqn:Hl.
  by apply Hloop in Hl.
Qed.

Lemma awaitedOpen_updateDeviceMap_ q l s :
  awaitedOpen r q (updateDeviceMap_ l s) → r < nextDeviceState s →
  awaitedOpen r q s.
Proof.
  intros Hq Hr. revert Hq. unfold awaitedOpen.
  destruct (updateDeviceMap_promises l s) as [_ ->].
  destruct (updateDeviceMap_old l s) as [_ Hold]. by rewrite Hold.
Qed.

(** **** What they do to [boundToFail] *)

Lemma lookup_settle q q' x s :
  promises (settle q' x s) !! q
  = if decide (q = q') then
      (λ pr, match settled pr with
             | None => {| origin := origin pr; settled := Some x |}
             | Some _ => pr
             end) <$> promises s !! q
    else promises s !! q.
Proof.
  unfold settle. simp_state. destruct (decide (q = q')) as [->|Hne].
  - by rewrite list_lookup_alter_eq.
  - by rewrite list_lookup_alter_ne.
Qed.

Lemma length_settle q x s :
  length (promises (settle q x s)) = length (promises s).
Proof. unfold settle. simp_state. apply length_alter. Qed.

Lemma boundToFail_newPromise q k s :
  boundToFail r e q s → boundToFail r e q (setPromises (promises s ++ k) s).
Proof.
  intros [(pr & Hpr & Ho) Hprod]. split; [|done].
  exists pr. split; [|done]. simp_state. by apply lookup_app_l_Some.
Qed.

Lemma boundToFail_settle q q' x s :
  boundToFail r e q s → (q' = q → x = Rejected e) →
  boundToFail r e q (settle q' x s).
Proof.
  intros [(pr & Hpr & Ho & Hs) Hprod] Hx. split; [|done].
  rewrite lookup_settle, Hpr. destruct (decide (q = q')) as [->|Hne].
  - cbn [fmap option_fmap option_map]. destruct Hs as [Hs|Hs]; rewrite Hs.
    + eexists. split; [done|]. split; [done|]. right. simpl.
      by rewrite Hx.
    + exists pr. auto.
  - exists pr. auto.
Qed.

Lemma boundToFail_suspend q a s :
  boundToFail r e q s →
  (result a = q → continuation a = OpenWebusbDevice_503 r) →
  boundToFail r e q (suspend a s).
Proof.
  intros [Hpr Hprod] Ha. split; [done|]. simp_state.
  intros t a' [Ht|[_ Ht]]%lookup_app_Some; [by apply (Hprod t)|].
  apply list_lookup_singleton_Some in Ht as [_ [= ->]]. done.
Qed.

Lemma boundToFail_finish q t s :
  boundToFail r e q s →
  boundToFail r e q (setActivations (<[t := None]> (activations s)) s).
Proof.
  intros [Hpr Hprod]. split; [done|]. simp_state.
  intros t' a [Ha _]%lookup_finish. by apply (Hprod t').
Qed.

Lemma boundToFail_updateDeviceState q r' f s :
  boundToFail r e q (updateDeviceState r' f s) ↔ boundToFail r e q s.
Proof. done. Qed.

Lemma boundToFail_setNextFreeDeviceHandle_ q x s :
  boundToFail r e q (setNextFreeDeviceHandle_ x s) ↔ boundToFail r e q s.
Proof. done. Qed.

Lemma boundToFail_updateDeviceMap_ q l s :
  boundToFail r e q (updateDeviceMap_ l s) ↔ boundToFail r e q s.
Proof.
  unfold boundToFail. by destruct (updateDeviceMap_promises l s) as [-> ->].
Qed.

(** **** What they do to [failedClose] *)

Lemma failedClose_fresh q s :
  failedClose r p e s → awaitedOpen r q s → q < length (promises s).
Proof.
  intros Hf [(pr & Hpr & _) _]%(failedClose_awaitedOpen _ _ _ _ Hf).
  by eapply lookup_lt_Some.
Qed.

Lemma failedClose_newPromise k s :
  failedClose r p e s → failedClose r p e (setPromises (promises s ++ k) s).
Proof.
  intros [Hr Hm (pr & Hp & He) Hh Hres Hw Haw].
  split; simp_state; try done.
  - exists pr. split; [|done]. by apply lookup_app_l_Some.
  - intros t a Ha. rewrite length_app. apply Hres in Ha. lia.
  - intros q Hq. by apply boundToFail_newPromise, Haw.
Qed.

Lemma failedClose_settle q x s :
  failedClose r p e s → (awaitedOpen r q s → x = Rejected e) →
  failedClose r p e (settle q x s).
Proof.
  intros [Hr Hm (pr & Hp & He) Hh Hres Hw Haw] Hx.
  split; try done.
  - rewrite lookup_settle, Hp. exists pr.
    case_decide; [|done]. cbn [fmap option_fmap option_map]. by rewrite He.
  - intros t a Ha. rewrite length_settle. by apply (Hres t).
  - intros q' Hq'%awaitedOpen_settle. apply boundToFail_settle; [by apply Haw|].
    intros ->. by apply Hx.
Qed.

Lemma failedClose_suspend a s :
  failedClose r p e s →
  result a < length (promises s) →
  (continuation a = OpenWebusbDevice_503 r
   ∨ continuation a = CloseDeviceHandle_181 r → awaiting a = p) →
  (continuation a = OpenDeviceHandle_151 r →
   boundToFail r e (awaiting a) s ∧ awaiting a ≠ result a) →
  (awaitedOpen r (result a) s → continuation a = OpenWebusbDevice_503 r) →
  failedClose r p e (suspend a s).
Proof.
  intros [Hr Hm Hp Hh Hres Hw Haw] Hlt Hwa Hopen Hprod.
  split; try done; simp_state.
  - intros t a' [Ht|[_ Ht]]%lookup_app_Some; [by apply (Hres t)|].
    by apply list_lookup_singleton_Some in Ht as [_ [= ->]].
  - intros t a' [Ht|[_ Ht]]%lookup_app_Some; [by apply (Hw t)|].
    by apply list_lookup_singleton_Some in Ht as [_ [= ->]].
  - intros q [Hq|[Hk Hq]]%awaitedOpen_suspend.
    + apply boundToFail_suspend; [by apply Haw|]. intros Heq. apply Hprod.
      by rewrite Heq.
    + destruct (Hopen Hk) as [Hb Hne]. subst q.
      apply boundToFail_suspend; [done|]. intros Heq. by destruct Hne.
Qed.

Lemma failedClose_finish t s :
  failedClose r p e s →
  failedClose r p e (setActivations (<[t := None]> (activations s)) s).
Proof.
  intros [Hr Hm Hp Hh Hres Hw Haw]. split; try done; simp_state.
  - intros t' a [Ha _]%lookup_finish. by apply (Hres t').
  - intros t' a [Ha _]%lookup_finish. by apply (Hw t').
  - intros q Hq%awaitedOpen_finish. by apply boundToFail_finish, Haw.
Qed.

Lemma failedClose_updateDeviceState_ne r' f s :
  r' ≠ r → failedClose r p e s → failedClose r p e (updateDeviceState r' f s).
Proof.
  intros Hne [Hr Hm Hp Hh Hres Hw Haw]. split; try done; simp_state.
  - by rewrite fn_lookup_insert_ne.
  - by rewrite fn_lookup_insert_ne.
  - intros q Hq%awaitedOpen_updateDeviceState_ne; [|done]. by apply Haw.
Qed.

Lemma failedClose_setOpenOperationPromise x s :
  failedClose r p e s → (∀ q, x = Some q → boundToFail r e q s) →
  failedClose r p e (updateDeviceState r (setOpenOperationPromise x) s).
Proof.
  intros [Hr Hm Hp Hh Hres Hw Haw] Hx. split; try done; simp_state.
  - by rewrite fn_lookup_insert.
  - by rewrite fn_lookup_insert.
  - intros q [Hq|Hq]%awaitedOpen_setOpenOperationPromise;
      [by apply Hx|by apply Haw].
Qed.

Lemma failedClose_setNextFreeDeviceHandle_ x s :
  failedClose r p e s → failedClose r p e (setNextFreeDeviceHandle_ x s).
Proof. by intros []. Qed.

Lemma failedClose_updateDeviceMap_ l s :
  failedClose r p e s → failedClose r p e (updateDeviceMap_ l s).
Proof.
  intros [Hr Hm Hp Hh Hres Hw Haw].
  destruct (updateDeviceMap_old l s) as [Hn Hold].
  pose proof (updateDeviceMap_promises l s) as [Hpr Hact].
  split; rewrite ?Hpr, ?Hact, ?Hold by done; try done; [lia|].
  intros q Hq%awaitedOpen_updateDeviceMap_; [|done].
  by apply boundToFail_updateDeviceMap_, Haw.
Qed.

(** **** The methods and the continuations *)

Ltac unwind H :=
  repeat
    match type of H with
    | awaitedOpen _ _ (settle _ _ _) => apply awaitedOpen_settle in H
    | awaitedOpen _ _ (setPromises _ _) => apply awaitedOpen_setPromises in H
    | awaitedOpen _ _ (setNextFreeDeviceHandle_ _ _) =>
        apply awaitedOpen_setNextFreeDeviceHandle_ in H
    | awaitedOpen _ _ (setActivations _ _) => apply awaitedOpen_finish in H
    | awaitedOpen _ _ (updateDeviceState _ _ _) =>
        apply awaitedOpen_updateDeviceState_ne in H; [|done]
    | awaitedOpen _ _ (suspend _ _) =>
        apply awaitedOpen_suspend in H as [H|[? ?]]; [|by simplify_eq]
    | awaitedOpen _ _ (updateDeviceMap_ _ _) =>
        apply awaitedOpen_updateDeviceMap_ in H; [|by simp_state]
    end.

Ltac fc_lt :=
  simp_state; rewrite ?length_settle; simp_state;
  rewrite ?length_app; simpl; lia.

Ltac fc_free Hfresh :=
  let Haw := fresh "Haw" in
  intros Haw; exfalso; unwind Haw;
  first [ done
        | apply Hfresh in Haw; simp_state in Haw;
          rewrite ?length_app in Haw; simpl in Haw; lia ].

Ltac fc Hf Hfresh :=
  repeat
    match goal with
    | |- failedClose _ _ _ (settle _ _ _) =>
        apply failedClose_settle; [|try first [done|fc_free Hfresh]]
    | |- failedClose _ _ _ (setPromises (_ ++ _) _) =>
        apply failedClose_newPromise
    | |- failedClose _ _ _ (setNextFreeDeviceHandle_ _ _) =>
        apply failedClose_setNextFreeDeviceHandle_
    | |- failedClose _ _ _ (setActivations _ _) => apply failedClose_finish
    | |- failedClose _ _ _ (updateDeviceMap_ _ _) =>
        apply failedClose_updateDeviceMap_
    | |- failedClose _ _ _ (updateDeviceState _ _ _) =>
        apply failedClose_updateDeviceState_ne; [done|]
    | |- failedClose _ _ _ (suspend _ _) =>
        apply failedClose_suspend;
        [|try fc_lt|try (by simp_state; intros [?|?]; simplify_eq)
         |try (by simp_state; intros ?; simplify_eq)|try fc_free Hfresh]
    | |- failedClose _ _ _ _ => exact Hf
    end.

(** A promise created after [s], pending, whose only new producer is an
    activation of [openWebusbDevice] at line 503 for [r]. *)
Lemma boundToFail_fresh q a s s' :
  failedClose r p e s →
  activations s' = activations s ++ [Some a] →
  continuation a = OpenWebusbDevice_503 r →
  promises s' !! q = Some {| origin := AsyncFunction; settled := None |} →
  length (promises s) ≤ q →
  boundToFail r e q s'.
Proof.
  intros Hf Ha Hk Hq Hle. split; [eexists; split; [done|]; auto|].
  intros t a'. rewrite Ha. intros [Ht|[_ Ht]]%lookup_app_Some Hres.
  - apply (failedClose_results _ _ _ _ Hf) in Ht. lia.
  - by apply list_lookup_singleton_Some in Ht as [_ [= <-]].
Qed.

Lemma failedClose_call req s :
  failedClose r p e s → failedClose r p e (call req s).
Proof.
  intros Hf.
  assert (∀ q, awaitedOpen r q s → q < length (promises s)) as Hfresh.
  { intros q. by apply failedClose_fresh. }
  destruct req; unfold call, listDevices, getConfigurations, openDeviceHandle,
    closeDeviceHandle, closeDeviceHandle_close, interfaceOrReset,
    controlTransfer, genericTransfer_, getConfigurations_loop,
    openDeviceHandle_newHandle, openWebusbDevice, openWebusbDevice_open;
    cbn [newPromise fst snd].
  - fc Hf Hfresh.
  - destruct (getDeviceByIdOrThrow_ _ _); [|fc Hf Hfresh].
    destruct (usbConfigurations _); cbn [newPromise]; fc Hf Hfresh.
  - destruct (getDeviceByIdOrThrow_ _ _) as [r'|]; [|fc Hf Hfresh].
    simp_state. case_decide as Hsz; cycle 1.
    { assert (r' ≠ r) as Hne.
      { intros ->. apply Hsz.
        by rewrite (failedClose_handles _ _ _ _ Hf), size_empty. }
      fc Hf Hfresh. }
    destruct (decide (r' = r)) as [->|Hne].
    + destruct (openOperationPromise (deviceStates s r)) as [q|] eqn:Ho.
      * assert (awaitedOpen r q s) as Hq by (by left).
        apply failedClose_suspend;
          [fc Hf Hfresh|fc_lt|by intros [?|?]| |fc_free Hfresh].
        intros _. simp_state. split.
        -- by apply boundToFail_newPromise,
             (failedClose_awaitedOpen _ _ _ _ Hf).
        -- apply Hfresh in Hq. lia.
      * rewrite (failedClose_marker _ _ _ _ Hf).
        rewrite !length_app. cbn [length].
        set (n := length (promises s)) in *.
        match goal with
        | |- failedClose _ _ _ (suspend _ (updateDeviceState _ _ ?s')) =>
            set (s3 := s')
        end.
        assert (failedClose r p e s3) as Hf3.
        { apply failedClose_suspend;
            [fc Hf Hfresh|fc_lt|by intros _|by intros ?|by intros _]. }
        assert (boundToFail r e (n + 1) s3) as Hb.
        { eapply (boundToFail_fresh _ _ s); [done|done|done| |lia].
          unfold s3. simp_state. rewrite <- (assoc_L (++)). unfold n.
          rewrite lookup_app_r by lia. by rewrite Nat.add_sub'. }
        apply failedClose_suspend.
        -- apply failedClose_setOpenOperationPromise; [done|].
           by intros q [= <-].
        -- unfold s3. fc_lt.
        -- by intros [?|?].
        -- intros _. simp_state. split; [done|lia].
        -- simp_state. intros Haw. exfalso.
           apply awaitedOpen_setOpenOperationPromise in Haw as [[= ?]|Haw];
             [lia|].
           unfold s3 in Haw. unwind Haw. apply Hfresh in Haw. lia.
    + destruct (openOperationPromise (deviceStates s r'));
        [fc Hf Hfresh|].
      destruct (closeOperationPromise (deviceStates s r')); fc Hf Hfresh.
  - destruct (getDeviceByIdOrThrow_ _ _) as [r'|]; [|fc Hf Hfresh].
    simp_state. case_decide as Hin; [|fc Hf Hfresh].
    assert (r' ≠ r) as Hne.
    { intros ->. rewrite (failedClose_handles _ _ _ _ Hf) in Hin.
      by apply not_elem_of_empty in Hin. }
    case_decide; fc Hf Hfresh.
  - destruct (getDeviceByIdAndHandleOrThrow_ _ _ _); fc Hf Hfresh.
  - destruct (getDeviceByIdAndHandleOrThrow_ _ _ _); fc Hf Hfresh.
  - destruct (getDeviceByIdAndHandleOrThrow_ _ _ _); fc Hf Hfresh.
  - destruct (_ ≫= _); fc Hf Hfresh.
  - destruct (getDeviceByIdAndHandleOrThrow_ _ _ _); fc Hf Hfresh.
  - destruct (getDeviceByIdAndHandleOrThrow_ _ _ _); fc Hf Hfresh.
Qed.

Lemma failedClose_resume t a pr x s s' :
  failedClose r p e s →
  activations s !! t = Some (Some a) →
  promises s !! awaiting a = Some pr → settled pr = Some x →
  resume (continuation a) x (result a)
    (setActivations (<[t := None]> (activations s)) s) = Some s' →
  failedClose r p e s'.
Proof.
  intros Hf Ha Hpr Hx.
  assert (∀ q, awaitedOpen r q s → q < length (promises s)) as Hfresh.
  { intros q. by apply failedClose_fresh. }
  pose proof (failedClose_object _ _ _ _ Hf) as Hobj.
  pose proof (failedClose_results _ _ _ _ Hf _ _ Ha) as Hlt.
  assert (continuation a ≠ OpenWebusbDevice_503 r →
          ¬ awaitedOpen r (result a) s) as Hfree.
  { intros Hk Haw. apply Hk.
    destruct (failedClose_awaitedOpen _ _ _ _ Hf _ Haw) as [_ Hprod].
    by apply (Hprod t). }
  assert (continuation a = OpenWebusbDevice_503 r
          ∨ continuation a = CloseDeviceHandle_181 r →
          x = Rejected e) as Hmarker.
  { intros Hk. rewrite (failedClose_waits _ _ _ _ Hf _ _ Ha Hk) in Hpr.
    destruct (failedClose_rejected _ _ _ _ Hf) as (pr' & Hpr' & He).
    congruence. }
  assert (continuation a = OpenDeviceHandle_151 r → x = Rejected e) as Hopen.
  { intros Hk.
    destruct (failedClose_awaitedOpen _ _ _ _ Hf (awaiting a))
      as [(pr' & Hpr' & _ & [Hs|Hs]) _]; [right; by exists t, a|..];
      congruence. }
  destruct a as [aw k res]. simp_state in Hfree. simp_state in Hlt.
  simp_state in Hmarker. simp_state in Hopen. simp_state.
  set (sf := setActivations (<[t := None]> (activations s)) s).
  assert (failedClose r p e sf) as Hff by (by apply failedClose_finish).
  destruct k; unfold resume, listDevices_update, getConfigurations_push,
    getConfigurations_loop, controlTransferIn, fetchAndFill_finally,
    openDeviceHandle_newHandle, openWebusbDevice_open;
    cbn [newPromise fst snd];
    try (assert (¬ awaitedOpen r res s) as Hfree' by (by apply Hfree)).
  - destruct x as [[]|]; intros; simplify_eq; unfold sf; fc Hf Hfresh.
  - destruct x; intros; simplify_eq; [unfold sf; fc Hf Hfresh|].
    destruct (remainingConfigurations f); cbn [newPromise];
      unfold sf; fc Hf Hfresh.
  - destruct (asTransferResult x) as [first|]; [|done].
    cbn [mbind option_bind].
    destruct (await first ≫= readTotalLength) as [[tl|]|];
      intros; simplify_eq; unfold sf; fc Hf Hfresh.
  - destruct (asTransferResult x) as [second|]; [|done].
    cbn [mbind option_bind].
    destruct (await second);
      [|intros; simplify_eq; unfold sf; fc Hf Hfresh].
    destruct (parseDescriptors _ _ _) as [[? c]|]; [|done].
    cbn [mbind option_bind]. intros; simplify_eq. unfold sf. fc Hf Hfresh.
  - intros; simplify_eq.
    destruct (remainingConfigurations f); cbn [newPromise];
      unfold sf; fc Hf Hfresh.
  - (* [OpenDeviceHandle_151] *)
    destruct (decide (deviceState = r)) as [->|Hne].
    + rewrite (Hopen eq_refl). intros [= <-].
      apply failedClose_settle; [|done].
      apply failedClose_setOpenOperationPromise; [done|]. by intros q.
    + destruct x; intros; simplify_eq; unfold sf; fc Hf Hfresh.
  - (* [CloseDeviceHandle_181] *)
    destruct (decide (deviceState = r)) as [->|Hne].
    + rewrite (Hmarker (or_intror eq_refl)). intros [= <-].
      by apply failedClose_settle.
    + destruct x; intros; simplify_eq; unfold sf; fc Hf Hfresh.
  - destruct x; intros; simplify_eq; unfold sf; fc Hf Hfresh.
  - destruct (asTransferResult x) as [tr|]; [|done]. cbn [mbind option_bind].
    destruct (await tr ≫= getLibusbJsTransferResultOrThrow);
      intros; simplify_eq; unfold sf; fc Hf Hfresh.
  - (* [OpenWebusbDevice_503] *)
    destruct (decide (deviceState = r)) as [->|Hne].
    + rewrite (Hmarker (or_introl eq_refl)). intros [= <-].
      by apply failedClose_settle.
    + assert (¬ awaitedOpen r res s) as Hfree' by (apply Hfree; congruence).
      destruct x; intros; simplify_eq; unfold sf; fc Hf Hfresh.
  - destruct x; intros; simplify_eq; unfold sf; fc Hf Hfresh.
Qed.

(** The state of a failed close lasts: no transition leaves it. *)
Lemma failedClose_step l s s' :
  failedClose r p e s → step l s = Some s' → failedClose r p e s'.
Proof.
  intros Hf. destruct l as [req|q x|t]; cbn [step].
  - intros [= <-]. by apply failedClose_call.
  - destruct (promises s !! q) as [pr|] eqn:Hq; [|done].
    cbn [mbind option_bind].
    destruct (settled pr) eqn:Hs; [done|].
    destruct (webusbSettles (origin pr) x) eqn:Hw; [|done].
    intros [= <-]. apply failedClose_settle; [done|].
    intros [(pr' & Hpr' & Ho & _) _]%(failedClose_awaitedOpen _ _ _ _ Hf).
    rewrite Hq in Hpr'. injection Hpr' as <-. by rewrite Ho in Hw.
  - destruct (activations s !! t) as [[a|]|] eqn:Ha; [|done..].
    cbn [mjoin option_join mbind option_bind].
    destruct (promises s !! awaiting a) as [pr|] eqn:Hpr; [|done].
    cbn [mbind option_bind].
    destruct (settled pr) as [x|] eqn:Hx; [|done].
    cbn [mbind option_bind]. by apply (failedClose_resume t a pr x).
Qed.

Lemma failedClose_run ls s s' :
  failedClose r p e s → run ls s = Some s' → failedClose r p e s'.
Proof.
  revert s. induction ls as [|l ls IH]; intros s Hf; cbn [run].
  - by intros [= <-].
  - destruct (step l s) as [s1|] eqn:Hstep; [|done]. cbn [mbind option_bind].
    apply IH. by apply (failedClose_step l s).
Qed.

(** **** What [openDeviceHandle] does on such a device *)

(** The call makes no WebUSB call and suspends at line 151, on a promise
    that is bound to fail. *)
Lemma failedClose_openDeviceHandle deviceId s :
  failedClose r p e s →
  Map_get (idToDeviceMap_ s) deviceId = Some r →
  let s' := call (OpenDeviceHandle deviceId) s in
  (∀ o, o ≠ AsyncFunction → issued o s' = issued o s)
  ∧ promises s' !! length (promises s) = Some (pending AsyncFunction)
  ∧ ∃ q, last (activations s')
         = Some (openDeviceHandle_151 r q (length (promises s)))
         ∧ boundToFail r e q s'.
Proof.
  intros Hf Hid s'.
  assert (failedClose r p e s') as Hf' by (by apply failedClose_call).
  pose proof (failedClose_handles _ _ _ _ Hf) as Hh.
  pose proof (failedClose_marker _ _ _ _ Hf) as Hc.
  subst s'. cbn [call] in *.
  destruct (openOperationPromise (deviceStates s r)) as [q|] eqn:Ho.
  - destruct (openDeviceHandle_joins _ _ _ _ Hid Hh Ho)
      as (Hp1 & Ha1 & _).
    split; [|split].
    + intros o Hne. rewrite (issued_app _ _ _ _ Hp1). unfold issued.
      simpl. rewrite filter_cons, filter_nil, decide_False by done.
      simpl. lia.
    + rewrite Hp1. by rewrite lookup_app_r, Nat.sub_diag by lia.
    + exists q. split; [by rewrite Ha1, last_snoc|].
      apply (failedClose_awaitedOpen _ _ _ _ Hf'). right.
      eexists (length (activations s)), _.
      split; [rewrite Ha1; by rewrite lookup_app_r, Nat.sub_diag by lia|].
      done.
  - destruct (openDeviceHandle_awaits_marker _ _ _ _ Hid Hh Ho Hc)
      as (Hp1 & Ha1 & Hd1 & _).
    split; [|split].
    + intros o Hne. rewrite (issued_app _ _ _ _ Hp1). unfold issued.
      simpl. rewrite !filter_cons, filter_nil, !decide_False by done.
      simpl. lia.
    + rewrite Hp1. by rewrite lookup_app_r, Nat.sub_diag by lia.
    + exists (S (length (promises s))). split.
      * rewrite Ha1. by rewrite last_app_cons.
      * apply (failedClose_awaitedOpen _ _ _ _ Hf'). left.
        rewrite Hd1, fn_lookup_insert. done.
Qed.

(** [openWebusbDevice] suspended at line 503 can continue, and then fails
    with [e] before it reaches [open()]. *)
Lemma failedClose_resume_503 t a s :
  failedClose r p e s →
  activations s !! t = Some (Some a) →
  continuation a = OpenWebusbDevice_503 r →
  step (Resume t) s
  = Some (settle (result a) (Rejected e)
            (setActivations (<[t := None]> (activations s)) s)).
Proof.
  intros Hf Ha Hk.
  destruct (failedClose_rejected _ _ _ _ Hf) as (pr & Hpr & He).
  rewrite <- (failedClose_waits _ _ _ _ Hf _ _ Ha (or_introl Hk)) in Hpr.
  rewrite (step_Resume t a pr (Rejected e)) by done. by rewrite Hk.
Qed.

(** [openDeviceHandle] suspended at line 151: when it continues, it clears
    the pending-open marker and fails with [e]. *)
Lemma failedClose_resume_151 t a s s' :
  failedClose r p e s →
  activations s !! t = Some (Some a) →
  continuation a = OpenDeviceHandle_151 r →
  step (Resume t) s = Some s' →
  s' = settle (result a) (Rejected e)
         (updateDeviceState r (setOpenOperationPromise None)
            (setActivations (<[t := None]> (activations s)) s)).
Proof.
  intros Hf Ha Hk. cbn [step]. rewrite Ha.
  cbn [mjoin option_join mbind option_bind].
  destruct (failedClose_awaitedOpen _ _ _ _ Hf (awaiting a))
    as [(pr & Hpr & _ & Hs) _]; [right; by exists t, a|].
  rewrite Hpr. cbn [mbind option_bind].
  destruct Hs as [Hs|Hs]; rewrite Hs; [done|].
  cbn [mbind option_bind]. rewrite Hk. by intros [= <-].
Qed.

End FailedClose.
End FailedCloseFacts.

(* ===================================================================== *)
(** ** Activations and their promises *)
(* ===================================================================== *)

Import Js.

Module ResultsFacts.
Import Descriptor Adaptor DescriptorFacts RegistryFacts AdaptorFacts
  FailedCloseFacts.

(** **** The promises returned by suspended activations *)

Lemma resultsWf_newPromise k s :
  resultsWf s → resultsWf (setPromises (promises s ++ k) s).
Proof.
  intros [Hp Hu]. split; [|done]. simp_state.
  intros t a Ha. by apply lookup_app_l_Some, (Hp t).
Qed.

Lemma resultsWf_settle q x s :
  resultsWf s →
  (∀ t a, activations s !! t = Some (Some a) → result a ≠ q) →
  resultsWf (settle q x s).
Proof.
  intros [Hp Hu] Hq. split; [|done].
  intros t a Ha. rewrite lookup_settle.
  rewrite decide_False by (by apply (Hq t)). by apply (Hp t).
Qed.

Lemma resultsWf_suspend a s :
  resultsWf s →
  promises s !! result a = Some (pending AsyncFunction) →
  (∀ t a', activations s !! t = Some (Some a') → result a' ≠ result a) →
  resultsWf (suspend a s).
Proof.
  intros [Hp Hu] Hres Hnew. split; simp_state.
  - intros t a' [Ht|[_ Ht]]%lookup_app_Some; [by apply (Hp t)|].
    by apply list_lookup_singleton_Some in Ht as [_ [= <-]].
  - intros t t' a1 a2 Ht Ht' Heq.
    apply lookup_app_Some in Ht as [Ht|[Hle Ht]];
      apply lookup_app_Some in Ht' as [Ht'|[Hle' Ht']].
    + by apply (Hu t t' a1 a2).
    + apply list_lookup_singleton_Some in Ht' as [_ [= <-]].
      by destruct (Hnew _ _ Ht).
    + apply list_lookup_singleton_Some in Ht as [_ [= <-]].
      by destruct (Hnew _ _ Ht').
    + apply list_lookup_singleton_Some in Ht as [Ht _].
      apply list_lookup_singleton_Some in Ht' as [Ht' _]. lia.
Qed.

Lemma resultsWf_finish t s :
  resultsWf s →
  resultsWf (setActivations (<[t := None]> (activations s)) s).
Proof.
  intros [Hp Hu]. split; simp_state.
  - intros t' a [Ha _]%lookup_finish. by apply (Hp t').
  - intros t1 t2 a1 a2 [H1 _]%lookup_finish [H2 _]%lookup_finish.
    by apply Hu.
Qed.

Lemma resultsWf_same s s' :
  promises s' = promises s → activations s' = activations s →
  resultsWf s → resultsWf s'.
Proof. intros Hp Ha [? ?]. split; rewrite Hp, Ha || rewrite Ha; done. Qed.

Ltac unprod_cases Ht :=
  first
    [ apply lookup_app_Some in Ht as [Ht|[_ Ht]];
      [unprod_cases Ht
      |apply list_lookup_singleton_Some in Ht as [_ [= <-]]]
    | idtac ].

Ltac unprod Hbase :=
  let t := fresh "t" in
  let a := fresh "a" in
  let Ht := fresh "Ht" in
  let Hres := fresh "Hres" in
  intros t a Ht Hres; simp_state in Ht; unprod_cases Ht;
  simp_state in Hres; rewrite ?length_app in Hres; cbn [length] in Hres;
  first [ lia | apply Hbase in Ht; first [done|lia] ].

Ltac look :=
  simp_state; rewrite ?length_app; cbn [length];
  rewrite <- ?(assoc_L (++));
  first
    [ by apply lookup_app_l_Some
    | rewrite lookup_app_r by lia;
      match goal with
      | |- _ !! ?i = _ =>
          first [replace i with 0 by lia|replace i with 1 by lia]
      end; done ].

Ltac rw H Hbase :=
  repeat
    match goal with
    | |- resultsWf (settle _ _ _) =>
        apply resultsWf_settle; [|try unprod Hbase]
    | |- resultsWf (setPromises (_ ++ _) _) => apply resultsWf_newPromise
    | |- resultsWf (suspend _ _) =>
        apply resultsWf_suspend; [|try look|try unprod Hbase]
    | |- resultsWf (setActivations _ _) => apply resultsWf_finish
    | |- resultsWf (updateDeviceState _ _ ?s) =>
        apply (resultsWf_same s); [done|done|]
    | |- resultsWf (setNextFreeDeviceHandle_ _ ?s) =>
        apply (resultsWf_same s); [done|done|]
    | |- resultsWf (updateDeviceMap_ ?l ?s) =>
        apply (resultsWf_same s);
        [apply (updateDeviceMap_promises l s)
        |apply (updateDeviceMap_promises l s)|]
    | |- resultsWf _ => exact H
    end.

Lemma resultsWf_call req s : resultsWf s → resultsWf (call req s).
Proof.
  intros Hw.
  assert (∀ t a, activations s !! t = Some (Some a) →
                 result a < length (promises s)) as Hbase.
  { intros t a Ha. eapply lookup_lt_Some. by apply (resultsWf_pending _ Hw t). }
  destruct req; unfold call, listDevices, getConfigurations, openDeviceHandle,
    closeDeviceHandle, closeDeviceHandle_close, interfaceOrReset,
    controlTransfer, genericTransfer_, getConfigurations_loop,
    openDeviceHandle_newHandle, openWebusbDevice, openWebusbDevice_open;
    cbn [newPromise fst snd].
  - rw Hw Hbase.
  - destruct (getDeviceByIdOrThrow_ _ _); [|rw Hw Hbase].
    destruct (usbConfigurations _); cbn [newPromise]; rw Hw Hbase.
  - destruct (getDeviceByIdOrThrow_ _ _) as [r|]; [|rw Hw Hbase].
    case_decide; [|rw Hw Hbase].
    destruct (openOperationPromise _); [rw Hw Hbase|].
    destruct (closeOperationPromise _); cbn [newPromise]; rw Hw Hbase.
  - destruct (getDeviceByIdOrThrow_ _ _) as [r|]; [|rw Hw Hbase].
    case_decide; [|rw Hw Hbase]. case_decide; rw Hw Hbase.
  - destruct (getDeviceByIdAndHandleOrThrow_ _ _ _); rw Hw Hbase.
  - destruct (getDeviceByIdAndHandleOrThrow_ _ _ _); rw Hw Hbase.
  - destruct (getDeviceByIdAndHandleOrThrow_ _ _ _); rw Hw Hbase.
  - destruct (_ ≫= _); rw Hw Hbase.
  - destruct (getDeviceByIdAndHandleOrThrow_ _ _ _); rw Hw Hbase.
  - destruct (getDeviceByIdAndHandleOrThrow_ _ _ _); rw Hw Hbase.
Qed.

Lemma resultsWf_resume t a x s s' :
  resultsWf s →
  activations s !! t = Some (Some a) →
  resume (continuation a) x (result a)
    (setActivations (<[t := None]> (activations s)) s) = Some s' →
  resultsWf s'.
Proof.
  intros Hw Ha.
  assert (∀ t' a', <[t := None]> (activations s) !! t' = Some (Some a') →
                   result a' ≠ result a) as Hbase.
  { intros t' a' [Ha' Hne]%lookup_finish Heq. apply Hne.
    by apply (resultsWf_unique _ Hw t' t a' a). }
  pose proof (resultsWf_pending _ Hw _ _ Ha) as Hpend.
  assert (resultsWf (setActivations (<[t := None]> (activations s)) s))
    as Hwf by (by apply resultsWf_finish).
  destruct a as [aw k res]. simp_state in Hbase. simp_state in Hpend.
  simp_state.
  destruct k; unfold resume, listDevices_update, getConfigurations_push,
    getConfigurations_loop, controlTransferIn, fetchAndFill_finally,
    openDeviceHandle_newHandle, openWebusbDevice_open;
    cbn [newPromise fst snd].
  - destruct x as [[]|]; intros; simplify_eq; rw Hw Hbase.
    intros t' a'. rewrite (proj2 (updateDeviceMap_promises _ _)).
    apply Hbase.
  - destruct x; intros; simplify_eq; [rw Hw Hbase|].
    destruct (remainingConfigurations f); cbn [newPromise]; rw Hw Hbase.
  - destruct (asTransferResult x) as [first|]; [|done].
    cbn [mbind option_bind].
    destruct (await first ≫= readTotalLength) as [[tl|]|];
      intros; simplify_eq; rw Hw Hbase.
  - destruct (asTransferResult x) as [second|]; [|done].
    cbn [mbind option_bind].
    destruct (await second); [|intros; simplify_eq; rw Hw Hbase].
    destruct (parseDescriptors _ _ _) as [[? c]|]; [|done].
    cbn [mbind option_bind]. intros; simplify_eq. rw Hw Hbase.
  - intros; simplify_eq.
    destruct (remainingConfigurations f); cbn [newPromise]; rw Hw Hbase.
  - destruct x; intros; simplify_eq; rw Hw Hbase.
  - destruct x; intros; simplify_eq; rw Hw Hbase.
  - destruct x; intros; simplify_eq; rw Hw Hbase.
  - destruct (asTransferResult x) as [tr|]; [|done]. cbn [mbind option_bind].
    destruct (await tr ≫= getLibusbJsTransferResultOrThrow);
      intros; simplify_eq; rw Hw Hbase.
  - destruct x; intros; simplify_eq; rw Hw Hbase.
  - destruct x; intros; simplify_eq; rw Hw Hbase.
Qed.

Lemma resultsWf_step l s s' :
  resultsWf s → step l s = Some s' → resultsWf s'.
Proof.
  intros Hw. destruct l as [req|q x|t]; cbn [step].
  - intros [= <-]. by apply resultsWf_call.
  - destruct (promises s !! q) as [pr|] eqn:Hq; [|done].
    cbn [mbind option_bind].
    destruct (settled pr) eqn:Hs; [done|].
    destruct (webusbSettles (origin pr) x) eqn:Hx; [|done].
    intros [= <-]. apply resultsWf_settle; [done|].
    intros t a Ha <-. rewrite (resultsWf_pending _ Hw _ _ Ha) in Hq.
    by injection Hq as <-.
  - destruct (activations s !! t) as [[a|]|] eqn:Ha; [|done..].
    cbn [mjoin option_join mbind option_bind].
    destruct (promises s !! awaiting a) as [pr|]; [|done].
    cbn [mbind option_bind].
    destruct (settled pr) as [x|]; [|done].
    cbn [mbind option_bind]. by apply (resultsWf_resume t a x).
Qed.

Lemma reachable_resultsWf s : reachable s → resultsWf s.
Proof.
  induction 1 as [usb'|l s s' _ IH Hstep].
  - split; [intros t a Ha|intros t t' a a' Ha]; cbn in Ha;
      by rewrite lookup_nil in Ha.
  - by apply (resultsWf_step l s).
Qed.

(** On a device whose close failed and on which nothing is pending, a call
    of [openDeviceHandle] starts [openWebusbDevice], which awaits the
    marker; both fail with the error of the close, no WebUSB call is made,
    and the device is left as it was. *)
Lemma openDeviceHandle_after_failed_close s deviceId r p o e :
  Map_get (idToDeviceMap_ s) deviceId = Some r →
  closeOperationPromise (deviceStates s r) = Some p →
  promises s !! p = Some {| origin := o; settled := Some (Rejected e) |} →
  handles (deviceStates s r) = ∅ →
  openOperationPromise (deviceStates s r) = None →
  let n := length (promises s) in
  let m := length (activations s) in
  let s1 := call (OpenDeviceHandle deviceId) s in
  activations s1
  = activations s
    ++ [Some {| awaiting := p; continuation := OpenWebusbDevice_503 r;
                result := S n |};
        Some {| awaiting := S n; continuation := OpenDeviceHandle_151 r;
                result := n |}]
  ∧ (∀ o', o' ≠ AsyncFunction → issued o' s1 = issued o' s)
  ∧ ∃ s3,
      run [Resume m; Resume (S m)] s1 = Some s3
      ∧ promises s3
        = promises s
          ++ [{| origin := AsyncFunction;
                 settled := Some (Rejected e) |};
              {| origin := AsyncFunction;
                 settled := Some (Rejected e) |}]
      ∧ (∀ o', o' ≠ AsyncFunction → issued o' s3 = issued o' s)
      ∧ Map_get (idToDeviceMap_ s3) deviceId = Some r
      ∧ closeOperationPromise (deviceStates s3 r) = Some p
      ∧ promises s3 !! p
        = Some {| origin := o; settled := Some (Rejected e) |}
      ∧ handles (deviceStates s3 r) = ∅
      ∧ openOperationPromise (deviceStates s3 r) = None.
Proof.
  intros Hid Hc Hp Hh Ho n m s1. subst s1.
  cbn [call].
  destruct (openDeviceHandle_awaits_marker _ _ _ _ Hid Hh Ho Hc)
    as (Hp1 & Ha1 & Hd1 & Hm1 & _).
  set (s1 := openDeviceHandle deviceId s) in *.
  fold n in Hp1, Ha1, Hd1.
  assert (p < n) as Hlt by (by apply lookup_lt_Some in Hp).
  assert (∀ o', o' ≠ AsyncFunction → issued o' s1 = issued o' s) as Hi1.
  { intros o' Ho'. rewrite (issued_app _ _ _ _ Hp1). unfold issued. simpl.
    rewrite !filter_cons, filter_nil, !decide_False by done. simpl. lia. }
  split; [exact Ha1|]. split; [exact Hi1|].
  (* [openWebusbDevice] resumes: the marker is rejected *)
  set (s1' := setActivations (<[m := None]> (activations s1)) s1).
  assert (step (Resume m) s1 = Some (settle (S n) (Rejected e) s1'))
    as Hstep1.
  { rewrite (step_Resume m
               {| awaiting := p; continuation := OpenWebusbDevice_503 r;
                  result := S n |}
               {| origin := o; settled := Some (Rejected e) |}
               (Rejected e)); [done| | |done].
    - rewrite Ha1. by apply list_lookup_middle.
    - cbn [awaiting]. rewrite Hp1. by rewrite lookup_app_l. }
  set (s2 := settle (S n) (Rejected e) s1') in *.
  assert (promises s2
          = promises s
            ++ [{| origin := AsyncFunction; settled := None |};
                {| origin := AsyncFunction;
                   settled := Some (Rejected e) |}]) as Hp2.
  { subst s2.
    replace (S n)
      with (length (promises s
                      ++ [{| origin := AsyncFunction; settled := None |}]))
      by (rewrite length_app; simpl; lia).
    rewrite (settle_pending _ _ _ AsyncFunction []);
      [by rewrite <- (assoc_L (++))|].
    subst s1'. simp_state. by rewrite Hp1, <- (assoc_L (++)). }
  assert (activations s2
          = activations s
            ++ [None;
                Some {| awaiting := S n;
                        continuation := OpenDeviceHandle_151 r;
                        result := n |}]) as Ha2.
  { subst s2 s1'. rewrite activations_settle. simp_state. rewrite Ha1.
    subst m. rewrite insert_app_r_alt by lia.
    by rewrite Nat.sub_diag. }
  (* [openDeviceHandle] resumes: its awaited promise is rejected *)
  set (s2' := setActivations (<[S m := None]> (activations s2)) s2).
  set (s3 := settle n (Rejected e)
               (updateDeviceState r (setOpenOperationPromise None) s2')).
  assert (step (Resume (S m)) s2 = Some s3) as Hstep2.
  { rewrite (step_Resume (S m)
               {| awaiting := S n; continuation := OpenDeviceHandle_151 r;
                  result := n |}
               {| origin := AsyncFunction; settled := Some (Rejected e) |}
               (Rejected e)); [done| | |done].
    - rewrite Ha2. subst m.
      rewrite lookup_app_r by lia.
      by replace (S (length (activations s)) - length (activations s))
        with 1 by lia.
    - cbn [awaiting]. rewrite Hp2. subst n.
      rewrite lookup_app_r by lia.
      by replace (S (length (promises s)) - length (promises s))
        with 1 by lia. }
  assert (promises s3
          = promises s
            ++ [{| origin := AsyncFunction;
                   settled := Some (Rejected e) |};
                {| origin := AsyncFunction;
                   settled := Some (Rejected e) |}]) as Hp3.
  { subst s3. apply (settle_pending _ _ _ AsyncFunction).
    subst s2'. simp_state. exact Hp2. }
  exists s3. split.
  { cbn [run]. rewrite Hstep1. cbn [mbind option_bind].
    rewrite Hstep2. done. }
  split; [exact Hp3|]. split.
  { intros o' Ho'. rewrite (issued_app _ _ _ _ Hp3). unfold issued. simpl.
    rewrite !filter_cons, filter_nil, !decide_False by done. simpl. lia. }
  assert (deviceStates s3 r
          = setOpenOperationPromise None
              (setOpenOperationPromise (Some (S n)) (deviceStates s r)))
    as Hd3.
  { subst s3 s2' s2 s1'. rewrite deviceStates_settle. simp_state.
    rewrite fn_lookup_insert, deviceStates_settle. simp_state.
    by rewrite Hd1, fn_lookup_insert. }
  split; [by rewrite <- Hid, <- Hm1|].
  rewrite Hd3. simp_state.
  repeat split; try done.
  rewrite Hp3. by rewrite lookup_app_l.
Qed.

(** A device whose close failed, with nothing suspended on it, is in the
    state [failedClose]. *)
Lemma failedClose_quiescent r p e pr s :
  resultsWf s →
  r < nextDeviceState s →
  closeOperationPromise (deviceStates s r) = Some p →
  promises s !! p = Some pr → settled pr = Some (Rejected e) →
  handles (deviceStates s r) = ∅ →
  openOperationPromise (deviceStates s r) = None →
  (∀ t a, activations s !! t = Some (Some a) →
          continuation a ≠ OpenWebusbDevice_503 r
          ∧ continuation a ≠ CloseDeviceHandle_181 r
          ∧ continuation a ≠ OpenDeviceHandle_151 r) →
  failedClose r p e s.
Proof.
  intros Hw Hr Hc Hp He Hh Ho Hq. split; try done.
  - by exists pr.
  - intros t a Ha. eapply lookup_lt_Some.
    by apply (resultsWf_pending _ Hw t).
  - intros t a Ha [Hk|Hk]; by destruct (Hq _ _ Ha) as (? & ? & ?).
  - intros q [Hq'|(t & a & Ha & Hk & _)]; [congruence|].
    by destruct (Hq _ _ Ha) as (? & ? & ?).
Qed.

(** In a state the adaptor can reach, a call suspended at line 151 on a
    device whose close failed ends, when it continues, with its promise
    rejected with the error of the close, no WebUSB call made and no handle
    given out. *)
Lemma failedClose_resume_151_rejected r p e t a s s' :
  resultsWf s → failedClose r p e s →
  activations s !! t = Some (Some a) →
  continuation a = OpenDeviceHandle_151 r →
  step (Resume t) s = Some s' →
  (∀ o, issued o s' = issued o s)
  ∧ promises s' !! result a
    = Some {| origin := AsyncFunction; settled := Some (Rejected e) |}
  ∧ handles (deviceStates s' r) = ∅
  ∧ nextFreeDeviceHandle_ s' = nextFreeDeviceHandle_ s.
Proof.
  intros Hw Hf Ha Hk Hstep.
  pose proof (failedClose_step _ _ _ _ _ _ Hf Hstep) as Hf'.
  apply (failedClose_resume_151 _ _ _ _ _ _ _ Hf Ha Hk) in Hstep as ->.
  split; [intros o; by rewrite issued_settle|].
  split; [|split; [by apply (failedClose_handles _ _ _ _ Hf')|done]].
  rewrite lookup_settle, decide_True by done. simp_state.
  by rewrite (resultsWf_pending _ Hw _ _ Ha).
Qed.

(** [openWebusbDevice] suspended at line 503 on such a device continues
    without calling [open()]: its promise is rejected with the error of the
    close. *)
Lemma failedClose_resume_503_rejected r p e t a s :
  resultsWf s → failedClose r p e s →
  activations s !! t = Some (Some a) →
  continuation a = OpenWebusbDevice_503 r →
  ∃ s', step (Resume t) s = Some s'
        ∧ (∀ o, issued o s' = issued o s)
        ∧ promises s' !! result a
          = Some {| origin := AsyncFunction; settled := Some (Rejected e) |}.
Proof.
  intros Hw Hf Ha Hk. eexists.
  split; [by apply (failedClose_resume_503 r p e)|].
  split; [intros o; by rewrite issued_settle|].
  rewrite lookup_settle, decide_True by done. simp_state.
  by rewrite (resultsWf_pending _ Hw _ _ Ha).
Qed.

End ResultsFacts.

(* ===================================================================== *)
(** ** Opening a device whose close is under way *)
(* ===================================================================== *)

Import Js.

Module ClosingFacts.
Import Descriptor Adaptor DescriptorFacts RegistryFacts AdaptorFacts
  FailedCloseFacts ResultsFacts.





End ClosingFacts.

(* ===================================================================== *)
(** ** The order of the runtime: promises, activations and the queue *)
(* ===================================================================== *)

Import Js.

Module JobsFacts.
Import Descriptor Adaptor DescriptorFacts RegistryFacts AdaptorFacts
  FailedCloseFacts ResultsFacts.

(** **** Promises and activations *)

Lemma isSettled_true p s :
  isSettled p s = true ↔
  ∃ pr x, promises s !! p = Some pr ∧ settled pr = Some x.
Proof.
  unfold isSettled. destruct (promises s !! p) as [pr|]; [|naive_solver].
  destruct (settled pr) as [x|] eqn:Hx; [|naive_solver].
  split; [|done]. intros _. by exists pr, x.
Qed.

Lemma isSettled_false p s :
  isSettled p s = false ↔
  promises s !! p = None ∨ isPending s p.
Proof.
  unfold isSettled, isPending.
  destruct (promises s !! p) as [pr|]; [|naive_solver].
  destruct (settled pr) as [x|] eqn:Hx; [naive_solver|].
  split; [|done]. intros _. right. by exists pr.
Qed.

Lemma isPending_isSettled p s : isPending s p → isSettled p s = false.
Proof. intros Hp. apply isSettled_false. by right. Qed.

Lemma isFulfilled_isSettled p s : isFulfilled s p → isSettled p s = true.
Proof. intros (pr & v & Hpr & Hv). apply isSettled_true.
  by exists pr, (Fulfilled v).
Qed.

Lemma isSettled_lookup p pr s :
  promises s !! p = Some pr →
  isSettled p s = if settled pr is Some _ then true else false.
Proof. intros Hp. unfold isSettled. by rewrite Hp. Qed.

Lemma isSettled_ext p s s' :
  promises s' !! p = promises s !! p → isSettled p s' = isSettled p s.
Proof. intros Hp. unfold isSettled. by rewrite Hp. Qed.

Lemma isPending_ext p s s' :
  promises s' !! p = promises s !! p → isPending s p → isPending s' p.
Proof. intros Hp. unfold isPending. by rewrite Hp. Qed.

Lemma isFulfilled_ext p s s' :
  promises s' !! p = promises s !! p → isFulfilled s p → isFulfilled s' p.
Proof. intros Hp. unfold isFulfilled. by rewrite Hp. Qed.

Lemma ready_true t s :
  ready t s = true ↔
  ∃ a, suspendedAt s t a ∧ isSettled (awaiting a) s = true.
Proof.
  unfold ready, suspendedAt.
  destruct (activations s !! t) as [[a|]|]; [|naive_solver..].
  split; [intros H; by exists a|by intros (? & [= <-] & ?)].
Qed.

Lemma ready_lt t s : ready t s = true → t < length (activations s).
Proof. intros (a & Ha & _)%ready_true. by eapply lookup_lt_Some. Qed.

Lemma elem_of_becameReady t s s' :
  t ∈ becameReady s s' ↔ ready t s' = true ∧ ready t s = false.
Proof.
  unfold becameReady. rewrite list_elem_of_filter, elem_of_seq.
  split; [by intros [? _]|]. intros [H1 H2]. split; [done|].
  apply ready_lt in H1. lia.
Qed.

(** **** The queue *)

Lemma urgent_elem_of t q : urgent t q → Reaction t ∈ q.
Proof. intros (q1 & q2 & -> & _). set_solver. Qed.

Lemma urgent_app t q q' : urgent t q → urgent t (q ++ q').
Proof.
  intros (q1 & q2 & -> & Hq). exists q1, (q2 ++ q'). split; [|done].
  by rewrite <- (assoc_L (++)).
Qed.

Lemma urgent_nil t : ¬ urgent t [].
Proof. intros (q1 & q2 & Hq & _). by destruct q1. Qed.

Lemma urgent_caller t q : ¬ urgent t (CallerJob :: q).
Proof.
  intros (q1 & q2 & Hq & Hn). destruct q1 as [|j q1]; [done|].
  injection Hq as <- _. apply Hn. left.
Qed.

Lemma urgent_tail t t0 q : urgent t (Reaction t0 :: q) → t ≠ t0 → urgent t q.
Proof.
  intros (q1 & q2 & Hq & Hn) Hne. destruct q1 as [|j q1].
  - by injection Hq as ->.
  - injection Hq as <- ->. exists q1, q2. split; [done|].
    intros Hin. apply Hn. by right.
Qed.

Lemma urgent_singleton t t0 : urgent t [Reaction t0] → t = t0.
Proof.
  intros (q1 & q2 & Hq & _). destruct q1 as [|j q1].
  - by injection Hq as ->.
  - injection Hq as _ Hq. by destruct q1.
Qed.

Lemma urgent_new t q ts q' :
  CallerJob ∉ q → t ∈ ts → urgent t (q ++ (Reaction <$> ts) ++ q').
Proof.
  intros Hq (l1 & l2 & ->)%list_elem_of_split.
  exists (q ++ (Reaction <$> l1)), ((Reaction <$> l2) ++ q'). split.
  - rewrite fmap_app, fmap_cons, <- !(assoc_L (++)). done.
  - rewrite elem_of_app. intros [Hin|Hin]; [done|].
    apply list_elem_of_fmap in Hin as (? & [=] & _).
Qed.

Lemma urgent_new_nil t ts q' :
  t ∈ ts → urgent t ((Reaction <$> ts) ++ q').
Proof.
  intros Ht. apply (urgent_new t [] ts q'); [|done]. apply not_elem_of_nil.
Qed.

(** **** What [delta] tells *)

Lemma delta_suspendedAt (fin : option (nat * Activation)) s s' news t a :
  activations s'
  = (if fin is Some (t0, _) then <[t0 := None]> (activations s)
     else activations s) ++ (Some <$> news) →
  suspendedAt s' t a →
  (suspendedAt s t a ∧ ∀ t0 a0, fin = Some (t0, a0) → t ≠ t0)
  ∨ (∃ i, news !! i = Some a ∧ t = length (activations s) + i).
Proof.
  intros Hacts. unfold suspendedAt. rewrite Hacts.
  intros [Ht|[Hle Ht]]%lookup_app_Some.
  - left. destruct fin as [[t0 a0]|].
    + apply lookup_finish in Ht as [Ht Hne]. split; [done|].
      by intros ? ? [= <- _].
    + split; [done|]. by intros ? ? [=].
  - right. rewrite list_lookup_fmap in Ht.
    destruct (news !! _) as [a'|] eqn:Hn; [|done]. injection Ht as ->.
    eexists. split; [done|].
    destruct fin as [[t0 a0]|]; rewrite ?length_insert in Hle |- *; lia.
Qed.

Lemma delta_suspendedAt_old (fin : option (nat * Activation)) s s' news t a :
  activations s'
  = (if fin is Some (t0, _) then <[t0 := None]> (activations s)
     else activations s) ++ (Some <$> news) →
  suspendedAt s t a → (∀ t0 a0, fin = Some (t0, a0) → t ≠ t0) →
  suspendedAt s' t a.
Proof.
  intros Hacts Ht Hne. unfold suspendedAt. rewrite Hacts.
  apply lookup_app_l_Some. destruct fin as [[t0 a0]|]; [|done].
  rewrite list_lookup_insert_ne; [done|]. intros <-. by apply (Hne t0 a0).
Qed.

Lemma delta_suspendedAt_new (fin : option (nat * Activation)) s s' news i a :
  activations s'
  = (if fin is Some (t0, _) then <[t0 := None]> (activations s)
     else activations s) ++ (Some <$> news) →
  news !! i = Some a →
  suspendedAt s' (length (activations s) + i) a.
Proof.
  intros Hacts Hi. unfold suspendedAt. rewrite Hacts.
  rewrite lookup_app_r;
    [|destruct fin as [[t0 a0]|]; rewrite ?length_insert; lia].
  replace (length (activations s) + i
           - length (if fin is Some (t0, _)
                     then <[t0 := None]> (activations s)
                     else activations s)) with i
    by (destruct fin as [[t0 a0]|]; rewrite ?length_insert; lia).
  by rewrite list_lookup_fmap, Hi.
Qed.

Lemma delta_promise_same fin acting s s' p pr :
  delta fin acting s s' → resultsWf s →
  promises s !! p = Some pr →
  pr ≠ pending AsyncFunction
  ∨ (∀ t0 a0, fin = Some (t0, a0) → p ≠ result a0) →
  promises s' !! p = Some pr.
Proof.
  intros Hd Hw Hp Hcase.
  pose proof (delta_fin _ _ _ _ Hd) as Hfin.
  destruct (proj2 (delta_promises _ _ _ _ Hd) p pr Hp)
    as [Hsame|(t0 & a0 & x & -> & -> & Hnew)]; [done|].
  exfalso. pose proof (resultsWf_pending _ Hw t0 a0 (Hfin _ _ eq_refl)) as Hr.
  destruct Hcase as [Hne|Hne]; [|by apply (Hne t0 a0)].
  rewrite Hr in Hp. by injection Hp as <-.
Qed.

Lemma delta_promise_origin fin acting s s' p pr :
  delta fin acting s s' → resultsWf s →
  promises s !! p = Some pr →
  ∃ pr', promises s' !! p = Some pr' ∧ origin pr' = origin pr
         ∧ (∀ x, settled pr = Some x → pr' = pr).
Proof.
  intros Hd Hw Hp.
  pose proof (delta_fin _ _ _ _ Hd) as Hfin.
  destruct (proj2 (delta_promises _ _ _ _ Hd) p pr Hp)
    as [Hsame|(t0 & a0 & x & -> & -> & Hnew)]; [by exists pr|].
  pose proof (resultsWf_pending _ Hw t0 a0 (Hfin _ _ eq_refl)) as Hr.
  rewrite Hr in Hp. injection Hp as <-.
  eexists. split; [done|]. split; [done|]. by intros ? [=].
Qed.

Lemma awaitedOrigin_not_AsyncFunction k o :
  awaitedOrigin k o → o = AsyncFunction → ∃ r, k = OpenDeviceHandle_151 r.
Proof.
  destruct k; cbn [awaitedOrigin]; try (by intros ? ?);
    try (by intros [? ->] [=]).
  intros _ _. by eexists.
Qed.

Lemma awaitsWf_lt s t a :
  awaitsWf s → suspendedAt s t a → awaiting a < length (promises s).
Proof.
  intros Hw Ha. destruct (awaits_origin _ Hw t a Ha) as (pr & Hpr & _).
  by eapply lookup_lt_Some.
Qed.

Lemma delta_awaitsWf fin acting s s' :
  delta fin acting s s' → resultsWf s → awaitsWf s → awaitsWf s'.
Proof.
  intros Hd Hres Hw.
  destruct (delta_activations _ _ _ _ Hd)
    as (news & Hacts & Hnews & Halone & _ & _).
  assert (∀ t a, suspendedAt s' t a →
                 ∃ pr, promises s' !! awaiting a = Some pr
                       ∧ awaitedOrigin (continuation a) (origin pr)) as Ho.
  { intros t a [[Ha _]|(i & Hi & ->)]%(delta_suspendedAt _ _ _ _ _ _ Hacts).
    - destruct (awaits_origin _ Hw t a Ha) as (pr & Hpr & Hor).
      destruct (delta_promise_origin _ _ _ _ _ _ Hd Hres Hpr)
        as (pr' & Hpr' & Heq & _).
      exists pr'. by rewrite Heq.
    - destruct (Hnews a (list_elem_of_lookup_2 _ _ _ Hi))
        as (_ & _ & [(_ & pr & Hpr & _ & Hor)|[(r & Hk & Hom)|(r & Hk & Hcm)]]).
      + by exists pr.
      + destruct (awaits_openOperationPromise _ Hw r _ Hom)
          as (_ & pr & Hpr & Hor).
        destruct (delta_promise_origin _ _ _ _ _ _ Hd Hres Hpr)
          as (pr' & Hpr' & Heq & _).
        exists pr'. split; [done|]. rewrite Hk, Heq. done.
      + destruct (awaits_closeOperationPromise _ Hw r _ Hcm)
          as (_ & pr & d & Hpr & Hor).
        destruct (delta_promise_origin _ _ _ _ _ _ Hd Hres Hpr)
          as (pr' & Hpr' & Heq & _).
        exists pr'. split; [done|]. rewrite Hk, Heq. by exists d. }
  split.
  - exact Ho.
  - intros t a r [[Ha _]|(i & Hi & ->)]%(delta_suspendedAt _ _ _ _ _ _ Hacts)
      Hc.
    + pose proof (awaits_object _ Hw t a r Ha Hc).
      pose proof (delta_nextDeviceState _ _ _ _ Hd). lia.
    + pose proof (proj2 (proj1 (Hnews a (list_elem_of_lookup_2 _ _ _ Hi))
                                 r Hc)).
      pose proof (delta_nextDeviceState _ _ _ _ Hd). lia.
  - intros r q Hq.
    destruct (delta_openOperationPromise _ _ _ _ Hd r q Hq)
      as [Hr [Hold|(_ & pr & Hpr & Hor)]]; (split; [done|]); [|by exists pr].
    destruct (awaits_openOperationPromise _ Hw r _ Hold)
      as (_ & pr & Hpr & Hor).
    destruct (delta_promise_origin _ _ _ _ _ _ Hd Hres Hpr)
      as (pr' & Hpr' & Heq & _).
    exists pr'. by rewrite Heq.
  - intros r p Hp.
    destruct (delta_closeOperationPromise _ _ _ _ Hd r p Hp)
      as [Hr [Hold|(_ & d & Hpr)]]; (split; [done|]);
      [|by exists (pending (WebusbClose d)), d].
    destruct (awaits_closeOperationPromise _ Hw r _ Hold)
      as (_ & pr & d & Hpr & Hor).
    destruct (delta_promise_origin _ _ _ _ _ _ Hd Hres Hpr)
      as (pr' & Hpr' & Heq & _).
    exists pr', d. by rewrite Heq.
  - assert (∀ t a, suspendedAt s t a →
                   continuation a = OpenWebusbDevice_505 →
                   ∃ pr d, promises s !! awaiting a = Some pr
                           ∧ origin pr = WebusbOpen d) as Hold505.
    { intros t a Ha Hk. destruct (awaits_origin _ Hw t a Ha) as (pr & Hpr & Hor).
      rewrite Hk in Hor. destruct Hor as [d Hor]. by exists pr, d. }
    assert (∀ i a, news !! i = Some a →
                   continuation a = OpenWebusbDevice_505 →
                   length (promises s) ≤ awaiting a) as Hnew505.
    { intros i a Hi Hk.
      destruct (Hnews a (list_elem_of_lookup_2 _ _ _ Hi))
        as (_ & _ & [(Hle & _)|[(r & Hk' & _)|(r & Hk' & _)]]);
        [done|congruence..]. }
    assert (∀ i a, news !! i = Some a →
                   awaiting a < length (promises s) →
                   ∃ pr, promises s !! awaiting a = Some pr
                         ∧ ∀ d, origin pr ≠ WebusbOpen d) as Hnewold.
    { intros i a Hi Hlt.
      destruct (Hnews a (list_elem_of_lookup_2 _ _ _ Hi))
        as (_ & _ & [(Hle & _)|[(r & Hk' & Hom)|(r & Hk' & Hcm)]]); [lia| |].
      - destruct (awaits_openOperationPromise _ Hw r _ Hom)
          as (_ & pr & Hpr & Hor).
        exists pr. split; [done|]. by rewrite Hor.
      - destruct (awaits_closeOperationPromise _ Hw r _ Hcm)
          as (_ & pr & d & Hpr & Hor).
        exists pr. split; [done|]. by rewrite Hor. }
    intros t t' a a'
      [[Ha _]|(i & Hi & ->)]%(delta_suspendedAt _ _ _ _ _ _ Hacts)
      [[Ha' _]|(j & Hj & ->)]%(delta_suspendedAt _ _ _ _ _ _ Hacts) Hk Heq.
    + by apply (awaits_open_alone _ Hw t t' a a').
    + exfalso. destruct (Hold505 t a Ha Hk) as (pr & d & Hpr & Hor).
      destruct (Hnewold j a' Hj) as (pr' & Hpr' & Hne).
      { rewrite <- Heq. by eapply lookup_lt_Some. }
      rewrite <- Heq, Hpr in Hpr'. injection Hpr' as <-. by apply (Hne d).
    + exfalso. pose proof (Hnew505 i a Hi Hk) as Hle.
      pose proof (awaitsWf_lt _ _ _ Hw Ha'). lia.
    + f_equal. by apply (Halone i j a a').
Qed.

Lemma delta_resultsOwned fin acting s s' :
  delta fin acting s s' → resultsWf s →
  resultsOwned s → resultsOwned s'.
Proof.
  intros Hd Hres Hown q Hq.
  pose proof (delta_fin _ _ _ _ Hd) as Hfin.
  destruct (delta_activations _ _ _ _ Hd)
    as (news & Hacts & _ & _ & Hfresh & Hback).
  destruct (decide (length (promises s) ≤ q)) as [Hle|Hlt].
  - destruct (Hfresh q Hle Hq) as (a & [i Hi]%list_elem_of_lookup_1 & Hr).
    exists (length (activations s) + i), a. split; [|done].
    by eapply delta_suspendedAt_new.
  - destruct (lookup_lt_is_Some_2 (promises s) q) as [pr Hpr]; [lia|].
    destruct (proj2 (delta_promises _ _ _ _ Hd) q pr Hpr)
      as [Hsame|(t0 & a0 & x & -> & -> & Hnew)];
      [|by rewrite Hnew in Hq].
    rewrite Hsame in Hq. injection Hq as ->.
    destruct (Hown q Hpr) as (t & a & Ha & Hr).
    destruct fin as [[t0 a0]|]; cycle 1.
    { exists t, a. split; [|done].
      by apply (delta_suspendedAt_old None s s' news). }
    destruct (decide (t = t0)) as [->|Hne].
    + pose proof (Hfin _ _ eq_refl) as Ha0. unfold suspendedAt in Ha, Ha0.
      rewrite Ha in Ha0. injection Ha0 as ->.
      destruct (Hback t0 a0 eq_refl)
        as [Hset|(a & [i Hi]%list_elem_of_lookup_1 & Hr')].
      * apply isSettled_true in Hset as (pr & x & Hpr' & Hx).
        rewrite Hr, Hsame in Hpr'. by injection Hpr' as <-.
      * exists (length (activations s) + i), a. split; [|congruence].
        by apply (delta_suspendedAt_new (Some (t0, a)) s s' news).
    + exists t, a. split; [|done].
      apply (delta_suspendedAt_old (Some (t0, a0)) s s' news); [done|done|].
      by intros ? ? [= <- _].
Qed.

(** **** Every call and every continuation is a [delta] *)

Lemma delta_call_settle acting s s' x :
  awaitsWf s →
  promises s' = promises s ++ [settledPromise AsyncFunction x] →
  activations s' = activations s →
  (∀ r, ¬ acting r →
        openOperationPromise (deviceStates s' r)
        = openOperationPromise (deviceStates s r)
        ∧ closeOperationPromise (deviceStates s' r)
          = closeOperationPromise (deviceStates s r)
        ∧ (handles (deviceStates s r) = ∅ →
           handles (deviceStates s' r) = ∅)) →
  (∀ r q, openOperationPromise (deviceStates s' r) = Some q →
          openOperationPromise (deviceStates s r) = Some q) →
  (∀ r p, closeOperationPromise (deviceStates s' r) = Some p →
          closeOperationPromise (deviceStates s r) = Some p) →
  nextDeviceState s ≤ nextDeviceState s' →
  delta None acting s s'.
Proof.
  intros Hw Hp Ha Hframe Hom Hcm Hn. split.
  - by intros ? ? [=].
  - exact Hframe.
  - exists []. rewrite Ha, app_nil_r. split; [done|].
    split; [by intros ? ?%elem_of_nil|]. split; [by intros ? ? ? ? [=]|].
    split; [|by intros ? ? [=]].
    intros q Hle. rewrite Hp. intros Hq. exfalso.
    apply lookup_app_Some in Hq as [Hq|[_ Hq]].
    + apply lookup_lt_Some in Hq. lia.
    + by apply list_lookup_singleton_Some in Hq as [_ [=]].
  - rewrite Hp, length_app. split; [lia|]. intros p pr Hpr. left.
    by apply lookup_app_l_Some.
  - intros r q Hq. pose proof (Hom r q Hq) as Hq'.
    destruct (awaits_openOperationPromise _ Hw r q Hq') as [Hr _].
    split; [lia|by left].
  - intros r p' Hq. pose proof (Hcm r p' Hq) as Hq'.
    destruct (awaits_closeOperationPromise _ Hw r p' Hq') as [Hr _].
    split; [lia|by left].
  - exact Hn.
Qed.

Lemma delta_call_suspend acting s s' k o :
  awaitsWf s →
  promises s' = promises s ++ [pending AsyncFunction; pending o] →
  activations s'
  = activations s
    ++ [Some {| awaiting := S (length (promises s)); continuation := k;
                result := length (promises s) |}] →
  o ≠ AsyncFunction → awaitedOrigin k o →
  (∀ r, concerns k r → acting r ∧ r < nextDeviceState s) →
  (∀ r, ¬ acting r →
        openOperationPromise (deviceStates s' r)
        = openOperationPromise (deviceStates s r)
        ∧ closeOperationPromise (deviceStates s' r)
          = closeOperationPromise (deviceStates s r)
        ∧ (handles (deviceStates s r) = ∅ →
           handles (deviceStates s' r) = ∅)) →
  (∀ r q, openOperationPromise (deviceStates s' r) = Some q →
          openOperationPromise (deviceStates s r) = Some q) →
  (∀ r p, closeOperationPromise (deviceStates s' r) = Some p →
          closeOperationPromise (deviceStates s r) = Some p
          ∨ (p = S (length (promises s)) ∧ r < nextDeviceState s'
             ∧ ∃ d, o = WebusbClose d)) →
  nextDeviceState s ≤ nextDeviceState s' →
  delta None acting s s'.
Proof.
  intros Hw Hp Ha Ho Hk Hc Hframe Hom Hcm Hn.
  assert (promises s' !! S (length (promises s)) = Some (pending o)) as Hlast.
  { rewrite Hp, lookup_app_r by lia.
    by replace (S (length (promises s)) - length (promises s)) with 1
      by lia. }
  split.
  - by intros ? ? [=].
  - exact Hframe.
  - eexists [_]. split; [exact Ha|].
    split; [|split; [|split; [|by intros ? ? [=]]]].
    + intros a ->%list_elem_of_singleton. cbn [continuation awaiting result].
      split; [exact Hc|]. split; [by left|]. left. split; [lia|].
      by exists (pending o).
    + intros [|i] [|j] a a'; cbn; try done.
    + intros q Hle. rewrite Hp. intros Hq. eexists. split; [left|].
      cbn [result]. apply lookup_app_Some in Hq as [Hq|[_ Hq]].
      * apply lookup_lt_Some in Hq. lia.
      * destruct (q - length (promises s)) as [|[|i]] eqn:Hi; cbn in Hq.
        -- lia.
        -- injection Hq as Hq. by destruct Ho.
        -- done.
  - rewrite Hp, length_app. split; [lia|]. intros p pr Hpr. left.
    by apply lookup_app_l_Some.
  - intros r q Hq. pose proof (Hom r q Hq) as Hq'.
    destruct (awaits_openOperationPromise _ Hw r q Hq') as [Hr _].
    split; [lia|by left].
  - intros r p' Hq. destruct (Hcm r p' Hq) as [Hq'|(-> & Hr & d & ->)].
    + destruct (awaits_closeOperationPromise _ Hw r p' Hq') as [Hr _].
      split; [lia|by left].
    + split; [done|]. right. split; [lia|]. by exists d.
  - exact Hn.
Qed.

Lemma delta_resume_settle acting s s' t0 a0 x :
  resultsWf s → awaitsWf s → suspendedAt s t0 a0 →
  promises s' = promises (settle (result a0) x s) →
  activations s' = <[t0 := None]> (activations s) →
  (∀ r, ¬ acting r →
        openOperationPromise (deviceStates s' r)
        = openOperationPromise (deviceStates s r)
        ∧ closeOperationPromise (deviceStates s' r)
          = closeOperationPromise (deviceStates s r)
        ∧ (handles (deviceStates s r) = ∅ →
           handles (deviceStates s' r) = ∅)) →
  (∀ r q, openOperationPromise (deviceStates s' r) = Some q →
          openOperationPromise (deviceStates s r) = Some q) →
  (∀ r p, closeOperationPromise (deviceStates s' r) = Some p →
          closeOperationPromise (deviceStates s r) = Some p) →
  nextDeviceState s ≤ nextDeviceState s' →
  delta (Some (t0, a0)) acting s s'.
Proof.
  intros Hres Hw Ha0 Hp Ha Hframe Hom Hcm Hn.
  pose proof (resultsWf_pending _ Hres t0 a0 Ha0) as Hr.
  assert (promises s' !! result a0
          = Some {| origin := AsyncFunction; settled := Some x |}) as Hset.
  { by rewrite Hp, lookup_settle, decide_True, Hr. }
  split.
  - by intros ? ? [= <- <-].
  - exact Hframe.
  - exists []. rewrite Ha, app_nil_r. split; [done|].
    split; [by intros ? ?%elem_of_nil|]. split; [by intros ? ? ? ? [=]|].
    split.
    + intros q Hle Hq. apply lookup_lt_Some in Hq.
      rewrite Hp, length_settle in Hq. lia.
    + intros ? ? [= <- <-]. left. apply isSettled_true. by eexists _, _.
  - split; [by rewrite Hp, length_settle|]. intros p pr Hpr.
    destruct (decide (p = result a0)) as [->|Hne].
    + right. by exists t0, a0, x.
    + left. by rewrite Hp, lookup_settle, decide_False.
  - intros r q Hq. pose proof (Hom r q Hq) as Hq'.
    destruct (awaits_openOperationPromise _ Hw r q Hq') as [Hlt _].
    split; [lia|by left].
  - intros r p' Hq. pose proof (Hcm r p' Hq) as Hq'.
    destruct (awaits_closeOperationPromise _ Hw r p' Hq') as [Hlt _].
    split; [lia|by left].
  - exact Hn.
Qed.

Lemma delta_resume_suspend acting s s' t0 a0 k o :
  awaitsWf s → suspendedAt s t0 a0 →
  promises s' = promises s ++ [pending o] →
  activations s'
  = <[t0 := None]> (activations s)
    ++ [Some {| awaiting := length (promises s); continuation := k;
                result := result a0 |}] →
  o ≠ AsyncFunction → awaitedOrigin k o → (∀ r, ¬ concerns k r) →
  (∀ r, deviceStates s' r = deviceStates s r) →
  nextDeviceState s' = nextDeviceState s →
  delta (Some (t0, a0)) acting s s'.
Proof.
  intros Hw Ha0 Hp Ha Ho Hk Hc Hobj Hn.
  assert (promises s' !! length (promises s) = Some (pending o)) as Hlast.
  { rewrite Hp, lookup_app_r by lia. by rewrite Nat.sub_diag. }
  split.
  - by intros ? ? [= <- <-].
  - intros r _. by rewrite Hobj.
  - eexists [_]. split; [exact Ha|].
    split; [|split; [|split]].
    + intros a ->%list_elem_of_singleton. cbn [continuation awaiting result].
      split; [by intros r ?%Hc|]. split; [right; by exists t0, a0|].
      left. split; [lia|]. by exists (pending o).
    + intros [|i] [|j] a a'; cbn; try done.
    + intros q Hle. rewrite Hp. intros Hq. exfalso.
      apply lookup_app_Some in Hq as [Hq|[_ Hq]].
      * apply lookup_lt_Some in Hq. lia.
      * apply list_lookup_singleton_Some in Hq as [_ [= ?]]. done.
    + intros ? ? [= <- <-]. right. eexists. split; [left|done].
  - rewrite Hp, length_app. split; [lia|]. intros p pr Hpr. left.
    by apply lookup_app_l_Some.
  - intros r q. rewrite Hobj. intros Hq.
    destruct (awaits_openOperationPromise _ Hw r q Hq) as [Hlt _].
    split; [lia|by left].
  - intros r p'. rewrite Hobj. intros Hq.
    destruct (awaits_closeOperationPromise _ Hw r p' Hq) as [Hlt _].
    split; [lia|by left].
  - lia.
Qed.

Lemma settle_fresh_promises s2 s x :
  promises s2 = promises s ++ [pending AsyncFunction] →
  promises (settle (length (promises s)) x s2)
  = promises s ++ [settledPromise AsyncFunction x].
Proof.
  intros Hp. unfold settle. simp_state. by rewrite Hp, alter_app_last.
Qed.

Ltac same_objects :=
  first
    [ done
    | by intros
    | intros; simp_state; by auto ].

Lemma delta_call_settle_same acting s s2 x :
  awaitsWf s →
  promises s2 = promises s ++ [pending AsyncFunction] →
  activations s2 = activations s →
  deviceStates s2 = deviceStates s →
  nextDeviceState s2 = nextDeviceState s →
  delta None acting s (settle (length (promises s)) x s2).
Proof.
  intros Hw Hp Ha Hd Hn.
  apply (delta_call_settle acting s _ x); [done|..].
  - by apply settle_fresh_promises.
  - by rewrite activations_settle.
  - intros r _. by rewrite deviceStates_settle, Hd.
  - intros r q. by rewrite deviceStates_settle, Hd.
  - intros r q. by rewrite deviceStates_settle, Hd.
  - change (nextDeviceState s ≤ nextDeviceState s2). lia.
Qed.

Lemma delta_call_suspend_same acting s k o :
  awaitsWf s → o ≠ AsyncFunction → awaitedOrigin k o →
  (∀ r, ¬ concerns k r) →
  delta None acting s
    (suspend {| awaiting := length (promises s ++ [pending AsyncFunction]);
                continuation := k; result := length (promises s) |}
       (setPromises ((promises s ++ [pending AsyncFunction]) ++ [pending o])
          (setPromises (promises s ++ [pending AsyncFunction]) s))).
Proof.
  intros Hw Ho Hk Hc.
  apply (delta_call_suspend acting s _ k o); try done.
  - simp_state. by rewrite <- (assoc_L (++)).
  - simp_state. by rewrite length_app, Nat.add_1_r.
  - by intros r ?%Hc.
  - intros r p Hp. by left.
Qed.

Lemma getDeviceByIdOrThrow_Normal deviceId r s :
  getDeviceByIdOrThrow_ deviceId s = Normal r ↔
  Map_get (idToDeviceMap_ s) deviceId = Some r.
Proof.
  unfold getDeviceByIdOrThrow_.
  destruct (Map_get _ _); split; by intros [= ->].
Qed.

Lemma registryWf_lt deviceId r s :
  registryWf s → Map_get (idToDeviceMap_ s) deviceId = Some r →
  r < nextDeviceState s.
Proof.
  intros [_ Hwf] Hid. by apply (Hwf deviceId), Map_get_Some_elem.
Qed.

Lemma size_handles_0 (X : gset nat) : size X = 0 ↔ X = ∅.
Proof.
  split; [|by intros ->].
  intros HX. by apply leibniz_equiv, size_empty_inv.
Qed.

Lemma delta_call_join acting s s' r q :
  awaitsWf s → acting r → r < nextDeviceState s →
  openOperationPromise (deviceStates s r) = Some q →
  promises s' = promises s ++ [pending AsyncFunction] →
  activations s'
  = activations s ++ [openDeviceHandle_151 r q (length (promises s))] →
  deviceStates s' = deviceStates s →
  nextDeviceState s' = nextDeviceState s →
  delta None acting s s'.
Proof.
  intros Hw Hact Hr Hom Hp Ha Hd Hn. split.
  - by intros ? ? [=].
  - intros r' _. by rewrite Hd.
  - eexists [_]. split; [exact Ha|].
    split; [|split; [|split; [|by intros ? ? [=]]]].
    + intros a ->%list_elem_of_singleton.
      cbn [continuation awaiting result].
      split; [by intros r' [[= <-]|[[=]|[=]]]|].
      split; [by left|]. right. left. by exists r.
    + intros [|i] [|j] a a'; cbn; try done.
    + rewrite Hp. intros q' Hle Hq'. eexists. split; [left|].
      cbn [result]. apply lookup_app_Some in Hq' as [Hq'|[_ Hq']].
      * apply lookup_lt_Some in Hq'. lia.
      * apply list_lookup_singleton_Some in Hq' as [Hq' _]. lia.
  - rewrite Hp, length_app. split; [lia|].
    intros p pr Hpr. left. by apply lookup_app_l_Some.
  - rewrite Hd, Hn. intros r' q' Hq'.
    destruct (awaits_openOperationPromise _ Hw r' q' Hq') as [Hlt _].
    split; [done|by left].
  - rewrite Hd, Hn. intros r' q' Hq'.
    destruct (awaits_closeOperationPromise _ Hw r' q' Hq') as [Hlt _].
    split; [done|by left].
  - lia.
Qed.

Lemma delta_call_open acting s s' r a1 ps' :
  awaitsWf s → acting r → r < nextDeviceState s →
  promises s'
  = promises s ++ [pending AsyncFunction; pending AsyncFunction] ++ ps' →
  activations s'
  = activations s
    ++ [Some a1;
        openDeviceHandle_151 r (S (length (promises s)))
          (length (promises s))] →
  result a1 = S (length (promises s)) →
  (continuation a1 = OpenWebusbDevice_503 r
   ∧ closeOperationPromise (deviceStates s r) = Some (awaiting a1)
   ∧ ps' = [])
  ∨ (continuation a1 = OpenWebusbDevice_505
     ∧ awaiting a1 = S (S (length (promises s)))
     ∧ ∃ d, ps' = [pending (WebusbOpen d)]) →
  deviceStates s'
  = <[r := setOpenOperationPromise (Some (S (length (promises s))))
             (deviceStates s r)]> (deviceStates s) →
  nextDeviceState s' = nextDeviceState s →
  delta None acting s s'.
Proof.
  intros Hw Hact Hr Hp Ha Hres Hcase Hd Hn.
  assert (promises s' !! S (length (promises s))
          = Some (pending AsyncFunction)) as Hq.
  { rewrite Hp, lookup_app_r by lia.
    by replace (S (length (promises s)) - length (promises s)) with 1
      by lia. }
  split.
  - by intros ? ? [=].
  - intros r' Hr'. rewrite Hd.
    rewrite fn_lookup_insert_ne by (by intros <-). done.
  - eexists [_; _]. split; [exact Ha|].
    split; [|split; [|split; [|by intros ? ? [=]]]].
    + intros a [->|[->|[]%elem_of_nil]%elem_of_cons]%elem_of_cons.
      * split.
        { intros r' Hc. destruct Hcase as [(Hk & _)|(Hk & _)];
            rewrite Hk in Hc; destruct Hc as [[=]|[[=]|[=]]]. by subst. }
        split; [left; lia|].
        destruct Hcase as [(Hk & Hcm & _)|(Hk & Haw & d & ->)].
        -- right. right. by exists r.
        -- left. split; [lia|]. exists (pending (WebusbOpen d)).
           split; [|split; [done|rewrite Hk; by exists d]].
           rewrite Haw, Hp, lookup_app_r by lia.
           by replace (S (S (length (promises s))) - length (promises s))
             with 2 by lia.
      * cbn [continuation awaiting result].
        split; [by intros r' [[= <-]|[[=]|[=]]]|].
        split; [by left|]. left. split; [lia|].
        by exists (pending AsyncFunction).
    + intros [|[|i]] [|[|j]] a a'; cbn; try done.
      * intros [= <-] [= <-] Hk Heq. exfalso. cbn in Heq.
        destruct Hcase as [(Hk' & _)|(_ & Haw & _)]; [congruence|lia].
      * by intros [= <-] [= <-].
    + rewrite Hp. intros q' Hle Hq'.
      apply lookup_app_Some in Hq' as [Hq'|[_ Hq']].
      { apply lookup_lt_Some in Hq'. lia. }
      destruct (q' - length (promises s)) as [|[|i]] eqn:Hi;
        cbn in Hq'.
      * eexists. split; [right; left|]. cbn [result]. lia.
      * eexists. split; [left|]. lia.
      * exfalso. destruct Hcase as [(_ & _ & ->)|(_ & _ & d & ->)];
          [done|]. by destruct i.
  - rewrite Hp, !length_app. split; [lia|].
    intros p pr Hpr. left. by apply lookup_app_l_Some.
  - rewrite Hd, Hn. intros r' q'.
    destruct (decide (r' = r)) as [->|Hne].
    + rewrite fn_lookup_insert. simp_state. intros [= <-].
      split; [done|]. right. split; [lia|].
      by exists (pending AsyncFunction).
    + rewrite fn_lookup_insert_ne by done. intros Hq'.
      destruct (awaits_openOperationPromise _ Hw r' q' Hq') as [Hlt _].
      split; [done|by left].
  - rewrite Hd, Hn. intros r' q'.
    destruct (decide (r' = r)) as [->|Hne].
    + rewrite fn_lookup_insert. simp_state. intros Hq'.
      split; [done|by left].
    + rewrite fn_lookup_insert_ne by done. intros Hq'.
      destruct (awaits_closeOperationPromise _ Hw r' q' Hq') as [Hlt _].
      split; [done|by left].
  - lia.
Qed.

Lemma call_nextDeviceState req s :
  nextDeviceState (call req s) = nextDeviceState s.
Proof.
  destruct req; unfold call, listDevices, getConfigurations, openDeviceHandle,
    closeDeviceHandle, closeDeviceHandle_close, interfaceOrReset,
    controlTransfer, genericTransfer_, getConfigurations_loop,
    openDeviceHandle_newHandle, openWebusbDevice, openWebusbDevice_open;
    cbn [newPromise fst snd]; try done.
  - destruct (getDeviceByIdOrThrow_ _ _); [|done].
    by destruct (usbConfigurations _).
  - destruct (getDeviceByIdOrThrow_ _ _); [|done]. simp_state.
    case_decide; [|done].
    destruct (openOperationPromise _); [done|].
    by destruct (closeOperationPromise _).
  - destruct (getDeviceByIdOrThrow_ _ _); [|done]. simp_state.
    case_decide; [|done]. by case_decide.
  - by destruct (getDeviceByIdAndHandleOrThrow_ _ _ _).
  - by destruct (getDeviceByIdAndHandleOrThrow_ _ _ _).
  - by destruct (getDeviceByIdAndHandleOrThrow_ _ _ _).
  - by destruct (_ ≫= _).
  - by destruct (getDeviceByIdAndHandleOrThrow_ _ _ _).
  - by destruct (getDeviceByIdAndHandleOrThrow_ _ _ _).
Qed.

Ltac neutral_side :=
  first
    [ done
    | cbn [awaitedOrigin]; done
    | unfold concerns; by intros ? [[=]|[[=]|[=]]] ].

Lemma delta_call req s :
  registryWf s → resultsWf s → awaitsWf s →
  delta None (callActs req s) s (call req s).
Proof.
  intros Hreg Hres Hw.
  destruct req as [|deviceId|deviceId|deviceId h|deviceId h i|deviceId h i
                  |deviceId h|deviceId h ps|deviceId h ps|deviceId h ps];
    cbn [call].
  - unfold listDevices. cbn [newPromise].
    apply delta_call_suspend_same; neutral_side.
  - unfold getConfigurations. cbn [newPromise].
    destruct (getDeviceByIdOrThrow_ _ _) as [r|e];
      [|by apply delta_call_settle_same].
    unfold getConfigurations_loop.
    destruct (usbConfigurations _); cbn [newPromise];
      [by apply delta_call_settle_same|].
    apply delta_call_suspend_same; neutral_side.
  - destruct (getDeviceByIdOrThrow_ deviceId s) as [r|e] eqn:Hid; cycle 1.
    { unfold openDeviceHandle. cbn [newPromise].
      replace (getDeviceByIdOrThrow_ deviceId _) with (Throw (A:=nat) e).
      by apply delta_call_settle_same. }
    apply getDeviceByIdOrThrow_Normal in Hid.
    pose proof (registryWf_lt _ _ _ Hreg Hid) as Hr.
    destruct (decide (size (handles (deviceStates s r)) = 0)) as [Hsz|Hsz].
    + apply size_handles_0 in Hsz.
      assert (callActs (OpenDeviceHandle deviceId) s r) as Hact.
      { exists deviceId. split; [done|]. by left. }
      change (delta None (callActs (OpenDeviceHandle deviceId) s) s
                (call (OpenDeviceHandle deviceId) s)).
      pose proof (call_nextDeviceState (OpenDeviceHandle deviceId) s) as Hn.
      cbn [call] in *.
      destruct (openOperationPromise (deviceStates s r)) as [q|] eqn:Hom.
      * destruct (openDeviceHandle_joins deviceId r q s Hid Hsz Hom)
          as (Hp & Ha & Hd & _).
        by apply (delta_call_join _ s _ r q).
      * destruct (closeOperationPromise (deviceStates s r)) as [pc|] eqn:Hcm.
        -- destruct (openDeviceHandle_awaits_marker deviceId r pc s
                       Hid Hsz Hom Hcm) as (Hp & Ha & Hd & _).
           apply (delta_call_open _ s _ r _ [] Hw Hact Hr Hp Ha eq_refl);
             [|done|done].
           by left.
        -- destruct (openDeviceHandle_first deviceId r s Hid Hsz Hom Hcm)
             as (Hp & Ha & Hd & _).
           apply (delta_call_open _ s _ r _ [_] Hw Hact Hr Hp Ha eq_refl);
             [|done|done].
           right. split; [done|]. split; [done|]. by eexists.
    + (* the device has a handle: a handle at once *)
      unfold openDeviceHandle. cbn [newPromise].
      replace (getDeviceByIdOrThrow_ deviceId _) with (Normal r)
        by (symmetry; by apply getDeviceByIdOrThrow_Normal).
      simp_state. rewrite decide_False by done.
      unfold openDeviceHandle_newHandle. simp_state.
      assert (handles (deviceStates s r) ≠ ∅) as Hne
        by (by intros ?%size_handles_0).
      apply (delta_call_settle _ s _
               (Fulfilled (DeviceHandle (nextFreeDeviceHandle_ s)))); [done|..].
      * by apply settle_fresh_promises.
      * done.
      * intros r' _. rewrite deviceStates_settle. simp_state.
        destruct (decide (r' = r)) as [->|Hne'].
        -- by rewrite fn_lookup_insert.
        -- by rewrite fn_lookup_insert_ne.
      * intros r' q. rewrite deviceStates_settle. simp_state.
        destruct (decide (r' = r)) as [->|Hne'].
        -- by rewrite fn_lookup_insert.
        -- by rewrite fn_lookup_insert_ne.
      * intros r' q. rewrite deviceStates_settle. simp_state.
        destruct (decide (r' = r)) as [->|Hne'].
        -- by rewrite fn_lookup_insert.
        -- by rewrite fn_lookup_insert_ne.
      * done.
  - unfold closeDeviceHandle. cbn [newPromise].
    destruct (getDeviceByIdOrThrow_ _ _) as [r|e] eqn:Hid;
      [|by apply delta_call_settle_same].
    apply getDeviceByIdOrThrow_Normal in Hid. simp_state in Hid.
    pose proof (registryWf_lt _ _ _ Hreg Hid) as Hr.
    simp_state. case_decide as Hin; [|by apply delta_call_settle_same].
    unfold closeDeviceHandle_close. simp_state.
    rewrite fn_lookup_insert. simp_state. case_decide as Hsz.
    + (* another handle is left *)
      apply (delta_call_settle _ s _ (Fulfilled Undefined)); [done|..].
      * by apply settle_fresh_promises.
      * done.
      * intros r' _. rewrite deviceStates_settle. simp_state.
        destruct (decide (r' = r)) as [->|Hne'].
        -- rewrite fn_lookup_insert. simp_state.
           split; [done|]. split; [done|]. intros He. rewrite He in Hin.
           by apply not_elem_of_empty in Hin.
        -- by rewrite fn_lookup_insert_ne.
      * intros r' q. rewrite deviceStates_settle. simp_state.
        destruct (decide (r' = r)) as [->|Hne'].
        -- by rewrite fn_lookup_insert.
        -- by rewrite fn_lookup_insert_ne.
      * intros r' q. rewrite deviceStates_settle. simp_state.
        destruct (decide (r' = r)) as [->|Hne'].
        -- by rewrite fn_lookup_insert.
        -- by rewrite fn_lookup_insert_ne.
      * done.
    + (* the last handle: [close()] *)
      assert (handles (deviceStates s r) = {[h]}) as Hlast.
      { assert (size (handles (deviceStates s r) ∖ {[h]}) = 0) as H0 by lia.
        apply size_handles_0 in H0. apply leibniz_equiv.
        intros h'. rewrite elem_of_singleton. split.
        - intros Hh'. destruct (decide (h' = h)) as [|Hne]; [done|].
          assert (h' ∈ handles (deviceStates s r) ∖ {[h]}) as Hd
            by set_solver.
          rewrite H0 in Hd. by apply not_elem_of_empty in Hd.
        - by intros ->. }
      assert (callActs (CloseDeviceHandle deviceId h) s r) as Hact.
      { exists deviceId. split; [done|]. right. by exists h. }
      rewrite length_app, Nat.add_1_r.
      apply (delta_call_suspend _ s _ (CloseDeviceHandle_181 r)
               (WebusbClose (webusbDevice (deviceStates s r)))); try done.
      * simp_state. by rewrite <- (assoc_L (++)).
      * by eexists.
      * by intros r' [[=]|[[=]|[= <-]]].
      * intros r' Hr'. simp_state.
        rewrite !fn_lookup_insert_ne by (by intros <-). done.
      * simp_state. intros r' q.
        destruct (decide (r' = r)) as [->|Hne'].
        -- rewrite !fn_lookup_insert. by simp_state.
        -- by rewrite !fn_lookup_insert_ne.
      * simp_state. intros r' q.
        destruct (decide (r' = r)) as [->|Hne'].
        -- rewrite !fn_lookup_insert. simp_state. intros [= <-]. right.
           split; [done|]. split; [done|]. by eexists.
        -- rewrite !fn_lookup_insert_ne by done. by left.
  - unfold interfaceOrReset. cbn [newPromise].
    destruct (getDeviceByIdAndHandleOrThrow_ _ _ _);
      [|by apply delta_call_settle_same].
    apply delta_call_suspend_same; neutral_side.
  - unfold interfaceOrReset. cbn [newPromise].
    destruct (getDeviceByIdAndHandleOrThrow_ _ _ _);
      [|by apply delta_call_settle_same].
    apply delta_call_suspend_same; neutral_side.
  - unfold interfaceOrReset. cbn [newPromise].
    destruct (getDeviceByIdAndHandleOrThrow_ _ _ _);
      [|by apply delta_call_settle_same].
    apply delta_call_suspend_same; neutral_side.
  - unfold controlTransfer. cbn [newPromise].
    destruct (_ ≫= _); [|by apply delta_call_settle_same].
    cbn [newPromise].
    apply delta_call_suspend_same;
      first [by destruct (controlDataToSend _)|neutral_side].
  - unfold genericTransfer_. cbn [newPromise].
    destruct (getDeviceByIdAndHandleOrThrow_ _ _ _);
      [|by apply delta_call_settle_same].
    cbn [newPromise].
    apply delta_call_suspend_same;
      first [by destruct (dataToSend _)|neutral_side].
  - unfold genericTransfer_. cbn [newPromise].
    destruct (getDeviceByIdAndHandleOrThrow_ _ _ _);
      [|by apply delta_call_settle_same].
    cbn [newPromise].
    apply delta_call_suspend_same;
      first [by destruct (dataToSend _)|neutral_side].
Qed.

End JobsFacts.

(* ===================================================================== *)
(** ** The order of the runtime: what a continuation does *)
(* ===================================================================== *)

Import Js.

Module ContinuationFacts.
Import Descriptor Adaptor DescriptorFacts RegistryFacts AdaptorFacts
  FailedCloseFacts ResultsFacts JobsFacts.

(** **** What a continuation does *)

(** An object made by [updateDeviceMap_] is new. *)
Lemma updateDeviceMap_objects l s r :
  deviceStates (updateDeviceMap_ l s) r = deviceStates s r
  ∨ nextDeviceState s ≤ r
    ∧ ∃ d, deviceStates (updateDeviceMap_ l s) r = newDeviceState d.
Proof.
  unfold updateDeviceMap_.
  assert (∀ m s1 m' s',
            foldl updateDeviceMap_body (m, s1) l = (m', s') →
            deviceStates s' r = deviceStates s1 r
            ∨ nextDeviceState s1 ≤ r
              ∧ ∃ d, deviceStates s' r = newDeviceState d) as Hloop.
  { induction l as [|d l IH]; intros m s1 m' s'; cbn [foldl].
    - intros [= <- <-]. by left.
    - destruct (updateDeviceMap_body (m, s1) d) as [m1 s2] eqn:Hb.
      intros Hl%IH. revert Hb. unfold updateDeviceMap_body.
      destruct (getDeviceId_ d s1) as [k|].
      + destruct (Map_get _ k); by intros [= <- <-].
      + intros [= <- <-]. revert Hl. simp_state.
        destruct (decide (r = nextDeviceState s1)) as [->|Hne].
        * rewrite fn_lookup_insert. intros [->|[Hle _]]; [|lia].
          right. split; [done|]. by exists d.
        * rewrite fn_lookup_insert_ne by done.
          intros [->|[Hle Hd]]; [by left|]. right. split; [lia|done]. }
  destruct (foldl updateDeviceMap_body ([], s) l) as [m s'] eqn:Hl.
  apply Hloop in Hl. by simp_state.
Qed.

Lemma awaitsWf_beyond s r :
  awaitsWf s → nextDeviceState s ≤ r →
  openOperationPromise (deviceStates s r) = None
  ∧ closeOperationPromise (deviceStates s r) = None.
Proof.
  intros Hw Hr. split.
  - destruct (openOperationPromise _) as [q|] eqn:Hq; [|done].
    destruct (awaits_openOperationPromise _ Hw r q Hq). lia.
  - destruct (closeOperationPromise _) as [q|] eqn:Hq; [|done].
    destruct (awaits_closeOperationPromise _ Hw r q Hq). lia.
Qed.

Lemma promises_settle_ext q x s1 s :
  promises s1 = promises s →
  promises (settle q x s1) = promises (settle q x s).
Proof. unfold settle. simp_state. by intros ->. Qed.

Ltac settles Hres Hw Ha :=
  eapply (delta_resume_settle _ _ _ _ _ _ Hres Hw Ha);
  [ by apply promises_settle_ext
  | done
  | by intros
  | by intros
  | by intros
  | done ].

Ltac suspends Hw Ha :=
  eapply (delta_resume_suspend _ _ _ _ _ _ _ Hw Ha);
  [ done
  | done
  | done
  | first [ done | cbn [awaitedOrigin]; by eexists ]
  | unfold concerns; by intros ? [[=]|[[=]|[=]]]
  | done
  | done ].

Lemma delta_resume t0 a0 x s s' :
  resultsWf s → awaitsWf s → suspendedAt s t0 a0 →
  resume (continuation a0) x (result a0)
    (setActivations (<[t0 := None]> (activations s)) s) = Some s' →
  delta (Some (t0, a0)) (concerns (continuation a0)) s s'.
Proof.
  intros Hres Hw Ha.
  destruct a0 as [aw k res]. cbn [continuation result] in *.
  destruct k; unfold resume, listDevices_update, getConfigurations_push,
    getConfigurations_loop, controlTransferIn, fetchAndFill_finally,
    openDeviceHandle_newHandle, openWebusbDevice_open;
    cbn [newPromise fst snd].
  - destruct x as [[]|]; intros; simplify_eq; [|settles Hres Hw Ha].
    eapply (delta_resume_settle _ _ _ _ _ _ Hres Hw Ha).
    + apply promises_settle_ext.
      by rewrite (proj1 (updateDeviceMap_promises _ _)).
    + unfold settle. simp_state.
      by rewrite (proj2 (updateDeviceMap_promises _ _)).
    + intros r _. unfold settle. simp_state.
      destruct (updateDeviceMap_objects webusbDevices
                  (setActivations (<[t0:=None]> (activations s)) s) r)
        as [->|[Hr [d ->]]]; [done|].
      simp_state in Hr.
      by destruct (awaitsWf_beyond _ _ Hw Hr) as [-> ->].
    + intros r q. unfold settle. simp_state.
      by destruct (updateDeviceMap_objects webusbDevices
                  (setActivations (<[t0:=None]> (activations s)) s) r)
        as [->|[Hr [d ->]]].
    + intros r q. unfold settle. simp_state.
      by destruct (updateDeviceMap_objects webusbDevices
                  (setActivations (<[t0:=None]> (activations s)) s) r)
        as [->|[Hr [d ->]]].
    + unfold settle. simp_state.
      by destruct (updateDeviceMap_old webusbDevices
                  (setActivations (<[t0:=None]> (activations s)) s)).
  - destruct x; intros; simplify_eq; [suspends Hw Ha|].
    destruct (remainingConfigurations f); cbn [newPromise];
      [settles Hres Hw Ha|suspends Hw Ha].
  - destruct (asTransferResult x) as [first|]; [|done].
    cbn [mbind option_bind].
    destruct (await first ≫= readTotalLength) as [[tl|]|];
      intros; simplify_eq; suspends Hw Ha.
  - destruct (asTransferResult x) as [second|]; [|done].
    cbn [mbind option_bind].
    destruct (await second); [|intros; simplify_eq; suspends Hw Ha].
    destruct (parseDescriptors _ _ _) as [[? c]|]; [|done].
    cbn [mbind option_bind]. intros; simplify_eq. suspends Hw Ha.
  - intros; simplify_eq.
    destruct (remainingConfigurations f); cbn [newPromise];
      [settles Hres Hw Ha|suspends Hw Ha].
  - (* line 151 *)
    assert (∀ s1 y,
              promises s1 = promises s →
              activations s1 = <[t0 := None]> (activations s) →
              nextDeviceState s1 = nextDeviceState s →
              (∀ r, r ≠ deviceState → deviceStates s1 r = deviceStates s r) →
              openOperationPromise (deviceStates s1 deviceState) = None →
              closeOperationPromise (deviceStates s1 deviceState)
              = closeOperationPromise (deviceStates s deviceState) →
              delta
                (Some (t0, {| awaiting := aw;
                              continuation := OpenDeviceHandle_151 deviceState;
                              result := res |}))
                (concerns (OpenDeviceHandle_151 deviceState)) s
                (settle res y s1)) as Hgen.
    { intros s1 y Hp Hact Hn Hother Hom Hcm.
      eapply (delta_resume_settle _ _ _ _ _ _ Hres Hw Ha).
      - by apply promises_settle_ext.
      - done.
      - intros r Hr. unfold settle. simp_state. rewrite Hother; [done|].
        intros ->. apply Hr. by left.
      - intros r q. unfold settle. simp_state.
        destruct (decide (r = deviceState)) as [->|Hne];
          [by rewrite Hom|by rewrite Hother].
      - intros r q. unfold settle. simp_state.
        destruct (decide (r = deviceState)) as [->|Hne];
          [by rewrite Hcm|by rewrite Hother].
      - unfold settle. simp_state. lia. }
    destruct x; intros; simplify_eq.
    + apply Hgen; simp_state; try done.
      * intros r Hne. by rewrite !fn_lookup_insert_ne.
      * rewrite !fn_lookup_insert. by simp_state.
      * rewrite !fn_lookup_insert. by simp_state.
    + apply Hgen; simp_state; try done.
      * intros r Hne. by rewrite !fn_lookup_insert_ne.
      * rewrite !fn_lookup_insert. by simp_state.
      * rewrite !fn_lookup_insert. by simp_state.
  - (* line 181 *)
    destruct x; intros; simplify_eq; [|settles Hres Hw Ha].
    eapply (delta_resume_settle _ _ _ _ _ _ Hres Hw Ha).
    + by apply promises_settle_ext.
    + done.
    + intros r Hr. unfold settle. simp_state.
      rewrite fn_lookup_insert_ne; [done|].
      intros <-. apply Hr. right. by right.
    + intros r q. unfold settle. simp_state.
      destruct (decide (r = deviceState)) as [->|Hne];
        [by rewrite fn_lookup_insert|by rewrite fn_lookup_insert_ne].
    + intros r q. unfold settle. simp_state.
      destruct (decide (r = deviceState)) as [->|Hne];
        [by rewrite fn_lookup_insert|by rewrite fn_lookup_insert_ne].
    + done.
  - destruct x; intros; simplify_eq; settles Hres Hw Ha.
  - destruct (asTransferResult x) as [tr|]; [|done]. cbn [mbind option_bind].
    destruct (await tr ≫= getLibusbJsTransferResultOrThrow);
      intros; simplify_eq; settles Hres Hw Ha.
  - destruct x; intros; simplify_eq; [suspends Hw Ha|settles Hres Hw Ha].
  - destruct x; intros; simplify_eq; settles Hres Hw Ha.
Qed.

End ContinuationFacts.

(* ===================================================================== *)
(** ** The order of the runtime: the calls on one device *)
(* ===================================================================== *)

Import Js.

Module CoordinatedFacts.
Import Descriptor Adaptor DescriptorFacts RegistryFacts AdaptorFacts
  FailedCloseFacts ResultsFacts JobsFacts ContinuationFacts.

(** **** Code that leaves an object alone *)

Lemma concerns_inj k r r' : concerns k r → concerns k r' → r = r'.
Proof.
  unfold concerns. intros [-> | [-> | ->]] [Hk | [Hk | Hk]]; by simplify_eq.
Qed.

Section frame.
Unset Default Proof Using.
Context (fin : option (nat * Activation)) (acting : nat → Prop).
Context (st st' : Scheduled) (r : nat).
Context (Hd : delta fin acting (adaptor st) (adaptor st')).
Context (Hres : resultsWf (adaptor st)) (Hw : awaitsWf (adaptor st)).
Context (Hact : ¬ acting r).
Context (Hfin :
  ∀ t0 a0, fin = Some (t0, a0) →
           ¬ concerns (continuation a0) r
           ∧ openOperationPromise (deviceStates (adaptor st) r)
             ≠ Some (result a0)).
Context (Hurg :
  ∀ t, urgent t (jobs st) → (∀ t0 a0, fin = Some (t0, a0) → t ≠ t0) →
       urgent t (jobs st')).
Context (Hc : coordinated r st).

Lemma frame_old t a :
  suspendedAt (adaptor st') t a → concerns (continuation a) r →
  suspendedAt (adaptor st) t a ∧ ∀ t0 a0, fin = Some (t0, a0) → t ≠ t0.
Proof.
  intros Ha Hk.
  destruct (delta_activations _ _ _ _ Hd) as (news & Hacts & Hnews & _).
  destruct (delta_suspendedAt fin _ _ news t a Hacts Ha)
    as [Hold|(i & Hi & _)]; [done|].
  apply list_elem_of_lookup_2 in Hi.
  destruct (Hnews a Hi) as (Hcon & _). by destruct (Hcon r Hk).
Qed.

Lemma frame_keep t a :
  suspendedAt (adaptor st) t a → concerns (continuation a) r →
  suspendedAt (adaptor st') t a
  ∧ ∀ t0 a0, fin = Some (t0, a0) → t ≠ t0.
Proof.
  intros Ha Hk.
  assert (∀ t0 a0, fin = Some (t0, a0) → t ≠ t0) as Hne.
  { intros t0 a0 Hf ->.
    pose proof (delta_fin _ _ _ _ Hd t0 a0 Hf) as Ha0.
    unfold suspendedAt in Ha, Ha0. rewrite Ha in Ha0.
    injection Ha0 as ->. by destruct (Hfin t0 a0 Hf). }
  split; [|done].
  destruct (delta_activations _ _ _ _ Hd) as (news & Hacts & _).
  by apply (delta_suspendedAt_old fin (adaptor st) (adaptor st') news).
Qed.

Lemma frame_awaited t a :
  suspendedAt (adaptor st) t a → concerns (continuation a) r →
  promises (adaptor st') !! awaiting a
  = promises (adaptor st) !! awaiting a.
Proof.
  intros Ha Hk.
  destruct (awaits_origin _ Hw t a Ha) as (pr & Hpr & Ho).
  rewrite Hpr. apply (delta_promise_same fin acting (adaptor st)); try done.
  destruct Hk as [Hk | [Hk | Hk]]; rewrite Hk in Ho; cbn [awaitedOrigin] in Ho.
  - right. intros t0 a0 Hf Heq.
    destruct (coordinated_151 _ _ Hc t a Ha Hk) as [[_ Hom]|[Hs _]].
    + destruct (Hfin t0 a0 Hf) as [_ Hne]. apply Hne. by rewrite Hom, Heq.
    + pose proof (resultsWf_pending _ Hres t0 a0
                    (delta_fin _ _ _ _ Hd t0 a0 Hf)) as Hr.
      rewrite <- Heq, Hpr in Hr. injection Hr as ->.
      by rewrite (isSettled_lookup _ _ _ Hpr) in Hs.
  - left. intros ->. by destruct Ho.
  - left. intros ->. by destruct Ho.
Qed.

Lemma frame_closeOperationPromise pc :
  closeOperationPromise (deviceStates (adaptor st) r) = Some pc →
  promises (adaptor st') !! pc = promises (adaptor st) !! pc.
Proof.
  intros Hpc.
  destruct (awaits_closeOperationPromise _ Hw r pc Hpc)
    as (_ & pr & d & Hpr & Ho).
  rewrite Hpr. apply (delta_promise_same fin acting (adaptor st)); try done.
  left. intros ->. done.
Qed.

Lemma frame_result t a :
  suspendedAt (adaptor st') t a →
  openOperationPromise (deviceStates (adaptor st) r) = Some (result a) →
  suspendedAt (adaptor st) t a ∧ ∀ t0 a0, fin = Some (t0, a0) → t ≠ t0.
Proof.
  intros Ha Hom.
  destruct (delta_activations _ _ _ _ Hd) as (news & Hacts & Hnews & _).
  destruct (delta_suspendedAt fin _ _ news t a Hacts Ha)
    as [Hold|(i & Hi & _)]; [done|].
  exfalso. apply list_elem_of_lookup_2 in Hi.
  destruct (Hnews a Hi) as (_ & [Hfresh|(t0 & a0 & Hf & Heq)] & _).
  - destruct (awaits_openOperationPromise _ Hw r _ Hom)
      as (_ & pr & Hpr%lookup_lt_Some & _). lia.
  - destruct (Hfin t0 a0 Hf) as [_ Hne]. apply Hne. by rewrite Hom, Heq.
Qed.

Lemma coordinated_frame : coordinated r st'.
Proof.
  destruct (delta_frame _ _ _ _ Hd r Hact) as (Hom & Hcm & Hh).
  split.
  - intros t a Ha Hk.
    destruct (frame_old t a Ha) as [Ha' Hne]; [right; by right|].
    destruct (coordinated_181 _ _ Hc t a Ha' Hk) as [Hm Hu].
    split; [by rewrite Hcm|].
    rewrite (isSettled_ext _ _ _ (frame_awaited t a Ha' ltac:(right; by right))).
    intros Hs. by apply Hurg; [apply Hu|].
  - intros t t' a a' Ha Ha' Hk Hk'.
    destruct (frame_old t a Ha) as [Ht _]; [right; by right|].
    destruct (frame_old t' a' Ha') as [Ht' _]; [right; by right|].
    by apply (coordinated_181_one _ _ Hc t t' a a').
  - intros t a Ha Hk.
    destruct (frame_old t a Ha) as [Ha' Hne]; [right; by left|].
    pose proof (frame_awaited t a Ha' ltac:(right; by left)) as Hp.
    destruct (coordinated_503 _ _ Hc t a Ha' Hk) as [Hm Hcase].
    rewrite Hom, Hcm. split; [done|].
    destruct Hcase as [[Hpc Hpend]|(Hf & Hu & Hpc)].
    + left. split; [done|]. by apply (isPending_ext _ (adaptor st)).
    + right. split; [by apply (isFulfilled_ext _ (adaptor st))|].
      split; [by apply Hurg|done].
  - intros t a Ha Hk.
    destruct (frame_old t a Ha) as [Ha' Hne]; [by left|].
    pose proof (frame_awaited t a Ha' ltac:(by left)) as Hp.
    rewrite Hom, (isSettled_ext _ _ _ Hp).
    destruct (coordinated_151 _ _ Hc t a Ha' Hk) as [[Hpend Hq]|[Hs Hu]].
    + left. split; [|done]. by apply (isPending_ext _ (adaptor st)).
    + right. split; [done|]. by apply Hurg.
  - intros t t' a a' Ha Ha' Hk Hk'.
    destruct (frame_old t a Ha) as [Ht _]; [by left|].
    destruct (frame_old t' a' Ha') as [Ht' _]; [by left|].
    by apply (coordinated_151_same _ _ Hc t t' a a').
  - intros t a Ha Hk Hf.
    destruct (frame_old t a Ha) as [Ha' Hne]; [by left|].
    pose proof (frame_awaited t a Ha' ltac:(by left)) as Hp.
    apply (isFulfilled_ext _ (adaptor st') (adaptor st)) in Hf; [|done].
    destruct (coordinated_151_fulfilled _ _ Hc t a Ha' Hk Hf) as [Hn Hno].
    split; [by rewrite Hcm|].
    intros t' a' Ha2. split; intros Hk2.
    + destruct (frame_old t' a' Ha2) as [Ht' _]; [right; by right|].
      by destruct (Hno t' a' Ht').
    + destruct (frame_old t' a' Ha2) as [Ht' _]; [right; by left|].
      by destruct (Hno t' a' Ht').
  - intros q. rewrite Hom. intros Hq.
    destruct (coordinated_openOperationPromise _ _ Hc q Hq)
      as (He & t & a & Ha & Hk & Haw).
    split; [by apply Hh|]. exists t, a.
    split; [|done]. by apply frame_keep; [|left].
  - intros t a Ha Hk. rewrite Hom. intros Hq.
    destruct (frame_result t a Ha Hq) as [Ha' Hne].
    destruct (coordinated_505 _ _ Hc t a Ha' Hk Hq) as [Hno Hpc].
    split.
    + intros t' a' Ha2 Hk2.
      destruct (frame_old t' a' Ha2) as [Ht' _]; [right; by left|].
      by apply (Hno t' a' Ht').
    + intros pc. rewrite Hcm. intros Hm.
      rewrite (isSettled_ext _ _ _ (frame_closeOperationPromise pc Hm)).
      by apply Hpc.
  - intros pc. rewrite Hcm. intros Hm.
    destruct (coordinated_closeOperationPromise _ _ Hc pc Hm)
      as (He & t & a & Ha & Hk & Haw).
    split; [by apply Hh|]. exists t, a.
    split; [|done]. by apply frame_keep; [|right; right].
  - intros q t a. rewrite Hom. intros Hq Ha Hr. subst q.
    destruct (frame_result t a Ha Hq) as [Ha' Hne].
    by apply (coordinated_owner _ _ Hc (result a) t a).
Qed.

End frame.

(** **** A continuation that runs to the end of its function *)

Section finishing.
Unset Default Proof Using.
Context (st st' : Scheduled) (r t0 : nat) (a0 : Activation).
Context (y : Awaited Value).
Context (Hres : resultsWf (adaptor st)) (Hw : awaitsWf (adaptor st)).
Context (Hc : coordinated r st).
Context (Ha0 : suspendedAt (adaptor st) t0 a0).
Context (Hacts :
  activations (adaptor st') = <[t0 := None]> (activations (adaptor st))).
Context (Hprom :
  promises (adaptor st') = promises (settle (result a0) y (adaptor st))).
Context (Hurg : ∀ t, urgent t (jobs st) → t ≠ t0 → urgent t (jobs st')).

Lemma finishing_suspendedAt t a :
  suspendedAt (adaptor st') t a ↔ suspendedAt (adaptor st) t a ∧ t ≠ t0.
Proof.
  unfold suspendedAt. rewrite Hacts. split.
  - apply lookup_finish.
  - intros [Ha Hne]. by rewrite list_lookup_insert_ne.
Qed.

Lemma finishing_promise p :
  p ≠ result a0 →
  promises (adaptor st') !! p = promises (adaptor st) !! p.
Proof. intros Hne. by rewrite Hprom, lookup_settle, decide_False. Qed.

Lemma finishing_result :
  promises (adaptor st') !! result a0
  = Some (settledPromise AsyncFunction y).
Proof.
  rewrite Hprom, lookup_settle, decide_True by done.
  by rewrite (resultsWf_pending _ Hres t0 a0 Ha0).
Qed.

Lemma finishing_settled p :
  isSettled p (adaptor st) = true →
  promises (adaptor st') !! p = promises (adaptor st) !! p.
Proof.
  intros Hs. apply finishing_promise. intros ->.
  by rewrite (isSettled_lookup _ _ _ (resultsWf_pending _ Hres t0 a0 Ha0))
    in Hs.
Qed.

Lemma finishing_other p pr :
  promises (adaptor st) !! p = Some pr → origin pr ≠ AsyncFunction →
  promises (adaptor st') !! p = promises (adaptor st) !! p.
Proof.
  intros Hp Ho. apply finishing_promise. intros ->.
  rewrite (resultsWf_pending _ Hres t0 a0 Ha0) in Hp. by injection Hp as <-.
Qed.

Lemma finishing_close t a :
  suspendedAt (adaptor st) t a →
  continuation a = CloseDeviceHandle_181 r
  ∨ continuation a = OpenWebusbDevice_503 r →
  promises (adaptor st') !! awaiting a
  = promises (adaptor st) !! awaiting a.
Proof.
  intros Ha Hk. destruct (awaits_origin _ Hw t a Ha) as (pr & Hpr & Ho).
  apply (finishing_other _ pr); [done|].
  destruct Hk as [Hk|Hk]; rewrite Hk in Ho; cbn [awaitedOrigin] in Ho;
    destruct Ho as [d ->]; done.
Qed.

(** The promise that a suspended call of [openDeviceHandle] awaits is not
    the one that a function other than [openWebusbDevice] returns. *)
Lemma finishing_open t a :
  suspendedAt (adaptor st) t a →
  continuation a = OpenDeviceHandle_151 r →
  continuation a0 ≠ OpenWebusbDevice_503 r →
  continuation a0 ≠ OpenWebusbDevice_505 →
  promises (adaptor st') !! awaiting a
  = promises (adaptor st) !! awaiting a.
Proof.
  intros Ha Hk H503 H505.
  destruct (coordinated_151 _ _ Hc t a Ha Hk) as [[_ Hom]|[Hs _]];
    [|by apply finishing_settled].
  apply finishing_promise. intros Heq.
  by destruct (coordinated_owner _ _ Hc (awaiting a) t0 a0 Hom Ha0).
Qed.

(** Line 151 and after: the marker is cleared; after a success the handle
    is given. *)
Lemma coordinated_resume_151 :
  continuation a0 = OpenDeviceHandle_151 r →
  isSettled (awaiting a0) (adaptor st) = true →
  openOperationPromise (deviceStates (adaptor st') r) = None →
  closeOperationPromise (deviceStates (adaptor st') r)
  = closeOperationPromise (deviceStates (adaptor st) r) →
  (¬ isFulfilled (adaptor st) (awaiting a0) →
   handles (deviceStates (adaptor st') r)
   = handles (deviceStates (adaptor st) r)) →
  coordinated r st'.
Proof.
  intros Hk0 Hs0 Hom Hcm Hh.
  assert (∀ t a, suspendedAt (adaptor st) t a →
                 continuation a ≠ OpenWebusbDevice_503 r) as Hno503.
  { intros t a Ha Hk.
    destruct (coordinated_503 _ _ Hc t a Ha Hk) as [Hq _].
    destruct (coordinated_openOperationPromise _ _ Hc _ Hq)
      as (_ & t1 & a1 & Ha1 & Hk1 & Haw1).
    pose proof (coordinated_151_same _ _ Hc t0 t1 a0 a1 Ha0 Ha1 Hk0 Hk1)
      as Heq.
    rewrite Heq, Haw1 in Hs0.
    by rewrite (isSettled_lookup _ _ _ (resultsWf_pending _ Hres t a Ha))
      in Hs0. }
  assert (∀ t a, suspendedAt (adaptor st) t a →
                 continuation a = OpenDeviceHandle_151 r →
                 isSettled (awaiting a) (adaptor st) = true
                 ∧ promises (adaptor st') !! awaiting a
                   = promises (adaptor st) !! awaiting a) as H151.
  { intros t a Ha Hk.
    rewrite <- (coordinated_151_same _ _ Hc t0 t a0 a Ha0 Ha Hk0 Hk).
    split; [done|]. by apply finishing_settled. }
  split.
  - intros t a [Ha Hne]%finishing_suspendedAt Hk.
    destruct (coordinated_181 _ _ Hc t a Ha Hk) as [Hm Hu].
    split; [by rewrite Hcm|].
    rewrite (isSettled_ext _ _ _ (finishing_close t a Ha ltac:(by left))).
    intros Hs. by apply Hurg; [apply Hu|].
  - intros t t' a a' [Ha _]%finishing_suspendedAt
      [Ha' _]%finishing_suspendedAt.
    by apply (coordinated_181_one _ _ Hc).
  - intros t a [Ha _]%finishing_suspendedAt Hk. by destruct (Hno503 t a).
  - intros t a [Ha Hne]%finishing_suspendedAt Hk.
    destruct (H151 t a Ha Hk) as [Hs Hp]. right.
    rewrite (isSettled_ext _ _ _ Hp). split; [done|].
    destruct (coordinated_151 _ _ Hc t a Ha Hk) as [[Hpend _]|[_ Hu]].
    + by rewrite (isPending_isSettled _ _ Hpend) in Hs.
    + by apply Hurg.
  - intros t t' a a' [Ha _]%finishing_suspendedAt
      [Ha' _]%finishing_suspendedAt.
    by apply (coordinated_151_same _ _ Hc t t' a a').
  - intros t a [Ha Hne]%finishing_suspendedAt Hk Hf.
    destruct (H151 t a Ha Hk) as [Hs Hp].
    apply (isFulfilled_ext _ (adaptor st') (adaptor st)) in Hf; [|done].
    destruct (coordinated_151_fulfilled _ _ Hc t a Ha Hk Hf) as [Hn Hno].
    split; [by rewrite Hcm|].
    intros t' a' [Ha2 _]%finishing_suspendedAt. by apply (Hno t' a').
  - intros q. by rewrite Hom.
  - intros t a _ _. by rewrite Hom.
  - intros pc. rewrite Hcm. intros Hm.
    destruct (coordinated_closeOperationPromise _ _ Hc pc Hm)
      as (He & t & a & Ha & Hk & Haw).
    split.
    + rewrite Hh; [done|]. intros Hf.
      destruct (coordinated_151_fulfilled _ _ Hc t0 a0 Ha0 Hk0 Hf)
        as [Hn _]. by rewrite Hn in Hm.
    + exists t, a. split; [|done]. apply finishing_suspendedAt.
      split; [done|]. intros ->. unfold suspendedAt in Ha, Ha0.
      rewrite Ha in Ha0. injection Ha0 as ->. by rewrite Hk in Hk0.
  - intros q t a. by rewrite Hom.
Qed.

(** [closeDeviceHandle] after a [close()] that succeeded: the marker is
    cleared. *)
Lemma coordinated_resume_181 :
  continuation a0 = CloseDeviceHandle_181 r →
  isFulfilled (adaptor st) (awaiting a0) →
  closeOperationPromise (deviceStates (adaptor st') r) = None →
  openOperationPromise (deviceStates (adaptor st') r)
  = openOperationPromise (deviceStates (adaptor st) r) →
  handles (deviceStates (adaptor st') r)
  = handles (deviceStates (adaptor st) r) →
  coordinated r st'.
Proof.
  intros Hk0 Hf0 Hcm Hom Hh.
  destruct (coordinated_181 _ _ Hc t0 a0 Ha0 Hk0) as [Hm0 _].
  assert (∀ t a, suspendedAt (adaptor st) t a → t ≠ t0 →
                 continuation a ≠ CloseDeviceHandle_181 r) as Hno181.
  { intros t a Ha Hne Hk. apply Hne.
    by apply (coordinated_181_one _ _ Hc t t0 a a0). }
  assert (∀ t a, suspendedAt (adaptor st) t a →
                 continuation a = OpenDeviceHandle_151 r →
                 promises (adaptor st') !! awaiting a
                 = promises (adaptor st) !! awaiting a) as H151.
  { intros t a Ha Hk. apply (finishing_open t a Ha Hk); by rewrite Hk0. }
  split.
  - intros t a [Ha Hne]%finishing_suspendedAt Hk. by destruct (Hno181 t a).
  - intros t t' a a' [Ha _]%finishing_suspendedAt
      [Ha' _]%finishing_suspendedAt.
    by apply (coordinated_181_one _ _ Hc).
  - intros t a [Ha Hne]%finishing_suspendedAt Hk.
    pose proof (finishing_close t a Ha ltac:(by right)) as Hp.
    destruct (coordinated_503 _ _ Hc t a Ha Hk) as [Hq Hcase].
    rewrite Hom, Hcm. split; [done|].
    destruct Hcase as [[Hpc Hpend]|(Hf & Hu & _)].
    + exfalso. rewrite Hm0 in Hpc. injection Hpc as Hpc.
      rewrite <- Hpc in Hpend.
      apply isPending_isSettled in Hpend.
      by rewrite (isFulfilled_isSettled _ _ Hf0) in Hpend.
    + right. split; [by apply (isFulfilled_ext _ (adaptor st))|].
      split; [by apply Hurg|by left].
  - intros t a [Ha Hne]%finishing_suspendedAt Hk.
    pose proof (H151 t a Ha Hk) as Hp.
    rewrite Hom, (isSettled_ext _ _ _ Hp).
    destruct (coordinated_151 _ _ Hc t a Ha Hk) as [[Hpend Hq]|[Hs Hu]].
    + left. split; [|done]. by apply (isPending_ext _ (adaptor st)).
    + right. split; [done|]. by apply Hurg.
  - intros t t' a a' [Ha _]%finishing_suspendedAt
      [Ha' _]%finishing_suspendedAt.
    by apply (coordinated_151_same _ _ Hc t t' a a').
  - intros t a [Ha Hne]%finishing_suspendedAt Hk Hf. exfalso.
    apply (isFulfilled_ext _ (adaptor st') (adaptor st)) in Hf;
      [|symmetry; by apply (H151 t a)].
    destruct (coordinated_151_fulfilled _ _ Hc t a Ha Hk Hf) as [Hn _].
    by rewrite Hn in Hm0.
  - intros q. rewrite Hom, Hh. intros Hq.
    destruct (coordinated_openOperationPromise _ _ Hc q Hq)
      as (He & t & a & Ha & Hk & Haw).
    split; [done|]. exists t, a. split; [|done].
    apply finishing_suspendedAt. split; [done|]. intros ->.
    unfold suspendedAt in Ha, Ha0.
    rewrite Ha in Ha0. injection Ha0 as ->. by rewrite Hk in Hk0.
  - intros t a [Ha Hne]%finishing_suspendedAt Hk. rewrite Hom. intros Hq.
    destruct (coordinated_505 _ _ Hc t a Ha Hk Hq) as [Hno _].
    split; [|by rewrite Hcm].
    intros t' a' [Ha2 _]%finishing_suspendedAt. by apply (Hno t' a').
  - intros pc. by rewrite Hcm.
  - intros q t a. rewrite Hom. intros Hq [Ha _]%finishing_suspendedAt.
    by apply (coordinated_owner _ _ Hc q t a).
Qed.

(** [openWebusbDevice] after [open()]: the calls of [openDeviceHandle]
    that wait for it continue next. *)
Lemma coordinated_resume_505 q' :
  continuation a0 = OpenWebusbDevice_505 →
  openOperationPromise (deviceStates (adaptor st) r) = Some (result a0) →
  jobs st = [Reaction t0] →
  jobs st' = (Reaction <$> becameReady (adaptor st) (adaptor st')) ++ q' →
  deviceStates (adaptor st') r = deviceStates (adaptor st) r →
  coordinated r st'.
Proof.
  intros Hk0 Hom0 Hq Hq' Hobj.
  destruct (coordinated_505 _ _ Hc t0 a0 Ha0 Hk0 Hom0) as [Hno503 Hpc].
  assert (∀ t a, suspendedAt (adaptor st) t a →
                 continuation a ≠ CloseDeviceHandle_181 r) as Hno181.
  { intros t a Ha Hk.
    destruct (coordinated_181 _ _ Hc t a Ha Hk) as [Hm Hu].
    pose proof (Hu (Hpc _ Hm)) as Hur. rewrite Hq in Hur.
    apply urgent_singleton in Hur as ->. unfold suspendedAt in Ha, Ha0.
    rewrite Ha in Ha0. injection Ha0 as ->. by rewrite Hk in Hk0. }
  assert (closeOperationPromise (deviceStates (adaptor st) r) = None) as Hcm.
  { destruct (closeOperationPromise _) as [pc|] eqn:Hm; [|done].
    destruct (coordinated_closeOperationPromise _ _ Hc pc Hm)
      as (_ & t & a & Ha & Hk & _). by destruct (Hno181 t a). }
  assert (∀ t a, suspendedAt (adaptor st) t a →
                 continuation a = OpenDeviceHandle_151 r →
                 t ≠ t0 ∧ awaiting a = result a0) as H151.
  { intros t a Ha Hk.
    assert (t ≠ t0) as Hne.
    { intros ->. unfold suspendedAt in Ha, Ha0.
      rewrite Ha in Ha0. injection Ha0 as ->. by rewrite Hk in Hk0. }
    split; [done|].
    destruct (coordinated_151 _ _ Hc t a Ha Hk) as [[_ Hom]|[_ Hu]].
    - rewrite Hom0 in Hom. by injection Hom.
    - rewrite Hq in Hu. by apply urgent_singleton in Hu. }
  split; rewrite ?Hobj.
  - intros t a [Ha _]%finishing_suspendedAt Hk. by destruct (Hno181 t a).
  - intros t t' a a' [Ha _]%finishing_suspendedAt
      [Ha' _]%finishing_suspendedAt.
    by apply (coordinated_181_one _ _ Hc).
  - intros t a [Ha _]%finishing_suspendedAt Hk. by destruct (Hno503 t a).
  - intros t a Ha' Hk. pose proof Ha' as [Ha Hne]%finishing_suspendedAt.
    destruct (H151 t a Ha Hk) as [_ Haw]. right.
    assert (isSettled (awaiting a) (adaptor st') = true) as Hs.
    { rewrite Haw, (isSettled_lookup _ _ _ finishing_result). done. }
    split; [done|]. rewrite Hq'. apply urgent_new_nil.
    apply elem_of_becameReady. split.
    + apply ready_true. by exists a.
    + unfold ready. rewrite Ha, Haw.
      by rewrite (isSettled_lookup _ _ _
                    (resultsWf_pending _ Hres t0 a0 Ha0)).
  - intros t t' a a' [Ha _]%finishing_suspendedAt
      [Ha' _]%finishing_suspendedAt.
    by apply (coordinated_151_same _ _ Hc t t' a a').
  - intros t a _ _ _. split; [done|].
    intros t' a' [Ha2 _]%finishing_suspendedAt.
    split; [by apply (Hno181 t' a')|by apply (Hno503 t' a')].
  - intros q Hm.
    destruct (coordinated_openOperationPromise _ _ Hc q Hm)
      as (He & t & a & Ha & Hk & Haw).
    split; [done|]. exists t, a. split; [|done].
    apply finishing_suspendedAt. split; [done|].
    by destruct (H151 t a Ha Hk).
  - intros t a [Ha Hne]%finishing_suspendedAt Hk Hm. exfalso. apply Hne.
    apply (resultsWf_unique _ Hres t t0 a a0 Ha Ha0).
    rewrite Hom0 in Hm. by injection Hm.
  - intros pc. by rewrite Hcm.
  - intros q t a Hm [Ha Hne]%finishing_suspendedAt Hr. exfalso. apply Hne.
    apply (resultsWf_unique _ Hres t t0 a a0 Ha Ha0).
    rewrite Hom0 in Hm. injection Hm as <-. done.
Qed.

End finishing.

(** **** Code that suspends a new activation *)

Lemma isPending_app p s s' fresh :
  promises s' = promises s ++ fresh → isPending s p → isPending s' p.
Proof.
  intros Hp (pr & Hpr & Hn). exists pr. split; [|done].
  rewrite Hp. by apply lookup_app_l_Some.
Qed.

Lemma lookup_app_old p s s' fresh :
  promises s' = promises s ++ fresh → p < length (promises s) →
  promises s' !! p = promises s !! p.
Proof. intros Hp Hlt. by rewrite Hp, lookup_app_l. Qed.

Lemma suspendedAt_inj s t a a' :
  suspendedAt s t a → suspendedAt s t a' → a = a'.
Proof. unfold suspendedAt. intros Ha Ha'. rewrite Ha in Ha'. by injection Ha'. Qed.

(** [openWebusbDevice] after a [close()] that succeeded: [open()] is
    called. *)
Lemma coordinated_resume_503 st st' r t0 a0 d :
  resultsWf (adaptor st) → awaitsWf (adaptor st) → coordinated r st →
  suspendedAt (adaptor st) t0 a0 →
  continuation a0 = OpenWebusbDevice_503 r →
  isSettled (awaiting a0) (adaptor st) = true →
  activations (adaptor st')
  = <[t0 := None]> (activations (adaptor st))
    ++ [Some {| awaiting := length (promises (adaptor st));
                continuation := OpenWebusbDevice_505;
                result := result a0 |}] →
  promises (adaptor st')
  = promises (adaptor st) ++ [pending (WebusbOpen d)] →
  deviceStates (adaptor st') r = deviceStates (adaptor st) r →
  (∀ t, urgent t (jobs st) → t ≠ t0 → urgent t (jobs st')) →
  coordinated r st'.
Proof.
  intros Hres Hw Hc Ha0 Hk0 Hs0 Hacts Hprom Hobj Hurg.
  destruct (coordinated_503 _ _ Hc t0 a0 Ha0 Hk0) as [Hom0 Hcase].
  destruct Hcase as [[_ Hpend]|(Hf0 & _ & Hcm0)].
  { by rewrite (isPending_isSettled _ _ Hpend) in Hs0. }
  assert (∀ t a, suspendedAt (adaptor st') t a →
                 (suspendedAt (adaptor st) t a ∧ t ≠ t0)
                 ∨ a = {| awaiting := length (promises (adaptor st));
                          continuation := OpenWebusbDevice_505;
                          result := result a0 |}) as Hold.
  { intros t a Ha.
    destruct (delta_suspendedAt (Some (t0, a0)) (adaptor st) (adaptor st')
                [_] t a Hacts Ha) as [[Ht Hne]|(i & Hi & _)].
    - left. split; [done|]. by apply (Hne t0 a0).
    - right. destruct i; [|done]. by injection Hi. }
  assert (∀ t a, suspendedAt (adaptor st) t a → t ≠ t0 →
                 suspendedAt (adaptor st') t a) as Hkeep.
  { intros t a Ha Hne.
    apply (delta_suspendedAt_old (Some (t0, a0)) (adaptor st) (adaptor st')
             [_] t a Hacts Ha). by intros ? ? [= <- _]. }
  assert (∀ t a, suspendedAt (adaptor st) t a →
                 promises (adaptor st') !! awaiting a
                 = promises (adaptor st) !! awaiting a) as Hsame.
  { intros t a Ha. apply (lookup_app_old _ _ _ _ Hprom).
    by apply (awaitsWf_lt _ t). }
  assert (∀ t a, suspendedAt (adaptor st) t a →
                 continuation a = OpenWebusbDevice_503 r → t = t0) as H503.
  { intros t a Ha Hk.
    destruct (coordinated_503 _ _ Hc t a Ha Hk) as [Hq _].
    apply (resultsWf_unique _ Hres t t0 a a0 Ha Ha0).
    rewrite Hom0 in Hq. by injection Hq. }
  assert (∀ t a, suspendedAt (adaptor st) t a →
                 continuation a ≠ OpenWebusbDevice_503 r → t ≠ t0) as Hother.
  { intros t a Ha Hk ->. by rewrite (suspendedAt_inj _ _ _ _ Ha Ha0) in Hk. }
  split; rewrite ?Hobj.
  - intros t a [[Ha Hne]| ->]%Hold Hk; [|done].
    destruct (coordinated_181 _ _ Hc t a Ha Hk) as [Hm Hu].
    split; [done|]. rewrite (isSettled_ext _ _ _ (Hsame t a Ha)).
    intros Hs. by apply Hurg; [apply Hu|].
  - intros t t' a a' [[Ha _]| ->]%Hold [[Ha' _]| ->]%Hold; try done.
    by apply (coordinated_181_one _ _ Hc t t' a a').
  - intros t a [[Ha Hne]| ->]%Hold Hk; [|done]. by destruct (H503 t a).
  - intros t a [[Ha Hne]| ->]%Hold Hk; [|done].
    rewrite (isSettled_ext _ _ _ (Hsame t a Ha)).
    destruct (coordinated_151 _ _ Hc t a Ha Hk) as [[Hpend Hq]|[Hs Hu]].
    + left. split; [|done]. by apply (isPending_app _ _ _ _ Hprom).
    + right. split; [done|]. by apply Hurg.
  - intros t t' a a' [[Ha _]| ->]%Hold [[Ha' _]| ->]%Hold; try done.
    by apply (coordinated_151_same _ _ Hc t t' a a').
  - intros t a [[Ha Hne]| ->]%Hold Hk Hf; [|done]. exfalso.
    apply (isFulfilled_ext _ (adaptor st') (adaptor st)) in Hf;
      [|symmetry; by apply (Hsame t a)].
    destruct (coordinated_151_fulfilled _ _ Hc t a Ha Hk Hf) as [_ Hno].
    by destruct (Hno t0 a0 Ha0).
  - intros q Hq.
    destruct (coordinated_openOperationPromise _ _ Hc q Hq)
      as (He & t & a & Ha & Hk & Haw).
    split; [done|]. exists t, a. split; [|done]. apply Hkeep; [done|].
    apply (Hother t a Ha). by rewrite Hk.
  - intros t a Ha Hk Hq. split.
    + intros t' a' [[Ha' Hne]| ->]%Hold Hk'; [|done]. by destruct (H503 t' a').
    + intros pc Hpc. destruct Hcm0 as [Hn|Hm]; [by rewrite Hn in Hpc|].
      rewrite Hm in Hpc. injection Hpc as <-.
      by rewrite (isSettled_ext _ _ _ (Hsame t0 a0 Ha0)).
  - intros pc Hpc.
    destruct (coordinated_closeOperationPromise _ _ Hc pc Hpc)
      as (He & t & a & Ha & Hk & Haw).
    split; [done|]. exists t, a. split; [|done]. apply Hkeep; [done|].
    apply (Hother t a Ha). by rewrite Hk.
  - intros q t a Hq [[Ha Hne]| ->]%Hold Hr; [|by right].
    exfalso. apply Hne. apply (resultsWf_unique _ Hres t t0 a a0 Ha Ha0).
    rewrite Hom0 in Hq. injection Hq as <-. done.
Qed.

(** **** Code of the caller *)

(** While code of the caller runs, no reaction is due before it: what is
    suspended on the object waits for something pending. *)
Section quiet.
Unset Default Proof Using.
Context (st : Scheduled) (r : nat).
Context (Hw : awaitsWf (adaptor st)).
Context (Hquiet : ∀ t, ¬ urgent t (jobs st)).
Context (Hc : coordinated r st).

Lemma quiet_pending t a :
  suspendedAt (adaptor st) t a →
  isSettled (awaiting a) (adaptor st) = false →
  isPending (adaptor st) (awaiting a).
Proof.
  intros Ha [Hn|Hp]%isSettled_false; [|done].
  destruct (awaits_origin _ Hw t a Ha) as (pr & Hpr & _). congruence.
Qed.

Lemma quiet_181 t a :
  suspendedAt (adaptor st) t a →
  continuation a = CloseDeviceHandle_181 r →
  closeOperationPromise (deviceStates (adaptor st) r) = Some (awaiting a)
  ∧ isPending (adaptor st) (awaiting a).
Proof.
  intros Ha Hk. destruct (coordinated_181 _ _ Hc t a Ha Hk) as [Hm Hu].
  split; [done|]. apply (quiet_pending t a Ha).
  destruct (isSettled _ _) eqn:Hs; [|done]. by destruct (Hquiet t (Hu eq_refl)).
Qed.

Lemma quiet_503 t a :
  suspendedAt (adaptor st) t a →
  continuation a = OpenWebusbDevice_503 r →
  openOperationPromise (deviceStates (adaptor st) r) = Some (result a)
  ∧ closeOperationPromise (deviceStates (adaptor st) r) = Some (awaiting a)
  ∧ isPending (adaptor st) (awaiting a).
Proof.
  intros Ha Hk.
  destruct (coordinated_503 _ _ Hc t a Ha Hk)
    as [Hq [[Hm Hp]|(_ & Hu & _)]]; [done|].
  by destruct (Hquiet t).
Qed.

Lemma quiet_151 t a :
  suspendedAt (adaptor st) t a →
  continuation a = OpenDeviceHandle_151 r →
  isPending (adaptor st) (awaiting a)
  ∧ openOperationPromise (deviceStates (adaptor st) r) = Some (awaiting a).
Proof.
  intros Ha Hk.
  destruct (coordinated_151 _ _ Hc t a Ha Hk) as [Hp|[_ Hu]]; [done|].
  by destruct (Hquiet t).
Qed.

End quiet.

Lemma coordinated_quiet r st :
  (∀ t a, suspendedAt (adaptor st) t a →
          continuation a = CloseDeviceHandle_181 r →
          closeOperationPromise (deviceStates (adaptor st) r)
          = Some (awaiting a)
          ∧ isPending (adaptor st) (awaiting a)) →
  (∀ t t' a a', suspendedAt (adaptor st) t a →
                suspendedAt (adaptor st) t' a' →
                continuation a = CloseDeviceHandle_181 r →
                continuation a' = CloseDeviceHandle_181 r → t = t') →
  (∀ t a, suspendedAt (adaptor st) t a →
          continuation a = OpenWebusbDevice_503 r →
          openOperationPromise (deviceStates (adaptor st) r)
          = Some (result a)
          ∧ closeOperationPromise (deviceStates (adaptor st) r)
            = Some (awaiting a)
          ∧ isPending (adaptor st) (awaiting a)) →
  (∀ t a, suspendedAt (adaptor st) t a →
          continuation a = OpenDeviceHandle_151 r →
          isPending (adaptor st) (awaiting a)
          ∧ openOperationPromise (deviceStates (adaptor st) r)
            = Some (awaiting a)) →
  (∀ q, openOperationPromise (deviceStates (adaptor st) r) = Some q →
        handles (deviceStates (adaptor st) r) = ∅
        ∧ ∃ t a, suspendedAt (adaptor st) t a
                 ∧ continuation a = OpenDeviceHandle_151 r
                 ∧ awaiting a = q) →
  (∀ t a, suspendedAt (adaptor st) t a →
          continuation a = OpenWebusbDevice_505 →
          openOperationPromise (deviceStates (adaptor st) r)
          = Some (result a) →
          (∀ t' a', suspendedAt (adaptor st) t' a' →
                    continuation a' ≠ OpenWebusbDevice_503 r)
          ∧ ∀ pc, closeOperationPromise (deviceStates (adaptor st) r)
                  = Some pc →
                  isSettled pc (adaptor st) = true) →
  (∀ pc, closeOperationPromise (deviceStates (adaptor st) r) = Some pc →
         handles (deviceStates (adaptor st) r) = ∅
         ∧ ∃ t a, suspendedAt (adaptor st) t a
                  ∧ continuation a = CloseDeviceHandle_181 r
                  ∧ awaiting a = pc) →
  (∀ q t a, openOperationPromise (deviceStates (adaptor st) r) = Some q →
            suspendedAt (adaptor st) t a → result a = q →
            continuation a = OpenWebusbDevice_503 r
            ∨ continuation a = OpenWebusbDevice_505) →
  coordinated r st.
Proof.
  intros H181 Hone H503 H151 Hom H505 Hcm Hown. split; try done.
  - intros t a Ha Hk. destruct (H181 t a Ha Hk) as [Hm Hp].
    split; [done|]. by rewrite (isPending_isSettled _ _ Hp).
  - intros t a Ha Hk. destruct (H503 t a Ha Hk) as (Hq & Hm & Hp).
    split; [done|]. by left.
  - intros t a Ha Hk. left. by apply (H151 t a).
  - intros t t' a a' Ha Ha' Hk Hk'.
    destruct (H151 t a Ha Hk) as [_ Hq].
    destruct (H151 t' a' Ha' Hk') as [_ Hq'].
    rewrite Hq in Hq'. by injection Hq'.
  - intros t a Ha Hk Hf. exfalso.
    destruct (H151 t a Ha Hk) as [Hp%isPending_isSettled _].
    by rewrite (isFulfilled_isSettled _ _ Hf) in Hp.
Qed.

(** What a call finds suspended is still suspended after it, and waits for
    what it waited for. *)
Section calling.
Unset Default Proof Using.
Context (st st' : Scheduled) (r : nat).
Context (news : list Activation) (fresh : list Promise).
Context (Hres : resultsWf (adaptor st)) (Hw : awaitsWf (adaptor st)).
Context (Hquiet : ∀ t, ¬ urgent t (jobs st)).
Context (Hc : coordinated r st).
Context (Hacts :
  activations (adaptor st') = activations (adaptor st) ++ (Some <$> news)).
Context (Hprom : promises (adaptor st') = promises (adaptor st) ++ fresh).

Lemma calling_suspendedAt t a :
  suspendedAt (adaptor st') t a →
  suspendedAt (adaptor st) t a
  ∨ ∃ i, news !! i = Some a ∧ t = length (activations (adaptor st)) + i.
Proof.
  intros Ha.
  destruct (delta_suspendedAt None (adaptor st) (adaptor st') news t a
              Hacts Ha) as [[Ht _]|Hnew]; [by left|by right].
Qed.

Lemma calling_keep t a :
  suspendedAt (adaptor st) t a → suspendedAt (adaptor st') t a.
Proof.
  intros Ha.
  by apply (delta_suspendedAt_old None (adaptor st) (adaptor st') news).
Qed.

Lemma calling_new i a :
  news !! i = Some a →
  suspendedAt (adaptor st') (length (activations (adaptor st)) + i) a.
Proof.
  intros Hi.
  by apply (delta_suspendedAt_new None (adaptor st) (adaptor st') news).
Qed.

Lemma calling_pending p :
  isPending (adaptor st) p → isPending (adaptor st') p.
Proof. by apply isPending_app with fresh. Qed.

Lemma calling_settled p :
  isSettled p (adaptor st) = true → isSettled p (adaptor st') = true.
Proof.
  intros Hs. rewrite <- Hs. apply isSettled_ext.
  apply (lookup_app_old _ _ _ _ Hprom).
  apply isSettled_true in Hs as (pr & x & Hpr & _).
  by apply lookup_lt_Some in Hpr.
Qed.

Lemma calling_result t a :
  suspendedAt (adaptor st) t a → result a < length (promises (adaptor st)).
Proof.
  intros Ha. eapply lookup_lt_Some. by apply (resultsWf_pending _ Hres t).
Qed.

End calling.

(** A call of [openDeviceHandle] made while an open is under way joins
    the wait. *)
Lemma coordinated_open_joins st st' r q :
  resultsWf (adaptor st) → awaitsWf (adaptor st) →
  (∀ t, ¬ urgent t (jobs st)) → coordinated r st →
  openOperationPromise (deviceStates (adaptor st) r) = Some q →
  promises (adaptor st')
  = promises (adaptor st) ++ [pending AsyncFunction] →
  activations (adaptor st')
  = activations (adaptor st)
    ++ [openDeviceHandle_151 r q (length (promises (adaptor st)))] →
  deviceStates (adaptor st') = deviceStates (adaptor st) →
  coordinated r st'.
Proof.
  intros Hres Hw Hquiet Hc Hom Hprom Hacts Hobj.
  pose proof (quiet_181 st r Hw Hquiet Hc) as Q181.
  pose proof (quiet_503 st r Hquiet Hc) as Q503.
  pose proof (quiet_151 st r Hquiet Hc) as Q151.
  pose proof (calling_pending st st' _ Hprom) as Hpend.
  pose proof (calling_keep st st' [_] Hacts) as Hkeep.
  assert (∀ t a, suspendedAt (adaptor st') t a →
                 suspendedAt (adaptor st) t a
                 ∨ a = {| awaiting := q;
                          continuation := OpenDeviceHandle_151 r;
                          result := length (promises (adaptor st)) |})
    as Hold.
  { intros t a [Ha|(i & Hi & _)]%(calling_suspendedAt st st' [_] Hacts);
      [by left|right].
    destruct i; [|done]. by injection Hi. }
  destruct (coordinated_openOperationPromise _ _ Hc q Hom)
    as (He & t1 & b1 & Hb1 & Hkb1 & Hawb1).
  destruct (Q151 t1 b1 Hb1 Hkb1) as [Hpq _]. rewrite Hawb1 in Hpq.
  apply coordinated_quiet; rewrite ?Hobj.
  - intros t a [Ha| ->]%Hold Hk; [|done].
    destruct (Q181 t a Ha Hk) as [Hm Hp]. split; [done|by apply Hpend].
  - intros t t' a a' [Ha| ->]%Hold [Ha'| ->]%Hold Hk Hk'; try done.
    by apply (coordinated_181_one _ _ Hc t t' a a').
  - intros t a [Ha| ->]%Hold Hk; [|done].
    destruct (Q503 t a Ha Hk) as (Hq & Hm & Hp).
    split; [done|]. split; [done|by apply Hpend].
  - intros t a [Ha| ->]%Hold Hk.
    + destruct (Q151 t a Ha Hk) as [Hp Hq]. split; [by apply Hpend|done].
    + cbn [awaiting]. split; [by apply Hpend|done].
  - intros q' Hq'.
    destruct (coordinated_openOperationPromise _ _ Hc q' Hq')
      as (He' & t & a & Ha & Hk & Haw).
    split; [done|]. exists t, a. split; [by apply Hkeep|done].
  - intros t a [Ha| ->]%Hold Hk Hq; [|done].
    destruct (coordinated_505 _ _ Hc t a Ha Hk Hq) as [Hno Hpc].
    split.
    + intros t' a' [Ha'| ->]%Hold; [by apply (Hno t' a')|done].
    + intros pc Hm. apply (calling_settled st st' _ Hprom). by apply Hpc.
  - intros pc Hm.
    destruct (coordinated_closeOperationPromise _ _ Hc pc Hm)
      as (He' & t & a & Ha & Hk & Haw).
    split; [done|]. exists t, a. split; [by apply Hkeep|done].
  - intros q' t a Hq' [Ha| ->]%Hold Hr.
    + by apply (coordinated_owner _ _ Hc q' t a).
    + exfalso. cbn [result] in Hr. subst q'.
      destruct (awaits_openOperationPromise _ Hw r _ Hq')
        as (_ & pr & Hpr%lookup_lt_Some & _). lia.
Qed.

(** The first call of [openDeviceHandle] on a device without a handle
    starts [openWebusbDevice], which awaits the pending close or calls
    [open()]. *)
Lemma coordinated_open_starts st st' r a1 ps' :
  resultsWf (adaptor st) → awaitsWf (adaptor st) →
  (∀ t, ¬ urgent t (jobs st)) → coordinated r st →
  openOperationPromise (deviceStates (adaptor st) r) = None →
  handles (deviceStates (adaptor st) r) = ∅ →
  promises (adaptor st')
  = promises (adaptor st)
    ++ [pending AsyncFunction; pending AsyncFunction] ++ ps' →
  activations (adaptor st')
  = activations (adaptor st)
    ++ [Some a1;
        openDeviceHandle_151 r (S (length (promises (adaptor st))))
          (length (promises (adaptor st)))] →
  result a1 = S (length (promises (adaptor st))) →
  (continuation a1 = OpenWebusbDevice_503 r
   ∧ closeOperationPromise (deviceStates (adaptor st) r)
     = Some (awaiting a1))
  ∨ (continuation a1 = OpenWebusbDevice_505
     ∧ closeOperationPromise (deviceStates (adaptor st) r) = None) →
  deviceStates (adaptor st') r
  = setOpenOperationPromise (Some (S (length (promises (adaptor st)))))
      (deviceStates (adaptor st) r) →
  coordinated r st'.
Proof.
  intros Hres Hw Hquiet Hc Hom Hh Hprom Hacts Hr1 Hcase Hobj.
  pose proof (quiet_181 st r Hw Hquiet Hc) as Q181.
  pose proof (quiet_503 st r Hquiet Hc) as Q503.
  pose proof (quiet_151 st r Hquiet Hc) as Q151.
  pose proof (calling_pending st st' _ Hprom) as Hpend.
  pose proof (calling_keep st st' [_; _] Hacts) as Hkeep.
  pose proof (calling_result st Hres) as Hlt.
  set (n := length (promises (adaptor st))) in *.
  assert (∀ t a, suspendedAt (adaptor st') t a →
                 suspendedAt (adaptor st) t a
                 ∨ a = a1
                 ∨ a = {| awaiting := S n;
                          continuation := OpenDeviceHandle_151 r;
                          result := n |})
    as Hold.
  { intros t a [Ha|(i & Hi & _)]%(calling_suspendedAt st st' [_; _] Hacts);
      [by left|right].
    destruct i as [|[|i]]; [left|right|done]; by injection Hi. }
  assert (isPending (adaptor st') (S n)) as Hfresh.
  { exists (pending AsyncFunction). split; [|done].
    rewrite Hprom, lookup_app_r by (unfold n; lia).
    by replace (S n - length (promises (adaptor st))) with 1
      by (unfold n; lia). }
  assert (∀ t a, suspendedAt (adaptor st) t a →
                 continuation a ≠ OpenWebusbDevice_503 r) as Hno503.
  { intros t a Ha Hk. destruct (Q503 t a Ha Hk) as [Hq _].
    by rewrite Hom in Hq. }
  assert (∀ t a, suspendedAt (adaptor st) t a →
                 continuation a ≠ OpenDeviceHandle_151 r) as Hno151.
  { intros t a Ha Hk. destruct (Q151 t a Ha Hk) as [_ Hq].
    by rewrite Hom in Hq. }
  assert (continuation a1 ≠ CloseDeviceHandle_181 r
          ∧ continuation a1 ≠ OpenDeviceHandle_151 r) as [H1a H1b].
  { destruct Hcase as [[-> _]|[-> _]]; by split. }
  apply coordinated_quiet; rewrite ?Hobj; simp_state.
  - intros t a [Ha|[->| ->]]%Hold Hk; [|done..].
    destruct (Q181 t a Ha Hk) as [Hm Hp]. split; [done|by apply Hpend].
  - intros t t' a a' [Ha|[->| ->]]%Hold [Ha'|[->| ->]]%Hold Hk Hk';
      try done.
    by apply (coordinated_181_one _ _ Hc t t' a a').
  - intros t a [Ha|[->| ->]]%Hold Hk; [by destruct (Hno503 t a)| |done].
    destruct Hcase as [[_ Hm]|[Hk' _]]; [|by rewrite Hk' in Hk].
    rewrite Hr1. split; [done|]. split; [done|].
    destruct (coordinated_closeOperationPromise _ _ Hc _ Hm)
      as (_ & t2 & a2 & Ha2 & Hk2 & Haw2).
    destruct (Q181 t2 a2 Ha2 Hk2) as [_ Hp]. rewrite Haw2 in Hp.
    by apply Hpend.
  - intros t a [Ha|[->| ->]]%Hold Hk; [by destruct (Hno151 t a)|done|].
    done.
  - intros q [= <-]. split; [done|].
    eexists _, _.
    split; [by apply (calling_new st st' [_; _] Hacts 1)|done].
  - intros t a [Ha|[->| ->]]%Hold Hk [= Hq]; [| |done].
    { apply Hlt in Ha. unfold n in Hq. lia. }
    destruct Hcase as [[Hk' _]|[_ Hm]]; [by rewrite Hk' in Hk|].
    split; [|by rewrite Hm].
    intros t' a' [Ha'|[->| ->]]%Hold Hk2; [by destruct (Hno503 t' a')| |done].
    by rewrite Hk in Hk2.
  - intros pc Hm.
    destruct (coordinated_closeOperationPromise _ _ Hc pc Hm)
      as (He' & t & a & Ha & Hk & Haw).
    split; [done|]. exists t, a. split; [by apply Hkeep|done].
  - intros q t a [= <-] [Ha|[->| ->]]%Hold Hr.
    + apply Hlt in Ha. unfold n in Hr. lia.
    + destruct Hcase as [[-> _]|[-> _]]; [by left|by right].
    + cbn [result] in Hr. lia.
Qed.

(** [closeDeviceHandle] on the last handle calls [close()] and sets the
    marker. *)
Lemma coordinated_close_last st st' r d :
  resultsWf (adaptor st) → awaitsWf (adaptor st) →
  (∀ t, ¬ urgent t (jobs st)) → coordinated r st →
  handles (deviceStates (adaptor st) r) ≠ ∅ →
  promises (adaptor st')
  = promises (adaptor st)
    ++ [pending AsyncFunction; pending (WebusbClose d)] →
  activations (adaptor st')
  = activations (adaptor st)
    ++ [Some {| awaiting := S (length (promises (adaptor st)));
                continuation := CloseDeviceHandle_181 r;
                result := length (promises (adaptor st)) |}] →
  openOperationPromise (deviceStates (adaptor st') r)
  = openOperationPromise (deviceStates (adaptor st) r) →
  closeOperationPromise (deviceStates (adaptor st') r)
  = Some (S (length (promises (adaptor st)))) →
  handles (deviceStates (adaptor st') r) = ∅ →
  coordinated r st'.
Proof.
  intros Hres Hw Hquiet Hc Hh Hprom Hacts Hom' Hcm' Hh'.
  pose proof (quiet_181 st r Hw Hquiet Hc) as Q181.
  pose proof (quiet_503 st r Hquiet Hc) as Q503.
  pose proof (quiet_151 st r Hquiet Hc) as Q151.
  set (n := length (promises (adaptor st))) in *.
  assert (openOperationPromise (deviceStates (adaptor st) r) = None) as Hom.
  { destruct (openOperationPromise (deviceStates (adaptor st) r))
      as [q|] eqn:Hq; [|done].
    by destruct (coordinated_openOperationPromise _ _ Hc q Hq). }
  assert (closeOperationPromise (deviceStates (adaptor st) r) = None) as Hcm.
  { destruct (closeOperationPromise (deviceStates (adaptor st) r))
      as [q|] eqn:Hq; [|done].
    by destruct (coordinated_closeOperationPromise _ _ Hc q Hq). }
  assert (∀ t a, suspendedAt (adaptor st') t a →
                 suspendedAt (adaptor st) t a
                 ∨ (a = {| awaiting := S n;
                           continuation := CloseDeviceHandle_181 r;
                           result := n |}
                    ∧ t = length (activations (adaptor st))))
    as Hold.
  { intros t a [Ha|(i & Hi & Ht)]%(calling_suspendedAt st st' [_] Hacts);
      [by left|right].
    destruct i; [|done]. split; [by injection Hi|lia]. }
  assert (isPending (adaptor st') (S n)) as Hfresh.
  { exists (pending (WebusbClose d)). split; [|done].
    rewrite Hprom, lookup_app_r by (unfold n; lia).
    by replace (S n - length (promises (adaptor st))) with 1
      by (unfold n; lia). }
  assert (∀ t a, suspendedAt (adaptor st) t a →
                 continuation a ≠ CloseDeviceHandle_181 r) as Hno181.
  { intros t a Ha Hk. destruct (Q181 t a Ha Hk) as [Hq _].
    by rewrite Hcm in Hq. }
  apply coordinated_quiet; rewrite ?Hom', ?Hcm', ?Hh', ?Hom.
  - intros t a [Ha|[-> _]]%Hold Hk; [by destruct (Hno181 t a)|done].
  - intros t t' a a' [Ha|[-> ->]]%Hold [Ha'|[-> ->]]%Hold Hk Hk'; try done.
    + by destruct (Hno181 t a).
    + by destruct (Hno181 t a).
    + by destruct (Hno181 t' a').
  - intros t a [Ha|[-> _]]%Hold Hk; [|done].
    destruct (Q503 t a Ha Hk) as [Hq _]. by rewrite Hom in Hq.
  - intros t a [Ha|[-> _]]%Hold Hk; [|done].
    destruct (Q151 t a Ha Hk) as [_ Hq]. by rewrite Hom in Hq.
  - done.
  - done.
  - intros pc [= <-]. split; [done|]. eexists _, _.
    split; [by apply (calling_new st st' [_] Hacts 0)|done].
  - done.
Qed.

(** **** Steps that run no code of the adaptor *)

Lemma coordinated_same_adaptor r st st' :
  adaptor st' = adaptor st →
  (∀ t, urgent t (jobs st) → urgent t (jobs st')) →
  coordinated r st → coordinated r st'.
Proof.
  intros Heq Hurg Hc. split; rewrite ?Heq.
  - intros t a Ha Hk. destruct (coordinated_181 _ _ Hc t a Ha Hk) as [Hm Hu].
    split; [done|]. intros Hs. by apply Hurg, Hu.
  - apply (coordinated_181_one _ _ Hc).
  - intros t a Ha Hk.
    destruct (coordinated_503 _ _ Hc t a Ha Hk) as [Hq Hcase].
    split; [done|]. destruct Hcase as [?|(Hf & Hu & Hm)]; [by left|right].
    split; [done|]. split; [by apply Hurg|done].
  - intros t a Ha Hk.
    destruct (coordinated_151 _ _ Hc t a Ha Hk) as [?|[Hs Hu]];
      [by left|right].
    split; [done|by apply Hurg].
  - apply (coordinated_151_same _ _ Hc).
  - apply (coordinated_151_fulfilled _ _ Hc).
  - apply (coordinated_openOperationPromise _ _ Hc).
  - apply (coordinated_505 _ _ Hc).
  - apply (coordinated_closeOperationPromise _ _ Hc).
  - apply (coordinated_owner _ _ Hc).
Qed.

(** WebUSB settles one of its promises: what waited for it is due. *)
Lemma coordinated_settle r st st' p pr x :
  awaitsWf (adaptor st) → coordinated r st →
  jobs st = [] →
  promises (adaptor st) !! p = Some pr → settled pr = None →
  origin pr ≠ AsyncFunction →
  adaptor st' = settle p x (adaptor st) →
  jobs st' = Reaction <$> becameReady (adaptor st) (adaptor st') →
  ¬ closeFailed r (adaptor st') →
  coordinated r st'.
Proof.
  intros Hw Hc Hq Hp Hn Ho Heq Hq' Hnf.
  assert (∀ t, ¬ urgent t (jobs st)) as Hquiet.
  { intros t. rewrite Hq. apply urgent_nil. }
  pose proof (quiet_181 st r Hw Hquiet Hc) as Q181.
  pose proof (quiet_503 st r Hquiet Hc) as Q503.
  pose proof (quiet_151 st r Hquiet Hc) as Q151.
  assert (∀ t a, suspendedAt (adaptor st') t a ↔ suspendedAt (adaptor st) t a)
    as Hsame.
  { intros t a. by rewrite Heq. }
  assert (deviceStates (adaptor st') = deviceStates (adaptor st)) as Hobj.
  { by rewrite Heq. }
  assert (∀ q, q ≠ p →
               promises (adaptor st') !! q = promises (adaptor st) !! q)
    as Hother.
  { intros q Hne. by rewrite Heq, lookup_settle, decide_False. }
  assert (promises (adaptor st') !! p
          = Some {| origin := origin pr; settled := Some x |}) as Hp'.
  { by rewrite Heq, lookup_settle, decide_True, Hp; [cbn; rewrite Hn|]. }
  assert (∀ q, isSettled q (adaptor st) = true →
               isSettled q (adaptor st') = true) as Hmono.
  { intros q Hs. rewrite <- Hs. apply isSettled_ext. apply Hother.
    intros ->. by rewrite (isSettled_lookup _ _ _ Hp), Hn in Hs. }
  assert (∀ t a, suspendedAt (adaptor st) t a →
                 isPending (adaptor st) (awaiting a) →
                 isSettled (awaiting a) (adaptor st') = true →
                 awaiting a = p ∧ urgent t (jobs st')) as Hdue.
  { intros t a Ha Hpend Hs.
    assert (awaiting a = p) as Haw.
    { destruct (decide (awaiting a = p)) as [|Hne]; [done|].
      rewrite (isSettled_ext _ _ _ (Hother _ Hne)) in Hs.
      by rewrite (isPending_isSettled _ _ Hpend) in Hs. }
    split; [done|]. rewrite Hq', <- (app_nil_r (_ <$> _)).
    apply urgent_new_nil, elem_of_becameReady. split.
    - apply ready_true. exists a. split; [by apply Hsame|done].
    - unfold ready. unfold suspendedAt in Ha. rewrite Ha.
      by apply isPending_isSettled. }
  assert (∀ t a, suspendedAt (adaptor st) t a →
                 continuation a = OpenDeviceHandle_151 r →
                 isPending (adaptor st') (awaiting a)) as H151.
  { intros t a Ha Hk. destruct (Q151 t a Ha Hk) as [Hpend _].
    apply (isPending_ext _ (adaptor st)); [|done]. apply Hother.
    intros Haw. destruct (awaits_origin _ Hw t a Ha) as (pr' & Hpr' & Ho').
    rewrite Hk in Ho'. cbn [awaitedOrigin] in Ho'.
    rewrite Haw, Hp in Hpr'. injection Hpr' as <-. done. }
  split; rewrite ?Hobj.
  - intros t a Ha%Hsame Hk. destruct (Q181 t a Ha Hk) as [Hm Hpend].
    split; [done|]. intros Hs. by destruct (Hdue t a Ha Hpend Hs).
  - intros t t' a a' Ha%Hsame Ha'%Hsame.
    by apply (coordinated_181_one _ _ Hc t t' a a').
  - intros t a Ha%Hsame Hk. destruct (Q503 t a Ha Hk) as (Hom & Hm & Hpend).
    split; [done|].
    destruct (isSettled (awaiting a) (adaptor st')) eqn:Hs.
    + destruct (Hdue t a Ha Hpend Hs) as [Haw Hu]. right.
      split; [|split; [done|by right]].
      rewrite Haw. destruct x as [v|e]; [by eexists _, v|].
      exfalso. apply Hnf. eexists p, _, e. rewrite Hobj, Hm, Haw.
      by split; [|split].
    + left. split; [done|].
      apply isSettled_false in Hs as [Hnone|Hs]; [|done].
      destruct Hpend as (pr' & Hpr' & _).
      destruct (decide (awaiting a = p)) as [Haw|Hne].
      * by rewrite Haw, Hp' in Hnone.
      * by rewrite (Hother _ Hne), Hpr' in Hnone.
  - intros t a Ha%Hsame Hk. left. split; [by apply (H151 t a)|].
    by destruct (Q151 t a Ha Hk).
  - intros t t' a a' Ha%Hsame Ha'%Hsame.
    by apply (coordinated_151_same _ _ Hc t t' a a').
  - intros t a Ha%Hsame Hk Hf. exfalso.
    pose proof (H151 t a Ha Hk) as Hpend%isPending_isSettled.
    by rewrite (isFulfilled_isSettled _ _ Hf) in Hpend.
  - intros q Hm.
    destruct (coordinated_openOperationPromise _ _ Hc q Hm)
      as (He & t & a & Ha & Hk & Haw).
    split; [done|]. exists t, a. by split; [apply Hsame|].
  - intros t a Ha%Hsame Hk Hm.
    destruct (coordinated_505 _ _ Hc t a Ha Hk Hm) as [Hno Hpc].
    split.
    + intros t' a' Ha'%Hsame. by apply (Hno t' a').
    + intros pc Hpc'. by apply Hmono, Hpc.
  - intros pc Hm.
    destruct (coordinated_closeOperationPromise _ _ Hc pc Hm)
      as (He & t & a & Ha & Hk & Haw).
    split; [done|]. exists t, a. by split; [apply Hsame|].
  - intros q t a Hm Ha%Hsame. by apply (coordinated_owner _ _ Hc q t a).
Qed.

End CoordinatedFacts.

(* ===================================================================== *)
(** ** The order of the runtime: every turn *)
(* ===================================================================== *)

Import Js.

Module ScheduledFacts.
Import Descriptor Adaptor DescriptorFacts RegistryFacts AdaptorFacts
  FailedCloseFacts ResultsFacts JobsFacts ContinuationFacts CoordinatedFacts.

(** **** The steps behind a turn *)

Lemma step_Resume_inv t s s' :
  step (Resume t) s = Some s' →
  ∃ a pr x,
    suspendedAt s t a ∧ promises s !! awaiting a = Some pr
    ∧ settled pr = Some x
    ∧ resume (continuation a) x (result a)
        (setActivations (<[t := None]> (activations s)) s) = Some s'.
Proof.
  cbn [step]. unfold suspendedAt.
  destruct (activations s !! t) as [[a|]|] eqn:Ha; [|done..].
  cbn [mjoin option_join mbind option_bind].
  destruct (promises s !! awaiting a) as [pr|] eqn:Hpr; [|done].
  cbn [mbind option_bind].
  destruct (settled pr) as [x|] eqn:Hx; [|done].
  cbn [mbind option_bind]. intros Hr. by exists a, pr, x.
Qed.

Lemma step_Settle_inv p x s s' :
  step (Settle p x) s = Some s' →
  ∃ pr, promises s !! p = Some pr ∧ settled pr = None
        ∧ origin pr ≠ AsyncFunction ∧ s' = settle p x s.
Proof.
  cbn [step]. destruct (promises s !! p) as [pr|] eqn:Hpr; [|done].
  cbn [mbind option_bind].
  destruct (settled pr) eqn:Hs; [done|].
  destruct (webusbSettles (origin pr) x) eqn:Hweb; [|done].
  intros [= <-]. exists pr. split; [done|]. split; [done|].
  split; [|done]. intros Ho. by rewrite Ho in Hweb.
Qed.

(** **** WebUSB settles a promise *)

Section settling.
Unset Default Proof Using.
Context (p : nat) (pr : Promise) (x : Awaited Value) (s : State).
Context (Hp : promises s !! p = Some pr) (Hn : settled pr = None).
Context (Ho : origin pr ≠ AsyncFunction).

Lemma settling_other q :
  q ≠ p → promises (settle p x s) !! q = promises s !! q.
Proof. intros Hne. by rewrite lookup_settle, decide_False. Qed.

Lemma settling_this :
  promises (settle p x s) !! p
  = Some {| origin := origin pr; settled := Some x |}.
Proof.
  rewrite lookup_settle, decide_True, Hp by done.
  cbn [fmap option_fmap option_map]. by rewrite Hn.
Qed.

Lemma settling_origin q pr' :
  promises s !! q = Some pr' →
  ∃ pr2, promises (settle p x s) !! q = Some pr2
         ∧ origin pr2 = origin pr'
         ∧ (origin pr' = AsyncFunction → pr2 = pr').
Proof.
  intros Hq. destruct (decide (q = p)) as [->|Hne].
  - rewrite settling_this. eexists. split; [done|].
    rewrite Hp in Hq. injection Hq as <-. split; [done|]. by intros ?.
  - rewrite settling_other by done. by exists pr'.
Qed.

Lemma settling_settled q :
  isSettled q s = true → isSettled q (settle p x s) = true.
Proof.
  intros Hs. rewrite <- Hs. apply isSettled_ext, settling_other.
  intros ->. by rewrite (isSettled_lookup _ _ _ Hp), Hn in Hs.
Qed.

Lemma awaitsWf_settle : awaitsWf s → awaitsWf (settle p x s).
Proof.
  intros Hw. split.
  - intros t a Ha. destruct (awaits_origin _ Hw t a Ha) as (pr' & Hpr' & Ho').
    destruct (settling_origin _ _ Hpr') as (pr2 & Hpr2 & Heq & _).
    exists pr2. by rewrite Heq.
  - apply (awaits_object _ Hw).
  - intros r q Hq.
    destruct (awaits_openOperationPromise _ Hw r q Hq)
      as (Hr & pr' & Hpr' & Ho').
    split; [done|].
    destruct (settling_origin _ _ Hpr') as (pr2 & Hpr2 & Heq & _).
    exists pr2. by rewrite Heq.
  - intros r q Hq.
    destruct (awaits_closeOperationPromise _ Hw r q Hq)
      as (Hr & pr' & d & Hpr' & Ho').
    split; [done|].
    destruct (settling_origin _ _ Hpr') as (pr2 & Hpr2 & Heq & _).
    exists pr2, d. by rewrite Heq.
  - apply (awaits_open_alone _ Hw).
Qed.

Lemma resultsOwned_settle : resultsOwned s → resultsOwned (settle p x s).
Proof.
  intros Hown q Hq. apply Hown.
  destruct (decide (q = p)) as [->|Hne].
  - rewrite settling_this in Hq. by injection Hq.
  - by rewrite settling_other in Hq.
Qed.

End settling.

(** **** The queue *)

Lemma NoDup_singleton_eq {A} (l : list A) (a : A) :
  NoDup l → a ∈ l → (∀ b, b ∈ l → b = a) → l = [a].
Proof.
  destruct l as [|b l]; [by intros _ ?%elem_of_nil|].
  intros Hnd _ Hall.
  assert (b = a) as -> by (apply Hall; left).
  destruct l as [|c l]; [done|]. exfalso.
  assert (c = a) as -> by (apply Hall; right; left).
  apply NoDup_cons in Hnd as [Hnin _]. apply Hnin. left.
Qed.

Lemma NoDup_becameReady s s' : NoDup (becameReady s s').
Proof. unfold becameReady. apply NoDup_filter, NoDup_seq. Qed.

(** The reactions that a step queues are those of the activations that are
    ready after it and were not before. *)
Lemma queued_after (q q' : list Job) s s' :
  (∀ t, ready t s = true → Reaction t ∈ q) →
  (∀ t, ready t s' = true → ready t s = true → Reaction t ∈ q') →
  (∀ t, t ∈ becameReady s s' → Reaction t ∈ q') →
  ∀ t, ready t s' = true → Reaction t ∈ q'.
Proof.
  intros Hq Hold Hnew t Ht. destruct (ready t s) eqn:Hs; [by apply Hold|].
  apply Hnew, elem_of_becameReady. by split.
Qed.

(** **** Code of the adaptor and [open()] *)

(** No code of the adaptor makes a pending [open()] ready. *)
Lemma delta_open_ready fin acting s s' t a :
  delta fin acting s s' → resultsWf s → awaitsWf s →
  suspendedAt s' t a → continuation a = OpenWebusbDevice_505 →
  isSettled (awaiting a) s' = true →
  suspendedAt s t a ∧ (∀ t0 a0, fin = Some (t0, a0) → t ≠ t0)
  ∧ isSettled (awaiting a) s = true.
Proof.
  intros Hd Hres Hw Ha Hk Hs.
  destruct (delta_activations _ _ _ _ Hd) as (news & Hacts & Hnews & _).
  destruct (delta_suspendedAt fin s s' news t a Hacts Ha)
    as [[Hold Hne]|(i & Hi & _)].
  - split; [done|]. split; [done|].
    destruct (awaits_origin _ Hw t a Hold) as (pr & Hpr & Ho).
    rewrite Hk in Ho. cbn [awaitedOrigin] in Ho. destruct Ho as [d Ho].
    rewrite <- Hs. symmetry. apply isSettled_ext.
    rewrite Hpr. apply (delta_promise_same fin acting s); try done.
    left. intros ->. done.
  - exfalso. apply list_elem_of_lookup_2 in Hi.
    destruct (Hnews a Hi)
      as (_ & _ & [(_ & pr & Hpr & Hn & _)|[(r & Hk' & _)|(r & Hk' & _)]]).
    + by rewrite (isSettled_lookup _ _ _ Hpr), Hn in Hs.
    + by rewrite Hk in Hk'.
    + by rewrite Hk in Hk'.
Qed.

(** The activation that continues is gone. *)
Lemma delta_finished t0 a0 acting s s' :
  delta (Some (t0, a0)) acting s s' → ready t0 s' = false.
Proof.
  intros Hd.
  pose proof (delta_fin _ _ _ _ Hd t0 a0 eq_refl) as Ha0.
  destruct (delta_activations _ _ _ _ Hd) as (news & Hacts & _).
  unfold ready. rewrite Hacts, lookup_app_l.
  - by rewrite list_lookup_insert_eq
      by (by apply lookup_lt_Some in Ha0).
  - rewrite length_insert. by apply lookup_lt_Some in Ha0.
Qed.

(** **** A [close()] fails *)

Lemma failedClose_enters r p pr e st :
  resultsWf (adaptor st) → awaitsWf (adaptor st) → coordinated r st →
  jobs st = [] →
  closeOperationPromise (deviceStates (adaptor st) r) = Some p →
  promises (adaptor st) !! p = Some pr → settled pr = None →
  origin pr ≠ AsyncFunction →
  failedClose r p e (settle p (Rejected e) (adaptor st)).
Proof.
  intros Hres Hw Hc Hq Hm Hp Hn Ho.
  assert (∀ t, ¬ urgent t (jobs st)) as Hquiet.
  { intros t. rewrite Hq. apply urgent_nil. }
  pose proof (quiet_181 st r Hw Hquiet Hc) as Q181.
  pose proof (quiet_503 st r Hquiet Hc) as Q503.
  pose proof (quiet_151 st r Hquiet Hc) as Q151.
  destruct (awaits_closeOperationPromise _ Hw r p Hm) as [Hr _].
  destruct (coordinated_closeOperationPromise _ _ Hc p Hm) as [He _].
  split; try done.
  - eexists. split; [by apply settling_this|done].
  - intros t a Ha. rewrite length_settle. eapply lookup_lt_Some.
    by apply (resultsWf_pending _ Hres t).
  - intros t a Ha [Hk|Hk].
    + destruct (Q503 t a Ha Hk) as (_ & Hm' & _). rewrite Hm in Hm'.
      by injection Hm'.
    + destruct (Q181 t a Ha Hk) as (Hm' & _). rewrite Hm in Hm'.
      by injection Hm'.
  - intros q Hq'.
    assert (openOperationPromise (deviceStates (adaptor st) r) = Some q)
      as Hom.
    { destruct Hq' as [Hq'|(t & a & Ha & Hk & <-)]; [done|].
      by destruct (Q151 t a Ha Hk). }
    destruct (coordinated_openOperationPromise _ _ Hc q Hom)
      as (_ & t1 & a1 & Ha1 & Hk1 & Haw1).
    destruct (Q151 t1 a1 Ha1 Hk1) as [(pr1 & Hpr1 & Hn1) _].
    destruct (awaits_origin _ Hw t1 a1 Ha1) as (pr1' & Hpr1' & Ho1).
    rewrite Hpr1 in Hpr1'. injection Hpr1' as <-.
    rewrite Hk1 in Ho1. cbn [awaitedOrigin] in Ho1. rewrite Haw1 in Hpr1.
    split.
    + exists pr1. split; [|split; [done|by left]].
      rewrite settling_other; [done|]. intros ->.
      rewrite Hp in Hpr1. injection Hpr1 as ->. done.
    + intros t a Ha Hr'.
      destruct (coordinated_owner _ _ Hc q t a Hom Ha Hr') as [Hk|Hk];
        [done|]. exfalso. rewrite <- Hr' in Hom.
      destruct (coordinated_505 _ _ Hc t a Ha Hk Hom) as [_ Hpc].
      pose proof (Hpc p Hm) as Hs.
      by rewrite (isSettled_lookup _ _ _ Hp), Hn in Hs.
Qed.

Lemma closeFailed_failedClose st r :
  jobsInv st → closeFailed r (adaptor st) →
  ∃ p e, failedClose r p e (adaptor st).
Proof.
  intros Hinv (p & pr & e & Hm & Hp & He). exists p, e.
  by apply (jobsInv_failed _ Hinv r p pr e).
Qed.

Lemma failedClose_closeFailed r p e s :
  failedClose r p e s → closeFailed r s.
Proof.
  intros Hf. destruct (failedClose_rejected _ _ _ _ Hf) as (pr & Hp & He).
  exists p, pr, e. split; [|done]. by apply (failedClose_marker _ _ _ _ Hf).
Qed.

Lemma closeFailed_step st l s' r :
  jobsInv st → closeFailed r (adaptor st) →
  step l (adaptor st) = Some s' → closeFailed r s'.
Proof.
  intros Hinv Hcf Hstep.
  destruct (closeFailed_failedClose st r Hinv Hcf) as (p & e & Hf).
  apply (failedClose_closeFailed r p e).
  by apply (failedClose_step _ _ _ l (adaptor st)).
Qed.

(** A marker that holds a rejected promise held it, rejected, before the
    code ran. *)
Lemma delta_failed fin acting st s' l r p pr e :
  jobsInv st → delta fin acting (adaptor st) s' →
  step l (adaptor st) = Some s' →
  closeOperationPromise (deviceStates s' r) = Some p →
  promises s' !! p = Some pr → settled pr = Some (Rejected e) →
  failedClose r p e s'.
Proof.
  intros Hinv Hd Hstep Hm Hp He.
  pose proof (reachable_resultsWf _ (jobsInv_reachable _ Hinv)) as Hres.
  destruct (delta_closeOperationPromise _ _ _ _ Hd r p Hm)
    as [_ [Hold|(_ & d & Hpr)]].
  - destruct (awaits_closeOperationPromise _ (jobsInv_awaits _ Hinv) r p Hold)
      as (_ & pr0 & d & Hpr0 & Ho0).
    assert (promises s' !! p = Some pr0) as Hsame.
    { apply (delta_promise_same fin acting (adaptor st)); try done.
      left. intros ->. done. }
    rewrite Hp in Hsame. injection Hsame as <-.
    apply (failedClose_step _ _ _ l (adaptor st)); [|done].
    by apply (jobsInv_failed _ Hinv r p pr e).
  - rewrite Hp in Hpr. injection Hpr as ->. done.
Qed.

(** **** The calls *)

Lemma coordinated_call st st' req r :
  jobsInv st → (∀ t, ¬ urgent t (jobs st)) →
  adaptor st' = call req (adaptor st) →
  coordinated r st → coordinated r st'.
Proof.
  intros Hinv Hquiet Heq Hc.
  pose proof (reachable_resultsWf _ (jobsInv_reachable _ Hinv)) as Hres.
  pose proof (reachable_registryWf _ (jobsInv_reachable _ Hinv)) as Hreg.
  pose proof (jobsInv_awaits _ Hinv) as Hw.
  assert (¬ callActs req (adaptor st) r → coordinated r st') as Hframe.
  { intros Hno.
    apply (coordinated_frame None (callActs req (adaptor st)) st st' r);
      try done.
    - rewrite Heq. by apply delta_call.
    - intros t Hu. by destruct (Hquiet t). }
  destruct req as [|deviceId|deviceId|deviceId h|deviceId h i|deviceId h i
                  |deviceId h|deviceId h ps|deviceId h ps|deviceId h ps];
    try (apply Hframe; intros (deviceId' & _ & [[? _]|(h' & ? & _)]); done).
  - destruct (Map_get (idToDeviceMap_ (adaptor st)) deviceId) as [r0|]
      eqn:Hid; cycle 1.
    { apply Hframe. intros (d' & Hid' & [[Hreq _]|(? & ? & _)]); [|done].
      injection Hreq as <-. by rewrite Hid in Hid'. }
    destruct (decide (r0 = r)) as [->|Hne]; cycle 1.
    { apply Hframe. intros (d' & Hid' & [[Hreq _]|(? & ? & _)]); [|done].
      injection Hreq as <-. rewrite Hid in Hid'. by injection Hid'. }
    destruct (decide (handles (deviceStates (adaptor st) r) = ∅))
      as [Hh|Hh]; cycle 1.
    { apply Hframe. by intros (d' & Hid' & [[_ ?]|(? & ? & _)]). }
    cbn [call] in Heq.
    destruct (openOperationPromise (deviceStates (adaptor st) r)) as [q|]
      eqn:Hom.
    + destruct (openDeviceHandle_joins deviceId r q _ Hid Hh Hom)
        as (Hp & Ha & Hd & _).
      apply (coordinated_open_joins st st' r q); rewrite ?Heq; done.
    + destruct (closeOperationPromise (deviceStates (adaptor st) r))
        as [pc|] eqn:Hcm.
      * destruct (openDeviceHandle_awaits_marker deviceId r pc _
                    Hid Hh Hom Hcm) as (Hp & Ha & Hd & _).
        eapply (coordinated_open_starts st st' r _ [] Hres Hw Hquiet Hc
                  Hom Hh); rewrite ?Heq;
          [exact Hp|exact Ha|done|by left
          |by rewrite Hd, fn_lookup_insert].
      * destruct (openDeviceHandle_first deviceId r _ Hid Hh Hom Hcm)
          as (Hp & Ha & Hd & _).
        eapply (coordinated_open_starts st st' r _ [_] Hres Hw Hquiet Hc
                  Hom Hh); rewrite ?Heq;
          [exact Hp|exact Ha|done|by right
          |by rewrite Hd, fn_lookup_insert].
  - destruct (Map_get (idToDeviceMap_ (adaptor st)) deviceId) as [r0|]
      eqn:Hid; cycle 1.
    { apply Hframe. intros (d' & Hid' & [[? _]|(h' & Hreq & _)]); [done|].
      injection Hreq as <- <-. by rewrite Hid in Hid'. }
    destruct (decide (r0 = r)) as [->|Hne]; cycle 1.
    { apply Hframe. intros (d' & Hid' & [[? _]|(h' & Hreq & _)]); [done|].
      injection Hreq as <- <-. rewrite Hid in Hid'. by injection Hid'. }
    destruct (decide (handles (deviceStates (adaptor st) r) = {[h]}))
      as [Hh|Hh]; cycle 1.
    { apply Hframe. intros (d' & Hid' & [[? _]|(h' & Hreq & ?)]); [done|].
      by injection Hreq as <- <-. }
    cbn [call] in Heq.
    destruct (closeDeviceHandle_last deviceId h r _ Hid Hh)
      as (Hp & Ha & Hh' & Hcm' & Hom').
    eapply (coordinated_close_last st st' r); rewrite ?Heq; try done.
    rewrite Hh. intros He. assert (h ∈ (∅ : gset nat)) as Hin.
    { rewrite <- He. by apply elem_of_singleton. }
    by apply not_elem_of_empty in Hin.
Qed.

(** **** The continuations *)

Lemma coordinated_resume st st' t0 q0 q1 r :
  jobsInv st → jobs st = Reaction t0 :: q0 →
  step (Resume t0) (adaptor st) = Some (adaptor st') →
  jobs st' = q0 ++ (Reaction <$> becameReady (adaptor st) (adaptor st')) ++ q1 →
  ¬ closeFailed r (adaptor st) →
  coordinated r st → coordinated r st'.
Proof.
  intros Hinv Hq Hstep Hq' Hnf Hc.
  pose proof (reachable_resultsWf _ (jobsInv_reachable _ Hinv)) as Hres.
  pose proof (jobsInv_awaits _ Hinv) as Hw.
  destruct (step_Resume_inv _ _ _ Hstep) as (a0 & pr & x & Ha0 & Hpr & Hx & Hr).
  pose proof (delta_resume t0 a0 x _ _ Hres Hw Ha0 Hr) as Hd.
  assert (isSettled (awaiting a0) (adaptor st) = true) as Hs0.
  { by rewrite (isSettled_lookup _ _ _ Hpr), Hx. }
  assert (∀ t, urgent t (jobs st) → t ≠ t0 → urgent t (jobs st')) as Hurg.
  { intros t Hu Hne. rewrite Hq'. apply urgent_app.
    rewrite Hq in Hu. by apply (urgent_tail t t0). }
  assert (¬ concerns (continuation a0) r →
          openOperationPromise (deviceStates (adaptor st) r)
          ≠ Some (result a0) →
          coordinated r st') as Hframe.
  { intros Hno Hom.
    apply (coordinated_frame (Some (t0, a0)) (concerns (continuation a0))
             st st' r); try done.
    - by intros ? ? [= <- <-].
    - intros t Hu Hne. apply Hurg; [done|]. by apply (Hne t0 a0). }
  assert (continuation a0 ≠ OpenWebusbDevice_503 r →
          continuation a0 ≠ OpenWebusbDevice_505 →
          openOperationPromise (deviceStates (adaptor st) r)
          ≠ Some (result a0)) as Hown.
  { intros H1 H2 Hom.
    by destruct (coordinated_owner _ _ Hc _ t0 a0 Hom Ha0 eq_refl). }
  destruct a0 as [aw k res]. cbn [continuation awaiting result] in *.
  destruct k;
    try (apply Hframe; [unfold concerns; by intros [?|[?|?]]|by apply Hown]).
  - (* line 151 *)
    destruct (decide (deviceState = r)) as [->|Hne]; cycle 1.
    { apply Hframe; [|by apply Hown].
      unfold concerns. intros [?|[?|?]]; by simplify_eq. }
    cbn [resume] in Hr. unfold openDeviceHandle_newHandle in Hr.
    assert (∀ y s1,
              promises s1 = promises (adaptor st) →
              activations s1 = <[t0 := None]> (activations (adaptor st)) →
              openOperationPromise (deviceStates s1 r) = None →
              closeOperationPromise (deviceStates s1 r)
              = closeOperationPromise (deviceStates (adaptor st) r) →
              (¬ isFulfilled (adaptor st) aw →
               handles (deviceStates s1 r)
               = handles (deviceStates (adaptor st) r)) →
              settle res y s1 = adaptor st' → coordinated r st') as Hgen.
    { intros y s1 Hp1 Ha1 Hom1 Hcm1 Hh1 Heq.
      apply (coordinated_resume_151 st st' r t0 _ y Hres Hw Hc Ha0);
        rewrite <- ?Heq; try done.
      by apply promises_settle_ext. }
    destruct x as [v|e]; injection Hr as Hr.
    + apply (Hgen _ _) with (6 := Hr); simp_state; try done.
      * rewrite !fn_lookup_insert. by simp_state.
      * rewrite !fn_lookup_insert. by simp_state.
      * intros Hno. destruct Hno. by exists pr, v.
    + apply (Hgen _ _) with (6 := Hr); simp_state; try done.
      * rewrite !fn_lookup_insert. by simp_state.
      * rewrite !fn_lookup_insert. by simp_state.
      * intros _. rewrite !fn_lookup_insert. by simp_state.
  - (* line 181 *)
    destruct (decide (deviceState = r)) as [->|Hne]; cycle 1.
    { apply Hframe; [|by apply Hown].
      unfold concerns. intros [?|[?|?]]; by simplify_eq. }
    destruct (coordinated_181 _ _ Hc t0 _ Ha0 eq_refl) as [Hm _].
    cbn [awaiting] in Hm.
    destruct x as [v|e]; cycle 1.
    { destruct Hnf. by exists aw, pr, e. }
    cbn [resume] in Hr. injection Hr as Hr.
    apply (coordinated_resume_181 st st' r t0 _ (Fulfilled Undefined)
             Hres Hw Hc Ha0); rewrite <- ?Hr;
      [done|by apply promises_settle_ext|done|done|by exists pr, v|..];
      rewrite deviceStates_settle; simp_state;
      rewrite !fn_lookup_insert; by simp_state.
  - (* line 503 *)
    destruct (decide (deviceState = r)) as [->|Hne]; cycle 1.
    { apply Hframe; [unfold concerns; intros [?|[?|?]]; by simplify_eq|].
      intros Hom.
      destruct (coordinated_owner _ _ Hc _ t0 _ Hom Ha0 eq_refl) as [Hk|Hk];
        cbn [continuation] in Hk; by simplify_eq. }
    destruct (coordinated_503 _ _ Hc t0 _ Ha0 eq_refl)
      as [_ [[_ Hpend]|((pr' & v & Hpr' & Hv) & _)]].
    { cbn [awaiting] in Hpend.
      by rewrite (isPending_isSettled _ _ Hpend) in Hs0. }
    cbn [awaiting] in Hpr'. rewrite Hpr in Hpr'. injection Hpr' as <-.
    rewrite Hx in Hv. injection Hv as ->.
    cbn [resume] in Hr. unfold openWebusbDevice_open in Hr.
    injection Hr as Hr.
    by apply (coordinated_resume_503 st st' r t0 _
                (webusbDevice (deviceStates (adaptor st) r))
                Hres Hw Hc Ha0); rewrite <- ?Hr.
  - (* line 505 *)
    destruct (decide (openOperationPromise (deviceStates (adaptor st) r)
                      = Some res)) as [Hom|Hom]; cycle 1.
    { apply Hframe; [unfold concerns; by intros [?|[?|?]]|done]. }
    pose proof (jobsInv_open_alone _ Hinv t0 _ Ha0 eq_refl Hs0) as Hone.
    rewrite Hq in Hone. injection Hone as ->.
    cbn [resume] in Hr.
    assert (∃ y, settle res y
                   (setActivations (<[t0 := None]> (activations (adaptor st)))
                      (adaptor st)) = adaptor st') as [y Hy].
    { destruct x as [v|e]; injection Hr as Hr; by eexists. }
    apply (coordinated_resume_505 st st' r t0 _ y Hres Hc Ha0) with (q' := q1);
      rewrite <- ?Hy; try done.
    by rewrite Hy.
Qed.

(** **** Every turn keeps the invariant *)

Lemma constructor_suspendedAt usb' t a :
  ¬ suspendedAt (constructor usb') t a.
Proof. intros Ha%lookup_lt_Some. cbn in Ha. lia. Qed.

Lemma jobsInv_constructor usb' :
  jobsInv {| adaptor := constructor usb'; jobs := [] |}.
Proof.
  split; cbn [adaptor jobs].
  - constructor.
  - split; try done; intros t; intros;
      by destruct (constructor_suspendedAt usb' t a).
  - intros q Hq%lookup_lt_Some. cbn in Hq. lia.
  - intros t a Ha. by destruct (constructor_suspendedAt usb' t a).
  - intros t Ht%ready_lt. cbn in Ht. lia.
  - done.
  - intros r _. split; cbn [adaptor jobs]; try done; intros t; intros;
      by destruct (constructor_suspendedAt usb' t a).
Qed.

Lemma jobsInv_same st st' :
  jobsInv st → adaptor st' = adaptor st →
  (∀ t, jobs st ≠ [Reaction t]) →
  (∀ t, Reaction t ∈ jobs st → Reaction t ∈ jobs st') →
  (∀ t, ¬ urgent t (jobs st)) →
  jobsInv st'.
Proof.
  intros Hinv Heq Hone Hin Hquiet. split; rewrite ?Heq.
  - apply (jobsInv_reachable _ Hinv).
  - apply (jobsInv_awaits _ Hinv).
  - apply (jobsInv_owned _ Hinv).
  - intros t a Ha Hk Hs.
    by destruct (Hone t (jobsInv_open_alone _ Hinv t a Ha Hk Hs)).
  - intros t Ht. by apply Hin, (jobsInv_queued _ Hinv).
  - apply (jobsInv_failed _ Hinv).
  - intros r Hnf. apply (coordinated_same_adaptor r st); [done| |].
    + intros t Hu. by destruct (Hquiet t).
    + by apply (jobsInv_coordinated _ Hinv).
Qed.

Lemma jobsInv_code fin acting st st' l :
  jobsInv st → step l (adaptor st) = Some (adaptor st') →
  delta fin acting (adaptor st) (adaptor st') →
  (∀ t a, suspendedAt (adaptor st) t a →
          continuation a = OpenWebusbDevice_505 →
          isSettled (awaiting a) (adaptor st) = true →
          (∀ t0 a0, fin = Some (t0, a0) → t ≠ t0) → False) →
  (∀ t, ready t (adaptor st') = true → Reaction t ∈ jobs st') →
  (∀ r, ¬ closeFailed r (adaptor st) → coordinated r st →
        coordinated r st') →
  jobsInv st'.
Proof.
  intros Hinv Hstep Hd Hone Hqueued Hco.
  pose proof (reachable_resultsWf _ (jobsInv_reachable _ Hinv)) as Hres.
  pose proof (jobsInv_awaits _ Hinv) as Hw.
  split.
  - apply (reachable_step l (adaptor st)); [|done].
    apply (jobsInv_reachable _ Hinv).
  - by apply (delta_awaitsWf fin acting (adaptor st)).
  - apply (delta_resultsOwned fin acting (adaptor st)); try done.
    apply (jobsInv_owned _ Hinv).
  - intros t a Ha Hk Hs. exfalso.
    destruct (delta_open_ready fin acting _ _ t a Hd Hres Hw Ha Hk Hs)
      as (Hold & Hne & Hs').
    by apply (Hone t a).
  - done.
  - intros r p pr e. by apply (delta_failed fin acting st _ l).
  - intros r Hnf.
    assert (¬ closeFailed r (adaptor st)) as Hnf0.
    { intros Hcf. apply Hnf. by apply (closeFailed_step st l). }
    apply Hco; [done|]. by apply (jobsInv_coordinated _ Hinv).
Qed.

Lemma jobsInv_settle st st' p x :
  jobsInv st → jobs st = [] →
  step (Settle p x) (adaptor st) = Some (adaptor st') →
  jobs st' = Reaction <$> becameReady (adaptor st) (adaptor st') →
  jobsInv st'.
Proof.
  intros Hinv Hq Hstep Hq'.
  pose proof (reachable_resultsWf _ (jobsInv_reachable _ Hinv)) as Hres.
  pose proof (jobsInv_awaits _ Hinv) as Hw.
  destruct (step_Settle_inv _ _ _ _ Hstep) as (pr & Hp & Hn & Ho & Heq).
  assert (∀ t, ready t (adaptor st) = false) as Hnone.
  { intros t. destruct (ready t (adaptor st)) eqn:Ht; [|done].
    apply (jobsInv_queued _ Hinv) in Ht. rewrite Hq in Ht.
    by apply elem_of_nil in Ht. }
  assert (∀ t a, suspendedAt (adaptor st') t a →
                 isSettled (awaiting a) (adaptor st') = true →
                 suspendedAt (adaptor st) t a ∧ awaiting a = p
                 ∧ t ∈ becameReady (adaptor st) (adaptor st')) as Hdue.
  { intros t a Ha Hs.
    assert (suspendedAt (adaptor st) t a) as Ha0 by (by rewrite Heq in Ha).
    pose proof (Hnone t) as Hnot. unfold ready in Hnot.
    unfold suspendedAt in Ha0. rewrite Ha0 in Hnot.
    split; [done|]. split.
    - destruct (decide (awaiting a = p)) as [|Hne]; [done|].
      rewrite Heq, (isSettled_ext _ _ _ (settling_other p x _ _ Hne)) in Hs.
      by rewrite Hs in Hnot.
    - apply elem_of_becameReady. split; [|by apply Hnone].
      apply ready_true. by exists a. }
  split.
  - apply (reachable_step (Settle p x) (adaptor st)); [|done].
    apply (jobsInv_reachable _ Hinv).
  - rewrite Heq. by apply (awaitsWf_settle p pr).
  - rewrite Heq. apply (resultsOwned_settle p pr); try done.
    apply (jobsInv_owned _ Hinv).
  - intros t a Ha Hk Hs. rewrite Hq'.
    destruct (Hdue t a Ha Hs) as (Ha0 & Haw & Hin).
    assert (becameReady (adaptor st) (adaptor st') = [t]) as ->; [|done].
    apply NoDup_singleton_eq; [apply NoDup_becameReady|done|].
    intros t' [Ht' _]%elem_of_becameReady.
    apply ready_true in Ht' as (a' & Ha' & Hs').
    destruct (Hdue t' a' Ha' Hs') as (Ha0' & Haw' & _).
    symmetry. apply (awaits_open_alone _ Hw t t' a a'); try done.
    by rewrite Haw, Haw'.
  - intros t Ht. rewrite Hq'. apply list_elem_of_fmap. exists t.
    split; [done|]. apply elem_of_becameReady. by split.
  - intros r p' pr' e. rewrite Heq, deviceStates_settle.
    intros Hm Hp' He.
    destruct (decide (p' = p)) as [->|Hne].
    + rewrite (settling_this p pr x _ Hp Hn) in Hp'.
      injection Hp' as <-. cbn [settled] in He. injection He as ->.
      apply (failedClose_enters r p pr e st); try done.
      apply (jobsInv_coordinated _ Hinv).
      intros (p1 & pr1 & e1 & Hm1 & Hp1 & He1).
      rewrite Hm in Hm1. injection Hm1 as <-.
      rewrite Hp in Hp1. injection Hp1 as <-. by rewrite Hn in He1.
    + rewrite settling_other in Hp' by done.
      apply (failedClose_step _ _ _ (Settle p x) (adaptor st));
        [|by rewrite <- Heq].
      by apply (jobsInv_failed _ Hinv r p' pr' e).
  - intros r Hnf.
    assert (¬ closeFailed r (adaptor st)) as Hnf0.
    { intros Hcf. apply Hnf. by apply (closeFailed_step st (Settle p x)). }
    apply (coordinated_settle r st st' p pr x); try done.
    by apply (jobsInv_coordinated _ Hinv).
Qed.

Lemma jobsInv_turn l st st' :
  jobsInv st → turn l st = Some st' → jobsInv st'.
Proof.
  intros Hinv. unfold turn.
  pose proof (reachable_resultsWf _ (jobsInv_reachable _ Hinv)) as Hres.
  pose proof (reachable_registryWf _ (jobsInv_reachable _ Hinv)) as Hreg.
  pose proof (jobsInv_awaits _ Hinv) as Hw.
  destruct l as [p x| |req| | |callerReactions];
    destruct (jobs st) as [|[t0|] q0] eqn:Hq; try done.
  - destruct (step (Settle p x) (adaptor st)) as [s'|] eqn:Hstep; [|done].
    cbn [mbind option_bind]. intros [= <-].
    by apply (jobsInv_settle st _ p x).
  - intros [= <-]. apply (jobsInv_same st); try done.
    + intros t. by rewrite Hq.
    + intros t. rewrite Hq. by intros ?%elem_of_nil.
    + intros t. rewrite Hq. apply urgent_nil.
  - cbn [step mbind option_bind]. intros [= <-].
    assert (∀ t, ¬ urgent t (jobs st)) as Hquiet.
    { intros t. rewrite Hq. apply urgent_caller. }
    apply (jobsInv_code None (callActs req (adaptor st)) st _ (Call req));
      cbn [adaptor jobs]; try done.
    + by apply delta_call.
    + intros t a Ha Hk Hs _.
      pose proof (jobsInv_open_alone _ Hinv t a Ha Hk Hs) as Hone.
      by rewrite Hq in Hone.
    + apply (queued_after (jobs st) _ (adaptor st)).
      * apply (jobsInv_queued _ Hinv).
      * intros t _ Ht. rewrite app_comm_cons. apply elem_of_app. left.
        rewrite <- Hq. by apply (jobsInv_queued _ Hinv).
      * intros t Ht. rewrite app_comm_cons. apply elem_of_app. right.
        apply list_elem_of_fmap. by exists t.
    + intros r _ Hc. by apply (coordinated_call st _ req r).
  - intros [= <-]. apply (jobsInv_same st); try done.
    + intros t. by rewrite Hq.
    + intros t. rewrite Hq. intros Ht. cbn [jobs].
      rewrite app_comm_cons. apply elem_of_app. by left.
    + intros t. rewrite Hq. apply urgent_caller.
  - intros [= <-]. apply (jobsInv_same st); try done.
    + intros t. by rewrite Hq.
    + intros t. rewrite Hq. cbn [jobs].
      by intros [[=]|?]%elem_of_cons.
    + intros t. rewrite Hq. apply urgent_caller.
  - destruct (step (Resume t0) (adaptor st)) as [s'|] eqn:Hstep; [|done].
    cbn [mbind option_bind]. intros [= <-].
    destruct (step_Resume_inv _ _ _ Hstep)
      as (a0 & pr & x & Ha0 & Hpr & Hx & Hr).
    pose proof (delta_resume t0 a0 x _ _ Hres Hw Ha0 Hr) as Hd.
    apply (jobsInv_code (Some (t0, a0)) (concerns (continuation a0)) st _
             (Resume t0)); cbn [adaptor jobs]; try done.
    + intros t a Ha Hk Hs Hne.
      pose proof (jobsInv_open_alone _ Hinv t a Ha Hk Hs) as Hone.
      rewrite Hq in Hone. injection Hone as -> _. by apply (Hne t a0).
    + apply (queued_after (jobs st) _ (adaptor st)).
      * apply (jobsInv_queued _ Hinv).
      * intros t Ht' Ht. apply (jobsInv_queued _ Hinv) in Ht.
        rewrite Hq in Ht. apply elem_of_cons in Ht as [[= ->]|Ht].
        -- by rewrite (delta_finished _ _ _ _ _ Hd) in Ht'.
        -- apply elem_of_app. by left.
      * intros t Ht. apply elem_of_app. right. apply elem_of_app. left.
        apply list_elem_of_fmap. by exists t.
    + intros r Hnf Hc.
      by apply (coordinated_resume st _ t0 q0
                  (replicate callerReactions CallerJob) r).
Qed.

(** In every state that the runtime can bring the adaptor to. *)
Lemma scheduled_jobsInv st : scheduled st → jobsInv st.
Proof.
  induction 1 as [usb'|l st st' _ IH Hturn].
  - apply jobsInv_constructor.
  - by apply (jobsInv_turn l st).
Qed.

End ScheduledFacts.

(* ===================================================================== *)
(** ** openDeviceHandle after a close that failed *)
(* ===================================================================== *)

Import Js.

Module FailingFacts.
Import Descriptor Adaptor DescriptorFacts RegistryFacts AdaptorFacts
  FailedCloseFacts ResultsFacts JobsFacts ContinuationFacts CoordinatedFacts
  ScheduledFacts.

(** **** A call of [openDeviceHandle] on a device whose close failed *)

Lemma awaitsFailure_step l s s' r p e n :
  reachable s → awaitsWf s → failedClose r p e s → step l s = Some s' →
  awaitsFailure r e n s → awaitsFailure r e n s'.
Proof.
  intros Hs Hw Hf Hstep Hn.
  pose proof (reachable_resultsWf _ Hs) as Hres.
  pose proof (reachable_registryWf _ Hs) as Hreg.
  assert (∀ fin acting,
            delta fin acting s s' →
            (∀ t a, suspendedAt s t a →
                    continuation a = OpenDeviceHandle_151 r →
                    result a = n →
                    (∀ t0 a0, fin = Some (t0, a0) → t ≠ t0)
                    ∨ promises s' !! n
                      = Some (settledPromise AsyncFunction (Rejected e))) →
            awaitsFailure r e n s') as Hgen.
  { intros fin acting Hd Hcase. destruct Hn as [Hrej|(t & a & Ha & Hk & Hr)].
    - left. apply (delta_promise_same fin acting s); try done. by left.
    - destruct (Hcase t a Ha Hk Hr) as [Hne|Hrej]; [|by left].
      right. exists t, a. split; [|done].
      destruct (delta_activations _ _ _ _ Hd) as (news & Hacts & _).
      by apply (delta_suspendedAt_old fin s s' news). }
  destruct l as [req|p0 x|t0].
  - injection Hstep as <-.
    apply (Hgen None (callActs req s)); [by apply delta_call|].
    intros. left. by intros ? ? [=].
  - destruct (step_Settle_inv _ _ _ _ Hstep) as (pr & Hp & Hnone & Ho & ->).
    destruct Hn as [Hrej|(t & a & Ha & Hk & Hr)].
    + left. rewrite settling_other; [done|]. intros ->.
      rewrite Hp in Hrej. injection Hrej as ->. done.
    + right. by exists t, a.
  - destruct (step_Resume_inv _ _ _ Hstep)
      as (a0 & pr & x & Ha0 & Hpr & Hx & Hr0).
    apply (Hgen (Some (t0, a0)) (concerns (continuation a0)));
      [by apply (delta_resume t0 a0 x)|].
    intros t a Ha Hk Hr. destruct (decide (t = t0)) as [->|Hne].
    + right.
      destruct (failedClose_resume_151_rejected r p e t0 a s s'
                  Hres Hf Ha Hk Hstep) as (_ & Hrej & _).
      by rewrite <- Hr.
    + left. by intros ? ? [= <- _].
Qed.

Lemma turn_step l st st' :
  turn l st = Some st' →
  adaptor st' = adaptor st
  ∨ ∃ l', step l' (adaptor st) = Some (adaptor st').
Proof.
  unfold turn.
  destruct l as [p x| |req| | |callerReactions];
    destruct (jobs st) as [|[t0|] q0]; try done;
    try (intros [= <-]; by left).
  - destruct (step (Settle p x) (adaptor st)) as [s'|] eqn:Hstep; [|done].
    intros [= <-]. right. by exists (Settle p x).
  - cbn [step mbind option_bind]. intros [= <-]. right. by exists (Call req).
  - destruct (step (Resume t0) (adaptor st)) as [s'|] eqn:Hstep; [|done].
    intros [= <-]. right. by exists (Resume t0).
Qed.

Lemma failedClose_turn l st st' r p e :
  failedClose r p e (adaptor st) → turn l st = Some st' →
  failedClose r p e (adaptor st').
Proof.
  intros Hf [->|[l' Hstep]]%turn_step; [done|].
  by apply (failedClose_step _ _ _ l' (adaptor st)).
Qed.

Lemma awaitsFailure_turn l st st' r p e n :
  jobsInv st → failedClose r p e (adaptor st) → turn l st = Some st' →
  awaitsFailure r e n (adaptor st) → awaitsFailure r e n (adaptor st').
Proof.
  intros Hinv Hf [->|[l' Hstep]]%turn_step; [done|].
  apply (awaitsFailure_step l' _ _ r p e n); try done.
  - apply (jobsInv_reachable _ Hinv).
  - apply (jobsInv_awaits _ Hinv).
Qed.

Lemma awaitsFailure_turns ls st st' r p e n :
  jobsInv st → failedClose r p e (adaptor st) →
  awaitsFailure r e n (adaptor st) → turns ls st = Some st' →
  jobsInv st' ∧ failedClose r p e (adaptor st')
  ∧ awaitsFailure r e n (adaptor st').
Proof.
  revert st. induction ls as [|l ls IH]; intros st Hinv Hf Hn; cbn [turns].
  - by intros [= <-].
  - destruct (turn l st) as [st1|] eqn:Hturn; [|done].
    cbn [mbind option_bind]. apply IH.
    + by apply (jobsInv_turn l st).
    + by apply (failedClose_turn l st).
    + by apply (awaitsFailure_turn l st st1 r p e n).
Qed.

Lemma scheduled_turns ls st st' :
  scheduled st → turns ls st = Some st' → scheduled st'.
Proof.
  revert st. induction ls as [|l ls IH]; intros st Hs; cbn [turns].
  - by intros [= <-].
  - destruct (turn l st) as [st1|] eqn:Hturn; [|done].
    cbn [mbind option_bind]. apply IH. by apply (scheduled_turn l st).
Qed.

(** While the call has not failed, the reaction that makes it fail, or
    the one before it, is queued. *)
Lemma awaitsFailure_failing st r p e n :
  jobsInv st → failedClose r p e (adaptor st) →
  awaitsFailure r e n (adaptor st) → failing r p e n st.
Proof.
  intros Hinv Hf [Hrej|(t & a & Ha & Hk & Hr)]; [by left|].
  right. exists t, a. split; [done|]. split; [done|]. split; [done|].
  destruct (failedClose_awaitedOpen _ _ _ _ Hf (awaiting a))
    as [(pr & Hpr & Ho & Hs) Hown]; [right; by exists t, a|].
  destruct pr as [o sp]. cbn [origin settled] in Ho, Hs. subst o.
  destruct Hs as [->| ->].
  - right. split; [done|].
    destruct (jobsInv_owned _ Hinv _ Hpr) as (t2 & a2 & Ha2 & Hr2).
    pose proof (Hown t2 a2 Ha2 Hr2) as Hk2.
    pose proof (failedClose_waits _ _ _ _ Hf t2 a2 Ha2 (or_introl Hk2))
      as Haw2.
    exists t2, a2. split; [done|]. split; [done|]. split; [done|].
    split; [done|]. apply (jobsInv_queued _ Hinv), ready_true.
    exists a2. split; [done|]. rewrite Haw2.
    destruct (failedClose_rejected _ _ _ _ Hf) as (pr' & Hpr' & He').
    by rewrite (isSettled_lookup _ _ _ Hpr'), He'.
  - left. split; [done|]. apply (jobsInv_queued _ Hinv), ready_true.
    exists a. split; [done|]. by rewrite (isSettled_lookup _ _ _ Hpr).
Qed.

Lemma failing_quiescent st r p e n :
  failing r p e n st → jobs st = [] →
  promises (adaptor st) !! n
  = Some (settledPromise AsyncFunction (Rejected e)).
Proof.
  intros [Hrej|(t & a & _ & _ & _ & Hcase)] Hq; [done|].
  rewrite Hq in Hcase.
  destruct Hcase as [[_ Hin]|(_ & t2 & a2 & _ & _ & _ & _ & Hin)];
    by apply elem_of_nil in Hin.
Qed.

(** In every state that the runtime can bring the adaptor to, a marker
    that holds a rejected [close()] means [failedClose]. *)
Lemma scheduled_failedClose st r p pr e :
  scheduled st →
  closeOperationPromise (deviceStates (adaptor st) r) = Some p →
  promises (adaptor st) !! p = Some pr → settled pr = Some (Rejected e) →
  failedClose r p e (adaptor st).
Proof.
  intros Hs%scheduled_jobsInv. apply (jobsInv_failed _ Hs).
Qed.

(** A call of [openDeviceHandle] on such a device, whatever runs after it:
    its promise is rejected with the error of the close once the queue is
    empty, and before that the reaction that rejects it, or the one that
    rejects what it awaits, is queued; the device gets no handle. *)
Lemma openDeviceHandle_fails st deviceId r p pr e ls st' :
  scheduled st →
  closeOperationPromise (deviceStates (adaptor st) r) = Some p →
  promises (adaptor st) !! p = Some pr → settled pr = Some (Rejected e) →
  Map_get (idToDeviceMap_ (adaptor st)) deviceId = Some r →
  turns (CallerCall (OpenDeviceHandle deviceId) :: ls) st = Some st' →
  failing r p e (length (promises (adaptor st))) st'
  ∧ (jobs st' = [] →
     promises (adaptor st') !! length (promises (adaptor st))
     = Some (settledPromise AsyncFunction (Rejected e)))
  ∧ handles (deviceStates (adaptor st') r) = ∅
  ∧ failedClose r p e (adaptor st').
Proof.
  intros Hs Hm Hp He Hid. cbn [turns].
  pose proof (scheduled_jobsInv _ Hs) as Hinv.
  pose proof (scheduled_failedClose st r p pr e Hs Hm Hp He) as Hf.
  destruct (turn (CallerCall (OpenDeviceHandle deviceId)) st) as [st1|]
    eqn:Hturn; [|done].
  cbn [mbind option_bind]. intros Hturns.
  assert (adaptor st1 = call (OpenDeviceHandle deviceId) (adaptor st))
    as Heq.
  { revert Hturn. unfold turn.
    destruct (jobs st) as [|[t0|] q0]; try done.
    cbn [step mbind option_bind]. by intros [= <-]. }
  assert (awaitsFailure r e (length (promises (adaptor st))) (adaptor st1))
    as Hn.
  { destruct (failedClose_openDeviceHandle r p e deviceId _ Hf Hid)
      as (_ & _ & q & Hlast & _).
    right. rewrite Heq. rewrite last_lookup in Hlast.
    by eexists _, _. }
  destruct (awaitsFailure_turns ls st1 st' r p e _
              (jobsInv_turn _ _ _ Hinv Hturn)
              (failedClose_turn _ _ _ r p e Hf Hturn) Hn Hturns)
    as (Hinv' & Hf' & Hn').
  pose proof (awaitsFailure_failing st' r p e _ Hinv' Hf' Hn') as Hfail.
  split; [done|]. split; [by apply (failing_quiescent st' r p e)|].
  split; [|done]. by apply (failedClose_handles _ _ _ _ Hf').
Qed.

End FailingFacts.

(* ===================================================================== *)
(** ** The claims *)
(* ===================================================================== *)

Import Js Descriptor Adaptor DescriptorFacts RegistryFacts AdaptorFacts
  FailedCloseFacts ResultsFacts ClosingFacts JobsFacts ContinuationFacts
  CoordinatedFacts ScheduledFacts FailingFacts.


(** C5: in the walk, a record whose type is none of configuration (0x02),
    interface (0x04) and endpoint (0x05) has its raw bytes, header
    included, appended to the extraData of the most specific current node
    (the current endpoint if set, else the current interface if set, else
    the configuration), every other node is left alone; after a walk a node
    holds what it held before followed by the extra records met while it was
    the target, whole and in the order of the passes, which visit strictly
    increasing offsets; and for the synthetic blob the 4 extra bytes end up
    on the endpoint with address 0x81 and on no other node. *)
Theorem C5_extra_data_goes_to_most_specific_node :
  (∀ d tl st len ty,
     validPointers st →
     descriptorAt d tl st = Some (len, ty) → isExtraType ty →
     let n := targetObject st in
     let raw := take len (drop (offset st) d) in
     (match currentEndpoint st, currentInterface st with
      | Some (i, j), _ => n = EndpointNode i j
      | None, Some i => n = InterfaceNode i
      | None, None => n = ConfigurationNode
      end)
     ∧ (tl ≤ length d → length raw = len ∧ raw !! 0 = d !! offset st)
     ∧ ∃ st', loopBody d tl st = Normal (NextIteration st')
        ∧ offset st' = offset st + len
        ∧ currentInterface st' = currentInterface st
        ∧ currentEndpoint st' = currentEndpoint st
        ∧ extraDataOf n (libusbJsConfiguration st')
          = Some (Some (extraBytes n (libusbJsConfiguration st) ++ raw))
        ∧ ∀ n', n' ≠ n →
            extraDataOf n' (libusbJsConfiguration st')
            = extraDataOf n' (libusbJsConfiguration st))
  ∧ (∀ d c r c' n,
       walk (length d) d (length d) (initialWalkState c) = Some (r, c') →
       validNode n c →
       let passes := iterations (length d) d (length d) (initialWalkState c) in
       extraBytes n c'
       = extraBytes n c ++ concat (omap (extraRecordFor d (length d) n) passes)
       ∧ StronglySorted (λ s1 s2, offset s1 < offset s2) passes)
  ∧ (∃ c',
       fetchAndFillConfigurationExtraDataForOpenedDevice
         (Example.ok (take 9 Example.syntheticBlob))
         (Example.ok Example.syntheticBlob) Example.configuration1
       = Some (Normal (Some EndOfBlob), c')
       ∧ (∃ itf e, interfaces c' !! 0 = Some itf
                   ∧ endpoints itf !! 0 = Some e
                   ∧ endpointAddress e = 129)
       ∧ extraDataOf (EndpointNode 0 0) c' = Some (Some [x04; xff; xaa; xbb])
       ∧ ∀ n x, n ≠ EndpointNode 0 0 → extraDataOf n c' = Some x → x = None).
Proof.
  split; [|split].
  - intros d tl st len ty Hp Hd Hty n raw.
    split; [|split].
    + subst n. unfold targetObject.
      by destruct (currentEndpoint st) as [[i j]|], (currentInterface st).
    + intros Htl. apply descriptorAt_Some in Hd as (Hl & _ & Hlen & Hfit).
      subst raw. split.
      * rewrite length_take, length_drop. lia.
      * rewrite lookup_take_lt by lia. rewrite lookup_drop. f_equal. lia.
    + rewrite (loopBody_descriptorAt _ _ _ _ _ Hd).
      rewrite switchDescriptorType_extra by done.
      eexists. split; [done|]. cbn [advance offset currentInterface
        currentEndpoint libusbJsConfiguration].
      repeat split.
      * apply extraBytes_appendExtraData_eq. by apply targetObject_valid.
      * intros n' Hn'. by apply extraDataOf_appendExtraData_ne.
  - intros d c r c' n Hw Hn passes. split.
    + by apply (walk_extraBytes _ _ _ _ _ _ _
                  (initialWalkState_validPointers c) Hw).
    + apply iterations_sorted.
  - eexists. split; [vm_compute; reflexivity|].
    split; [by eexists _, _|]. split; [done|].
    intros [|[|i]|[|i] [|j]] x Hn; vm_compute; try congruence.
    all: destruct i; vm_compute; congruence.
Qed.

Lemma C5_witness :
  let st := {| offset := 25; currentInterface := Some 0;
               currentEndpoint := Some (0, 0);
               libusbJsConfiguration := Example.configuration1 |} in
  validPointers st
  ∧ descriptorAt Example.syntheticBlob 29 st = Some (4, 255)
  ∧ isExtraType 255
  ∧ ∃ st', loopBody Example.syntheticBlob 29 st = Normal (NextIteration st')
           ∧ extraDataOf (EndpointNode 0 0) (libusbJsConfiguration st')
             = Some (Some [x04; xff; xaa; xbb]).
Proof.
  intros st.
  assert (validPointers st) as Hp.
  { split; intros i; [intros [= <-]|intros j [= <- <-]]; vm_compute; eauto. }
  assert (descriptorAt Example.syntheticBlob 29 st = Some (4, 255)) as Hd
    by reflexivity.
  assert (isExtraType 255) as Hty by (repeat split; discriminate).
  split; [exact Hp|]. split; [exact Hd|]. split; [exact Hty|].
  destruct (proj1 C5_extra_data_goes_to_most_specific_node
              _ _ st 4 255 Hp Hd Hty)
    as (_ & _ & st' & Hb & _ & _ & _ & He & _).
  exists st'. split; [exact Hb|exact He].
Defined.

(** C6: a record whose declared length is below 2 ends the walk in the pass
    that reads it, with the tree as it then is; the walk ends on every blob
    (totalLength passes are enough, a zero length included); and when such a
    record is the first one, extraction returns the tree it was given, which
    for a freshly converted configuration has no extraData on any node. *)
Theorem C6_malformed_length_ends_walk :
  (∀ fuel d tl st len,
     offset st < tl → getUint8 d (offset st) = Normal len → len < 2 →
     walk (S fuel) d tl st
     = Some (Normal MalformedDescriptor, libusbJsConfiguration st)
     ∧ iterations (S fuel) d tl st = [st])
  ∧ (∀ d tl c, is_Some (walk tl d tl (initialWalkState c)))
  ∧ (∀ first second c,
       is_Some (fetchAndFillConfigurationExtraDataForOpenedDevice
                  first second c))
  ∧ (∀ header d len w a,
       readTotalLength header = Normal (Some (length d)) →
       getUint8 d 0 = Normal len → len < 2 →
       let c := getLibusbJsConfigurationDescriptor w a in
       fetchAndFillConfigurationExtraDataForOpenedDevice
         (Fulfilled header) (Example.ok d) c
       = Some (Normal (Some MalformedDescriptor), c)
       ∧ noExtraData c).
Proof.
  split; [|split; [|split]].
  - intros fuel d tl st len Hoff Hlen Hlt.
    by rewrite (walk_malformed _ _ _ _ _ Hoff Hlen Hlt),
               (iterations_malformed _ _ _ _ _ Hoff Hlen Hlt).
  - intros d tl c. apply walk_total. simpl. lia.
  - apply fetchAndFillConfigurationExtraDataForOpenedDevice_total.
  - intros header d len w a Hh Hlen Hlt c.
    split; [|apply getLibusbJsConfigurationDescriptor_noExtraData].
    unfold fetchAndFillConfigurationExtraDataForOpenedDevice.
    cbn [await Example.ok]. change (Normal header ≫= readTotalLength)
      with (readTotalLength header). rewrite Hh.
    unfold parseDescriptors. cbn [data status].
    rewrite decide_False by (by intros []).
    rewrite decide_False by (by intros []).
    assert (0 < length d) as Hpos.
    { destruct d; [done|simpl; lia]. }
    destruct (length d) as [|n] eqn:Hn; [lia|].
    by rewrite (walk_malformed n d (S n) (initialWalkState c) len Hpos Hlen Hlt).
Qed.

Lemma C6_witness :
  readTotalLength {| status := "ok";
                     data := Some (take 9 Example.malformedFirstBlob) |}
  = Normal (Some (length Example.malformedFirstBlob))
  ∧ getUint8 Example.malformedFirstBlob 0 = Normal 1
  ∧ 1 < 2
  ∧ fetchAndFillConfigurationExtraDataForOpenedDevice
      (Example.ok (take 9 Example.malformedFirstBlob))
      (Example.ok Example.malformedFirstBlob) Example.configuration1
    = Some (Normal (Some MalformedDescriptor), Example.configuration1).
Proof.
  assert (readTotalLength
            {| status := "ok";
               data := Some (take 9 Example.malformedFirstBlob) |}
          = Normal (Some (length Example.malformedFirstBlob))) as Hh
    by reflexivity.
  assert (getUint8 Example.malformedFirstBlob 0 = Normal 1) as Hlen
    by reflexivity.
  assert (1 < 2) as Hlt by lia.
  split; [exact Hh|]. split; [exact Hlen|]. split; [exact Hlt|].
  exact (proj1 (proj2 (proj2 (proj2 C6_malformed_length_ends_walk))
                  _ _ _ Example.usbConfiguration1 (Some 1) Hh Hlen Hlt)).
Defined.

(** C4: when the first GET_DESCRIPTOR transfer reports a status other than
    "ok" or returns no data, and when the second one does so or returns a
    number of bytes different from the totalLength read from the header,
    the function returns before the walk and the configuration tree is the
    one it was given. *)
Theorem C4_failed_transfer_leaves_tree_unchanged :
  (∀ r1 second c,
     status r1 ≠ "ok" ∨ data r1 = None →
     fetchAndFillConfigurationExtraDataForOpenedDevice (Fulfilled r1) second c
     = Some (Normal None, c))
  ∧ (∀ r1 r2 header totalLength c,
       status r1 = "ok" → data r1 = Some header →
       getUint16 header 2 = Normal totalLength →
       status r2 ≠ "ok" ∨ data r2 = None
       ∨ (∃ descriptors, data r2 = Some descriptors
                         ∧ length descriptors ≠ totalLength) →
       fetchAndFillConfigurationExtraDataForOpenedDevice
         (Fulfilled r1) (Fulfilled r2) c
       = Some (Normal None, c)).
Proof.
  split.
  - intros r1 second c Hbad.
    unfold fetchAndFillConfigurationExtraDataForOpenedDevice.
    cbn [await]. change (Normal r1 ≫= readTotalLength)
      with (readTotalLength r1). unfold readTotalLength.
    destruct Hbad as [Hst| ->]; [|done].
    destruct (data r1); [|done]. by rewrite decide_True.
  - intros r1 r2 header tl c Hst Hdata Hlen Hbad.
    unfold fetchAndFillConfigurationExtraDataForOpenedDevice.
    cbn [await]. change (Normal r1 ≫= readTotalLength)
      with (readTotalLength r1). unfold readTotalLength.
    rewrite Hdata, decide_False by (by intros []). rewrite Hlen.
    change (Normal tl ≫= (λ totalLength, mret (Some totalLength)))
      with (Normal (Some tl)). cbn beta iota.
    unfold parseDescriptors.
    destruct Hbad as [Hst2|[->|(d & -> & Hne)]]; [| done |].
    + destruct (data r2); [|done]. by rewrite decide_True.
    + destruct (decide (status r2 ≠ "ok")); [done|].
      by rewrite decide_True.
Qed.

Lemma C4_witness :
  ("stall" : string) ≠ "ok"
  ∧ fetchAndFillConfigurationExtraDataForOpenedDevice
      (Fulfilled {| status := "stall"; data := None |})
      (Example.ok Example.syntheticBlob) Example.configuration1
    = Some (Normal None, Example.configuration1).
Proof.
  assert (("stall" : string) ≠ "ok") as Hst by discriminate.
  split; [exact Hst|].
  exact (proj1 C4_failed_transfer_leaves_tree_unchanged
           {| status := "stall"; data := None |} _ _ (or_introl Hst)).
Defined.

(** C7: in every state the adaptor can reach, (1) an enumeration gives every
    device of its snapshot an id; (2) a transition keeps the id of a device,
    and the DeviceState object behind the id, unless it is an enumeration
    whose snapshot lacks the device, so a device present in two consecutive
    snapshots has the same id after both; (3) after an enumeration whose
    snapshot lacks a device, the id the device had is unknown to every
    lookup, whatever happens later. *)
Theorem C7_device_ids_across_enumerations s :
  reachable s →
  (∀ l s' snapshot d,
     step l s = Some s' → enumerates l s snapshot → d ∈ snapshot →
     is_Some (getDeviceId_ d s'))
  ∧ (∀ l s' d i,
       step l s = Some s' → getDeviceId_ d s = Some i →
       (∀ snapshot, enumerates l s snapshot → d ∈ snapshot) →
       getDeviceId_ d s' = Some i
       ∧ Map_get (idToDeviceMap_ s') i = Map_get (idToDeviceMap_ s) i)
  ∧ (∀ l s' snapshot i r,
       step l s = Some s' → enumerates l s snapshot →
       Map_get (idToDeviceMap_ s) i = Some r →
       webusbDevice (deviceStates s r) ∉ snapshot →
       ∀ ls s'', run ls s' = Some s'' →
                 getDeviceByIdOrThrow_ i s'' = Throw (NoDeviceWithID i)).
Proof.
  intros Hs. pose proof (reachable_registryWf _ Hs) as Hwf.
  split; [|split].
  - intros l s' snap d Hstep Hen Hd.
    destruct (step_enumerates _ _ _ _ Hstep Hen)
      as (s0 & res & -> & Hm & Hn & Hr & Hds).
    rewrite getDeviceId_settle. apply updateDeviceMap_present; [|done].
    by apply (registryWf_ext s).
  - intros l s' d i Hstep Hi Hen.
    by apply (effects_keeps_id _ _ _ _ _ _ (step_effects _ _ _ Hstep)).
  - intros l s' snap i r Hstep Hen Hi Hd ls s'' Hrun.
    destruct (step_enumerates _ _ _ _ Hstep Hen)
      as (s0 & res & -> & Hm & Hn & Hr & Hds).
    assert (registryWf s0) as Hwf0 by (by apply (registryWf_ext s)).
    assert (retired i (updateDeviceMap_ snap s0)) as Hret.
    { split.
      - apply (updateDeviceMap_drops _ _ _ r); [done|by rewrite Hm|].
        by rewrite Hds.
      - destruct (updateDeviceMap_spec snap s0 Hwf0) as (m & s1 & -> & Hinv).
        pose proof (inv_nextId _ _ _ _ Hinv).
        apply Map_get_Some_elem, Hwf in Hi as [? _].
        cbn [nextFreeDeviceId_ setIdToDeviceMap_]. lia. }
    assert (retired i s'') as [Hnone _].
    { eapply effects_retired; [by eapply run_effects| |done].
      by apply (registryWf_ext (updateDeviceMap_ snap s0)),
               updateDeviceMap_registryWf. }
    unfold getDeviceByIdOrThrow_. by rewrite Hnone.
Qed.

Lemma C7_witness :
  reachable (Example.after Example.enumerate87)
  ∧ step (Resume 1) (Example.after Example.enumerate87)
    = Some (Example.after (Example.enumerate87 ++ [Resume 1]))
  ∧ getDeviceId_ 7 (Example.after Example.enumerate87) = Some 1
  ∧ (∀ snapshot,
       enumerates (Resume 1) (Example.after Example.enumerate87) snapshot →
       7 ∈ snapshot)
  ∧ getDeviceId_ 7 (Example.after (Example.enumerate87 ++ [Resume 1]))
    = Some 1.
Proof.
  assert (reachable (Example.after Example.enumerate87)) as Hs.
  { apply (reachable_run Example.enumerate87 (constructor Example.usb));
      [constructor|vm_compute; reflexivity]. }
  assert (step (Resume 1) (Example.after Example.enumerate87)
          = Some (Example.after (Example.enumerate87 ++ [Resume 1])))
    as Hstep by (vm_compute; reflexivity).
  assert (getDeviceId_ 7 (Example.after Example.enumerate87) = Some 1)
    as Hi by (vm_compute; reflexivity).
  assert (∀ snapshot,
            enumerates (Resume 1) (Example.after Example.enumerate87)
              snapshot → 7 ∈ snapshot) as Hen.
  { intros snapshot (t & a & pr & [= <-] & Ha & _ & Hpr & Hx).
    vm_compute in Ha. injection Ha as <-.
    vm_compute in Hpr. injection Hpr as <-.
    vm_compute in Hx. injection Hx as <-. right. left. }
  split; [exact Hs|]. split; [exact Hstep|]. split; [exact Hi|].
  split; [exact Hen|].
  exact (proj1 (proj1 (proj2 (C7_device_ids_across_enumerations _ Hs))
                  _ _ _ _ Hstep Hi Hen)).
Defined.

(** C8: closeDeviceHandle on a device whose handle set is exactly the handle
    being closed calls WebUSB once, close() on that device, and what is left
    of the method after the await calls nothing; closeDeviceHandle on a
    device that keeps another handle calls nothing and returns at once. *)
Theorem C8_only_the_last_handle_closes s deviceId deviceHandle r :
  Map_get (idToDeviceMap_ s) deviceId = Some r →
  let s' := call (CloseDeviceHandle deviceId deviceHandle) s in
  (handles (deviceStates s r) = {[deviceHandle]} →
   (∀ o, o ≠ AsyncFunction →
         issued o s'
         = issued o s
           + (if decide (o = WebusbClose (webusbDevice (deviceStates s r)))
              then 1 else 0))
   ∧ ∃ a, activations s' = activations s ++ [Some a]
          ∧ continuation a = CloseDeviceHandle_181 r
          ∧ ∀ x s1 s2 o, resume (continuation a) x (result a) s1 = Some s2 →
                         issued o s2 = issued o s1)
  ∧ (deviceHandle ∈ handles (deviceStates s r) →
     (∃ h, h ∈ handles (deviceStates s r) ∧ h ≠ deviceHandle) →
     (∀ o, o ≠ AsyncFunction → issued o s' = issued o s)
     ∧ activations s' = activations s).
Proof.
  intros Hid s'. subst s'. cbn [call]. split.
  - intros Hh.
    destruct (closeDeviceHandle_last _ _ _ _ Hid Hh) as (Hp & Ha & _).
    split.
    + intros o Ho. rewrite (issued_app _ _ _ _ Hp). unfold issued. simpl.
      rewrite !filter_cons, filter_nil.
      rewrite (decide_False (P := AsyncFunction = o)) by done.
      destruct (decide (o = WebusbClose _)) as [->|Hne].
      * by rewrite decide_True.
      * rewrite decide_False by done. simpl. lia.
    + eexists. split; [exact Ha|]. split; [done|].
      intros x s1 s2 o. apply resume_CloseDeviceHandle_181_issued.
  - intros Hh (h & Hh' & Hne).
    destruct (closeDeviceHandle_not_last _ _ _ _ _ Hid Hh Hh' Hne)
      as (Hp & Ha & _).
    split; [|done]. intros o Ho. rewrite (issued_app _ _ _ _ Hp).
    unfold issued. simpl. rewrite filter_cons, filter_nil.
    rewrite decide_False by done. simpl. lia.
Qed.

Lemma C8_witness :
  Map_get (idToDeviceMap_ (Example.after Example.opened1)) 1 = Some 0
  ∧ handles (deviceStates (Example.after Example.opened1) 0) = {[1]}
  ∧ issued (WebusbClose 7)
      (call (CloseDeviceHandle 1 1) (Example.after Example.opened1))
    = issued (WebusbClose 7) (Example.after Example.opened1) + 1.
Proof.
  assert (Map_get (idToDeviceMap_ (Example.after Example.opened1)) 1 = Some 0)
    as Hid by (vm_compute; reflexivity).
  assert (handles (deviceStates (Example.after Example.opened1) 0) = {[1]})
    as Hh by (vm_compute; reflexivity).
  split; [exact Hid|]. split; [exact Hh|].
  exact (proj1 (proj1 (C8_only_the_last_handle_closes _ 1 1 0 Hid) Hh)
           (WebusbClose 7) ltac:(discriminate)).
Defined.

(** C10: closeDeviceHandle(deviceId, h) on a handle of the set takes h out
    of the set before the part of the method that calls close() runs, in the
    same transition; from then on, whether close() succeeds or fails and
    whatever else happens, h is not in the set, and every method given h
    for this device (closeDeviceHandle, claimInterface, releaseInterface,
    resetDevice, the transfers) fails with its unknown-handle error. *)
Theorem C10_closed_handle_stays_unknown s deviceId deviceHandle r :
  reachable s →
  Map_get (idToDeviceMap_ s) deviceId = Some r →
  deviceHandle ∈ handles (deviceStates s r) →
  let s1 := call (CloseDeviceHandle deviceId deviceHandle) s in
  (∃ s0, s1 = closeDeviceHandle_close r (length (promises s)) s0
         ∧ (deviceHandle ∉ handles (deviceStates s0 r))
         ∧ ∀ o, o ≠ AsyncFunction → issued o s0 = issued o s)
  ∧ ∀ ls s2,
      run ls s1 = Some s2 →
      (deviceHandle ∉ handles (deviceStates s2 r))
      ∧ ∀ deviceId',
          Map_get (idToDeviceMap_ s2) deviceId' = Some r →
          getDeviceByIdAndHandleOrThrow_ deviceId' deviceHandle s2
          = Throw (NoDeviceHandle deviceHandle)
          ∧ promises (call (CloseDeviceHandle deviceId' deviceHandle) s2)
            = promises s2
              ++ [{| origin := AsyncFunction;
                     settled :=
                       Some (Rejected (UnknownDeviceHandle deviceHandle)) |}]
          ∧ ∀ req,
              takesHandle req deviceId' deviceHandle →
              promises (call req s2)
              = promises s2
                ++ [{| origin := AsyncFunction;
                       settled :=
                         Some (Rejected (NoDeviceHandle deviceHandle)) |}].
Proof.
  intros Hs Hid Hh s1. subst s1. cbn [call].
  split; [by apply closeDeviceHandle_order|].
  intros ls s2 Hrun.
  assert (closed r deviceHandle (closeDeviceHandle deviceId deviceHandle s))
    as Hc.
  { split; [by apply closeDeviceHandle_forgets|].
    rewrite closeDeviceHandle_nextFreeDeviceHandle_.
    by apply (reachable_handlesBelow _ Hs r). }
  destruct (effects_closed _ _ _ _ _ _ (run_effects _ _ _ Hrun) Hc)
    as [Hnot _].
  split; [done|]. intros deviceId' Hid'.
  split; [by apply (getDeviceByIdAndHandleOrThrow_unknown _ _ r)|].
  split; [by apply (closeDeviceHandle_unknown _ _ r)|].
  intros req Hreq. by apply (call_unknown_handle _ deviceId' _ r).
Qed.

(** Handle 1 of device id 1 is closed, close() (promise 6) fails and the
    call completes (activation 3). *)
Lemma C10_witness :
  reachable (Example.after Example.opened1)
  ∧ Map_get (idToDeviceMap_ (Example.after Example.opened1)) 1 = Some 0
  ∧ 1 ∈ handles (deviceStates (Example.after Example.opened1) 0)
  ∧ run [Settle 6 (Rejected (WebusbError 19)); Resume 3]
        (call (CloseDeviceHandle 1 1) (Example.after Example.opened1))
    = Some (Example.after Example.closeFailed1)
  ∧ 1 ∉ handles (deviceStates (Example.after Example.closeFailed1) 0).
Proof.
  assert (reachable (Example.after Example.opened1)) as Hs.
  { apply (reachable_run Example.opened1 (constructor Example.usb));
      [constructor|vm_compute; reflexivity]. }
  assert (Map_get (idToDeviceMap_ (Example.after Example.opened1)) 1 = Some 0)
    as Hid by (vm_compute; reflexivity).
  assert (1 ∈ handles (deviceStates (Example.after Example.opened1) 0))
    as Hh.
  { replace (handles (deviceStates (Example.after Example.opened1) 0))
      with ({[1]} : gset nat) by (vm_compute; reflexivity).
    by apply elem_of_singleton. }
  assert (run [Settle 6 (Rejected (WebusbError 19)); Resume 3]
            (call (CloseDeviceHandle 1 1) (Example.after Example.opened1))
          = Some (Example.after Example.closeFailed1)) as Hrun
    by (vm_compute; reflexivity).
  split; [exact Hs|]. split; [exact Hid|]. split; [exact Hh|].
  split; [exact Hrun|].
  exact (proj1 (proj2 (C10_closed_handle_stays_unknown _ 1 1 0 Hs Hid Hh)
                  _ _ Hrun)).
Defined.

(** C3, as stated, fails: with the blob [configuration, extra record, record
    of declared length 1] the walk ends at the malformed record, yet the
    extra record read before it stays attached to the configuration. *)
Lemma C3_counterexample :
  noExtraData Example.configuration1
  ∧ ∃ c',
      fetchAndFillConfigurationExtraDataForOpenedDevice
        (Example.ok (take 9 Example.malformedMidwayBlob))
        (Example.ok Example.malformedMidwayBlob) Example.configuration1
      = Some (Normal (Some MalformedDescriptor), c')
      ∧ extraDataOf ConfigurationNode c' = Some (Some [x04; xff; xaa; xbb])
      ∧ ¬ noExtraData c'.
Proof.
  split; [apply getLibusbJsConfigurationDescriptor_noExtraData|].
  eexists. split; [vm_compute; reflexivity|]. split; [reflexivity|].
  intros Hno. by specialize (Hno ConfigurationNode _ eq_refl).
Qed.

(** C3, amended: (1) extraction walks the blob only when both transfers are
    fulfilled with status "ok" and data and the second one has exactly
    totalLength bytes; in every other case (a rejected transfer, a header
    too short to hold totalLength included) it leaves the tree as it was
    given; (2) at a record with declared length below 2 the walk returns the
    tree as it is at that record: what earlier records attached stays,
    nothing more is attached; (3) no continuation of getConfigurations
    rejects a promise, each of them runs on whatever WebUSB answers, and the
    call itself rejects only for an unknown device id: the failure of an
    extraction is not surfaced to the caller. *)
Theorem C3_extraction_failures_are_contained :
  (∀ first second c x c',
     fetchAndFillConfigurationExtraDataForOpenedDevice first second c
     = Some (x, c') →
     (∀ exit, x = Normal (Some exit) →
        ∃ r1 r2 d, first = Fulfilled r1 ∧ second = Fulfilled r2
                   ∧ status r1 = "ok" ∧ status r2 = "ok"
                   ∧ data r2 = Some d
                   ∧ readTotalLength r1 = Normal (Some (length d)))
     ∧ ((∀ exit, x ≠ Normal (Some exit)) → c' = c))
  ∧ (∀ fuel d tl st len,
       offset st < tl → getUint8 d (offset st) = Normal len → len < 2 →
       walk (S fuel) d tl st
       = Some (Normal MalformedDescriptor, libusbJsConfiguration st))
  ∧ (∀ k x res s,
       isGetConfigurations k →
       (∀ s' q, resume k x res s = Some s' → rejected q s' → rejected q s)
       ∧ (∀ o, webusbSettles o x = true →
               match k with
               | GetConfigurations_556 _ | GetConfigurations_564 _ _ =>
                   ∃ d v n, o = WebusbControlTransferIn d v n
               | _ => True
               end →
               is_Some (resume k x res s)))
  ∧ (∀ deviceId r s q,
       Map_get (idToDeviceMap_ s) deviceId = Some r →
       rejected q (call (GetConfigurations deviceId) s) → rejected q s).
Proof.
  split; [|split; [|split]].
  - intros first second c x c' Hf. split.
    + intros exit ->. revert Hf.
      unfold fetchAndFillConfigurationExtraDataForOpenedDevice.
      destruct first as [r1|e1]; [|done]. cbn [await].
      change (Normal r1 ≫= readTotalLength) with (readTotalLength r1).
      destruct (readTotalLength r1) as [[tl|]|] eqn:Hr1; [|done..].
      destruct second as [r2|e2]; [|done]. cbn [await].
      unfold parseDescriptors.
      destruct (data r2) as [d|] eqn:Hd; [|done].
      case_decide as Hst; [done|]. case_decide as Hlen; [done|].
      intros _. exists r1, r2, d.
      subst tl. repeat split; try done.
      revert Hr1. unfold readTotalLength.
      destruct (data r1); [|done]. by case_decide as Hst1.
    + apply (fetchAndFillConfigurationExtraDataForOpenedDevice_unchanged
               _ _ _ _ _ Hf).
  - intros fuel d tl st len. apply walk_malformed.
  - intros k x res s Hk. split.
    + intros s' q. by apply resume_getConfigurations_rejected.
    + intros o. by apply resume_getConfigurations_total.
  - intros deviceId r s q. apply getConfigurations_rejected.
Qed.

Lemma C3_witness :
  isGetConfigurations (GetConfigurations_564 Example.frame1 15)
  ∧ webusbSettles (WebusbControlTransferIn 7 512 15)
      (Fulfilled (TransferResult
                    {| status := "ok";
                       data := Some Example.malformedMidwayBlob |})) = true
  ∧ is_Some
      (resume (GetConfigurations_564 Example.frame1 15)
         (Fulfilled (TransferResult
                       {| status := "ok";
                          data := Some Example.malformedMidwayBlob |}))
         0 (constructor Example.usb)).
Proof.
  split; [exact I|]. split; [reflexivity|].
  refine (proj2 (proj1 (proj2 (proj2 C3_extraction_failures_are_contained))
                   (GetConfigurations_564 Example.frame1 15)
                   (Fulfilled (TransferResult
                                 {| status := "ok";
                                    data :=
                                      Some Example.malformedMidwayBlob |}))
                   0 (constructor Example.usb) I)
            (WebusbControlTransferIn 7 512 15) eq_refl _).
  by exists 7, 512%Z, 15.
Defined.

(** C1 fails on getConfigurations: its descriptor extraction calls open()
    and close() on the device without looking at the pending-operation
    markers.  (1) After openDeviceHandle(1) and getConfigurations(1), two
    open() calls on the same device are in flight.  (2) When the extraction
    of getConfigurations(1) ends while the open() of openDeviceHandle(1)
    is pending, it calls close() on the device. *)
Theorem C1_getConfigurations_ignores_the_markers :
  (reachable (Example.after Example.openThenGetConfigurations)
   ∧ inFlight (WebusbOpen 7)
       (Example.after Example.openThenGetConfigurations) = 2)
  ∧ (reachable (Example.after Example.getConfigurationsThenOpen)
     ∧ inFlight (WebusbOpen 7)
         (Example.after Example.getConfigurationsThenOpen) = 1
     ∧ issued (WebusbClose 7)
         (Example.after Example.getConfigurationsThenOpen) = 0
     ∧ ∃ s', step (Resume 2) (Example.after Example.getConfigurationsThenOpen)
             = Some s'
             ∧ inFlight (WebusbOpen 7) s' = 1
             ∧ inFlight (WebusbClose 7) s' = 1).
Proof.
  split; [split|split; [|split; [|split]]].
  - apply (reachable_run Example.openThenGetConfigurations
             (constructor Example.usb));
      [constructor|vm_compute; reflexivity].
  - vm_compute. reflexivity.
  - apply (reachable_run Example.getConfigurationsThenOpen
             (constructor Example.usb));
      [constructor|vm_compute; reflexivity].
  - vm_compute. reflexivity.
  - vm_compute. reflexivity.
  - eexists. split; [vm_compute; reflexivity|].
    split; vm_compute; reflexivity.
Qed.

(** C9: (1) when the close() awaited by closeDeviceHandle fails, the call
    fails with that error and the pending-close marker stays as it is.
    (2) In every state that the runtime can bring the adaptor to (code runs
    to its end, reactions run first in, first out, and WebUSB answers in a
    task of its own), a device whose pending-close marker holds a close()
    rejected with e is in the state failedClose: it has no handle, what
    waits on its marker waits on that close(), and what calls of
    openDeviceHandle wait for can only be rejected with e.  (3) On such a
    device with nothing pending (no handle, no pending open) a call of
    openDeviceHandle starts openWebusbDevice, which awaits the marker, and
    awaits it in turn; no WebUSB call is made, by the call or by what runs
    after the awaits; the call fails with the same e; and the device is
    left in the same state.  (4) In every reachable state, failedClose is
    kept by every transition, whatever is called or settled in between and
    however calls overlap: there a call of openDeviceHandle on the device
    makes no WebUSB call and suspends on a promise that can only be
    rejected with e; openWebusbDevice suspended on the marker continues by
    failing with e, without calling open(); and a suspended call of
    openDeviceHandle, when it continues, fails with e and gives out no
    handle.  (5) When the caller calls openDeviceHandle on a device of (2),
    then whatever the runtime runs after the call: the device has no
    handle; the promise of the call is rejected with e, or the call is
    suspended at line 151 and the reaction that rejects its promise is
    queued, or the reaction of openWebusbDevice that rejects what it awaits
    is; and once no job is left the promise is rejected with e. *)
Theorem C9_failed_close_blocks_open :
  (∀ r e res s,
     ∃ s', resume (CloseDeviceHandle_181 r) (Rejected e) res s = Some s'
           ∧ s' = settle res (Rejected e) s
           ∧ closeOperationPromise (deviceStates s' r)
             = closeOperationPromise (deviceStates s r))
  ∧ (∀ st r p pr e,
       scheduled st →
       closeOperationPromise (deviceStates (adaptor st) r) = Some p →
       promises (adaptor st) !! p = Some pr →
       settled pr = Some (Rejected e) →
       reachable (adaptor st) ∧ failedClose r p e (adaptor st))
  ∧ (∀ s deviceId r p o e,
       Map_get (idToDeviceMap_ s) deviceId = Some r →
       closeOperationPromise (deviceStates s r) = Some p →
       promises s !! p = Some {| origin := o; settled := Some (Rejected e) |} →
       handles (deviceStates s r) = ∅ →
       openOperationPromise (deviceStates s r) = None →
       let n := length (promises s) in
       let m := length (activations s) in
       let s1 := call (OpenDeviceHandle deviceId) s in
       activations s1
       = activations s
         ++ [Some {| awaiting := p; continuation := OpenWebusbDevice_503 r;
                     result := S n |};
             Some {| awaiting := S n; continuation := OpenDeviceHandle_151 r;
                     result := n |}]
       ∧ (∀ o', o' ≠ AsyncFunction → issued o' s1 = issued o' s)
       ∧ ∃ s3,
           run [Resume m; Resume (S m)] s1 = Some s3
           ∧ promises s3
             = promises s
               ++ [{| origin := AsyncFunction;
                      settled := Some (Rejected e) |};
                   {| origin := AsyncFunction;
                      settled := Some (Rejected e) |}]
           ∧ (∀ o', o' ≠ AsyncFunction → issued o' s3 = issued o' s)
           ∧ Map_get (idToDeviceMap_ s3) deviceId = Some r
           ∧ closeOperationPromise (deviceStates s3 r) = Some p
           ∧ promises s3 !! p
             = Some {| origin := o; settled := Some (Rejected e) |}
           ∧ handles (deviceStates s3 r) = ∅
           ∧ openOperationPromise (deviceStates s3 r) = None)
  ∧ (∀ r p e s,
       reachable s → failedClose r p e s →
       (∀ l s', step l s = Some s' → reachable s' ∧ failedClose r p e s')
       ∧ (∀ deviceId,
            Map_get (idToDeviceMap_ s) deviceId = Some r →
            let s' := call (OpenDeviceHandle deviceId) s in
            (∀ o, o ≠ AsyncFunction → issued o s' = issued o s)
            ∧ promises s' !! length (promises s)
              = Some (pending AsyncFunction)
            ∧ ∃ q, last (activations s')
                   = Some (openDeviceHandle_151 r q (length (promises s)))
                   ∧ boundToFail r e q s')
       ∧ (∀ t a,
            activations s !! t = Some (Some a) →
            continuation a = OpenWebusbDevice_503 r →
            ∃ s', step (Resume t) s = Some s'
                  ∧ (∀ o, issued o s' = issued o s)
                  ∧ promises s' !! result a
                    = Some {| origin := AsyncFunction;
                              settled := Some (Rejected e) |})
       ∧ (∀ t a s',
            activations s !! t = Some (Some a) →
            continuation a = OpenDeviceHandle_151 r →
            step (Resume t) s = Some s' →
            (∀ o, issued o s' = issued o s)
            ∧ promises s' !! result a
              = Some {| origin := AsyncFunction;
                        settled := Some (Rejected e) |}
            ∧ handles (deviceStates s' r) = ∅
            ∧ nextFreeDeviceHandle_ s' = nextFreeDeviceHandle_ s))
  ∧ (∀ st deviceId r p pr e ls st',
       scheduled st →
       closeOperationPromise (deviceStates (adaptor st) r) = Some p →
       promises (adaptor st) !! p = Some pr →
       settled pr = Some (Rejected e) →
       Map_get (idToDeviceMap_ (adaptor st)) deviceId = Some r →
       turns (CallerCall (OpenDeviceHandle deviceId) :: ls) st = Some st' →
       failing r p e (length (promises (adaptor st))) st'
       ∧ (jobs st' = [] →
          promises (adaptor st') !! length (promises (adaptor st))
          = Some (settledPromise AsyncFunction (Rejected e)))
       ∧ handles (deviceStates (adaptor st') r) = ∅
       ∧ failedClose r p e (adaptor st')).
Proof.
  split; [|split; [|split; [|split]]].
  - intros r e res s. by eexists.
  - intros st r p pr e Hs Hm Hp He.
    split; [apply (jobsInv_reachable _ (scheduled_jobsInv _ Hs))|].
    by apply (scheduled_failedClose st r p pr e).
  - intros s deviceId r p o e.
    apply openDeviceHandle_after_failed_close.
  - intros r p e s Hs Hf.
    pose proof (reachable_resultsWf _ Hs) as Hw.
    split; [|split; [|split]].
    + intros l s' Hstep. split; [by eapply reachable_step|].
      by apply (failedClose_step _ _ _ l s).
    + intros deviceId Hid. by apply (failedClose_openDeviceHandle r p e).
    + intros t a Ha Hk. by apply (failedClose_resume_503_rejected r p e).
    + intros t a s' Ha Hk Hstep.
      by apply (failedClose_resume_151_rejected r p e t a s).
  - intros st deviceId r p pr e ls st'.
    apply openDeviceHandle_fails.
Qed.

(** Device id 1, whose handle the caller closes while calling
    openDeviceHandle(1) again before close() (promise 6) is answered.
    close() fails with error 19; the reaction of the caller to the failed
    closeDeviceHandle is queued before the call of openDeviceHandle has
    continued (activation 5), and calls openDeviceHandle(1) once more.
    The marker holds the rejected close(), the pending-open marker is
    still set, and the device is in the state failedClose; the retry
    (promise 9) is rejected with error 19 and the device has no handle.
    And on the same device after a close() that failed with nothing else
    under way: a call of openDeviceHandle makes no WebUSB call and fails
    with error 19. *)
Lemma C9_witness :
  scheduled (Example.afterTurns Example.jsCloseFailedOverlapping)
  ∧ jobs (Example.afterTurns Example.jsCloseFailedOverlapping)
    = [CallerJob; Reaction 5]
  ∧ Map_get
      (idToDeviceMap_
         (adaptor (Example.afterTurns Example.jsCloseFailedOverlapping))) 1
    = Some 0
  ∧ closeOperationPromise
      (deviceStates
         (adaptor (Example.afterTurns Example.jsCloseFailedOverlapping)) 0)
    = Some 6
  ∧ promises (adaptor (Example.afterTurns Example.jsCloseFailedOverlapping))
    !! 6
    = Some {| origin := WebusbClose 7;
              settled := Some (Rejected (WebusbError 19)) |}
  ∧ openOperationPromise
      (deviceStates
         (adaptor (Example.afterTurns Example.jsCloseFailedOverlapping)) 0)
    = Some 8
  ∧ failedClose 0 6 (WebusbError 19)
      (adaptor (Example.afterTurns Example.jsCloseFailedOverlapping))
  ∧ failedClose 0 6 (WebusbError 19)
      (call (OpenDeviceHandle 1)
         (adaptor (Example.afterTurns Example.jsCloseFailedOverlapping)))
  ∧ turns (CallerCall (OpenDeviceHandle 1)
             :: Example.jsRetry ++ [CallerReturn; CallerReturn])
      (Example.afterTurns Example.jsCloseFailedOverlapping)
    = Some (Example.afterTurns Example.jsRetried)
  ∧ jobs (Example.afterTurns Example.jsRetried) = []
  ∧ length
      (promises
         (adaptor (Example.afterTurns Example.jsCloseFailedOverlapping)))
    = 9
  ∧ promises (adaptor (Example.afterTurns Example.jsRetried))
    !! length
         (promises
            (adaptor (Example.afterTurns Example.jsCloseFailedOverlapping)))
    = Some (settledPromise AsyncFunction (Rejected (WebusbError 19)))
  ∧ handles (deviceStates (adaptor (Example.afterTurns Example.jsRetried)) 0)
    = ∅
  ∧ Map_get (idToDeviceMap_ (Example.after Example.closeFailed1)) 1 = Some 0
  ∧ closeOperationPromise (deviceStates (Example.after Example.closeFailed1) 0)
    = Some 6
  ∧ promises (Example.after Example.closeFailed1) !! 6
    = Some {| origin := WebusbClose 7;
              settled := Some (Rejected (WebusbError 19)) |}
  ∧ handles (deviceStates (Example.after Example.closeFailed1) 0) = ∅
  ∧ openOperationPromise (deviceStates (Example.after Example.closeFailed1) 0)
    = None
  ∧ (∃ s3, run [Resume 4; Resume 5]
               (call (OpenDeviceHandle 1)
                  (Example.after Example.closeFailed1))
           = Some s3
           ∧ promises s3 !! 7
             = Some {| origin := AsyncFunction;
                       settled := Some (Rejected (WebusbError 19)) |}
           ∧ issued (WebusbOpen 7) s3
             = issued (WebusbOpen 7) (Example.after Example.closeFailed1)).
Proof.
  assert (scheduled (Example.afterTurns Example.jsCloseFailedOverlapping))
    as Hsch.
  { apply (scheduled_turns Example.jsCloseFailedOverlapping
             {| adaptor := constructor Example.usb; jobs := [] |});
      [constructor|vm_compute; reflexivity]. }
  assert (Map_get
            (idToDeviceMap_
               (adaptor (Example.afterTurns Example.jsCloseFailedOverlapping)))
            1 = Some 0) as Hid0 by (vm_compute; reflexivity).
  assert (closeOperationPromise
            (deviceStates
               (adaptor (Example.afterTurns Example.jsCloseFailedOverlapping))
               0) = Some 6) as Hc0 by (vm_compute; reflexivity).
  assert (promises
            (adaptor (Example.afterTurns Example.jsCloseFailedOverlapping))
          !! 6
          = Some {| origin := WebusbClose 7;
                    settled := Some (Rejected (WebusbError 19)) |})
    as Hp0 by (vm_compute; reflexivity).
  assert (turns (CallerCall (OpenDeviceHandle 1)
                   :: Example.jsRetry ++ [CallerReturn; CallerReturn])
            (Example.afterTurns Example.jsCloseFailedOverlapping)
          = Some (Example.afterTurns Example.jsRetried)) as Hturns
    by (vm_compute; reflexivity).
  assert (jobs (Example.afterTurns Example.jsRetried) = []) as Hq
    by (vm_compute; reflexivity).
  assert (Map_get (idToDeviceMap_ (Example.after Example.closeFailed1)) 1
          = Some 0) as Hid by (vm_compute; reflexivity).
  assert (closeOperationPromise
            (deviceStates (Example.after Example.closeFailed1) 0) = Some 6)
    as Hc by (vm_compute; reflexivity).
  assert (promises (Example.after Example.closeFailed1) !! 6
          = Some {| origin := WebusbClose 7;
                    settled := Some (Rejected (WebusbError 19)) |})
    as Hp by (vm_compute; reflexivity).
  assert (handles (deviceStates (Example.after Example.closeFailed1) 0) = ∅)
    as Hh by (vm_compute; reflexivity).
  assert (openOperationPromise
            (deviceStates (Example.after Example.closeFailed1) 0) = None)
    as Ho by (vm_compute; reflexivity).
  pose proof C9_failed_close_blocks_open
    as (_ & Henter & Hseq & Hinv & Hfails).
  destruct (Henter _ 0 6 _ (WebusbError 19) Hsch Hc0 Hp0 eq_refl)
    as [Hs0 Hf0].
  destruct (Hfails _ 1 0 6 _ (WebusbError 19) _ _ Hsch Hc0 Hp0 eq_refl
              Hid0 Hturns) as (_ & Hrej & Hh9 & _).
  split; [exact Hsch|]. split; [vm_compute; reflexivity|].
  split; [exact Hid0|]. split; [exact Hc0|]. split; [exact Hp0|].
  split; [vm_compute; reflexivity|]. split; [exact Hf0|].
  split.
  { by apply (proj1 (Hinv _ _ _ _ Hs0 Hf0) (Call (OpenDeviceHandle 1))). }
  split; [exact Hturns|]. split; [exact Hq|].
  split; [vm_compute; reflexivity|].
  split; [exact (Hrej Hq)|]. split; [exact Hh9|].
  split; [exact Hid|]. split; [exact Hc|]. split; [exact Hp|].
  split; [exact Hh|]. split; [exact Ho|].
  destruct (Hseq _ 1 0 6 (WebusbClose 7) (WebusbError 19) Hid Hc Hp Hh Ho)
    as (_ & _ & s3 & Hrun & Hp3 & Hi3 & _).
  exists s3. split; [exact Hrun|]. split.
  - rewrite Hp3. vm_compute. reflexivity.
  - by apply Hi3.
Defined.




(* ===================================================================== *)
(** ** The tree and the walk: what the extraction keeps *)
(* ===================================================================== *)

Import Js.

Module TreeFacts.
Import Descriptor DescriptorFacts.

Lemma fmap_alter_absorb {A B} (f : A → B) (g : A → A) i (l : list A) :
  (∀ x, f (g x) = f x) → f <$> alter g i l = f <$> l.
Proof.
  intros Hfg. revert i. induction l as [|x l IH]; intros [|i]; simpl; try done.
  - by rewrite Hfg.
  - f_equal. apply IH.
Qed.

Lemma fmap_fixed {A} (f : A → A) (l : list A) :
  (∀ i x, l !! i = Some x → f x = x) → f <$> l = l.
Proof.
  intros Hf. apply list_eq. intros i. rewrite list_lookup_fmap.
  destruct (l !! i) as [x|] eqn:Hx; simpl; [|done]. by rewrite (Hf i x).
Qed.

Lemma withoutExtraData_setExtraData n x c :
  withoutExtraData (setExtraData n x c) = withoutExtraData c.
Proof.
  destruct n as [|i|i j]; unfold withoutExtraData, setExtraData; simpl.
  - done.
  - by rewrite fmap_alter_absorb.
  - rewrite fmap_alter_absorb; [done|].
    intros itf. unfold interfaceWithoutExtraData. simpl.
    by rewrite fmap_alter_absorb.
Qed.

Lemma withoutExtraData_appendExtraData bs n c :
  withoutExtraData (appendExtraData bs n c) = withoutExtraData c.
Proof.
  unfold appendExtraData. destruct (extraDataOf n c); [|done].
  apply withoutExtraData_setExtraData.
Qed.

Lemma withoutExtraData_switchDescriptorType d len ty st st1 :
  switchDescriptorType d len ty st = Normal st1 →
  withoutExtraData (libusbJsConfiguration st1)
  = withoutExtraData (libusbJsConfiguration st).
Proof.
  destruct (decide (isExtraType ty)) as [Hty|Hty].
  - rewrite switchDescriptorType_extra by done. intros [= <-]. simpl.
    apply withoutExtraData_appendExtraData.
  - intros H. by rewrite (switchDescriptorType_standard _ _ _ _ _ Hty H).
Qed.

Lemma withoutExtraData_loopBody d tl st st' :
  loopBody d tl st = Normal (NextIteration st') →
  withoutExtraData (libusbJsConfiguration st')
  = withoutExtraData (libusbJsConfiguration st).
Proof.
  intros (len & ty & st1 & _ & Hsw & ->)%loopBody_next. simpl.
  by eapply withoutExtraData_switchDescriptorType.
Qed.

Lemma withoutExtraData_walk fuel d tl st r c' :
  walk fuel d tl st = Some (r, c') →
  withoutExtraData c' = withoutExtraData (libusbJsConfiguration st).
Proof.
  revert st. induction fuel as [|fuel IH]; intros st.
  - simpl. case_decide; [done|]. by intros [= _ <-].
  - rewrite walk_S. case_decide; [|by intros [= _ <-]].
    destruct (loopBody d tl st) as [[st'| |]|e] eqn:Hb;
      try by intros [= _ <-].
    intros Hw. rewrite (IH _ Hw). by eapply withoutExtraData_loopBody.
Qed.

Lemma withoutExtraData_parseDescriptors tl r c x c' :
  parseDescriptors tl r c = Some (x, c') →
  withoutExtraData c' = withoutExtraData c.
Proof.
  unfold parseDescriptors. destruct (data r) as [d|]; [|by intros [= _ <-]].
  repeat case_decide; try by intros [= _ <-].
  destruct (walk tl d tl (initialWalkState c)) as [[r' c'']|] eqn:Hw; [|done].
  intros [= _ <-]. by rewrite (withoutExtraData_walk _ _ _ _ _ _ Hw).
Qed.

Lemma withoutExtraData_extraction first second c x c' :
  fetchAndFillConfigurationExtraDataForOpenedDevice first second c
  = Some (x, c') →
  withoutExtraData c' = withoutExtraData c.
Proof.
  unfold fetchAndFillConfigurationExtraDataForOpenedDevice.
  destruct (await first ≫= readTotalLength) as [[tl|]|e];
    try by intros [= _ <-].
  destruct (await second) as [r|e]; [|by intros [= _ <-]].
  apply withoutExtraData_parseDescriptors.
Qed.

Lemma withoutExtraData_noExtraData c :
  noExtraData c → withoutExtraData c = c.
Proof.
  intros Hno. destruct c as [a v itfs x].
  pose proof (Hno ConfigurationNode _ eq_refl) as Hx. simpl in Hx. subst x.
  unfold withoutExtraData, setConfigurationExtraData, setInterfaces.
  simpl. f_equal.
  apply fmap_fixed. intros i itf Hi.
  pose proof (Hno (InterfaceNode i) (interfaceExtraData itf)) as Hitf.
  simpl in Hitf. rewrite Hi in Hitf. specialize (Hitf eq_refl).
  destruct itf as [n cl sc pr es y]. simpl in *. subst y.
  unfold interfaceWithoutExtraData, setInterfaceExtraData, setEndpoints.
  simpl. f_equal.
  apply fmap_fixed. intros j e Hj.
  pose proof (Hno (EndpointNode i j) (endpointExtraData e)) as He.
  simpl in He. rewrite Hi in He. simpl in He. rewrite Hj in He.
  specialize (He eq_refl).
  destruct e as [ad di ty mp z]. simpl in *. subst z.
  by unfold setEndpointExtraData.
Qed.

(** The pointers after a pass refer to the tree, and the endpoint to the
    current interface. *)
Lemma endpointOfCurrentInterface_switchDescriptorType d len ty st st1 :
  endpointOfCurrentInterface st →
  switchDescriptorType d len ty st = Normal st1 →
  endpointOfCurrentInterface st1.
Proof.
  intros Hst. unfold switchDescriptorType.
  repeat case_decide;
    try destruct (getUint8 d (offset st + 2)) as [b|];
    unfold mret, Completion_ret; simpl; intros; simplify_eq/=;
    try done.
  intros i j. simpl.
  destruct (currentInterface st) as [i'|] eqn:Hi; [|done].
  unfold findEndpoint. intros He.
  destruct (interfaces (libusbJsConfiguration st) !! i') as [itf|]; [|done].
  simpl in He.
  destruct (list_find _ (endpoints itf)) as [[j' ?]|]; [|done].
  simpl in He. by injection He as -> ->.
Qed.

Lemma iterations_pointers fuel d tl c st :
  validPointers st → endpointOfCurrentInterface st →
  withoutExtraData (libusbJsConfiguration st) = withoutExtraData c →
  Forall (λ st', validPointers st' ∧ endpointOfCurrentInterface st'
                 ∧ withoutExtraData (libusbJsConfiguration st')
                   = withoutExtraData c)
         (iterations fuel d tl st).
Proof.
  revert st. induction fuel as [|fuel IH]; intros st Hv He Hc.
  - simpl. case_decide; constructor.
  - rewrite iterations_S. case_decide; [|constructor].
    constructor; [done|].
    destruct (loopBody d tl st) as [[st'| |]|e] eqn:Hb; try constructor.
    pose proof (withoutExtraData_loopBody _ _ _ _ Hb) as Hc'.
    apply loopBody_next in Hb as (len & ty & st1 & _ & Hsw & ->).
    apply IH.
    + pose proof (switchDescriptorType_validPointers _ _ _ _ _ Hv Hsw)
        as [H1 H2].
      split; simpl; [apply H1|apply H2].
    + pose proof (endpointOfCurrentInterface_switchDescriptorType
                    _ _ _ _ _ He Hsw) as H1.
      intros i j. simpl. apply H1.
    + by rewrite Hc', Hc.
Qed.

Lemma walk_Normal fuel d tl st r c' :
  tl ≤ length d → walk fuel d tl st = Some (r, c') → ∃ exit, r = Normal exit.
Proof.
  intros Htl Hw. destruct r as [exit|e]; [by eexists|].
  by destruct (walk_no_throw fuel d tl st e c' Htl).
Qed.

Lemma getUint16_short header :
  length header < 4 → getUint16 header 2 = Throw RangeError.
Proof.
  intros Hlen. unfold getUint16.
  destruct (header !! 2) as [lo|] eqn:Hlo; [|done].
  destruct (header !! (2 + 1)) as [hi|] eqn:Hhi; [|done].
  apply lookup_lt_Some in Hhi. lia.
Qed.

Lemma getUint16_Throw header e :
  getUint16 header 2 = Throw e → length header < 4 ∧ e = RangeError.
Proof.
  unfold getUint16.
  destruct (header !! 2) as [lo|] eqn:Hlo.
  - destruct (header !! (2 + 1)) as [hi|] eqn:Hhi; [done|].
    intros [= <-]. apply lookup_ge_None in Hhi. split; [lia|done].
  - intros [= <-]. apply lookup_ge_None in Hlo. split; [lia|done].
Qed.

(** [map] followed by [filter(item => item !== null)]. *)
Lemma omap_filter_fmap {A B C} (f : A → option B) (g : B → C) (h : A → C)
    (P : A → Prop) `{!∀ x, Decision (P x)} (l : list A) :
  (∀ x, P x ↔ is_Some (f x)) →
  (∀ x y, f x = Some y → g y = h x) →
  g <$> omap f l = h <$> filter P l.
Proof.
  intros HP Hg. induction l as [|x l IH]; [done|].
  rewrite filter_cons. destruct (f x) as [y|] eqn:Hy.
  - rewrite (omap_cons_Some _ _ _ _ Hy).
    rewrite decide_True by (apply HP; eauto).
    rewrite !fmap_cons. by rewrite (Hg _ _ Hy), IH.
  - rewrite (omap_cons_None _ _ _ Hy).
    rewrite decide_False; [done|]. rewrite HP, Hy. by intros [? [=]].
Qed.

Lemma getLibusbJsEndpointType_is_Some t :
  t ∈ ["bulk"; "interrupt"; "isochronous"]
  ↔ is_Some (getLibusbJsEndpointType t).
Proof.
  unfold getLibusbJsEndpointType. repeat case_decide; subst.
  - split; [eauto|]. intros _. set_solver.
  - split; [eauto|]. intros _. set_solver.
  - split; [eauto|]. intros _. set_solver.
  - split; [|by intros [? [=]]].
    intros Hin. repeat (apply elem_of_cons in Hin as [->|Hin]; [done|]).
    by apply elem_of_nil in Hin.
Qed.

End TreeFacts.

Import Descriptor DescriptorFacts TreeFacts.

(** X1: the extraction of extra data changes nothing but the extraData of
    the objects of the tree: with the extraData keys removed, the tree it
    leaves is the tree it was given, whatever the two transfers returned
    and however the walk ended; for a tree that had no extraData, removing
    the keys gives back the tree that the conversion from WebUSB
    produced. *)
Theorem X1_extraction_changes_only_extra_data first second c x c' :
  fetchAndFillConfigurationExtraDataForOpenedDevice first second c
  = Some (x, c') →
  withoutExtraData c' = withoutExtraData c
  ∧ (noExtraData c → withoutExtraData c' = c).
Proof.
  intros Hf.
  pose proof (withoutExtraData_extraction _ _ _ _ _ Hf) as Heq.
  split; [done|]. intros Hno. by rewrite Heq, withoutExtraData_noExtraData.
Qed.

Lemma X1_witness :
  ∃ c',
    fetchAndFillConfigurationExtraDataForOpenedDevice
      (Example.ok (take 9 Example.syntheticBlob))
      (Example.ok Example.syntheticBlob) Example.configuration1
    = Some (Normal (Some EndOfBlob), c')
    ∧ extraDataOf (EndpointNode 0 0) c' = Some (Some [x04; xff; xaa; xbb])
    ∧ withoutExtraData c' = Example.configuration1.
Proof.
  eexists. split; [vm_compute; reflexivity|]. split; [reflexivity|].
  refine (proj2 (X1_extraction_changes_only_extra_data
                   (Example.ok (take 9 Example.syntheticBlob))
                   (Example.ok Example.syntheticBlob)
                   Example.configuration1 _ _ _) _).
  - vm_compute; reflexivity.
  - apply getLibusbJsConfigurationDescriptor_noExtraData.
Defined.

(** X2: every read of the walk is inside the blob.  (1) A walk over a blob
    that is at least totalLength long never throws.  (2) The extraction
    throws only when one of the two transfers is rejected, with the error
    of the rejection, or when the first transfer succeeds with fewer than
    the 4 bytes that hold totalLength, with a RangeError; the tree is then
    as it was given.  (3) A first transfer with status "ok" and fewer than
    4 bytes makes the extraction throw the RangeError. *)
Theorem X2_extraction_reads_inside_the_blob :
  (∀ fuel d tl st r c',
     tl ≤ length d → walk fuel d tl st = Some (r, c') →
     ∃ exit, r = Normal exit)
  ∧ (∀ first second c e c',
       fetchAndFillConfigurationExtraDataForOpenedDevice first second c
       = Some (Throw e, c') →
       c' = c
       ∧ (first = Rejected e
          ∨ (∃ r1 header, first = Fulfilled r1 ∧ status r1 = "ok"
                          ∧ data r1 = Some header ∧ length header < 4
                          ∧ e = RangeError)
          ∨ (second = Rejected e
             ∧ ∃ r1 totalLength,
                 first = Fulfilled r1
                 ∧ readTotalLength r1 = Normal (Some totalLength))))
  ∧ (∀ r1 header second c,
       status r1 = "ok" → data r1 = Some header → length header < 4 →
       fetchAndFillConfigurationExtraDataForOpenedDevice
         (Fulfilled r1) second c
       = Some (Throw RangeError, c)).
Proof.
  split; [|split].
  - intros fuel d tl st r c'. apply walk_Normal.
  - intros first second c e c' Hf.
    split.
    { eapply fetchAndFillConfigurationExtraDataForOpenedDevice_unchanged;
        [done|]. by intros exit. }
    revert Hf. unfold fetchAndFillConfigurationExtraDataForOpenedDevice.
    destruct first as [r1|e1]; simpl.
    + unfold readTotalLength at 1.
      destruct (data r1) as [header|] eqn:Hdata; [|done].
      case_decide as Hst; [done|].
      destruct (getUint16 header 2) as [tl|e2] eqn:Hlen; simpl.
      * destruct second as [r2|e2]; simpl.
        -- unfold parseDescriptors.
           destruct (data r2) as [d|]; [|done].
           repeat case_decide; try done.
           destruct (walk tl d tl (initialWalkState c)) as [[r c'']|] eqn:Hw;
             [|done].
           assert (tl ≤ length d) as Htl by lia.
           destruct (walk_Normal _ _ _ _ _ _ Htl Hw) as [exit ->].
           done.
        -- intros [= <- <-]. right. right. split; [done|].
           exists r1, tl. split; [done|]. unfold readTotalLength.
           rewrite Hdata, decide_False by (by intros []). by rewrite Hlen.
      * intros [= <- <-]. right. left.
        apply getUint16_Throw in Hlen as [? ->].
        by exists r1, header.
    + intros [= <- <-]. by left.
  - intros r1 header second c Hst Hdata Hlen.
    unfold fetchAndFillConfigurationExtraDataForOpenedDevice. simpl.
    unfold readTotalLength. rewrite Hdata.
    rewrite decide_False by (by intros []).
    by rewrite getUint16_short.
Qed.

Lemma X2_witness :
  (∃ exit c',
     walk 29 Example.syntheticBlob 29
       (initialWalkState Example.configuration1) = Some (Normal exit, c'))
  ∧ fetchAndFillConfigurationExtraDataForOpenedDevice
      (Example.ok [x09; x02; x1d]) (Example.ok Example.syntheticBlob)
      Example.configuration1
    = Some (Throw RangeError, Example.configuration1).
Proof.
  split.
  - assert (walk 29 Example.syntheticBlob 29
              (initialWalkState Example.configuration1)
            = Some (Normal EndOfBlob,
                    appendExtraData [x04; xff; xaa; xbb] (EndpointNode 0 0)
                      Example.configuration1)) as Hw
      by (vm_compute; reflexivity).
    assert (29 ≤ length Example.syntheticBlob) as Hlen
      by (vm_compute; lia).
    destruct (proj1 X2_extraction_reads_inside_the_blob _ _ _ _ _ _
                Hlen Hw) as [exit Hexit].
    exists exit. eexists. rewrite <- Hexit. exact Hw.
  - apply (proj2 (proj2 X2_extraction_reads_inside_the_blob)
             {| status := "ok"; data := Some [x09; x02; x1d] |}
             [x09; x02; x1d]); [reflexivity|reflexivity|vm_compute; lia].
Defined.

(** X3: at every pass of the walk that the extraction makes, the current
    interface and the current endpoint are objects of the tree, the current
    endpoint is an endpoint of the current interface, the object that an
    extra record would go to exists, and the tree differs from the one given
    in extraData only. *)
Theorem X3_walk_pointers_stay_inside_the_tree fuel d tl c st :
  st ∈ iterations fuel d tl (initialWalkState c) →
  validPointers st
  ∧ endpointOfCurrentInterface st
  ∧ validNode (targetObject st) (libusbJsConfiguration st)
  ∧ withoutExtraData (libusbJsConfiguration st) = withoutExtraData c.
Proof.
  intros Hst.
  pose proof (iterations_pointers fuel d tl c (initialWalkState c)
                (initialWalkState_validPointers c)) as Hall.
  rewrite Forall_forall in Hall.
  destruct (Hall ltac:(by intros i j) eq_refl st Hst) as (Hv & He & Hc).
  repeat split; try done; try apply Hv. by apply targetObject_valid.
Qed.

Lemma X3_witness :
  let st := {| offset := 25; currentInterface := Some 0;
               currentEndpoint := Some (0, 0);
               libusbJsConfiguration := Example.configuration1 |} in
  st ∈ iterations 29 Example.syntheticBlob 29
         (initialWalkState Example.configuration1)
  ∧ validNode (targetObject st) (libusbJsConfiguration st)
  ∧ endpointOfCurrentInterface st.
Proof.
  intros st.
  assert (st ∈ iterations 29 Example.syntheticBlob 29
                 (initialWalkState Example.configuration1)) as Hst.
  { vm_compute. do 3 right. left. }
  split; [exact Hst|].
  destruct (X3_walk_pointers_stay_inside_the_tree _ _ _ _ _ Hst)
    as (_ & He & Hv & _).
  split; [exact Hv|exact He].
Defined.

(** X4: the conversion of a WebUSB configuration keeps the configuration
    value, marks the configuration active exactly when its value is the
    active one, keeps the interfaces that have an alternate setting, in
    their order and under their number, and drops the others; an interface
    is described by its first alternate setting, of which the endpoints of
    type bulk, interrupt or isochronous are kept, in their order, and the
    others dropped; the address of an endpoint is its number plus 128 for
    the direction "in". *)
Theorem X4_conversion_drops_what_it_cannot_describe :
  (∀ w a,
     let c := getLibusbJsConfigurationDescriptor w a in
     configurationValue c = usbConfigurationValue w
     ∧ (active c = true ↔ a = Some (usbConfigurationValue w))
     ∧ interfaceNumber <$> interfaces c
       = usbInterfaceNumber
           <$> filter (λ i, usbAlternates i ≠ []) (usbInterfaces w))
  ∧ (∀ w, usbAlternates w = [] → getLibusbJsInterfaceDescriptor w = None)
  ∧ (∀ w alt alts,
       usbAlternates w = alt :: alts →
       ∃ itf,
         getLibusbJsInterfaceDescriptor w = Some itf
         ∧ interfaceNumber itf = usbInterfaceNumber w
         ∧ interfaceClass itf = usbInterfaceClass alt
         ∧ interfaceSubclass itf = usbInterfaceSubclass alt
         ∧ interfaceProtocol itf = usbInterfaceProtocol alt
         ∧ (λ e, (endpointAddress e, maxPacketSize e)) <$> endpoints itf
           = (λ e, (usbEndpointNumber e
                    + (if decide (usbDirection e = "in") then 128 else 0),
                    usbPacketSize e))
               <$> filter (λ e, usbType e
                                ∈ ["bulk"; "interrupt"; "isochronous"])
                          (usbEndpoints alt)).
Proof.
  split; [|split].
  - intros w a c. split; [done|]. split.
    + unfold c. simpl. rewrite bool_decide_eq_true. naive_solver.
    + unfold c. simpl.
      apply (omap_filter_fmap getLibusbJsInterfaceDescriptor).
      * intros i. unfold getLibusbJsInterfaceDescriptor.
        destruct (usbAlternates i); (split; [intros ?|intros [? ?]]);
          first [done|eauto].
      * intros i itf. unfold getLibusbJsInterfaceDescriptor.
        destruct (usbAlternates i); [done|]. by intros [= <-].
  - intros w Hw. unfold getLibusbJsInterfaceDescriptor. by rewrite Hw.
  - intros w alt alts Hw. unfold getLibusbJsInterfaceDescriptor. rewrite Hw.
    eexists. split; [done|]. simpl. repeat split.
    apply (omap_filter_fmap getLibusbJsEndpointDescriptor).
    + intros e. rewrite getLibusbJsEndpointType_is_Some.
      unfold getLibusbJsEndpointDescriptor.
      destruct (getLibusbJsEndpointType (usbType e));
        (split; [intros [? ?]|intros [? ?]]); first [done|eauto].
    + intros e e'. unfold getLibusbJsEndpointDescriptor.
      destruct (getLibusbJsEndpointType (usbType e)); [|done].
      by intros [= <-].
Qed.

Lemma X4_witness :
  getLibusbJsInterfaceDescriptor
    {| usbInterfaceNumber := 3; usbAlternates := [] |} = None
  ∧ ∃ itf,
      getLibusbJsInterfaceDescriptor
        {| usbInterfaceNumber := 0;
           usbAlternates :=
             [{| usbInterfaceClass := 11; usbInterfaceSubclass := 0;
                 usbInterfaceProtocol := 0;
                 usbEndpoints :=
                   [Example.usbEndpoint81;
                    {| usbEndpointNumber := 2; usbDirection := "out";
                       usbType := "control"; usbPacketSize := 64 |}] |}] |}
      = Some itf
      ∧ (λ e, (endpointAddress e, maxPacketSize e)) <$> endpoints itf
        = [(129, 8)].
Proof.
  split.
  - apply (proj1 (proj2 X4_conversion_drops_what_it_cannot_describe)).
    reflexivity.
  - destruct (proj2 (proj2 X4_conversion_drops_what_it_cannot_describe)
                {| usbInterfaceNumber := 0;
                   usbAlternates :=
                     [{| usbInterfaceClass := 11; usbInterfaceSubclass := 0;
                         usbInterfaceProtocol := 0;
                         usbEndpoints :=
                           [Example.usbEndpoint81;
                            {| usbEndpointNumber := 2; usbDirection := "out";
                               usbType := "control";
                               usbPacketSize := 64 |}] |}] |}
                _ _ eq_refl) as (itf & Hitf & _ & _ & _ & _ & Heps).
    exists itf. split; [exact Hitf|]. rewrite Heps. vm_compute. reflexivity.
Defined.

(** X5: the wValue of the two GET_DESCRIPTOR requests holds the descriptor
    type, configuration (2), in its high byte and the index of the
    configuration, its value minus one, in its low byte, for configuration
    values 1 to 256; for the configuration value 0 it is -1. *)
Theorem X5_controlRequestValue_layout c :
  (1 ≤ configurationValue c ≤ 256 →
   controlRequestValue c = (512 + (Z.of_nat (configurationValue c) - 1))%Z
   ∧ Z.shiftr (controlRequestValue c) 8
     = Z.of_nat CONFIGURATION_DESCRIPTOR_TYPE
   ∧ Z.land (controlRequestValue c) 255
     = (Z.of_nat (configurationValue c) - 1)%Z)
  ∧ (configurationValue c = 0 → controlRequestValue c = (-1)%Z).
Proof.
  unfold controlRequestValue, CONFIGURATION_DESCRIPTOR_TYPE.
  change (Z.shiftl (Z.of_nat 2) 8) with 512%Z.
  split.
  - intros Hv.
    set (x := (Z.of_nat (configurationValue c) - 1)%Z).
    assert (0 ≤ x < 256)%Z as Hx by (unfold x; lia).
    clearbody x.
    assert (Z.land 512 x = 0%Z) as Hland.
    { apply Z.bits_inj'. intros n Hn. rewrite Z.land_spec, Z.bits_0.
      destruct (decide (n = 9%Z)) as [->|Hne].
      - replace (Z.testbit x 9) with false; [by rewrite andb_false_r|].
        symmetry. apply Z.bits_above_log2; [lia|].
        destruct (decide (x = 0%Z)) as [->|]; [simpl; lia|].
        apply Z.log2_lt_pow2; lia.
      - change 512%Z with (2 ^ 9)%Z. rewrite Z.pow2_bits_false by lia. done. }
    assert (Z.lor 512 x = (512 + x)%Z) as Hlor.
    { rewrite <- Z.lxor_lor by done. symmetry. by apply Z.add_nocarry_lxor. }
    rewrite Hlor. split; [done|]. split.
    + rewrite Z.shiftr_div_pow2 by lia. change (2 ^ 8)%Z with 256%Z.
      change (Z.of_nat 2) with 2%Z.
      symmetry. apply Z.div_unique with (r := x); lia.
    + change 255%Z with (Z.ones 8). rewrite Z.land_ones by lia.
      change (2 ^ 8)%Z with 256%Z.
      symmetry. apply Z.mod_unique with (q := 2%Z); lia.
  - intros ->. reflexivity.
Qed.

Lemma X5_witness :
  controlRequestValue Example.configuration1 = 512%Z
  ∧ controlRequestValue
      (getLibusbJsConfigurationDescriptor
         {| usbConfigurationValue := 0; usbInterfaces := [] |} None)
    = (-1)%Z.
Proof.
  split.
  - assert (1 ≤ configurationValue Example.configuration1 ≤ 256) as Hv
      by (vm_compute; lia).
    apply (proj1 (proj1 (X5_controlRequestValue_layout Example.configuration1)
                    Hv)).
  - apply (proj2 (X5_controlRequestValue_layout _)). reflexivity.
Defined.

(* ===================================================================== *)
(** ** Ids and handles in every state *)
(* ===================================================================== *)

Import Js.

Module CountersFacts.
Import Descriptor Adaptor RegistryFacts AdaptorFacts FailedCloseFacts
  ResultsFacts.

(** *** The loop of [updateDeviceMap_], continued *)

Lemma updateDeviceMap_created_init s0 : updateDeviceMap_created s0 [] [] s0.
Proof.
  split; try done.
  - by intros k r []%elem_of_nil.
  - intros r ??. lia.
  - by intros _ k1 k2 r1 r2 []%elem_of_nil.
Qed.

Lemma updateDeviceMap_inv_entry_lt s0 processed m s k r :
  registryWf s0 → updateDeviceMap_inv s0 processed m s →
  (k, r) ∈ m → k < nextFreeDeviceId_ s ∧ r < nextDeviceState s.
Proof.
  intros Hwf Hinv Hin.
  pose proof (inv_nextId _ _ _ _ Hinv). pose proof (inv_nextRef _ _ _ _ Hinv).
  destruct (inv_entries _ _ _ _ Hinv _ _ Hin) as [_ [[Hk _]|(? & ? & _)]];
    [|lia].
  apply Map_get_Some_elem, Hwf in Hk as [? ?]. lia.
Qed.

Lemma updateDeviceMap_body_created s0 processed m s d m' s' :
  registryWf s0 → updateDeviceMap_inv s0 processed m s →
  updateDeviceMap_created s0 processed m s →
  updateDeviceMap_body (m, s) d = (m', s') →
  updateDeviceMap_created s0 (processed ++ [d]) m' s'.
Proof.
  intros Hwf Hinv Hc. unfold updateDeviceMap_body.
  rewrite (updateDeviceMap_inv_getDeviceId_ _ _ _ _ _ Hwf Hinv).
  assert (∀ k r, (k, r) ∈ m →
                 k < nextFreeDeviceId_ s ∧ r < nextDeviceState s) as Hlt'.
  { intros k r. by apply (updateDeviceMap_inv_entry_lt s0 processed). }
  destruct Hc as [Hlock Hent Hfresh Hdev].
  destruct (getDeviceId_ d s0) as [k|] eqn:Hd.
  - (* an already tracked device *)
    rewrite (inv_map _ _ _ _ Hinv).
    destruct (getDeviceId_Some _ _ _ Hd) as (r & Hk & Hdevr). rewrite Hk.
    intros [= <- <-].
    assert (r < nextDeviceState s0) as Hr.
    { by apply Map_get_Some_elem, Hwf in Hk as [_ ?]. }
    split; try done.
    + intros k' r' [[= -> ->]|Hin]%Map_set_elem; [lia|by apply Hent].
    + intros (Hnd & Hnotin & _)%NoDup_app.
      assert (∀ k' r', (k', r') ∈ m →
                       webusbDevice (deviceStates s r') ≠ d) as Hother.
      { intros k' r' Hin Heq.
        destruct (inv_entries _ _ _ _ Hinv _ _ Hin) as [Hp _].
        rewrite Heq in Hp. apply (Hnotin d Hp). left. }
      pose proof (inv_old _ _ _ _ Hinv r Hr) as Hsame.
      intros k1 k2 r1 r2 [[= -> ->]|Hin1]%Map_set_elem
             [[= -> ->]|Hin2]%Map_set_elem Heq; try done.
      * rewrite Hsame, Hdevr in Heq. by destruct (Hother _ _ Hin2).
      * rewrite Hsame, Hdevr in Heq. by destruct (Hother _ _ Hin1).
      * by apply (Hdev Hnd k1 k2 r1 r2).
  - (* a new device *)
    cbn [allocDeviceState setNextFreeDeviceId_ nextDeviceState deviceStates].
    intros [= <- <-].
    pose proof (inv_nextRef _ _ _ _ Hinv) as HnRef.
    split; cbn [idToDeviceMap_ nextFreeDeviceId_ nextDeviceState deviceStates
                setDeviceStates setNextFreeDeviceId_ nextFreeDeviceHandle_
                promises activations].
    + lia.
    + intros k' r' [[= -> ->]|Hin]%Map_set_elem; [lia|by apply Hent].
    + intros r Hr1 Hr2. destruct (decide (r = nextDeviceState s)) as [->|].
      * by rewrite fn_lookup_insert.
      * rewrite fn_lookup_insert_ne by done. apply Hfresh; lia.
    + intros (Hnd & Hnotin & _)%NoDup_app.
      assert (∀ k' r', (k', r') ∈ m →
                <[nextDeviceState s := newDeviceState d]> (deviceStates s) r'
                = deviceStates s r'
                ∧ webusbDevice (deviceStates s r') ≠ d) as Hother.
      { intros k' r' Hin. destruct (Hlt' _ _ Hin) as [_ ?].
        split; [by rewrite fn_lookup_insert_ne by lia|].
        intros Heq. destruct (inv_entries _ _ _ _ Hinv _ _ Hin) as [Hp _].
        rewrite Heq in Hp. apply (Hnotin d Hp). left. }
      intros k1 k2 r1 r2 [[= -> ->]|Hin1]%Map_set_elem
             [[= -> ->]|Hin2]%Map_set_elem; try done.
      * destruct (Hother _ _ Hin2) as [-> Hne].
        rewrite fn_lookup_insert. simpl. intros Heq. by destruct Hne.
      * destruct (Hother _ _ Hin1) as [-> Hne].
        rewrite fn_lookup_insert. simpl. intros Heq. by destruct Hne.
      * destruct (Hother _ _ Hin1) as [-> _].
        destruct (Hother _ _ Hin2) as [-> _].
        by apply (Hdev Hnd k1 k2 r1 r2).
Qed.

Lemma updateDeviceMap_loop_created s0 l processed m s m' s' :
  registryWf s0 → updateDeviceMap_inv s0 processed m s →
  updateDeviceMap_created s0 processed m s →
  foldl updateDeviceMap_body (m, s) l = (m', s') →
  updateDeviceMap_created s0 (processed ++ l) m' s'.
Proof.
  intros Hwf. revert processed m s.
  induction l as [|d l IH]; intros processed m s Hinv Hc; cbn [foldl].
  - intros [= <- <-]. by rewrite app_nil_r.
  - destruct (updateDeviceMap_body (m, s) d) as [m1 s1] eqn:Hb.
    intros Hl. rewrite (cons_middle d), (assoc_L (++)).
    eapply IH; [| |done].
    + by eapply updateDeviceMap_body_inv.
    + by eapply updateDeviceMap_body_created.
Qed.

(** The loop as a whole, with both invariants. *)
Lemma updateDeviceMap_spec_created l s :
  registryWf s →
  ∃ m s', updateDeviceMap_ l s = setIdToDeviceMap_ m s'
          ∧ updateDeviceMap_inv s l m s'
          ∧ updateDeviceMap_created s l m s'.
Proof.
  intros Hwf. unfold updateDeviceMap_.
  destruct (foldl updateDeviceMap_body ([], s) l) as [m s'] eqn:Hl.
  exists m, s'. split; [done|]. split.
  - apply (updateDeviceMap_loop_inv s l [] [] s);
      auto using updateDeviceMap_inv_init.
  - apply (updateDeviceMap_loop_created s l [] [] s);
      auto using updateDeviceMap_inv_init, updateDeviceMap_created_init.
Qed.

Lemma updateDeviceMap_distinctStates l s :
  registryWf s → distinctStates (updateDeviceMap_ l s).
Proof.
  intros Hwf.
  destruct (updateDeviceMap_spec_created l s Hwf)
    as (m & s' & -> & Hinv & Hc).
  intros k1 k2 r Hk1%Map_get_Some_elem Hk2%Map_get_Some_elem.
  cbn [idToDeviceMap_ setIdToDeviceMap_] in Hk1, Hk2.
  destruct (decide (nextDeviceState s ≤ r)) as [Hr|Hr].
  - pose proof (created_entries _ _ _ _ Hc _ _ Hk1 Hr).
    pose proof (created_entries _ _ _ _ Hc _ _ Hk2 Hr). lia.
  - destruct (inv_entries _ _ _ _ Hinv _ _ Hk1) as [_ [[_ H1]|(_ & ? & _)]];
      [|lia].
    destruct (inv_entries _ _ _ _ Hinv _ _ Hk2) as [_ [[_ H2]|(_ & ? & _)]];
      [|lia].
    congruence.
Qed.

Lemma updateDeviceMap_idsPositive l s :
  registryWf s → idsPositive s → idsPositive (updateDeviceMap_ l s).
Proof.
  intros Hwf [Hn Hpos].
  destruct (updateDeviceMap_spec_created l s Hwf)
    as (m & s' & -> & Hinv & Hc).
  pose proof (inv_nextId _ _ _ _ Hinv).
  split; cbn [idToDeviceMap_ setIdToDeviceMap_ nextFreeDeviceId_]; [lia|].
  intros k r Hin.
  destruct (inv_entries _ _ _ _ Hinv _ _ Hin) as [_ [[Hk _]|(? & _)]];
    [|lia].
  by apply Map_get_Some_elem, Hpos in Hk.
Qed.

Lemma updateDeviceMap_distinctDevices l s :
  registryWf s → NoDup l → distinctDevices (updateDeviceMap_ l s).
Proof.
  intros Hwf Hnd.
  destruct (updateDeviceMap_spec_created l s Hwf)
    as (m & s' & -> & Hinv & Hc).
  intros k1 k2 r1 r2 Hk1%Map_get_Some_elem Hk2%Map_get_Some_elem.
  by apply (created_devices _ _ _ _ Hc Hnd).
Qed.

(** A device without an id gets an id above all ids given out so far and
    a new [DeviceState] object. *)
Lemma updateDeviceMap_new l s d :
  registryWf s → getDeviceId_ d s = None → d ∈ l →
  ∃ i r, getDeviceId_ d (updateDeviceMap_ l s) = Some i
         ∧ Map_get (idToDeviceMap_ (updateDeviceMap_ l s)) i = Some r
         ∧ nextFreeDeviceId_ s ≤ i < nextFreeDeviceId_ (updateDeviceMap_ l s)
         ∧ nextDeviceState s ≤ r < nextDeviceState (updateDeviceMap_ l s)
         ∧ deviceStates (updateDeviceMap_ l s) r = newDeviceState d.
Proof.
  intros Hwf Hnone Hd.
  destruct (updateDeviceMap_present l s d Hwf Hd) as [i Hi].
  exists i. destruct (getDeviceId_Some _ _ _ Hi) as (r & Hr & Hdev).
  exists r. split; [done|]. split; [done|]. revert Hi Hr Hdev.
  destruct (updateDeviceMap_spec_created l s Hwf)
    as (m & s' & -> & Hinv & Hc).
  cbn [idToDeviceMap_ setIdToDeviceMap_ nextFreeDeviceId_ deviceStates
       nextDeviceState].
  intros _ Hr%Map_get_Some_elem Hdev.
  destruct (inv_entries _ _ _ _ Hinv _ _ Hr) as [_ [[_ H1]|(? & ? & _)]].
  { rewrite Hdev in H1. congruence. }
  split; [done|]. split; [done|].
  rewrite (created_fresh _ _ _ _ Hc r) by lia. by rewrite Hdev.
Qed.

(** *** Ids and handles in the states the adaptor reaches *)

Lemma countersWf_handles_shrink s s' :
  nextFreeDeviceHandle_ s ≤ nextFreeDeviceHandle_ s' →
  (∀ r, handles (deviceStates s' r) ⊆ handles (deviceStates s r)) →
  handlesPositive s ∧ handlesDisjoint s →
  handlesPositive s' ∧ handlesDisjoint s'.
Proof.
  intros Hn Hsub [[H1 Hpos] Hdis]. split; [split|].
  - lia.
  - intros r h Hin%Hsub. by apply (Hpos r).
  - intros r1 r2 h Hin1%Hsub Hin2%Hsub. by apply (Hdis r1 r2 h).
Qed.

Lemma countersWf_shrink s s' :
  idToDeviceMap_ s' = idToDeviceMap_ s →
  nextFreeDeviceId_ s' = nextFreeDeviceId_ s →
  nextFreeDeviceHandle_ s ≤ nextFreeDeviceHandle_ s' →
  (∀ r, handles (deviceStates s' r) ⊆ handles (deviceStates s r)) →
  countersWf s → countersWf s'.
Proof.
  intros Hm Hi Hn Hsub [Hids Hh Hst Hdis].
  destruct (countersWf_handles_shrink s s' Hn Hsub (conj Hh Hdis)).
  split; try done.
  - unfold idsPositive. by rewrite Hm, Hi.
  - unfold distinctStates. by rewrite Hm.
Qed.

Lemma handles_updateDeviceState r f s r' :
  handles (deviceStates (updateDeviceState r f s) r')
  = if decide (r' = r) then handles (f (deviceStates s r))
    else handles (deviceStates s r').
Proof.
  simp_state. case_decide as Hr; [subst; by rewrite fn_lookup_insert|].
  by rewrite fn_lookup_insert_ne.
Qed.

Lemma effect_countersWf L D s s' :
  effect L D s s' → registryWf s → handlesBelow s →
  countersWf s → countersWf s'.
Proof.
  destruct 1; intros Hwf Hb Hc.
  - by apply (countersWf_shrink s).
  - by apply (countersWf_shrink s).
  - by apply (countersWf_shrink s).
  - by apply (countersWf_shrink s).
  - apply (countersWf_shrink s); try done.
    intros r'. rewrite handles_updateDeviceState. by case_decide; subst.
  - apply (countersWf_shrink s); try done.
    intros r'. rewrite handles_updateDeviceState. by case_decide; subst.
  - apply (countersWf_shrink s); try done.
    intros r'. rewrite handles_updateDeviceState.
    case_decide; subst; [simp_state; set_solver|done].
  - destruct Hc as [Hids [Hn Hpos] Hst Hdis]. split; try done.
    + split; [simp_state; lia|].
      intros r' h. rewrite handles_updateDeviceState. simp_state.
      case_decide; subst; [|apply Hpos].
      intros [->%elem_of_singleton|Hin]%elem_of_union; [done|].
      by apply (Hpos r).
    + intros r1 r2 h. rewrite !handles_updateDeviceState. simp_state.
      repeat case_decide; subst; try done.
      * intros [->%elem_of_singleton|Hin1]%elem_of_union Hin2.
        -- apply Hb in Hin2. lia.
        -- by apply (Hdis r r2 h).
      * intros Hin1 [->%elem_of_singleton|Hin2]%elem_of_union.
        -- apply Hb in Hin1. lia.
        -- by apply (Hdis r1 r h).
      * apply Hdis.
  - destruct Hc as [Hids Hh Hst Hdis].
    destruct (updateDeviceMap_handles l s) as [Hn Hsub].
    destruct (countersWf_handles_shrink s (updateDeviceMap_ l s)
                ltac:(lia) Hsub (conj Hh Hdis)).
    split; try done.
    + by apply updateDeviceMap_idsPositive.
    + by apply updateDeviceMap_distinctStates.
Qed.

Lemma effects_countersWf L D s s' :
  rtc (effect L D) s s' → registryWf s → handlesBelow s →
  countersWf s → countersWf s'.
Proof.
  induction 1 as [|s1 s2 s3 He _ IH]; [done|]. intros Hwf Hb Hc.
  apply IH.
  - by eapply effect_registryWf.
  - by eapply effect_handlesBelow.
  - by eapply effect_countersWf.
Qed.

Lemma constructor_countersWf usb' : countersWf (constructor usb').
Proof.
  split.
  - split; [done|]. by intros k r []%elem_of_nil.
  - split; [done|]. intros r h. simpl. set_solver.
  - by intros k1 k2 r.
  - intros r1 r2 h. simpl. set_solver.
Qed.

Lemma reachable_countersWf s : reachable s → countersWf s.
Proof.
  intros (usb' & Hrtc)%reachable_effects.
  eapply effects_countersWf; [done| | |].
  - apply constructor_registryWf.
  - apply constructor_handlesBelow.
  - apply constructor_countersWf.
Qed.

Lemma effect_nextFreeDeviceHandle_ L D s s' :
  effect L D s s' → nextFreeDeviceHandle_ s ≤ nextFreeDeviceHandle_ s'.
Proof.
  destruct 1; try done; try (simp_state; lia).
  destruct (updateDeviceMap_handles l s) as [-> _]. done.
Qed.

Lemma effects_nextFreeDeviceHandle_ L D s s' :
  rtc (effect L D) s s' → nextFreeDeviceHandle_ s ≤ nextFreeDeviceHandle_ s'.
Proof.
  induction 1 as [|s1 s2 s3 He _ IH]; [done|].
  apply effect_nextFreeDeviceHandle_ in He. lia.
Qed.

(** A method given a device id that the map does not hold. *)
Lemma call_unknown_id req deviceId s :
  match req with
  | ListDevices => False
  | GetConfigurations i | OpenDeviceHandle i | CloseDeviceHandle i _
  | ClaimInterface i _ _ | ReleaseInterface i _ _ | ResetDevice i _
  | ControlTransfer i _ _ | BulkTransfer i _ _ | InterruptTransfer i _ _ =>
      i = deviceId
  end →
  Map_get (idToDeviceMap_ s) deviceId = None →
  call req s
  = settle (length (promises s)) (Rejected (NoDeviceWithID deviceId))
      (newPromise AsyncFunction s).1.
Proof.
  intros Hreq Hnone.
  destruct req; try done; subst; cbn [call];
    unfold getConfigurations, openDeviceHandle, closeDeviceHandle,
      interfaceOrReset, controlTransfer, genericTransfer_,
      getDeviceByIdOrThrow_, getDeviceByIdAndHandleOrThrow_;
    cbn [newPromise]; simp_state; by rewrite Hnone.
Qed.

Lemma promises_settle_new x o s :
  promises (settle (length (promises s)) x (newPromise o s).1)
  = promises s ++ [{| origin := o; settled := Some x |}].
Proof. apply (settle_new x _ (promises s) o). done. Qed.

End CountersFacts.

Import Descriptor Adaptor RegistryFacts AdaptorFacts FailedCloseFacts
  ResultsFacts CountersFacts.

(** X6: in every state the adaptor reaches, a handle belongs to one device:
    a handle that is accepted with one device id is refused with every
    other device id, and closeDeviceHandle called with another device id
    and this handle leaves the handle in place. *)
Theorem X6_handle_belongs_to_one_device s i1 i2 h r1 :
  reachable s →
  getDeviceByIdAndHandleOrThrow_ i1 h s = Normal r1 →
  i2 ≠ i1 →
  (getDeviceByIdAndHandleOrThrow_ i2 h s = Throw (NoDeviceWithID i2)
   ∨ getDeviceByIdAndHandleOrThrow_ i2 h s = Throw (NoDeviceHandle h))
  ∧ (∃ e, promises (call (CloseDeviceHandle i2 h) s)
          = promises s
            ++ [{| origin := AsyncFunction; settled := Some (Rejected e) |}]
          ∧ (e = NoDeviceWithID i2 ∨ e = UnknownDeviceHandle h))
  ∧ getDeviceByIdAndHandleOrThrow_ i1 h (call (CloseDeviceHandle i2 h) s)
    = Normal r1.
Proof.
  intros Hs [Hr1 Hh]%getDeviceByIdAndHandleOrThrow_Normal Hne.
  destruct (reachable_countersWf s Hs) as [_ _ Hst Hdis].
  destruct (Map_get (idToDeviceMap_ s) i2) as [r2|] eqn:Hr2.
  - assert (r2 ≠ r1) as Hr by (intros ->; by destruct (Hst i1 i2 r1)).
    assert (h ∉ handles (deviceStates s r2)) as Hnot.
    { intros Hin. by destruct (Hdis r1 r2 h). }
    split; [right; by eapply getDeviceByIdAndHandleOrThrow_unknown|].
    pose proof (closeDeviceHandle_unknown i2 h r2 s Hr2 Hnot) as Hp.
    split; [exists (UnknownDeviceHandle h); split; [done|by right]|].
    apply getDeviceByIdAndHandleOrThrow_Normal.
    cbn [call]. unfold closeDeviceHandle, getDeviceByIdOrThrow_.
    cbn [newPromise]. simp_state. rewrite Hr2, decide_False by done.
    by rewrite idToDeviceMap_settle, deviceStates_settle.
  - split.
    { left. unfold getDeviceByIdAndHandleOrThrow_. by rewrite Hr2. }
    rewrite (call_unknown_id (CloseDeviceHandle i2 h) i2 s eq_refl Hr2).
    split.
    + exists (NoDeviceWithID i2). split; [|by left].
      apply promises_settle_new.
    + apply getDeviceByIdAndHandleOrThrow_Normal.
      by rewrite idToDeviceMap_settle, deviceStates_settle.
Qed.

Lemma X6_witness :
  reachable (Example.after Example.opened1With8)
  ∧ getDeviceByIdAndHandleOrThrow_ 1 1
      (Example.after Example.opened1With8) = Normal 0
  ∧ getDeviceByIdAndHandleOrThrow_ 2 1
      (Example.after Example.opened1With8) = Throw (NoDeviceHandle 1)
  ∧ getDeviceByIdAndHandleOrThrow_ 1 1
      (call (CloseDeviceHandle 2 1)
         (Example.after Example.opened1With8)) = Normal 0.
Proof.
  assert (reachable (Example.after Example.opened1With8)) as Hs.
  { apply (reachable_run Example.opened1With8
             (constructor Example.usb));
      [constructor|vm_compute; reflexivity]. }
  assert (getDeviceByIdAndHandleOrThrow_ 1 1
            (Example.after Example.opened1With8) = Normal 0) as Hh
    by (vm_compute; reflexivity).
  assert (2 ≠ 1) as Hne by lia.
  destruct (X6_handle_belongs_to_one_device _ 1 2 1 0 Hs Hh Hne)
    as (_ & _ & Hkeep).
  split; [exact Hs|]. split; [exact Hh|].
  split; [vm_compute; reflexivity|exact Hkeep].
Defined.

(** X7: handles come from the counter and are never reused.  Across every
    run from a state the adaptor reaches, the handle counter does not
    decrease; every handle in use is at least 1 and below the counter; a
    handle in use after the run was in use in the same set before it or was
    taken from the counter during it; and a handle that was given out
    before the run and is in no set is in no set after it. *)
Theorem X7_handles_are_never_reused s ls s' :
  reachable s → run ls s = Some s' →
  nextFreeDeviceHandle_ s ≤ nextFreeDeviceHandle_ s'
  ∧ (∀ r h, h ∈ handles (deviceStates s' r) →
            1 ≤ h < nextFreeDeviceHandle_ s'
            ∧ (h ∈ handles (deviceStates s r)
               ∨ nextFreeDeviceHandle_ s ≤ h))
  ∧ (∀ h, h < nextFreeDeviceHandle_ s →
          (∀ r, h ∉ handles (deviceStates s r)) →
          ∀ r, h ∉ handles (deviceStates s' r)).
Proof.
  intros Hs Hrun.
  pose proof (reachable_run _ _ _ Hs Hrun) as Hs'.
  pose proof (run_effects _ _ _ Hrun) as Heff.
  assert (∀ r h, h < nextFreeDeviceHandle_ s →
                 h ∉ handles (deviceStates s r) →
                 h ∉ handles (deviceStates s' r)) as Hclosed.
  { intros r h Hlt Hnot.
    by destruct (effects_closed _ _ r h _ _ Heff (conj Hnot Hlt)). }
  split; [by eapply effects_nextFreeDeviceHandle_|]. split.
  - intros r h Hin. split.
    + split; [|by apply (reachable_handlesBelow s' Hs' r)].
      by apply (proj2 (countersWf_handles _ (reachable_countersWf s' Hs')) r).
    + destruct (decide (h < nextFreeDeviceHandle_ s)) as [Hlt|]; [|right; lia].
      left. destruct (decide (h ∈ handles (deviceStates s r))); [done|].
      by destruct (Hclosed r h).
  - intros h Hlt Hnot r. by apply Hclosed.
Qed.

Lemma X7_witness :
  reachable (Example.after Example.closing1)
  ∧ run [Call (OpenDeviceHandle 1)] (Example.after Example.closing1)
    = Some (Example.after (Example.closing1 ++ [Call (OpenDeviceHandle 1)]))
  ∧ 1 < nextFreeDeviceHandle_ (Example.after Example.closing1)
  ∧ ∀ r, 1 ∉ handles
             (deviceStates
                (Example.after
                   (Example.closing1 ++ [Call (OpenDeviceHandle 1)])) r).
Proof.
  assert (reachable (Example.after Example.closing1)) as Hs.
  { apply (reachable_run Example.closing1 (constructor Example.usb));
      [constructor|vm_compute; reflexivity]. }
  assert (run [Call (OpenDeviceHandle 1)] (Example.after Example.closing1)
          = Some (Example.after
                    (Example.closing1 ++ [Call (OpenDeviceHandle 1)])))
    as Hrun by (vm_compute; reflexivity).
  assert (1 < nextFreeDeviceHandle_ (Example.after Example.closing1)) as Hlt
    by (vm_compute; lia).
  assert (∀ r, 1 ∉ handles (deviceStates (Example.after Example.closing1) r))
    as Hnot.
  { intros r. destruct r as [|r]; vm_compute; intros Hin; discriminate Hin. }
  split; [exact Hs|]. split; [exact Hrun|]. split; [exact Hlt|].
  exact (proj2 (proj2 (X7_handles_are_never_reused _ _ _ Hs Hrun))
           1 Hlt Hnot).
Defined.

(** X8: after updateDeviceMap_ with a snapshot that lists no device twice,
    ids and devices are paired one to one: every device of the snapshot has
    an id, the id leads to a DeviceState of that device, every id of the
    map belongs to a device of the snapshot and is the id found for that
    device, and no two ids refer to the same device. *)
Theorem X8_enumeration_pairs_ids_with_devices s l :
  registryWf s → NoDup l →
  let s' := updateDeviceMap_ l s in
  (∀ d, d ∈ l →
        ∃ i r, getDeviceId_ d s' = Some i
               ∧ getDeviceByIdOrThrow_ i s' = Normal r
               ∧ webusbDevice (deviceStates s' r) = d)
  ∧ (∀ i r, getDeviceByIdOrThrow_ i s' = Normal r →
            webusbDevice (deviceStates s' r) ∈ l
            ∧ getDeviceId_ (webusbDevice (deviceStates s' r)) s' = Some i)
  ∧ distinctDevices s'.
Proof.
  intros Hwf Hnd s'. subst s'. set (s' := updateDeviceMap_ l s).
  pose proof (updateDeviceMap_distinctDevices l s Hwf Hnd) as Hdd.
  fold s' in Hdd.
  split; [|split; [|done]].
  - intros d Hd.
    destruct (updateDeviceMap_present l s d Hwf Hd) as [i Hi].
    fold s' in Hi.
    destruct (getDeviceId_Some _ _ _ Hi) as (r & Hr & Hdev).
    exists i, r. split; [done|]. split; [|done].
    unfold getDeviceByIdOrThrow_. by rewrite Hr.
  - intros i r. unfold getDeviceByIdOrThrow_.
    destruct (Map_get (idToDeviceMap_ s') i) as [r'|] eqn:Hr; [|done].
    intros [= ->]. split.
    + revert Hr. unfold s'.
      destruct (updateDeviceMap_spec l s Hwf) as (m & s1 & -> & Hinv).
      intros Hin%Map_get_Some_elem.
      by destruct (inv_entries _ _ _ _ Hinv _ _ Hin) as [? _].
    + apply getDeviceId_unique; [by exists r|].
      intros k r2 Hk Hdev. by apply (Hdd k i r2 r).
Qed.

Lemma X8_witness :
  registryWf (Example.after Example.enumerate7)
  ∧ NoDup [8; 7]
  ∧ getDeviceId_ 8 (updateDeviceMap_ [8; 7] (Example.after Example.enumerate7))
    = Some 2
  ∧ distinctDevices
      (updateDeviceMap_ [8; 7] (Example.after Example.enumerate7)).
Proof.
  assert (registryWf (Example.after Example.enumerate7)) as Hwf.
  { apply reachable_registryWf.
    apply (reachable_run Example.enumerate7 (constructor Example.usb));
      [constructor|vm_compute; reflexivity]. }
  assert (NoDup [8; 7]) as Hnd.
  { apply NoDup_cons. split; [|apply NoDup_singleton].
    intros Hin. apply list_elem_of_singleton in Hin. lia. }
  split; [exact Hwf|]. split; [exact Hnd|].
  split; [vm_compute; reflexivity|].
  exact (proj2 (proj2 (X8_enumeration_pairs_ids_with_devices _ _ Hwf Hnd))).
Defined.

(** X9: updateDeviceMap_ does not remove duplicates from the snapshot: a
    device without an id that is listed twice gets two ids and two
    DeviceState objects, and getDeviceId_ reports the first of the two. *)
Theorem X9_snapshot_is_not_deduplicated s d :
  registryWf s → getDeviceId_ d s = None →
  let s' := updateDeviceMap_ [d; d] s in
  idToDeviceMap_ s'
  = [(nextFreeDeviceId_ s, nextDeviceState s);
     (S (nextFreeDeviceId_ s), S (nextDeviceState s))]
  ∧ webusbDevice (deviceStates s' (nextDeviceState s)) = d
  ∧ webusbDevice (deviceStates s' (S (nextDeviceState s))) = d
  ∧ nextFreeDeviceId_ s' = S (S (nextFreeDeviceId_ s))
  ∧ getDeviceId_ d s' = Some (nextFreeDeviceId_ s)
  ∧ ¬ distinctDevices s'.
Proof.
  intros Hwf Hd s'.
  assert (getDeviceId_ d
            (allocDeviceState d
               (setNextFreeDeviceId_ (S (nextFreeDeviceId_ s)) s)).1 = None)
    as Hd1.
  { rewrite <- Hd. apply getDeviceId_ext; [done|].
    intros k r Hk%Map_get_Some_elem. apply Hwf in Hk as [_ Hr].
    simp_state. by rewrite fn_lookup_insert_ne by lia. }
  assert (s' = setIdToDeviceMap_
                 [(nextFreeDeviceId_ s, nextDeviceState s);
                  (S (nextFreeDeviceId_ s), S (nextDeviceState s))]
                 (allocDeviceState d
                    (setNextFreeDeviceId_ (S (S (nextFreeDeviceId_ s)))
                       (allocDeviceState d
                          (setNextFreeDeviceId_ (S (nextFreeDeviceId_ s)) s)).1)).1)
    as ->.
  { unfold s', updateDeviceMap_. cbn [foldl].
    unfold updateDeviceMap_body at 2. rewrite Hd.
    cbn [allocDeviceState]. unfold updateDeviceMap_body.
    cbn [allocDeviceState fst] in Hd1. rewrite Hd1.
    simp_state. cbn [Map_set]. rewrite decide_False by lia. done. }
  simp_state. split; [done|].
  rewrite fn_lookup_insert_ne by lia. rewrite !fn_lookup_insert. simp_state.
  split; [done|]. split; [done|]. split; [done|]. split.
  - unfold getDeviceId_. simp_state. cbn [Map_keys fmap list_fmap fst].
    cbn [getDeviceId_loop]. simp_state. cbn [Map_get].
    rewrite decide_True by done.
    rewrite fn_lookup_insert_ne by lia. rewrite fn_lookup_insert. simp_state.
    by rewrite decide_True.
  - intros Hdd.
    pose proof (Hdd (nextFreeDeviceId_ s) (S (nextFreeDeviceId_ s))
                  (nextDeviceState s) (S (nextDeviceState s))) as H.
    simp_state in H. cbn [Map_get] in H.
    rewrite decide_True in H by done.
    rewrite decide_False in H by lia. rewrite decide_True in H by done.
    rewrite fn_lookup_insert_ne in H by lia.
    rewrite !fn_lookup_insert in H. simp_state in H.
    specialize (H eq_refl eq_refl eq_refl). lia.
Qed.

Lemma X9_witness :
  registryWf (Example.after Example.enumerate7)
  ∧ getDeviceId_ 8 (Example.after Example.enumerate7) = None
  ∧ idToDeviceMap_
      (updateDeviceMap_ [8; 8] (Example.after Example.enumerate7))
    = [(2, 1); (3, 2)].
Proof.
  assert (registryWf (Example.after Example.enumerate7)) as Hwf.
  { apply reachable_registryWf.
    apply (reachable_run Example.enumerate7 (constructor Example.usb));
      [constructor|vm_compute; reflexivity]. }
  assert (getDeviceId_ 8 (Example.after Example.enumerate7) = None) as Hd
    by (vm_compute; reflexivity).
  split; [exact Hwf|]. split; [exact Hd|].
  exact (proj1 (X9_snapshot_is_not_deduplicated _ 8 Hwf Hd)).
Defined.

(** X10: a device of the snapshot that has no id, because it is new or
    because an earlier enumeration dropped it, gets an id that was never
    given out before and a DeviceState object as its constructor leaves it:
    no handle, no pending open, no pending close, whatever state the device
    had under an earlier id; the first openDeviceHandle on the new id
    calls open() on the device. *)
Theorem X10_new_device_gets_new_id_and_state s l d :
  registryWf s → getDeviceId_ d s = None → d ∈ l →
  let s' := updateDeviceMap_ l s in
  ∃ i r,
    getDeviceId_ d s' = Some i
    ∧ getDeviceByIdOrThrow_ i s' = Normal r
    ∧ nextFreeDeviceId_ s ≤ i
    ∧ getDeviceByIdOrThrow_ i s = Throw (NoDeviceWithID i)
    ∧ nextDeviceState s ≤ r
    ∧ deviceStates s' r = newDeviceState d
    ∧ promises (call (OpenDeviceHandle i) s')
      = promises s'
        ++ [pending AsyncFunction; pending AsyncFunction;
            pending (WebusbOpen d)].
Proof.
  intros Hwf Hnone Hd s'. subst s'. set (s' := updateDeviceMap_ l s).
  destruct (updateDeviceMap_new l s d Hwf Hnone Hd)
    as (i & r & Hi & Hr & [Hi1 _] & [Hr1 _] & Hst).
  fold s' in Hi, Hr, Hst.
  exists i, r. split; [done|].
  split; [unfold getDeviceByIdOrThrow_; by rewrite Hr|].
  split; [done|]. split.
  { unfold getDeviceByIdOrThrow_.
    destruct (Map_get (idToDeviceMap_ s) i) as [r0|] eqn:Hr0; [|done].
    apply Map_get_Some_elem, Hwf in Hr0 as [? _]. lia. }
  split; [done|]. split; [done|].
  destruct (openDeviceHandle_first i r s' Hr) as (Hp & _).
  - by rewrite Hst.
  - by rewrite Hst.
  - by rewrite Hst.
  - cbn [call]. rewrite Hp. by rewrite Hst.
Qed.

Lemma X10_witness :
  registryWf (Example.after Example.closeFailed1Dropped)
  ∧ getDeviceId_ 7 (Example.after Example.closeFailed1Dropped) = None
  ∧ ∃ i r,
      getDeviceId_ 7
        (updateDeviceMap_ [7] (Example.after Example.closeFailed1Dropped))
      = Some i
      ∧ 2 ≤ i
      ∧ deviceStates
          (updateDeviceMap_ [7] (Example.after Example.closeFailed1Dropped)) r
        = newDeviceState 7.
Proof.
  assert (registryWf (Example.after Example.closeFailed1Dropped)) as Hwf.
  { apply reachable_registryWf.
    apply (reachable_run Example.closeFailed1Dropped
             (constructor Example.usb));
      [constructor|vm_compute; reflexivity]. }
  assert (getDeviceId_ 7 (Example.after Example.closeFailed1Dropped) = None)
    as Hd by (vm_compute; reflexivity).
  assert (7 ∈ [7]) as Hin by left.
  split; [exact Hwf|]. split; [exact Hd|].
  destruct (X10_new_device_gets_new_id_and_state _ [7] 7 Hwf Hd Hin)
    as (i & r & Hi & _ & Hle & _ & _ & Hst & _).
  exists i, r. split; [exact Hi|]. split; [|exact Hst].
  assert (nextFreeDeviceId_ (Example.after Example.closeFailed1Dropped) = 2)
    as Hn by (vm_compute; reflexivity).
  rewrite Hn in Hle. exact Hle.
Defined.

(** X11: when the continuation of listDevices runs on the list that
    getDevices() produced, the promise of the call is fulfilled with one
    entry for every device of the list, in the order of the list; the entry
    holds an id that is at least 1, so the assertion of
    convertWebusbDeviceToLibusb_ holds, and under this id the methods find
    a DeviceState of that device. *)
Theorem X11_listDevices_returns_the_ids s t a pr snapshot :
  reachable s →
  activations s !! t = Some (Some a) →
  continuation a = ListDevices_93 →
  promises s !! awaiting a = Some pr →
  settled pr = Some (Fulfilled (USBDevices snapshot)) →
  ∃ s' ids,
    step (Resume t) s = Some s'
    ∧ promises s' !! result a
      = Some {| origin := AsyncFunction;
                settled := Some (Fulfilled (LibusbJsDevices (Some <$> ids)))
              |}
    ∧ Forall2 (λ d i, 1 ≤ i
                      ∧ getDeviceId_ d s' = Some i
                      ∧ ∃ r, getDeviceByIdOrThrow_ i s' = Normal r
                             ∧ webusbDevice (deviceStates s' r) = d)
              snapshot ids.
Proof.
  intros Hs Ha Hk Hpr Hx.
  pose proof (resultsWf_pending _ (reachable_resultsWf s Hs) t a Ha) as Hres.
  rewrite (step_Resume t a pr _ s Ha Hpr Hx), Hk. cbn [resume].
  set (s0 := setActivations (<[t := None]> (activations s)) s).
  assert (registryWf s0) as Hwf0.
  { by apply (registryWf_ext s), reachable_registryWf. }
  assert (idsPositive s0) as Hpos0.
  { apply (countersWf_ids s), reachable_countersWf, Hs. }
  set (s1 := updateDeviceMap_ snapshot s0).
  pose proof (updateDeviceMap_idsPositive snapshot s0 Hwf0 Hpos0) as [_ Hpos].
  fold s1 in Hpos.
  assert (∀ d, d ∈ snapshot →
               ∃ i, getDeviceId_ d s1 = Some i ∧ 1 ≤ i
                    ∧ ∃ r, getDeviceByIdOrThrow_ i s1 = Normal r
                           ∧ webusbDevice (deviceStates s1 r) = d) as Hall.
  { intros d Hd.
    destruct (updateDeviceMap_present snapshot s0 d Hwf0 Hd) as [i Hi].
    fold s1 in Hi.
    destruct (getDeviceId_Some _ _ _ Hi) as (r & Hr & Hdev).
    exists i. split; [done|]. split.
    - by apply Map_get_Some_elem, Hpos in Hr.
    - exists r. unfold getDeviceByIdOrThrow_. by rewrite Hr. }
  assert (∀ l, (∀ d, d ∈ l → d ∈ snapshot) →
               ∃ ids, (λ d, getDeviceId_ d s1) <$> l = Some <$> ids
                 ∧ Forall2 (λ d i, 1 ≤ i
                      ∧ getDeviceId_ d s1 = Some i
                      ∧ ∃ r, getDeviceByIdOrThrow_ i s1 = Normal r
                             ∧ webusbDevice (deviceStates s1 r) = d)
                      l ids) as Hlist.
  { induction l as [|d l IH]; intros Hsub.
    - exists []. split; [done|constructor].
    - destruct IH as (ids & Hids & Hf2).
      { intros d' Hd'. apply Hsub. by right. }
      destruct (Hall d (Hsub d ltac:(left))) as (i & Hi & Hi1 & Hr).
      exists (i :: ids). split.
      + cbn [fmap list_fmap]. rewrite Hi. f_equal. exact Hids.
      + by constructor. }
  destruct (Hlist snapshot ltac:(done)) as (ids & Hids & Hf2).
  exists (listDevices_update snapshot (result a) s0), ids.
  split; [done|]. unfold listDevices_update. fold s1. rewrite Hids.
  assert (promises s1 = promises s) as Hp.
  { unfold s1. by rewrite (proj1 (updateDeviceMap_promises snapshot s0)). }
  split.
  - assert (result a < length (promises s1)) as Hlt.
    { rewrite Hp. by apply lookup_lt_Some in Hres. }
    unfold settle. simp_state. rewrite list_lookup_alter.
    rewrite decide_True by done. by rewrite Hp, Hres.
  - eapply Forall2_impl; [exact Hf2|].
    intros d i (Hi1 & Hi & r & Hr & Hdev). split; [done|].
    rewrite getDeviceId_settle. split; [done|].
    exists r. unfold getDeviceByIdOrThrow_ in *.
    rewrite idToDeviceMap_settle, deviceStates_settle. done.
Qed.

Lemma X11_witness :
  reachable (Example.after Example.enumerate87)
  ∧ ∃ s',
      step (Resume 1) (Example.after Example.enumerate87) = Some s'
      ∧ promises s' !! 2
        = Some {| origin := AsyncFunction;
                  settled :=
                    Some (Fulfilled (LibusbJsDevices [Some 2; Some 1])) |}.
Proof.
  assert (reachable (Example.after Example.enumerate87)) as Hs.
  { apply (reachable_run Example.enumerate87 (constructor Example.usb));
      [constructor|vm_compute; reflexivity]. }
  split; [exact Hs|].
  destruct (X11_listDevices_returns_the_ids
              (Example.after Example.enumerate87) 1
              {| awaiting := 3; continuation := ListDevices_93;
                 result := 2 |}
              {| origin := WebusbGetDevices;
                 settled := Some (Fulfilled (USBDevices [8; 7])) |}
              [8; 7] Hs)
    as (s' & ids & Hstep & Hres & _);
    [vm_compute; reflexivity|reflexivity|vm_compute; reflexivity
    |reflexivity|].
  exists s'. split; [exact Hstep|].
  assert (Some s'
          = Some (Example.after (Example.enumerate87 ++ [Resume 1]))) as Heq.
  { rewrite <- Hstep. vm_compute. reflexivity. }
  injection Heq as ->. vm_compute. reflexivity.
Defined.

(* ===================================================================== *)
(** ** Calls run to their end *)
(* ===================================================================== *)

Import Js.

Module RunFacts.
Import Descriptor Adaptor DescriptorFacts RegistryFacts AdaptorFacts
  FailedCloseFacts ResultsFacts CountersFacts.

Lemma insert_app_last {A} (l : list A) (x y : A) :
  <[length l := y]> (l ++ [x]) = l ++ [y].
Proof.
  rewrite insert_app_r_alt by done. by rewrite Nat.sub_diag.
Qed.

Lemma lookup_app_last {A} (l : list A) (x : A) :
  (l ++ [x]) !! length l = Some x.
Proof. by rewrite lookup_app_r, Nat.sub_diag by done. Qed.

(** WebUSB settles the promise created last and the activation suspended
    last, which awaits it, continues. *)
Lemma run_settle_resume s ps acts o k res x n m :
  promises s = ps ++ [pending o] →
  activations s
  = acts ++ [Some {| awaiting := n; continuation := k; result := res |}] →
  n = length ps → m = length acts →
  webusbSettles o x = true →
  run [Settle n x; Resume m] s
  = resume k x res
      (setActivations (acts ++ [None])
         (setPromises (ps ++ [settledPromise o x]) s)).
Proof.
  intros Hp Ha -> -> Hw.
  assert (step (Settle (length ps) x) s
          = Some (setPromises (ps ++ [settledPromise o x]) s)) as H1.
  { cbn [step]. rewrite Hp, lookup_app_last.
    cbn [mbind option_bind pending settled origin]. rewrite Hw.
    unfold settle. by rewrite Hp, alter_app_last. }
  cbn [run]. rewrite H1. cbn [mbind option_bind].
  rewrite (step_Resume (length acts)
             {| awaiting := length ps; continuation := k; result := res |}
             (settledPromise o x) x).
  - simp_state. rewrite Ha, insert_app_last.
    by destruct (resume _ _ _ _).
  - simp_state. rewrite Ha. apply lookup_app_last.
  - simp_state. apply lookup_app_last.
  - done.
Qed.

Lemma asTransferResult_transferAnswer x :
  asTransferResult (transferAnswer x) = Some x.
Proof. by destruct x. Qed.

Lemma land_15_lt n : n < 16 → Nat.land n 15 = n.
Proof.
  intros Hn. do 16 (destruct n as [|n]; [reflexivity|]). lia.
Qed.

Lemma land_15_add_128 n : n < 16 → Nat.land (n + 128) 15 = n.
Proof.
  intros Hn. do 16 (destruct n as [|n]; [reflexivity|]). lia.
Qed.

Lemma sameAdaptor_refl s : sameAdaptor s s.
Proof. by repeat split. Qed.

Lemma sameAdaptor_trans s1 s2 s3 :
  sameAdaptor s1 s2 → sameAdaptor s2 s3 → sameAdaptor s1 s3.
Proof.
  intros (? & ? & ? & ? & ?) (? & ? & ? & ? & ?). repeat split; congruence.
Qed.

Lemma sameAdaptor_settle p x s : sameAdaptor s (settle p x s).
Proof. by repeat split. Qed.

Lemma sameAdaptor_getConfigurations_loop d a ws done res s :
  sameAdaptor s (getConfigurations_loop d a ws done res s).
Proof. destruct ws; by repeat split. Qed.

Lemma call_sameAdaptor req s :
  ¬ changesAdaptor (Call req) s → sameAdaptor s (call req s).
Proof.
  destruct req; cbn [changesAdaptor]; try (by intros []); intros _;
    cbn [call].
  - by repeat split.
  - unfold getConfigurations. cbn [newPromise].
    destruct (getDeviceByIdOrThrow_ _ _); [|by repeat split].
    eapply sameAdaptor_trans;
      [|apply sameAdaptor_getConfigurations_loop]. by repeat split.
  - unfold interfaceOrReset. cbn [newPromise].
    by destruct (getDeviceByIdAndHandleOrThrow_ _ _ _); repeat split.
  - unfold interfaceOrReset. cbn [newPromise].
    by destruct (getDeviceByIdAndHandleOrThrow_ _ _ _); repeat split.
  - unfold interfaceOrReset. cbn [newPromise].
    by destruct (getDeviceByIdAndHandleOrThrow_ _ _ _); repeat split.
  - unfold controlTransfer. cbn [newPromise].
    destruct (getDeviceByIdAndHandleOrThrow_ _ _ _); [|by repeat split].
    cbn [mbind Completion_bind].
    destruct (getWebusbRequestType _); [|by repeat split].
    destruct (getWebusbRecipient _); by repeat split.
  - unfold genericTransfer_. cbn [newPromise].
    by destruct (getDeviceByIdAndHandleOrThrow_ _ _ _); repeat split.
  - unfold genericTransfer_. cbn [newPromise].
    by destruct (getDeviceByIdAndHandleOrThrow_ _ _ _); repeat split.
Qed.

Lemma resume_sameAdaptor k x res s s' :
  match k with
  | ListDevices_93 | OpenDeviceHandle_151 _ | CloseDeviceHandle_181 _ => False
  | _ => True
  end →
  resume k x res s = Some s' → sameAdaptor s s'.
Proof.
  destruct k; try (by intros []); intros _; cbn [resume].
  - destruct x; intros [= <-].
    + by repeat split.
    + apply sameAdaptor_getConfigurations_loop.
  - destruct (asTransferResult x) as [first|]; [|done].
    cbn [mbind option_bind].
    destruct (await first ≫= readTotalLength) as [[tl|]|e];
      intros [= <-]; by repeat split.
  - destruct (asTransferResult x) as [second|]; [|done].
    cbn [mbind option_bind].
    destruct (await second) as [r|e]; [|intros [= <-]; by repeat split].
    destruct (parseDescriptors _ _ _) as [[? c]|]; [|done].
    cbn [mbind option_bind]. intros [= <-]. by repeat split.
  - intros [= <-]. apply sameAdaptor_getConfigurations_loop.
  - destruct x; intros [= <-]; by repeat split.
  - destruct (asTransferResult x) as [r|]; [|done].
    cbn [mbind option_bind].
    destruct (await r ≫= getLibusbJsTransferResultOrThrow);
      intros [= <-]; by repeat split.
  - destruct x; intros [= <-]; by repeat split.
  - destruct x; intros [= <-]; by repeat split.
Qed.

Lemma settle_at s ps qs o x p :
  p = length ps →
  promises s = ps ++ pending o :: qs →
  settle p x s = setPromises (ps ++ settledPromise o x :: qs) s.
Proof.
  intros -> Hp. unfold settle. rewrite Hp. f_equal.
  rewrite alter_app_r_alt by done. by rewrite Nat.sub_diag.
Qed.

Lemma step_Settle_at s ps qs o x p :
  p = length ps →
  promises s = ps ++ pending o :: qs → webusbSettles o x = true →
  step (Settle p x) s
  = Some (setPromises (ps ++ settledPromise o x :: qs) s).
Proof.
  intros -> Hp Hw. cbn [step]. rewrite Hp, list_lookup_middle by done.
  cbn [mbind option_bind pending settled origin]. rewrite Hw.
  by rewrite (settle_at s ps qs o x _ eq_refl Hp).
Qed.

Lemma step_Resume_at s acts bs a pr x t :
  t = length acts →
  activations s = acts ++ Some a :: bs →
  promises s !! awaiting a = Some pr → settled pr = Some x →
  step (Resume t) s
  = resume (continuation a) x (result a)
      (setActivations (acts ++ None :: bs) s).
Proof.
  intros -> Ha Hpr Hx.
  rewrite (step_Resume (length acts) a pr x s); try done.
  - rewrite Ha. rewrite insert_app_r_alt by done. by rewrite Nat.sub_diag.
  - rewrite Ha. by apply list_lookup_middle.
Qed.

(** A transfer method suspended at its [await]: WebUSB answers and the
    method returns. *)
Lemma transfer_run s ps acts o x s0 :
  sameAdaptor s0 s →
  promises s = ps ++ [pending AsyncFunction; pending o] →
  activations s
  = acts ++ [Some {| awaiting := S (length ps);
                     continuation := Transfer_await;
                     result := length ps |}] →
  webusbSettles o (transferAnswer x) = true →
  ∃ s', run [Settle (S (length ps)) (transferAnswer x);
             Resume (length acts)] s = Some s'
        ∧ promises s'
          = ps ++ [settledPromise AsyncFunction
                     match x with
                     | Rejected e => Rejected e
                     | Fulfilled t =>
                         if decide (status t = "ok")
                         then Fulfilled (LibusbJsTransferResult (data t))
                         else Rejected (TransferFailed (status t))
                     end;
                   settledPromise o (transferAnswer x)]
        ∧ activations s' = acts ++ [None]
        ∧ sameAdaptor s0 s'.
Proof.
  intros Hsame Hp Ha Hw.
  rewrite (run_settle_resume s (ps ++ [pending AsyncFunction]) acts o
             Transfer_await (length ps) (transferAnswer x)
             (S (length ps)) (length acts));
    [|by rewrite <- (assoc_L (++))|done
     |rewrite length_app; simpl; lia|done|done].
  cbn [resume]. rewrite asTransferResult_transferAnswer.
  cbn [mbind option_bind].
  set (s1 := setActivations (acts ++ [None])
               (setPromises ((ps ++ [pending AsyncFunction])
                             ++ [settledPromise o (transferAnswer x)]) s)).
  assert (promises s1
          = ps ++ pending AsyncFunction
               :: [settledPromise o (transferAnswer x)]) as Hp0.
  { unfold s1. simp_state. by rewrite <- (assoc_L (++)). }
  assert (∀ y, ∃ s', Some (settle (length ps) y s1) = Some s'
                     ∧ promises s'
                       = ps ++ [settledPromise AsyncFunction y;
                                settledPromise o (transferAnswer x)]
                     ∧ activations s' = acts ++ [None]
                     ∧ sameAdaptor s0 s') as Hy.
  { intros y. eexists. split; [done|].
    rewrite (settle_at s1 ps _ AsyncFunction y _ eq_refl Hp0).
    split; [done|]. split; [done|].
    eapply sameAdaptor_trans; [exact Hsame|]. by repeat split. }
  destruct x as [t|e]; cbn [await mbind Completion_bind].
  - unfold getLibusbJsTransferResultOrThrow.
    destruct (decide (status t = "ok")) as [Hok|Hok].
    + rewrite decide_False by (by intros []). apply Hy.
    + rewrite decide_True by done. apply Hy.
  - apply Hy.
Qed.

Lemma getDeviceByIdAndHandleOrThrow_setPromises deviceId h P s :
  getDeviceByIdAndHandleOrThrow_ deviceId h (setPromises P s)
  = getDeviceByIdAndHandleOrThrow_ deviceId h s.
Proof. done. Qed.

Lemma size_handles_ne (X : gset nat) : X ≠ ∅ → size X ≠ 0.
Proof. intros HX Hs. apply HX. by apply size_empty_inv, leibniz_equiv in Hs. Qed.

End RunFacts.

Import Descriptor Adaptor DescriptorFacts RegistryFacts AdaptorFacts
  FailedCloseFacts ResultsFacts CountersFacts RunFacts.

(** X12: every method that takes a device id, given an id that the map
    does not hold, returns a promise rejected with "No device with ID",
    makes no WebUSB call, suspends nothing and leaves the adaptor as it is;
    in the states the adaptor reaches, the id 0 and the ids from the
    counter on are such ids. *)
Theorem X12_unknown_device_id_is_refused req deviceId s :
  namesDevice req deviceId →
  (Map_get (idToDeviceMap_ s) deviceId = None →
   promises (call req s)
   = promises s
     ++ [settledPromise AsyncFunction (Rejected (NoDeviceWithID deviceId))]
   ∧ activations (call req s) = activations s
   ∧ sameAdaptor s (call req s))
  ∧ (reachable s → deviceId = 0 ∨ nextFreeDeviceId_ s ≤ deviceId →
     Map_get (idToDeviceMap_ s) deviceId = None).
Proof.
  intros Hreq. split.
  - intros Hnone. rewrite (call_unknown_id req deviceId s Hreq Hnone).
    split; [apply promises_settle_new|]. by repeat split.
  - intros Hs Hid.
    destruct (Map_get (idToDeviceMap_ s) deviceId) as [r|] eqn:Hr; [|done].
    apply Map_get_Some_elem in Hr.
    pose proof (proj2 (reachable_registryWf s Hs) _ _ Hr) as [? _].
    pose proof (proj2 (countersWf_ids _ (reachable_countersWf s Hs)) _ _ Hr).
    lia.
Qed.

Lemma X12_witness :
  reachable (Example.after Example.closeFailed1Dropped)
  ∧ promises (call (ControlTransfer 1 1
                      {| requestType := OtherRequestType;
                         recipient := DEVICE; request := 6; value := 512;
                         index := 0; controlDataToSend := None;
                         controlLengthToReceive := 9 |})
                (Example.after Example.closeFailed1Dropped))
    = promises (Example.after Example.closeFailed1Dropped)
      ++ [settledPromise AsyncFunction (Rejected (NoDeviceWithID 1))]
  ∧ Map_get (idToDeviceMap_ (Example.after Example.closeFailed1Dropped)) 0
    = None.
Proof.
  assert (reachable (Example.after Example.closeFailed1Dropped)) as Hs.
  { apply (reachable_run Example.closeFailed1Dropped
             (constructor Example.usb));
      [constructor|vm_compute; reflexivity]. }
  assert (Map_get (idToDeviceMap_ (Example.after Example.closeFailed1Dropped))
            1 = None) as Hnone by (vm_compute; reflexivity).
  split; [exact Hs|]. split.
  - exact (proj1 (proj1 (X12_unknown_device_id_is_refused
                           (ControlTransfer 1 1 _) 1 _ eq_refl) Hnone)).
  - exact (proj2 (X12_unknown_device_id_is_refused
                    (GetConfigurations 0) 0 _ eq_refl) Hs (or_introl eq_refl)).
Defined.

(** X13: only openDeviceHandle, closeDeviceHandle and the code of
    listDevices after its await change the adaptor: every other transition
    (a call of listDevices, getConfigurations, claimInterface,
    releaseInterface, resetDevice or of a transfer, the code that runs after
    any of their awaits or after those of openWebusbDevice, and WebUSB
    settling a promise) leaves the map, the two counters and every
    DeviceState, with its handles and its two markers, as they were. *)
Theorem X13_other_transitions_leave_the_adaptor l s s' :
  step l s = Some s' → ¬ changesAdaptor l s → sameAdaptor s s'.
Proof.
  destruct l as [req|p x|t].
  - intros [= <-]. apply call_sameAdaptor.
  - cbn [step]. destruct (promises s !! p) as [pr|]; [|done].
    cbn [mbind option_bind]. destruct (settled pr); [done|].
    destruct (webusbSettles _ _); [|done]. intros [= <-] _.
    apply sameAdaptor_settle.
  - cbn [step changesAdaptor].
    destruct (activations s !! t) as [[a|]|]; try done.
    cbn [mjoin option_join mbind option_bind].
    destruct (promises s !! awaiting a) as [pr|]; [|done].
    cbn [mbind option_bind]. destruct (settled pr) as [x|]; [|done].
    cbn [mbind option_bind]. intros Hres Hk.
    eapply sameAdaptor_trans; [|eapply resume_sameAdaptor; [|done]].
    + by repeat split.
    + by destruct (continuation a).
Qed.

Lemma X13_witness :
  step (Call (GetConfigurations 1)) (Example.after Example.opened1)
  = Some (call (GetConfigurations 1) (Example.after Example.opened1))
  ∧ ¬ changesAdaptor (Call (GetConfigurations 1))
        (Example.after Example.opened1)
  ∧ handles
      (deviceStates
         (call (GetConfigurations 1) (Example.after Example.opened1)) 0)
    = handles (deviceStates (Example.after Example.opened1) 0).
Proof.
  assert (step (Call (GetConfigurations 1)) (Example.after Example.opened1)
          = Some (call (GetConfigurations 1) (Example.after Example.opened1)))
    as Hstep by reflexivity.
  assert (¬ changesAdaptor (Call (GetConfigurations 1))
              (Example.after Example.opened1)) as Hk by (intros []).
  split; [exact Hstep|]. split; [exact Hk|].
  destruct (X13_other_transitions_leave_the_adaptor _ _ _ Hstep Hk)
    as (_ & _ & _ & Hd & _).
  rewrite Hd. reflexivity.
Defined.

(** X14: openDeviceHandle on a device that has a handle already returns at
    once: the promise of the call is fulfilled with the value of the handle
    counter, the counter moves on, the handle joins the set and is accepted
    by the methods that take a handle; no WebUSB call is made, nothing is
    suspended and the two markers are not touched. *)
Theorem X14_open_device_gives_a_handle_at_once s deviceId r :
  Map_get (idToDeviceMap_ s) deviceId = Some r →
  handles (deviceStates s r) ≠ ∅ →
  let c := nextFreeDeviceHandle_ s in
  let s' := call (OpenDeviceHandle deviceId) s in
  promises s' = promises s ++ [returnedHandle c]
  ∧ activations s' = activations s
  ∧ handles (deviceStates s' r) = {[c]} ∪ handles (deviceStates s r)
  ∧ nextFreeDeviceHandle_ s' = S c
  ∧ openOperationPromise (deviceStates s' r)
    = openOperationPromise (deviceStates s r)
  ∧ closeOperationPromise (deviceStates s' r)
    = closeOperationPromise (deviceStates s r)
  ∧ getDeviceByIdAndHandleOrThrow_ deviceId c s' = Normal r.
Proof.
  intros Hid Hh c s'. subst s'. cbn [call].
  unfold openDeviceHandle, getDeviceByIdOrThrow_. cbn [newPromise].
  simp_state. rewrite Hid.
  rewrite decide_False by (by apply size_handles_ne).
  unfold openDeviceHandle_newHandle.
  rewrite activations_settle, deviceStates_settle,
    nextFreeDeviceHandle_settle.
  split.
  { rewrite (settle_at _ (promises s) [] AsyncFunction); [done|done|].
    by simp_state. }
  simp_state. rewrite fn_lookup_insert. simp_state.
  repeat split; try done.
  apply getDeviceByIdAndHandleOrThrow_Normal.
  rewrite idToDeviceMap_settle, deviceStates_settle. simp_state.
  rewrite fn_lookup_insert. simp_state. split; [done|]. set_solver.
Qed.

Lemma X14_witness :
  Map_get (idToDeviceMap_ (Example.after Example.opened1)) 1 = Some 0
  ∧ handles (deviceStates (Example.after Example.opened1) 0) ≠ ∅
  ∧ promises (call (OpenDeviceHandle 1) (Example.after Example.opened1))
    = promises (Example.after Example.opened1) ++ [returnedHandle 2].
Proof.
  assert (Map_get (idToDeviceMap_ (Example.after Example.opened1)) 1
          = Some 0) as Hid by (vm_compute; reflexivity).
  assert (handles (deviceStates (Example.after Example.opened1) 0) ≠ ∅)
    as Hh.
  { intros Hh.
    assert (1 ∈ handles (deviceStates (Example.after Example.opened1) 0))
      as Hin by (vm_compute; reflexivity).
    rewrite Hh in Hin. by apply elem_of_empty in Hin. }
  split; [exact Hid|]. split; [exact Hh|].
  exact (proj1 (X14_open_device_gives_a_handle_at_once _ 1 0 Hid Hh)).
Defined.

(** X15: a failed open() is not remembered.  On a device with no handle
    and no marker, when the open() started by openDeviceHandle is rejected,
    openWebusbDevice and the call are rejected with the error of open();
    no handle is given out and the handle counter stays; the pending-open
    marker is cleared; and the next openDeviceHandle on the device calls
    open() again. *)
Theorem X15_failed_open_is_retried s deviceId r e :
  Map_get (idToDeviceMap_ s) deviceId = Some r →
  handles (deviceStates s r) = ∅ →
  openOperationPromise (deviceStates s r) = None →
  closeOperationPromise (deviceStates s r) = None →
  let n := length (promises s) in
  let m := length (activations s) in
  let d := webusbDevice (deviceStates s r) in
  ∃ s',
    run [Call (OpenDeviceHandle deviceId); Settle (n + 2) (Rejected e);
         Resume m; Resume (S m)] s = Some s'
    ∧ promises s'
      = promises s
        ++ [settledPromise AsyncFunction (Rejected e);
            settledPromise AsyncFunction (Rejected e);
            settledPromise (WebusbOpen d) (Rejected e)]
    ∧ activations s' = activations s ++ [None; None]
    ∧ handles (deviceStates s' r) = ∅
    ∧ openOperationPromise (deviceStates s' r) = None
    ∧ closeOperationPromise (deviceStates s' r) = None
    ∧ nextFreeDeviceHandle_ s' = nextFreeDeviceHandle_ s
    ∧ promises (call (OpenDeviceHandle deviceId) s')
      = promises s'
        ++ [pending AsyncFunction; pending AsyncFunction;
            pending (WebusbOpen d)].
Proof.
  intros Hid Hh Ho Hc n m d.
  destruct (openDeviceHandle_first deviceId r s Hid Hh Ho Hc)
    as (Hp1 & Ha1 & Hd1 & Hm1 & Hn1).
  fold n d in Hp1, Ha1, Hd1.
  set (s1 := openDeviceHandle deviceId s) in *.
  (* open() is rejected *)
  set (s2 := setPromises
               ((promises s ++ [pending AsyncFunction; pending AsyncFunction])
                ++ [settledPromise (WebusbOpen d) (Rejected e)]) s1).
  assert (step (Settle (n + 2) (Rejected e)) s1 = Some s2) as Hstep1.
  { apply step_Settle_at; [rewrite length_app; simpl; unfold n; lia| |done].
    by rewrite Hp1, <- (assoc_L (++)). }
  (* openWebusbDevice continues after line 505 *)
  set (s3 := setPromises
               (promises s
                ++ [pending AsyncFunction;
                    settledPromise AsyncFunction (Rejected e);
                    settledPromise (WebusbOpen d) (Rejected e)])
               (setActivations
                  (activations s ++ [None; openDeviceHandle_151 r (S n) n])
                  s2)).
  assert (step (Resume m) s2 = Some s3) as Hstep2.
  { rewrite (step_Resume_at s2 (activations s)
               [openDeviceHandle_151 r (S n) n]
               {| awaiting := S (S n); continuation := OpenWebusbDevice_505;
                  result := S n |}
               (settledPromise (WebusbOpen d) (Rejected e)) (Rejected e) m);
      [|done|exact Ha1| |done].
    - cbn [resume continuation result]. f_equal.
      rewrite (settle_at _ (promises s ++ [pending AsyncFunction])
                 [settledPromise (WebusbOpen d) (Rejected e)] AsyncFunction).
      + unfold s3. by rewrite <- !(assoc_L (++)).
      + rewrite length_app. simpl. unfold n. lia.
      + unfold s2. simp_state. by rewrite <- !(assoc_L (++)).
    - unfold s2. simp_state.
      rewrite lookup_app_r by (rewrite length_app; simpl; unfold n; lia).
      rewrite length_app. simpl.
      by replace (S (S n) - (length (promises s) + 2)) with 0
        by (unfold n; lia). }
  (* openDeviceHandle continues after line 151 *)
  set (s4 := setPromises
               (promises s
                ++ [settledPromise AsyncFunction (Rejected e);
                    settledPromise AsyncFunction (Rejected e);
                    settledPromise (WebusbOpen d) (Rejected e)])
               (updateDeviceState r (setOpenOperationPromise None)
                  (setActivations (activations s ++ [None; None]) s3))).
  assert (step (Resume (S m)) s3 = Some s4) as Hstep3.
  { rewrite (step_Resume_at s3 (activations s ++ [None]) []
               {| awaiting := S n;
                  continuation := OpenDeviceHandle_151 r; result := n |}
               (settledPromise AsyncFunction (Rejected e)) (Rejected e)
               (S m));
      [|rewrite length_app; simpl; unfold m; lia
       |unfold s3; simp_state; by rewrite <- (assoc_L (++))
       | |done].
    - cbn [resume continuation result]. f_equal.
      rewrite (settle_at _ (promises s)
                 [settledPromise AsyncFunction (Rejected e);
                  settledPromise (WebusbOpen d) (Rejected e)] AsyncFunction).
      + unfold s4. by rewrite <- !(assoc_L (++)).
      + done.
      + unfold s3. by simp_state.
    - unfold s3. simp_state.
      rewrite lookup_app_r by (unfold n; lia).
      by replace (S n - length (promises s)) with 1 by (unfold n; lia). }
  exists s4. split.
  { cbn [run].
    change (step (Call (OpenDeviceHandle deviceId)) s) with (Some s1).
    cbn [mbind option_bind]. rewrite Hstep1. cbn [mbind option_bind].
    rewrite Hstep2. cbn [mbind option_bind]. by rewrite Hstep3. }
  assert (deviceStates s4 r
          = setOpenOperationPromise None
              (setOpenOperationPromise (Some (S n)) (deviceStates s r)))
    as Hd4.
  { unfold s4, s3, s2. simp_state. rewrite fn_lookup_insert.
    by rewrite Hd1, fn_lookup_insert. }
  assert (idToDeviceMap_ s4 = idToDeviceMap_ s) as Hm4.
  { unfold s4, s3, s2. simp_state. exact Hm1. }
  split; [done|]. split; [done|].
  rewrite Hd4. simp_state.
  split; [done|]. split; [done|]. split; [done|]. split.
  { unfold s4, s3, s2. simp_state. exact Hn1. }
  destruct (openDeviceHandle_first deviceId r s4) as (Hp5 & _).
  - by rewrite Hm4.
  - rewrite Hd4. by simp_state.
  - rewrite Hd4. by simp_state.
  - rewrite Hd4. by simp_state.
  - cbn [call]. rewrite Hp5. by rewrite Hd4.
Qed.

Lemma X15_witness :
  ∃ s',
    run [Call (OpenDeviceHandle 1);
         Settle (length (promises (Example.after Example.enumerate7)) + 2)
           (Rejected (WebusbError 3));
         Resume (length (activations (Example.after Example.enumerate7)));
         Resume (S (length (activations
                              (Example.after Example.enumerate7))))]
      (Example.after Example.enumerate7) = Some s'
    ∧ promises s' !! 2
      = Some (settledPromise AsyncFunction (Rejected (WebusbError 3)))
    ∧ openOperationPromise (deviceStates s' 0) = None.
Proof.
  destruct (X15_failed_open_is_retried (Example.after Example.enumerate7)
              1 0 (WebusbError 3))
    as (s' & Hrun & Hp & _ & _ & Ho & _);
    [vm_compute; reflexivity|vm_compute; reflexivity|vm_compute; reflexivity
    |vm_compute; reflexivity|].
  exists s'. split; [exact Hrun|]. split; [|exact Ho].
  rewrite Hp. vm_compute. reflexivity.
Defined.

(** X16: a close() that succeeds clears the pending-close marker.  When
    closeDeviceHandle closes the only handle of a device and the close()
    it calls succeeds, the call is fulfilled, the device has no handle and
    no pending-close marker, and, if no open is pending, the next
    openDeviceHandle calls open() without waiting for anything. *)
Theorem X16_successful_close_clears_the_marker s deviceId h r :
  Map_get (idToDeviceMap_ s) deviceId = Some r →
  handles (deviceStates s r) = {[h]} →
  let n := length (promises s) in
  let m := length (activations s) in
  let d := webusbDevice (deviceStates s r) in
  ∃ s',
    run [Call (CloseDeviceHandle deviceId h);
         Settle (S n) (Fulfilled Undefined); Resume m] s = Some s'
    ∧ promises s'
      = promises s
        ++ [settledPromise AsyncFunction (Fulfilled Undefined);
            settledPromise (WebusbClose d) (Fulfilled Undefined)]
    ∧ activations s' = activations s ++ [None]
    ∧ handles (deviceStates s' r) = ∅
    ∧ closeOperationPromise (deviceStates s' r) = None
    ∧ nextFreeDeviceHandle_ s' = nextFreeDeviceHandle_ s
    ∧ (openOperationPromise (deviceStates s r) = None →
       promises (call (OpenDeviceHandle deviceId) s')
       = promises s'
         ++ [pending AsyncFunction; pending AsyncFunction;
             pending (WebusbOpen d)]).
Proof.
  intros Hid Hh n m d.
  destruct (closeDeviceHandle_last deviceId h r s Hid Hh)
    as (Hp1 & Ha1 & Hh1 & Hc1 & Ho1).
  fold n d in Hp1, Ha1, Hc1.
  set (s1 := closeDeviceHandle deviceId h s) in *.
  assert (idToDeviceMap_ s1 = idToDeviceMap_ s
          ∧ webusbDevice (deviceStates s1 r) = d
          ∧ nextFreeDeviceHandle_ s1 = nextFreeDeviceHandle_ s)
    as (Hm1 & Hw1 & Hn1).
  { unfold s1, closeDeviceHandle, closeDeviceHandle_close,
      getDeviceByIdOrThrow_.
    simp_state. rewrite Hid, Hh.
    rewrite decide_True by set_solver.
    rewrite fn_lookup_insert. simp_state.
    rewrite difference_singleton_self, size_empty.
    rewrite decide_False by lia. simp_state.
    by rewrite !fn_lookup_insert. }
  set (s2 := setActivations (activations s ++ [None])
               (setPromises
                  ((promises s ++ [pending AsyncFunction])
                   ++ [settledPromise (WebusbClose d) (Fulfilled Undefined)])
                  s1)).
  set (s3 := setPromises
               (promises s
                ++ [settledPromise AsyncFunction (Fulfilled Undefined);
                    settledPromise (WebusbClose d) (Fulfilled Undefined)])
               (updateDeviceState r (setCloseOperationPromise None) s2)).
  assert (run [Settle (S n) (Fulfilled Undefined); Resume m] s1 = Some s3)
    as Hrun.
  { rewrite (run_settle_resume s1 (promises s ++ [pending AsyncFunction])
               (activations s) (WebusbClose d) (CloseDeviceHandle_181 r) n
               (Fulfilled Undefined) (S n) m);
      [|by rewrite Hp1, <- (assoc_L (++))|done
       |rewrite length_app; simpl; unfold n; lia|done|done].
    cbn [resume]. f_equal. fold s2.
    rewrite (settle_at _ (promises s)
               [settledPromise (WebusbClose d) (Fulfilled Undefined)]
               AsyncFunction).
    - done.
    - done.
    - unfold s2. simp_state. by rewrite <- (assoc_L (++)). }
  exists s3. split.
  { change (run [Call (CloseDeviceHandle deviceId h);
                 Settle (S n) (Fulfilled Undefined); Resume m] s)
      with (run [Settle (S n) (Fulfilled Undefined); Resume m] s1).
    exact Hrun. }
  assert (deviceStates s3 r
          = setCloseOperationPromise None (deviceStates s1 r)) as Hd3.
  { unfold s3, s2. simp_state. by rewrite fn_lookup_insert. }
  split; [done|]. split; [done|]. rewrite Hd3. simp_state.
  split; [done|]. split; [done|]. split; [exact Hn1|].
  intros Ho.
  destruct (openDeviceHandle_first deviceId r s3) as (Hp5 & _).
  - unfold s3, s2. simp_state. by rewrite Hm1.
  - rewrite Hd3. by simp_state.
  - rewrite Hd3. simp_state. by rewrite Ho1.
  - rewrite Hd3. by simp_state.
  - cbn [call]. rewrite Hp5. rewrite Hd3. simp_state. by rewrite Hw1.
Qed.

Lemma X16_witness :
  ∃ s',
    run [Call (CloseDeviceHandle 1 1);
         Settle (S (length (promises (Example.after Example.opened1))))
           (Fulfilled Undefined);
         Resume (length (activations (Example.after Example.opened1)))]
      (Example.after Example.opened1) = Some s'
    ∧ closeOperationPromise (deviceStates s' 0) = None
    ∧ handles (deviceStates s' 0) = ∅.
Proof.
  destruct (X16_successful_close_clears_the_marker
              (Example.after Example.opened1) 1 1 0)
    as (s' & Hrun & _ & _ & Hh & Hc & _);
    [vm_compute; reflexivity|vm_compute; reflexivity|].
  exists s'. split; [exact Hrun|]. split; [exact Hc|exact Hh].
Defined.

(** X17: controlTransfer checks the device id and the handle first, then
    the request type, then the recipient; when one of the checks fails the
    call is rejected with the error of the first failing check, without a
    WebUSB call.  When they pass it calls controlTransferOut if there is
    data to send and controlTransferIn with lengthToReceive if not, once;
    an answer with a status other than "ok" rejects the call with
    "Transfer failed with status", a rejection rejects it with the same
    error, and an answer with status "ok" fulfils it with the data
    received, if any. *)
Theorem X17_controlTransfer_checks_then_calls s deviceId h parameters :
  let n := length (promises s) in
  let m := length (activations s) in
  let s' := call (ControlTransfer deviceId h parameters) s in
  let refused e :=
    promises s'
    = promises s ++ [settledPromise AsyncFunction (Rejected e)]
    ∧ activations s' = activations s in
  (∀ e, getDeviceByIdAndHandleOrThrow_ deviceId h s = Throw e → refused e)
  ∧ ∀ r,
      getDeviceByIdAndHandleOrThrow_ deviceId h s = Normal r →
      (requestType parameters = OtherRequestType →
       refused UnknownTransferRequestType)
      ∧ (requestType parameters ≠ OtherRequestType →
         recipient parameters = OtherRecipient →
         refused UnknownTransferRecipient)
      ∧ (requestType parameters ≠ OtherRequestType →
         recipient parameters ≠ OtherRecipient →
         let d := webusbDevice (deviceStates s r) in
         let o :=
           match controlDataToSend parameters with
           | Some _ => WebusbControlTransferOut d (Z.of_nat (value parameters))
           | None =>
               WebusbControlTransferIn d (Z.of_nat (value parameters))
                 (controlLengthToReceive parameters)
           end in
         ∀ x,
           webusbSettles o (transferAnswer x) = true →
           ∃ s'',
             run [Settle (S n) (transferAnswer x); Resume m] s' = Some s''
             ∧ promises s''
               = promises s
                 ++ [settledPromise AsyncFunction
                       match x with
                       | Rejected e => Rejected e
                       | Fulfilled t =>
                           if decide (status t = "ok")
                           then Fulfilled (LibusbJsTransferResult (data t))
                           else Rejected (TransferFailed (status t))
                       end;
                     settledPromise o (transferAnswer x)]
             ∧ activations s'' = activations s ++ [None]
             ∧ sameAdaptor s s'').
Proof.
  intros n m s' refused. subst s' refused. cbn [call].
  unfold controlTransfer. cbn [newPromise]. simp_state.
  assert (∀ e,
            promises (settle (length (promises s)) (Rejected e)
                        (setPromises (promises s ++ [pending AsyncFunction])
                           s))
            = promises s ++ [settledPromise AsyncFunction (Rejected e)]
            ∧ activations (settle (length (promises s)) (Rejected e)
                             (setPromises
                                (promises s ++ [pending AsyncFunction]) s))
              = activations s) as Hrefused.
  { intros e. split; [|done]. apply (promises_settle_new _ AsyncFunction). }
  rewrite getDeviceByIdAndHandleOrThrow_setPromises.
  split.
  - intros e ->. cbn [mbind Completion_bind]. apply Hrefused.
  - intros r ->. cbn [mbind Completion_bind]. split; [|split].
    + intros ->. cbn [getWebusbRequestType]. apply Hrefused.
    + intros Hty ->.
      destruct (requestType parameters); try done;
        cbn [getWebusbRequestType getWebusbRecipient]; apply Hrefused.
    + intros Hty Hrc x.
      set (d := webusbDevice (deviceStates s r)).
      set (o := match controlDataToSend parameters with
                | Some _ =>
                    WebusbControlTransferOut d (Z.of_nat (value parameters))
                | None =>
                    WebusbControlTransferIn d (Z.of_nat (value parameters))
                      (controlLengthToReceive parameters)
                end).
      intros Hw.
      destruct (requestType parameters); try done;
        destruct (recipient parameters); try done;
        cbn [getWebusbRequestType getWebusbRecipient mret Completion_ret
             mbind Completion_bind];
        (apply (transfer_run _ (promises s) (activations s) o x s);
         [by repeat split
         |simp_state; by rewrite <- (assoc_L (++))
         |simp_state; by rewrite length_app, Nat.add_1_r
         |done]).
Qed.

Lemma X17_witness :
  let parameters :=
    {| requestType := STANDARD; recipient := OtherRecipient; request := 6;
       value := 512; index := 0; controlDataToSend := None;
       controlLengthToReceive := 9 |} in
  getDeviceByIdAndHandleOrThrow_ 1 1 (Example.after Example.opened1)
  = Normal 0
  ∧ promises (call (ControlTransfer 1 1 parameters)
                (Example.after Example.opened1))
    = promises (Example.after Example.opened1)
      ++ [settledPromise AsyncFunction (Rejected UnknownTransferRecipient)].
Proof.
  intros parameters.
  assert (getDeviceByIdAndHandleOrThrow_ 1 1 (Example.after Example.opened1)
          = Normal 0) as Hh by (vm_compute; reflexivity).
  split; [exact Hh|].
  assert (requestType parameters ≠ OtherRequestType) as Hty by done.
  exact (proj1 (proj1 (proj2 (proj2 (X17_controlTransfer_checks_then_calls
                                       _ 1 1 parameters) 0 Hh))
                  Hty eq_refl)).
Defined.

(** X18: bulkTransfer and interruptTransfer, given a handle of the device,
    call transferOut if there is data to send and transferIn with
    lengthToReceive if not, once, on the endpoint whose number is the low
    four bits of the endpoint address; the direction bit of the address
    plays no part.  The answer is passed on as for a control transfer.  For
    an endpoint with a number below 16 the address that the conversion of
    the configuration reports leads back to the number of the endpoint. *)
Theorem X18_bulk_and_interrupt_transfers s deviceId h r parameters req :
  req = BulkTransfer deviceId h parameters
  ∨ req = InterruptTransfer deviceId h parameters →
  getDeviceByIdAndHandleOrThrow_ deviceId h s = Normal r →
  let n := length (promises s) in
  let m := length (activations s) in
  let d := webusbDevice (deviceStates s r) in
  let endpointNumber := Nat.land (transferEndpointAddress parameters) 15 in
  let o :=
    match dataToSend parameters with
    | Some _ => WebusbTransferOut d endpointNumber
    | None => WebusbTransferIn d endpointNumber (lengthToReceive parameters)
    end in
  (∀ x,
     webusbSettles o (transferAnswer x) = true →
     ∃ s',
       run [Call req; Settle (S n) (transferAnswer x); Resume m] s = Some s'
       ∧ promises s'
         = promises s
           ++ [settledPromise AsyncFunction
                 match x with
                 | Rejected e => Rejected e
                 | Fulfilled t =>
                     if decide (status t = "ok")
                     then Fulfilled (LibusbJsTransferResult (data t))
                     else Rejected (TransferFailed (status t))
                 end;
               settledPromise o (transferAnswer x)]
       ∧ activations s' = activations s ++ [None]
       ∧ sameAdaptor s s')
  ∧ (∀ w e,
       getLibusbJsEndpointDescriptor w = Some e →
       usbEndpointNumber w < 16 →
       transferEndpointAddress parameters = endpointAddress e →
       endpointNumber = usbEndpointNumber w).
Proof.
  intros Hreq Hr n m d endpointNumber o. split.
  - intros x Hw.
    assert (call req s = genericTransfer_ deviceId h parameters s) as Hcall
      by (by destruct Hreq as [-> | ->]).
    assert (call req s
            = suspend {| awaiting := S n; continuation := Transfer_await;
                         result := n |}
                (setPromises
                   ((promises s ++ [pending AsyncFunction]) ++ [pending o])
                   (setPromises (promises s ++ [pending AsyncFunction]) s)))
      as Hstate.
    { rewrite Hcall. unfold genericTransfer_. cbn [newPromise]. simp_state.
      rewrite getDeviceByIdAndHandleOrThrow_setPromises, Hr. simp_state.
      by rewrite length_app, Nat.add_1_r. }
    cbn [run]. change (step (Call req) s) with (Some (call req s)).
    cbn [mbind option_bind]. rewrite Hstate.
    apply (transfer_run _ (promises s) (activations s) o x s).
    + by repeat split.
    + simp_state. by rewrite <- (assoc_L (++)).
    + done.
    + done.
  - intros w e He Hlt Haddr. unfold endpointNumber. rewrite Haddr.
    revert He. unfold getLibusbJsEndpointDescriptor.
    destruct (getLibusbJsEndpointType (usbType w)); [|done].
    intros [= <-]. cbn [endpointAddress].
    case_decide.
    + by apply land_15_add_128.
    + rewrite Nat.add_0_r. by apply land_15_lt.
Qed.

Lemma X18_witness :
  let parameters :=
    {| transferEndpointAddress := 129; dataToSend := None;
       lengthToReceive := 8 |} in
  getDeviceByIdAndHandleOrThrow_ 1 1 (Example.after Example.opened1)
  = Normal 0
  ∧ ∃ s',
      run [Call (InterruptTransfer 1 1 parameters);
           Settle (S (length (promises (Example.after Example.opened1))))
             (transferAnswer
                (Fulfilled {| status := "stall"; data := None |}));
           Resume (length (activations (Example.after Example.opened1)))]
        (Example.after Example.opened1) = Some s'
      ∧ promises s' !! 5
        = Some (settledPromise AsyncFunction
                  (Rejected (TransferFailed "stall")))
      ∧ promises s' !! 6
        = Some (settledPromise (WebusbTransferIn 7 1 8)
                  (Fulfilled (TransferResult
                                {| status := "stall"; data := None |}))).
Proof.
  intros parameters.
  assert (getDeviceByIdAndHandleOrThrow_ 1 1 (Example.after Example.opened1)
          = Normal 0) as Hh by (vm_compute; reflexivity).
  split; [exact Hh|].
  destruct (proj1 (X18_bulk_and_interrupt_transfers
                     (Example.after Example.opened1) 1 1 0 parameters
                     (InterruptTransfer 1 1 parameters)
                     (or_intror eq_refl) Hh)
              (Fulfilled {| status := "stall"; data := None |}) eq_refl)
    as (s' & Hrun & Hp & _).
  exists s'. split; [exact Hrun|]. rewrite Hp.
  split; vm_compute; reflexivity.
Defined.

(* ===================================================================== *)
(** ** getConfigurations run to its end *)
(* ===================================================================== *)

Import Js.

Module ConfigurationsFacts.
Import Descriptor Adaptor DescriptorFacts RegistryFacts AdaptorFacts
  FailedCloseFacts ResultsFacts TreeFacts CountersFacts RunFacts.

Lemma state_eta s :
  setActivations (activations s) (setPromises (promises s) s) = s.
Proof. by destruct s. Qed.

Lemma run_cons2 l1 l2 rest s :
  run (l1 :: l2 :: rest) s = run [l1; l2] s ≫= run rest.
Proof.
  cbn [run]. destruct (step l1 s) as [s1|]; [|done].
  cbn [mbind option_bind]. by destruct (step l2 s1).
Qed.

(** One answer of WebUSB and the continuation that awaited it, on a state
    given by its promises and activations. *)
Lemma run_answer P A o k res x s n m rest :
  n = length P → m = length A →
  webusbSettles o x = true →
  run (Settle n x :: Resume m :: rest)
    (setActivations
       (A ++ [Some {| awaiting := n; continuation := k; result := res |}])
       (setPromises (P ++ [pending o]) s))
  = resume k x res
      (setActivations (A ++ [None])
         (setPromises (P ++ [settledPromise o x]) s))
    ≫= run rest.
Proof.
  intros Hn Hm Hw. rewrite run_cons2.
  by rewrite (run_settle_resume _ P A o k res x n m).
Qed.

Lemma extractionSchedule_cases n m a :
  extractionSchedule n m a
  = match answerOpen a with
    | Some e => [Settle n (Rejected e); Resume m]
    | None =>
        [Settle n (Fulfilled Undefined); Resume m;
         Settle (n + 1) (transferAnswer (answerFirst a)); Resume (m + 1)]
        ++ match secondTransferLength a with
           | Some _ =>
               [Settle (n + 2) (transferAnswer (answerSecond a));
                Resume (m + 2);
                Settle (n + 3) (voidAnswer (answerClose a)); Resume (m + 3)]
           | None =>
               [Settle (n + 2) (voidAnswer (answerClose a)); Resume (m + 2)]
           end
    end.
Proof.
  unfold extractionSchedule, extractionAnswers.
  destruct (answerOpen a); [|destruct (secondTransferLength a)];
    cbn; by rewrite !Nat.add_0_r.
Qed.

Lemma extractionCalls_length d c a :
  length (extractionCalls d c a) = length (extractionAnswers a).
Proof.
  unfold extractionCalls, extractionAnswers.
  destruct (answerOpen a); [done|]. by destruct (secondTransferLength a).
Qed.

Lemma webusbSettles_voidAnswer o e :
  (∃ d, o = WebusbOpen d ∨ o = WebusbClose d) →
  webusbSettles o (voidAnswer e) = true.
Proof. intros [d [-> | ->]]; by destruct e. Qed.

Lemma webusbSettles_transferAnswer d v len x :
  webusbSettles (WebusbControlTransferIn d v len) (transferAnswer x) = true.
Proof. by destruct x. Qed.

Ltac next_await :=
  cbn [mbind option_bind];
  unfold controlTransferIn, fetchAndFill_finally, suspend;
  cbn [newPromise]; simp_state;
  rewrite ?length_app; cbn [length];
  rewrite <- ?Nat.add_assoc; cbn [Nat.add];
  repeat match goal with
         | |- context [{| origin := ?o; settled := None |}] =>
             change {| origin := o; settled := None |} with (pending o)
         end.

(** The calls and answers for one configuration: from the activation that
    awaits [open()] to the push of the configuration. *)
Lemma extraction_run f a res P A s :
  run (extractionSchedule (length P) (length A) a)
    (setActivations
       (A ++ [Some {| awaiting := length P;
                      continuation := GetConfigurations_518 f;
                      result := res |}])
       (setPromises (P ++ [pending (WebusbOpen (frameWebusbDevice f))]) s))
  = Some (getConfigurations_push f
            (extracted a (frameLibusbJsConfiguration f)) res
            (setActivations
               (A ++ replicate (length (extractionAnswers a)) None)
               (setPromises
                  (P ++ zip_with settledPromise
                          (extractionCalls (frameWebusbDevice f)
                             (frameLibusbJsConfiguration f) a)
                          (extractionAnswers a)) s))).
Proof.
  rewrite extractionSchedule_cases.
  unfold extracted, extractionCalls, extractionAnswers,
    fetchAndFillConfigurationExtraDataForOpenedDevice, secondTransferLength.
  destruct (answerOpen a) as [e|].
  { (* open() fails *)
    rewrite run_answer by done. done. }
  cbn [app].
  rewrite run_answer by done.
  cbn [resume mbind option_bind]. next_await.
  rewrite (run_answer (P ++ [settledPromise _ _]) (A ++ [None]));
    [|rewrite length_app; simpl; lia|rewrite length_app; simpl; lia
     |apply webusbSettles_transferAnswer].
  cbn [resume]. rewrite asTransferResult_transferAnswer.
  cbn [mbind option_bind].
  destruct (await (answerFirst a) ≫= readTotalLength) as [[tl|]|e1] eqn:H1.
  - (* the second transfer is made *)
    next_await.
    rewrite (run_answer ((P ++ [settledPromise _ _])
                         ++ [settledPromise _ _])
               ((A ++ [None]) ++ [None]));
      [|rewrite !length_app; simpl; lia|rewrite !length_app; simpl; lia
       |apply webusbSettles_transferAnswer].
    cbn [resume]. rewrite asTransferResult_transferAnswer.
    cbn [mbind option_bind].
    destruct (answerSecond a) as [r2|e2]; cbn [await].
    + destruct (parseDescriptors_total tl r2 (frameLibusbJsConfiguration f))
        as [[y c'] ->].
      cbn [mbind option_bind]. next_await.
      rewrite (run_answer (((P ++ [settledPromise _ _])
                            ++ [settledPromise _ _]) ++ [settledPromise _ _])
                 (((A ++ [None]) ++ [None]) ++ [None]));
        [|rewrite !length_app; simpl; lia|rewrite !length_app; simpl; lia
         |apply webusbSettles_voidAnswer; eauto].
      cbn [resume mbind option_bind run]. cbn [frameLibusbJsConfiguration].
      unfold getConfigurations_push. simp_state.
      cbn [frameWebusbDevice activeConfigurationValue remainingConfigurations
           libusbJsConfigurations zip_with length replicate].
      by rewrite <- !(assoc_L (++)).
    + cbn [mbind option_bind]. next_await.
      rewrite (run_answer (((P ++ [settledPromise _ _])
                            ++ [settledPromise _ _]) ++ [settledPromise _ _])
                 (((A ++ [None]) ++ [None]) ++ [None]));
        [|rewrite !length_app; simpl; lia|rewrite !length_app; simpl; lia
         |apply webusbSettles_voidAnswer; eauto].
      cbn [resume mbind option_bind run]. cbn [frameLibusbJsConfiguration].
      unfold getConfigurations_push. simp_state.
      cbn [frameWebusbDevice activeConfigurationValue remainingConfigurations
           libusbJsConfigurations zip_with length replicate].
      by rewrite <- !(assoc_L (++)).
  - (* no second transfer: the header does not give a length *)
    next_await.
    rewrite (run_answer ((P ++ [settledPromise _ _])
                         ++ [settledPromise _ _])
               ((A ++ [None]) ++ [None]));
      [|rewrite !length_app; simpl; lia|rewrite !length_app; simpl; lia
       |apply webusbSettles_voidAnswer; eauto].
    cbn [resume mbind option_bind run]. cbn [frameLibusbJsConfiguration].
    unfold getConfigurations_push. simp_state.
    cbn [frameWebusbDevice activeConfigurationValue remainingConfigurations
         libusbJsConfigurations zip_with length replicate app].
    by rewrite <- !(assoc_L (++)).
  - (* no second transfer: the first one failed *)
    next_await.
    rewrite (run_answer ((P ++ [settledPromise _ _])
                         ++ [settledPromise _ _])
               ((A ++ [None]) ++ [None]));
      [|rewrite !length_app; simpl; lia|rewrite !length_app; simpl; lia
       |apply webusbSettles_voidAnswer; eauto].
    cbn [resume mbind option_bind run]. cbn [frameLibusbJsConfiguration].
    unfold getConfigurations_push. simp_state.
    cbn [frameWebusbDevice activeConfigurationValue remainingConfigurations
         libusbJsConfigurations zip_with length replicate app].
    by rewrite <- !(assoc_L (++)).
Qed.

Lemma collapse_promises Y X' Y' s :
  setPromises Y (setActivations X' (setPromises Y' s))
  = setActivations X' (setPromises Y s).
Proof. done. Qed.

Lemma collapse X Y X' Y' s :
  setActivations X (setPromises Y (setActivations X' (setPromises Y' s)))
  = setActivations X (setPromises Y s).
Proof. done. Qed.

Lemma answered_length d c a :
  length (zip_with settledPromise (extractionCalls d c a)
            (extractionAnswers a))
  = length (extractionAnswers a).
Proof. rewrite length_zip_with, extractionCalls_length. lia. Qed.

(** The loop of [getConfigurations] run to its end. *)
Lemma getConfigurations_loop_run d active ws :
  ∀ answers done P Q A s,
    length answers = length ws →
    let cs := (λ w, getLibusbJsConfigurationDescriptor w active) <$> ws in
    let new := mjoin (zip_with (λ c a, zip_with settledPromise (extractionCalls d c a)
                                  (extractionAnswers a)) cs answers) in
    run (getConfigurationsSchedule (length (P ++ pending AsyncFunction :: Q))
           (length A) answers)
      (getConfigurations_loop d active ws done (length P)
         (setActivations A (setPromises (P ++ pending AsyncFunction :: Q) s)))
    = Some (setActivations (A ++ replicate (length new) None)
              (setPromises
                 (P ++ settledPromise AsyncFunction
                         (Fulfilled (LibusbJsConfigurations
                                       (done ++ zip_with extracted answers cs)))
                    :: Q ++ new) s)).
Proof.
  induction ws as [|w ws IH]; intros [|a answers] done P Q A s Hlen;
    try discriminate Hlen.
  - cbn [getConfigurationsSchedule getConfigurations_loop run fmap list_fmap
         zip_with mjoin list_join length replicate].
    rewrite (settle_at _ P Q AsyncFunction _ _ eq_refl) by done.
    by rewrite !app_nil_r.
  - cbn [getConfigurationsSchedule getConfigurations_loop fmap list_fmap
         zip_with mjoin list_join].
    rewrite run_app. unfold suspend. cbn [newPromise]. simp_state.
    set (c := getLibusbJsConfigurationDescriptor w active).
    pose proof (extraction_run
                  {| frameWebusbDevice := d;
                     activeConfigurationValue := active;
                     frameLibusbJsConfiguration := c;
                     remainingConfigurations := ws;
                     libusbJsConfigurations := done |}
                  a (length P) (P ++ pending AsyncFunction :: Q) A
                  (setActivations A
                     (setPromises (P ++ pending AsyncFunction :: Q) s)))
      as Hrun.
    cbn [frameWebusbDevice frameLibusbJsConfiguration] in Hrun.
    change {| origin := WebusbOpen d; settled := None |}
      with (pending (WebusbOpen d)).
    rewrite Hrun. clear Hrun. cbn [mbind option_bind].
    unfold getConfigurations_push.
    cbn [frameWebusbDevice activeConfigurationValue remainingConfigurations
         libusbJsConfigurations].
    rewrite collapse.
    set (new := zip_with settledPromise (extractionCalls d c a)
                  (extractionAnswers a)).
    rewrite <- (assoc_L (++) P), <- app_comm_cons.
    replace (length (P ++ pending AsyncFunction :: Q)
             + length (extractionAnswers a))
      with (length (P ++ pending AsyncFunction :: Q ++ new))
      by (rewrite !length_app; cbn [length];
          rewrite length_app; unfold new; rewrite answered_length; lia).
    replace (length A + length (extractionAnswers a))
      with (length (A ++ replicate (length (extractionAnswers a)) None))
      by (by rewrite length_app, length_replicate).
    rewrite (IH answers (done ++ [extracted a c]) P (Q ++ new))
      by (by injection Hlen).
    f_equal. rewrite length_app. unfold new at 2.
    rewrite answered_length, replicate_add.
    by rewrite <- !(assoc_L (++)).
Qed.

Lemma getConfigurations_run s deviceId r answers :
  Map_get (idToDeviceMap_ s) deviceId = Some r →
  let d := webusbDevice (deviceStates s r) in
  let active := usbConfigurationValue <$> usbConfiguration (usb s d) in
  let cs := (λ w, getLibusbJsConfigurationDescriptor w active)
              <$> usbConfigurations (usb s d) in
  length answers = length cs →
  let new := mjoin (zip_with (λ c a, zip_with settledPromise (extractionCalls d c a)
                                  (extractionAnswers a)) cs answers) in
  run (Call (GetConfigurations deviceId)
       :: getConfigurationsSchedule (S (length (promises s)))
            (length (activations s)) answers) s
  = Some (setActivations (activations s ++ replicate (length new) None)
            (setPromises
               (promises s
                ++ settledPromise AsyncFunction
                     (Fulfilled (LibusbJsConfigurations
                                   (zip_with extracted answers cs)))
                   :: new) s)).
Proof.
  intros Hid d active cs Hlen new.
  cbn [run step mbind option_bind call].
  unfold getConfigurations, getDeviceByIdOrThrow_. cbn [newPromise].
  simp_state. rewrite Hid. fold d active.
  unfold cs in Hlen. rewrite length_fmap in Hlen.
  pose proof (getConfigurations_loop_run d active _ answers []
                (promises s) [] (activations s) s Hlen) as Hrun.
  cbn zeta in Hrun. rewrite length_app in Hrun. cbn [length] in Hrun.
  rewrite Nat.add_1_r in Hrun.
  etrans; [|exact Hrun]. f_equal.
Qed.

Lemma origin_zip_with_settledPromise os xs :
  length os = length xs → origin <$> zip_with settledPromise os xs = os.
Proof.
  revert xs. induction os as [|o os IH]; intros [|x xs] Hlen; try done.
  cbn [zip_with fmap list_fmap]. cbn [fmap] in IH. rewrite IH; [done|].
  by injection Hlen.
Qed.

Lemma origins_answered d cs answers :
  origin <$> mjoin (zip_with (λ c a, zip_with settledPromise
                                       (extractionCalls d c a)
                                       (extractionAnswers a)) cs answers)
  = mjoin (zip_with (extractionCalls d) cs answers).
Proof.
  revert answers. induction cs as [|c cs IH]; intros [|a answers]; try done.
  cbn [zip_with mjoin list_join]. rewrite fmap_app. cbn [mjoin] in IH.
  rewrite IH. f_equal.
  apply origin_zip_with_settledPromise, extractionCalls_length.
Qed.

Lemma answered_settled d cs answers pr :
  pr ∈ mjoin (zip_with (λ c a, zip_with settledPromise
                                 (extractionCalls d c a)
                                 (extractionAnswers a)) cs answers) →
  is_Some (settled pr).
Proof.
  revert answers. induction cs as [|c cs IH]; intros [|a answers];
    cbn [zip_with mjoin list_join]; try by intros []%elem_of_nil.
  intros [Hin|Hin]%elem_of_app; [|by eapply IH].
  apply elem_of_lookup_zip_with in Hin as (i & o & x & -> & _). by eexists.
Qed.

Lemma answered_count d cs answers :
  length answers = length cs →
  length (mjoin (zip_with (λ c a, zip_with settledPromise
                                    (extractionCalls d c a)
                                    (extractionAnswers a)) cs answers))
  = length (mjoin (extractionAnswers <$> answers)).
Proof.
  revert answers. induction cs as [|c cs IH]; intros [|a answers] Hlen;
    try done.
  cbn [zip_with mjoin list_join fmap list_fmap]. rewrite !length_app.
  cbn [mjoin fmap] in IH. rewrite IH by (by injection Hlen).
  by rewrite answered_length.
Qed.

Lemma extractionCalls_opens d cs answers :
  length answers = length cs →
  length (filter (λ o, o = WebusbOpen d)
            (mjoin (zip_with (extractionCalls d) cs answers)))
  = length cs.
Proof.
  revert answers. induction cs as [|c cs IH]; intros [|a answers] Hlen;
    try done.
  cbn [zip_with mjoin list_join]. rewrite filter_app, length_app.
  cbn [mjoin] in IH. rewrite IH by (by injection Hlen).
  cbn [length]. f_equal. unfold extractionCalls.
  rewrite filter_cons, decide_True by done. cbn [length]. f_equal.
  destruct (answerOpen a); [done|].
  rewrite filter_cons, decide_False by done.
  rewrite filter_app.
  destruct (secondTransferLength a);
    by rewrite ?filter_cons, ?filter_nil, ?decide_False by done.
Qed.

Lemma extractionCalls_closes d cs answers :
  length answers = length cs →
  length (filter (λ o, o = WebusbClose d)
            (mjoin (zip_with (extractionCalls d) cs answers)))
  = length (filter (λ a, answerOpen a = None) answers).
Proof.
  revert answers. induction cs as [|c cs IH]; intros [|a answers] Hlen;
    try done.
  cbn [zip_with mjoin list_join]. rewrite filter_app, length_app.
  cbn [mjoin] in IH. rewrite IH by (by injection Hlen).
  rewrite (filter_cons _ a). unfold extractionCalls.
  rewrite filter_cons, decide_False by done.
  destruct (answerOpen a) as [e|].
  - by rewrite decide_False.
  - rewrite decide_True by done.
    rewrite filter_cons, decide_False by done.
    rewrite filter_app.
    destruct (secondTransferLength a);
      rewrite ?filter_cons, ?filter_nil, ?decide_False by done;
      by rewrite decide_True.
Qed.

Lemma extracted_withoutExtraData a w active :
  withoutExtraData
    (extracted a (getLibusbJsConfigurationDescriptor w active))
  = getLibusbJsConfigurationDescriptor w active.
Proof.
  set (c := getLibusbJsConfigurationDescriptor w active).
  assert (withoutExtraData c = c) as Hc.
  { apply withoutExtraData_noExtraData,
      getLibusbJsConfigurationDescriptor_noExtraData. }
  unfold extracted. destruct (answerOpen a); [done|].
  destruct (fetchAndFillConfigurationExtraDataForOpenedDevice _ _ c)
    as [[x c']|] eqn:Hf; [|done].
  by rewrite (withoutExtraData_extraction _ _ _ _ _ Hf).
Qed.

End ConfigurationsFacts.

Import Descriptor Adaptor DescriptorFacts RegistryFacts AdaptorFacts
  FailedCloseFacts ResultsFacts TreeFacts CountersFacts RunFacts
  ConfigurationsFacts.

(** X19: getConfigurations run to its end.  For a device id of the map,
    with WebUSB answering every call that the method makes (the answers
    are arbitrary: successes, failures, any transfer result), the promise
    of the call is fulfilled, never rejected, with one descriptor for every
    configuration of the device, in their order: the converted
    configuration when open() failed, and else the tree that the
    extraction leaves for the answers to the two transfers.  Each
    descriptor is the converted configuration with extraData added and
    nothing else changed, and the adaptor is left as it was. *)
Theorem X19_getConfigurations_returns_the_extracted_trees
    s deviceId r answers :
  Map_get (idToDeviceMap_ s) deviceId = Some r →
  let d := webusbDevice (deviceStates s r) in
  let active := usbConfigurationValue <$> usbConfiguration (usb s d) in
  let cs := (λ w, getLibusbJsConfigurationDescriptor w active)
              <$> usbConfigurations (usb s d) in
  length answers = length cs →
  ∃ s',
    run (Call (GetConfigurations deviceId)
         :: getConfigurationsSchedule (S (length (promises s)))
              (length (activations s)) answers) s = Some s'
    ∧ promises s' !! length (promises s)
      = Some (settledPromise AsyncFunction
                (Fulfilled (LibusbJsConfigurations
                              (zip_with extracted answers cs))))
    ∧ Forall2 (λ c c', withoutExtraData c' = c) cs
        (zip_with extracted answers cs)
    ∧ sameAdaptor s s'.
Proof.
  intros Hid d active cs Hlen.
  eexists. split; [by apply (getConfigurations_run s deviceId r)|].
  simp_state. split; [by apply list_lookup_middle|]. split; [|done].
  clear Hid. unfold cs in *. clear cs.
  generalize dependent answers.
  induction (usbConfigurations (usb s d)) as [|w ws IH];
    intros [|a answers] Hlen; try discriminate Hlen;
    cbn [fmap list_fmap zip_with]; constructor.
  - apply extracted_withoutExtraData.
  - apply IH. by injection Hlen.
Qed.

Lemma X19_witness :
  let answers :=
    [{| answerOpen := None;
        answerFirst := Example.ok (take 9 Example.syntheticBlob);
        answerSecond := Example.ok Example.syntheticBlob;
        answerClose := Some (WebusbError 19) |}] in
  Map_get (idToDeviceMap_ (Example.after Example.enumerate7)) 1 = Some 0
  ∧ ∃ s',
      run (Call (GetConfigurations 1)
           :: getConfigurationsSchedule
                (S (length (promises (Example.after Example.enumerate7))))
                (length (activations (Example.after Example.enumerate7)))
                answers)
        (Example.after Example.enumerate7) = Some s'
      ∧ promises s' !! length (promises (Example.after Example.enumerate7))
        = Some (settledPromise AsyncFunction
                  (Fulfilled
                     (LibusbJsConfigurations
                        [appendExtraData [x04; xff; xaa; xbb]
                           (EndpointNode 0 0) Example.configuration1]))).
Proof.
  intros answers.
  assert (Map_get (idToDeviceMap_ (Example.after Example.enumerate7)) 1
          = Some 0) as Hid by (vm_compute; reflexivity).
  split; [exact Hid|].
  destruct (X19_getConfigurations_returns_the_extracted_trees
              (Example.after Example.enumerate7) 1 0 answers Hid)
    as (s' & Hrun & Hp & _); [vm_compute; reflexivity|].
  exists s'. split; [exact Hrun|]. rewrite Hp. vm_compute. reflexivity.
Defined.

(** X20: the WebUSB calls of getConfigurations.  In the same run the
    method calls, for every configuration in turn, open(); when open()
    succeeded, controlTransferIn for 9 bytes, controlTransferIn for
    totalLength bytes when the first answer gives a totalLength, and then
    close(), whatever the transfers returned; when open() failed, nothing
    more.  So open() is called once for every configuration, close() once
    for every open() that succeeded, every promise of the run is settled
    and every activation has finished. *)
Theorem X20_getConfigurations_closes_what_it_opened s deviceId r answers :
  Map_get (idToDeviceMap_ s) deviceId = Some r →
  let d := webusbDevice (deviceStates s r) in
  let active := usbConfigurationValue <$> usbConfiguration (usb s d) in
  let cs := (λ w, getLibusbJsConfigurationDescriptor w active)
              <$> usbConfigurations (usb s d) in
  length answers = length cs →
  ∃ s',
    run (Call (GetConfigurations deviceId)
         :: getConfigurationsSchedule (S (length (promises s)))
              (length (activations s)) answers) s = Some s'
    ∧ origin <$> promises s'
      = (origin <$> promises s)
        ++ AsyncFunction :: mjoin (zip_with (extractionCalls d) cs answers)
    ∧ (∀ p pr, length (promises s) ≤ p → promises s' !! p = Some pr →
               is_Some (settled pr))
    ∧ activations s'
      = activations s
        ++ replicate (length (mjoin (extractionAnswers <$> answers))) None
    ∧ issued (WebusbOpen d) s' = issued (WebusbOpen d) s + length cs
    ∧ issued (WebusbClose d) s'
      = issued (WebusbClose d) s
        + length (filter (λ a, answerOpen a = None) answers).
Proof.
  intros Hid d active cs Hlen.
  eexists. split; [by apply (getConfigurations_run s deviceId r)|].
  fold d active cs.
  set (new := mjoin (zip_with (λ c a, zip_with settledPromise
                                        (extractionCalls d c a)
                                        (extractionAnswers a)) cs answers)).
  set (s' := setActivations _ _).
  assert (origin <$> promises s'
          = (origin <$> promises s)
            ++ AsyncFunction
               :: mjoin (zip_with (extractionCalls d) cs answers)) as Ho.
  { unfold s'. simp_state. rewrite fmap_app, fmap_cons. unfold new.
    by rewrite origins_answered. }
  split; [exact Ho|]. split; [|split; [|split]].
  - intros p pr Hp. unfold s'. simp_state.
    rewrite lookup_app_r by done.
    destruct (p - length (promises s)) as [|i]; cbn [lookup list_lookup].
    + intros [= <-]. by eexists.
    + intros Hin%list_elem_of_lookup_2. by eapply answered_settled.
  - unfold s', new. simp_state. by rewrite answered_count.
  - unfold issued at 1. rewrite Ho, filter_app, length_app.
    rewrite filter_cons, decide_False by done.
    by rewrite extractionCalls_opens.
  - unfold issued at 1. rewrite Ho, filter_app, length_app.
    rewrite filter_cons, decide_False by done.
    by rewrite extractionCalls_closes.
Qed.

Lemma X20_witness :
  let answers :=
    [{| answerOpen := None;
        answerFirst := Fulfilled {| status := "stall"; data := None |};
        answerSecond := Rejected (WebusbError 5);
        answerClose := None |}] in
  Map_get (idToDeviceMap_ (Example.after Example.enumerate7)) 1 = Some 0
  ∧ ∃ s',
      run (Call (GetConfigurations 1)
           :: getConfigurationsSchedule
                (S (length (promises (Example.after Example.enumerate7))))
                (length (activations (Example.after Example.enumerate7)))
                answers)
        (Example.after Example.enumerate7) = Some s'
      ∧ origin <$> promises s'
        = [AsyncFunction; WebusbGetDevices; AsyncFunction; WebusbOpen 7;
           WebusbControlTransferIn 7 512 9; WebusbClose 7].
Proof.
  intros answers.
  assert (Map_get (idToDeviceMap_ (Example.after Example.enumerate7)) 1
          = Some 0) as Hid by (vm_compute; reflexivity).
  split; [exact Hid|].
  destruct (X20_getConfigurations_closes_what_it_opened
              (Example.after Example.enumerate7) 1 0 answers Hid)
    as (s' & Hrun & Ho & _); [vm_compute; reflexivity|].
  exists s'. split; [exact Hrun|]. rewrite Ho. vm_compute. reflexivity.
Defined.

(* ===================================================================== *)
(** ** Interface calls, a failed enumeration and the reported device *)
(* ===================================================================== *)

Import Js.

Module DeviceFacts.
Import Descriptor Adaptor DescriptorFacts RegistryFacts AdaptorFacts
  FailedCloseFacts ResultsFacts CountersFacts RunFacts.

Lemma ToInt32_small x : (- 2 ^ 31 ≤ x < 2 ^ 31)%Z → ToInt32 x = x.
Proof.
  intros Hx. unfold ToInt32. rewrite Z.mod_small; lia.
Qed.

Lemma shiftLeft_small x n :
  (0 ≤ x)%Z → (0 ≤ n < 32)%Z → (x * 2 ^ n < 2 ^ 31)%Z →
  shiftLeft x n = (x * 2 ^ n)%Z.
Proof.
  intros Hx Hn Hlt. unfold shiftLeft.
  assert (Z.land n 31 = n) as ->.
  { change 31%Z with (Z.ones 5). rewrite Z.land_ones by lia.
    apply Z.mod_small. change (2 ^ 5)%Z with 32%Z. lia. }
  assert (x < 2 ^ 31)%Z as Hx'.
  { assert (1 ≤ 2 ^ n)%Z by (apply (Z.pow_le_mono_r 2 0 n); lia). nia. }
  rewrite (ToInt32_small x) by lia.
  rewrite Z.shiftl_mul_pow2 by lia. apply ToInt32_small.
  assert (0 ≤ 2 ^ n)%Z by (apply Z.pow_nonneg; lia). nia.
Qed.

Lemma copyIfTruthy_Some name x :
  copyIfTruthy name = Some x ↔ name = Some x ∧ x ≠ EmptyString.
Proof.
  destruct name as [[|a name]|]; cbn [copyIfTruthy]; split;
    try done; try (by intros [[=] _]).
  - by intros [[= <-] ?].
  - by intros [= <-].
  - by intros [[= <-] _].
Qed.

Lemma sameAdaptor_getDeviceByIdOrThrow_ s s' i :
  sameAdaptor s s' → getDeviceByIdOrThrow_ i s' = getDeviceByIdOrThrow_ i s.
Proof.
  intros (Hm & _). unfold getDeviceByIdOrThrow_. by rewrite Hm.
Qed.

Lemma sameAdaptor_getDeviceByIdAndHandleOrThrow_ s s' i h :
  sameAdaptor s s' →
  getDeviceByIdAndHandleOrThrow_ i h s'
  = getDeviceByIdAndHandleOrThrow_ i h s.
Proof.
  intros (Hm & _ & _ & Hd & _). unfold getDeviceByIdAndHandleOrThrow_.
  by rewrite Hm, Hd.
Qed.

Lemma webusbSettles_void d e :
  webusbSettles (WebusbInterfaceOrReset d) (voidAnswer e) = true.
Proof. by destruct e. Qed.

End DeviceFacts.

Import Descriptor Adaptor DescriptorFacts RegistryFacts AdaptorFacts
  FailedCloseFacts ResultsFacts CountersFacts RunFacts DeviceFacts.

(** X21: claimInterface, releaseInterface and resetDevice check the device
    id and the handle first.  When the check fails the call is rejected with
    its error and WebUSB is not called.  When it passes, the method makes
    one call on the WebUSB device of the handle's DeviceState; when WebUSB
    fulfils it the call is fulfilled with undefined, when WebUSB rejects it
    the call is rejected with the same error; the adaptor is left as it
    was, and a handle stays as valid as it was. *)
Theorem X21_interface_calls_pass_the_answer_on s deviceId h req :
  (∃ interfaceNumber,
     req = ClaimInterface deviceId h interfaceNumber
     ∨ req = ReleaseInterface deviceId h interfaceNumber)
  ∨ req = ResetDevice deviceId h →
  let n := length (promises s) in
  let m := length (activations s) in
  (∀ e,
     getDeviceByIdAndHandleOrThrow_ deviceId h s = Throw e →
     promises (call req s)
     = promises s ++ [settledPromise AsyncFunction (Rejected e)]
     ∧ activations (call req s) = activations s)
  ∧ (∀ r answer,
       getDeviceByIdAndHandleOrThrow_ deviceId h s = Normal r →
       ∃ s',
         run [Call req; Settle (S n) (voidAnswer answer); Resume m] s
         = Some s'
         ∧ promises s'
           = promises s
             ++ [settledPromise AsyncFunction (voidAnswer answer);
                 settledPromise
                   (WebusbInterfaceOrReset (webusbDevice (deviceStates s r)))
                   (voidAnswer answer)]
         ∧ activations s' = activations s ++ [None]
         ∧ sameAdaptor s s'
         ∧ ∀ i h', getDeviceByIdAndHandleOrThrow_ i h' s'
                   = getDeviceByIdAndHandleOrThrow_ i h' s).
Proof.
  intros Hreq n m.
  assert (call req s = interfaceOrReset deviceId h s) as Hcall.
  { destruct Hreq as [(i & [-> | ->])| ->]; reflexivity. }
  split.
  - intros e He. rewrite Hcall. unfold interfaceOrReset. cbn [newPromise].
    rewrite getDeviceByIdAndHandleOrThrow_setPromises, He.
    unfold settle. simp_state. split; [|done].
    by rewrite alter_app_last.
  - intros r answer Hr.
    set (o := WebusbInterfaceOrReset (webusbDevice (deviceStates s r))).
    assert (call req s
            = suspend {| awaiting := S n;
                         continuation := InterfaceOrReset_await;
                         result := n |}
                (setPromises
                   ((promises s ++ [pending AsyncFunction]) ++ [pending o])
                   (setPromises (promises s ++ [pending AsyncFunction]) s)))
      as Hstate.
    { rewrite Hcall. unfold interfaceOrReset. cbn [newPromise]. simp_state.
      rewrite getDeviceByIdAndHandleOrThrow_setPromises, Hr. simp_state.
      by rewrite length_app, Nat.add_1_r. }
    exists (setActivations (activations s ++ [None])
              (setPromises
                 (promises s
                  ++ [settledPromise AsyncFunction (voidAnswer answer);
                      settledPromise o (voidAnswer answer)]) s)).
    split.
    + change (run [Call req; Settle (S n) (voidAnswer answer); Resume m] s)
        with (run [Settle (S n) (voidAnswer answer); Resume m] (call req s)).
      rewrite Hstate.
      rewrite (run_settle_resume _ (promises s ++ [pending AsyncFunction])
                 (activations s) o InterfaceOrReset_await n
                 (voidAnswer answer) (S n) m);
        [|done|done|by rewrite length_app, Nat.add_1_r|done
         |apply webusbSettles_void].
      cbn [resume].
      assert (∀ y z,
                Some (settle n y
                        (setActivations (activations s ++ [None])
                           (setPromises
                              ((promises s ++ [pending AsyncFunction])
                               ++ [settledPromise o z])
                              (suspend
                                 {| awaiting := S n;
                                    continuation := InterfaceOrReset_await;
                                    result := n |}
                                 (setPromises
                                    ((promises s ++ [pending AsyncFunction])
                                     ++ [pending o])
                                    (setPromises
                                       (promises s ++ [pending AsyncFunction])
                                       s))))))
                = Some (setActivations (activations s ++ [None])
                          (setPromises
                             (promises s
                              ++ [settledPromise AsyncFunction y;
                                  settledPromise o z]) s)))
        as Hsettle.
      { intros y z.
        rewrite (settle_at _ (promises s) [settledPromise o z]
                   AsyncFunction y n eq_refl); [done|].
        simp_state. by rewrite <- (assoc_L (++)). }
      destruct answer as [e|]; cbn [voidAnswer]; apply Hsettle.
    + split; [done|]. split; [done|].
      assert (sameAdaptor s
                (setActivations (activations s ++ [None])
                   (setPromises
                      (promises s
                       ++ [settledPromise AsyncFunction (voidAnswer answer);
                           settledPromise o (voidAnswer answer)]) s)))
        as Hsame by (by repeat split).
      split; [exact Hsame|]. intros i h'.
      by apply sameAdaptor_getDeviceByIdAndHandleOrThrow_.
Qed.

Lemma X21_witness :
  getDeviceByIdAndHandleOrThrow_ 1 1 (Example.after Example.opened1)
  = Normal 0
  ∧ ∃ s',
    run [Call (ClaimInterface 1 1 0);
         Settle (S (length (promises (Example.after Example.opened1))))
           (voidAnswer (Some (WebusbError 3)));
         Resume (length (activations (Example.after Example.opened1)))]
      (Example.after Example.opened1) = Some s'
    ∧ promises s' !! 5
      = Some (settledPromise AsyncFunction (Rejected (WebusbError 3)))
    ∧ promises s' !! 6
      = Some (settledPromise (WebusbInterfaceOrReset 7)
                (Rejected (WebusbError 3)))
    ∧ getDeviceByIdAndHandleOrThrow_ 1 1 s' = Normal 0.
Proof.
  assert (getDeviceByIdAndHandleOrThrow_ 1 1 (Example.after Example.opened1)
          = Normal 0) as Hh by (vm_compute; reflexivity).
  destruct (proj2 (X21_interface_calls_pass_the_answer_on
                     (Example.after Example.opened1) 1 1
                     (ClaimInterface 1 1 0)
                     (or_introl (ex_intro _ 0 (or_introl eq_refl))))
              0 (Some (WebusbError 3)) Hh)
    as (s' & Hrun & Hp & _ & _ & Hsame).
  split; [exact Hh|]. exists s'. split; [exact Hrun|]. rewrite Hp, Hsame.
  split; [|split]; vm_compute; reflexivity.
Defined.

(** X22: a failed enumeration forgets nothing.  When getDevices() is
    rejected, listDevices is rejected with the same error and
    updateDeviceMap_ does not run: the map, the counters and every
    DeviceState are as before the call, so every device id and every handle
    is accepted or refused as it was. *)
Theorem X22_failed_enumeration_changes_nothing s e :
  ∃ s',
    run [Call ListDevices; Settle (S (length (promises s))) (Rejected e);
         Resume (length (activations s))] s = Some s'
    ∧ promises s'
      = promises s
        ++ [settledPromise AsyncFunction (Rejected e);
            settledPromise WebusbGetDevices (Rejected e)]
    ∧ activations s' = activations s ++ [None]
    ∧ sameAdaptor s s'
    ∧ (∀ i, getDeviceByIdOrThrow_ i s' = getDeviceByIdOrThrow_ i s)
    ∧ (∀ i h, getDeviceByIdAndHandleOrThrow_ i h s'
              = getDeviceByIdAndHandleOrThrow_ i h s).
Proof.
  set (n := length (promises s)).
  exists (setActivations (activations s ++ [None])
            (setPromises
               (promises s
                ++ [settledPromise AsyncFunction (Rejected e);
                    settledPromise WebusbGetDevices (Rejected e)]) s)).
  split.
  - change (run [Call ListDevices; Settle (S n) (Rejected e);
                 Resume (length (activations s))] s)
      with (run [Settle (S n) (Rejected e); Resume (length (activations s))]
              (listDevices s)).
    assert (listDevices s
            = suspend {| awaiting := S n; continuation := ListDevices_93;
                         result := n |}
                (setPromises
                   ((promises s ++ [pending AsyncFunction])
                    ++ [pending WebusbGetDevices])
                   (setPromises (promises s ++ [pending AsyncFunction]) s)))
      as Hstate.
    { unfold listDevices. cbn [newPromise]. simp_state.
      by rewrite length_app, Nat.add_1_r. }
    rewrite Hstate.
    rewrite (run_settle_resume _ (promises s ++ [pending AsyncFunction])
               (activations s) WebusbGetDevices ListDevices_93 n
               (Rejected e) (S n) (length (activations s)));
      [|done|done|by rewrite length_app, Nat.add_1_r|done|done].
    cbn [resume].
    rewrite (settle_at _ (promises s)
               [settledPromise WebusbGetDevices (Rejected e)]
               AsyncFunction (Rejected e) n eq_refl); [done|].
    simp_state. by rewrite <- (assoc_L (++)).
  - split; [done|]. split; [done|].
    assert (sameAdaptor s
              (setActivations (activations s ++ [None])
                 (setPromises
                    (promises s
                     ++ [settledPromise AsyncFunction (Rejected e);
                         settledPromise WebusbGetDevices (Rejected e)]) s)))
      as Hsame by (by repeat split).
    split; [exact Hsame|]. split.
    + intros i. by apply sameAdaptor_getDeviceByIdOrThrow_.
    + intros i h. by apply sameAdaptor_getDeviceByIdAndHandleOrThrow_.
Qed.

(** X23: the device that listDevices reports.  With a major version below
    256 and a minor and a subminor version below 16, as WebUSB takes them
    from bcdDevice, 'version' is bcdDevice again: a number below 65536 with
    the major version in its high byte, the minor version in bits 4 to 7
    and the subminor version in bits 0 to 3, so that two devices with the
    same 'version' have the same three numbers.  'productName',
    'manufacturerName' and 'serialNumber' are set exactly when the WebUSB
    device has a non-empty string for them, and hold that string; the
    vendor and product ids are passed on. *)
Theorem X23_device_version_is_bcdDevice d description s :
  deviceVersionMajor description < 256 →
  deviceVersionMinor description < 16 →
  deviceVersionSubminor description < 16 →
  let x := convertWebusbDeviceToLibusb_ d description s in
  (0 ≤ version x < 65536)%Z
  ∧ Z.shiftr (version x) 8 = Z.of_nat (deviceVersionMajor description)
  ∧ Z.land (Z.shiftr (version x) 4) 15
    = Z.of_nat (deviceVersionMinor description)
  ∧ Z.land (version x) 15 = Z.of_nat (deviceVersionSubminor description)
  ∧ (∀ d' description' s',
       deviceVersionMajor description' < 256 →
       deviceVersionMinor description' < 16 →
       deviceVersionSubminor description' < 16 →
       version (convertWebusbDeviceToLibusb_ d' description' s') = version x →
       deviceVersionMajor description' = deviceVersionMajor description
       ∧ deviceVersionMinor description' = deviceVersionMinor description
       ∧ deviceVersionSubminor description'
         = deviceVersionSubminor description)
  ∧ (∀ name, productName x = Some name
             ↔ usbProductName description = Some name
               ∧ name ≠ EmptyString)
  ∧ (∀ name, manufacturerName x = Some name
             ↔ usbManufacturerName description = Some name
               ∧ name ≠ EmptyString)
  ∧ (∀ name, serialNumber x = Some name
             ↔ usbSerialNumber description = Some name
               ∧ name ≠ EmptyString)
  ∧ vendorId x = usbVendorId description
  ∧ productId x = usbProductId description
  ∧ libusbJsDeviceId x = getDeviceId_ d s.
Proof.
  intros Hmajor Hminor Hsub x.
  assert (∀ d' p s',
            deviceVersionMajor p < 256 → deviceVersionMinor p < 16 →
            deviceVersionSubminor p < 16 →
            version (convertWebusbDeviceToLibusb_ d' p s')
            = (Z.of_nat (deviceVersionMajor p) * 256
               + Z.of_nat (deviceVersionMinor p) * 16
               + Z.of_nat (deviceVersionSubminor p))%Z) as Hversion.
  { intros d' p s' H1 H2 H3. cbn [convertWebusbDeviceToLibusb_ version].
    rewrite !shiftLeft_small by (try change (2 ^ 8)%Z with 256%Z;
                                 try change (2 ^ 4)%Z with 16%Z; lia).
    reflexivity. }
  assert (version x
          = (Z.of_nat (deviceVersionMajor description) * 256
             + Z.of_nat (deviceVersionMinor description) * 16
             + Z.of_nat (deviceVersionSubminor description))%Z) as Hx
    by (by apply Hversion).
  split; [lia|]. split.
  { rewrite Z.shiftr_div_pow2 by lia. change (2 ^ 8)%Z with 256%Z.
    rewrite Hx. symmetry.
    apply (Z.div_unique _ 256 _
             (Z.of_nat (deviceVersionMinor description) * 16
              + Z.of_nat (deviceVersionSubminor description))); lia. }
  split.
  { change 15%Z with (Z.ones 4). rewrite Z.land_ones by lia.
    rewrite Z.shiftr_div_pow2 by lia. change (2 ^ 4)%Z with 16%Z.
    rewrite Hx.
    assert ((Z.of_nat (deviceVersionMajor description) * 256
             + Z.of_nat (deviceVersionMinor description) * 16
             + Z.of_nat (deviceVersionSubminor description)) / 16
            = Z.of_nat (deviceVersionMajor description) * 16
              + Z.of_nat (deviceVersionMinor description))%Z as ->.
    { symmetry.
      apply (Z.div_unique _ 16 _
               (Z.of_nat (deviceVersionSubminor description))); lia. }
    symmetry.
    apply (Z.mod_unique _ 16 (Z.of_nat (deviceVersionMajor description)));
      lia. }
  split.
  { change 15%Z with (Z.ones 4). rewrite Z.land_ones by lia.
    change (2 ^ 4)%Z with 16%Z. rewrite Hx. symmetry.
    apply (Z.mod_unique _ 16
             (Z.of_nat (deviceVersionMajor description) * 16
              + Z.of_nat (deviceVersionMinor description))); lia. }
  split.
  { intros d' p s' H1 H2 H3 Heq.
    rewrite (Hversion d' p s' H1 H2 H3), Hx in Heq. lia. }
  split; [intros name; apply copyIfTruthy_Some|].
  split; [intros name; apply copyIfTruthy_Some|].
  split; [intros name; apply copyIfTruthy_Some|].
  done.
Qed.

Lemma X23_witness :
  let description :=
    {| usbVendorId := 1254; usbProductId := 13;
       deviceVersionMajor := 1; deviceVersionMinor := 2;
       deviceVersionSubminor := 3;
       usbProductName := Some EmptyString;
       usbManufacturerName := None;
       usbSerialNumber := Some "A7" |} in
  version (convertWebusbDeviceToLibusb_ 7 description
             (Example.after Example.enumerate7)) = 291%Z
  ∧ Z.shiftr
      (version (convertWebusbDeviceToLibusb_ 7 description
                  (Example.after Example.enumerate7))) 8
    = Z.of_nat 1.
Proof.
  intros description.
  assert (deviceVersionMajor description < 256) as H1
    by (vm_compute; lia).
  assert (deviceVersionMinor description < 16) as H2 by (vm_compute; lia).
  assert (deviceVersionSubminor description < 16) as H3
    by (vm_compute; lia).
  split; [vm_compute; reflexivity|].
  exact (proj1 (proj2 (X23_device_version_is_bcdDevice 7 description
                         (Example.after Example.enumerate7) H1 H2 H3))).
Defined.
